(** * Gerber export of Fritzing: a shallow embedding of
    [src/svg/gerbergenerator.cpp] and the properties of its
    geometry cleaner, board clipper, raster fallback and layer pipeline.

    Conventions of the embedding:
    - a [QString] is a [string]; a missing attribute is [None], which
      [attribute] turns into the empty default as [QDomElement::attribute]
      does;
    - a C++ [double] is a rational ([Q]) and its arithmetic is exact, but
      for the bounds test of the clipper (lines 499-502, 542 and 580):
      there the literal 0.1 and every product, quotient and sum are
      rounded to a double by [fl], an interface like the others;
      comparisons are the decidable ones of [QArith];
    - collaborators whose code is not part of the generator (the SVG
      renderer, number formatting, the path regular expressions, the
      sketch widget, the Gerber emitter) are interfaces ([Class]es). *)

From Stdlib Require Import Ascii String QArith Qround Lqa.
From stdpp Require Import base option list strings gmap.

Local Open Scope string_scope.
Local Open Scope list_scope.
Local Open Scope nat_scope.
Set Warnings "-register-all".

(* ===================================================================== *)
(** * Part I: the embedding                                               *)
(* ===================================================================== *)

(** ** QString operations used by the generator *)

Module QStr.

Inductive CaseSensitivity := CaseInsensitive | CaseSensitive.

(** ASCII case folding, as [Qt::CaseInsensitive] does on Latin letters. *)
Definition toLower (c : ascii) : ascii :=
  let n := nat_of_ascii c in
  if (65 <=? n)%nat && (n <=? 90)%nat then ascii_of_nat (n + 32) else c.

Definition eqChar (cs : CaseSensitivity) (a b : ascii) : bool :=
  match cs with
  | CaseSensitive => Ascii.eqb a b
  | CaseInsensitive => Ascii.eqb (toLower a) (toLower b)
  end.

(** [s.startsWith(p, cs)] *)
Fixpoint startsWith (cs : CaseSensitivity) (s p : string) : bool :=
  match p, s with
  | EmptyString, _ => true
  | String _ _, EmptyString => false
  | String b p', String a s' => eqChar cs a b && startsWith cs s' p'
  end.

(** [s.contains(p, cs)] *)
Fixpoint contains (cs : CaseSensitivity) (s p : string) : bool :=
  startsWith cs s p ||
  match s with
  | EmptyString => false
  | String _ s' => contains cs s' p
  end.

Definition isEmpty (s : string) : bool :=
  match s with EmptyString => true | _ => false end.

(** [QChar::isSpace] on the ASCII range: space and the controls 9..13. *)
Definition isSpace (c : ascii) : bool :=
  let n := nat_of_ascii c in
  (n =? 32)%nat || ((9 <=? n)%nat && (n <=? 13)%nat).

Fixpoint trimLeft (s : string) : string :=
  match s with
  | EmptyString => EmptyString
  | String c s' => if isSpace c then trimLeft s' else s
  end.

(** Removes trailing white space. *)
Fixpoint trimRight (s : string) : string :=
  match s with
  | EmptyString => EmptyString
  | String c s' =>
      match trimRight s' with
      | EmptyString => if isSpace c then EmptyString else String c EmptyString
      | t => String c t
      end
  end.

(** [s.trimmed()] *)
Definition trimmed (s : string) : string := trimRight (trimLeft s).

(** [s.endsWith(p, cs)] for a one-character [p]. *)
Fixpoint endsWithChar (cs : CaseSensitivity) (s : string) (p : ascii) : bool :=
  match s with
  | EmptyString => false
  | String c EmptyString => eqChar cs c p
  | String _ s' => endsWithChar cs s' p
  end.

(** [s.split(sep, Qt::KeepEmptyParts, cs)] for a one-character separator:
    the pieces between separators, in order. *)
Fixpoint splitKeep (cs : CaseSensitivity) (sep : ascii) (s : string) : list string :=
  match s with
  | EmptyString => [EmptyString]
  | String c s' =>
      if eqChar cs c sep then EmptyString :: splitKeep cs sep s'
      else match splitKeep cs sep s' with
           | [] => [String c EmptyString]
           | p :: ps => String c p :: ps
           end
  end.

(** [s.split(sep, Qt::SkipEmptyParts, cs)]: empty pieces are dropped. *)
Definition split (cs : CaseSensitivity) (sep : ascii) (s : string) : list string :=
  filter (fun p => p ≠ EmptyString) (splitKeep cs sep s).

End QStr.

(** ** Pick-and-place: mount technology *)

Module PickAndPlace.
Import QStr.

Definition knownTHTPackages : list string :=
  ["DIP"; "TO-3"; "TO-5"; "TO-8"; "TO-18"; "TO-66"; "TO-72";
   "TO-92"; "TO92"; "TO-99"; "TO-100"; "TO-126"; "TO-218"; "TO-220";
   "TO220"; "TO-247"; "TO-252"; "TO-257"; "TO-258"; "TO-264";
   "PFM"; "DIL"; "ZIP"; "SIP"].

(** The range-for over [knownTHTPackages]: the first keyword the package
    contains decides; no keyword means surface mount. *)
Fixpoint scanKnownTHT (package : string) (known : list string) : string :=
  match known with
  | [] => "SMT"
  | knownTHTPackage :: rest =>
      if contains CaseInsensitive package knownTHTPackage then
        if negb (contains CaseInsensitive package "LEADLESS") then "THT" else "SMT"
      else scanKnownTHT package rest
  end.

Definition checkMountTechnology (package : string) : string :=
  if isEmpty package then "MANUAL"
  else if contains CaseInsensitive package "THT" then "THT"
  else if contains CaseInsensitive package "SMD" then "SMT"
  else scanKnownTHT package knownTHTPackages.

End PickAndPlace.

(** ** Diagnostics *)

Module Diagnostics.

(** [GerberGenerator::displayMessage]: a modal warning, or a line of the
    debug log when the conversion runs as a service. *)
Inductive Display :=
  | MessageBox (message : string)
  | DebugLog (message : string).

#[global] Instance Display_eq_dec : EqDecision Display.
Proof. solve_decision. Defined.

Definition displayMessage (message : string) (displayMessageBoxes : bool) : Display :=
  if displayMessageBoxes then MessageBox message else DebugLog message.

(** How a run of generator code ends: with a result, in a failed
    assertion of Qt (an index out of range), or, in the model only, with
    the fuel of a loop used up. *)
Inductive Outcome (A : Type) :=
  | Returns (a : A)
  | Crashes
  | OutOfFuel.
Arguments Returns {A} a.
Arguments Crashes {A}.
Arguments OutOfFuel {A}.

End Diagnostics.
Export Diagnostics.

(** ** The document tree (QDom) *)

Module Dom.

(** An element node: tag name, attribute map, ordered child elements.
    Text and comment nodes play no role in the generator. *)
Inductive QDomElement : Type :=
  Element (tag : string) (attrs : gmap string string) (children : list QDomElement).

Definition tagName (e : QDomElement) : string :=
  match e with Element t _ _ => t end.

Definition attributes (e : QDomElement) : gmap string string :=
  match e with Element _ m _ => m end.

Definition childNodes (e : QDomElement) : list QDomElement :=
  match e with Element _ _ cs => cs end.

(** [e.attribute(name)]: the value, or the (null, empty) default. *)
Definition attribute (e : QDomElement) (name : string) : string :=
  default "" (attributes e !! name).

(** [e.attribute(name, defValue)] *)
Definition attributeOr (e : QDomElement) (name defValue : string) : string :=
  default defValue (attributes e !! name).

Definition setTagName (t : string) (e : QDomElement) : QDomElement :=
  Element t (attributes e) (childNodes e).

Definition setAttribute (name value : string) (e : QDomElement) : QDomElement :=
  Element (tagName e) (<[name := value]> (attributes e)) (childNodes e).

Definition removeAttribute (name : string) (e : QDomElement) : QDomElement :=
  Element (tagName e) (delete name (attributes e)) (childNodes e).

(** [e.cloneNode(false)]: the node without its children. *)
Definition cloneShallow (e : QDomElement) : QDomElement :=
  Element (tagName e) (attributes e) [].

(** A node handle is the path of child indices from the document element. *)
Definition Addr := list nat.

Fixpoint nodeAt (e : QDomElement) (a : Addr) : option QDomElement :=
  match a with
  | [] => Some e
  | i :: a' => childNodes e !! i ≫= λ c, nodeAt c a'
  end.

(** In-place mutation of the node a handle points to. *)
Fixpoint modify (f : QDomElement → QDomElement) (a : Addr) (e : QDomElement) : QDomElement :=
  match a with
  | [] => f e
  | i :: a' => Element (tagName e) (attributes e) (alter (modify f a') i (childNodes e))
  end.

Definition tagAt (root : QDomElement) (a : Addr) : option string :=
  tagName <$> nodeAt root a.

Definition attrsAt (root : QDomElement) (a : Addr) : option (gmap string string) :=
  attributes <$> nodeAt root a.

Fixpoint childAddrs (sub : QDomElement → list Addr) (i : nat) (cs : list QDomElement) : list Addr :=
  match cs with
  | [] => []
  | c :: cs' => ([i] :: (cons i <$> sub c)) ++ childAddrs sub (S i) cs'
  end.

(** The proper descendants of an element in document (pre-)order. *)
Fixpoint descendants (e : QDomElement) : list Addr :=
  match e with
  | Element _ _ cs => childAddrs descendants 0 cs
  end.

Fixpoint countChildren (sub : QDomElement → nat) (t : string) (cs : list QDomElement) : nat :=
  match cs with
  | [] => 0
  | c :: cs' => (if decide (tagName c = t) then 1 else 0) + sub c + countChildren sub t cs'
  end.

(** How many proper descendants carry a tag. *)
Fixpoint countTag (t : string) (e : QDomElement) : nat :=
  match e with
  | Element _ _ cs => countChildren (countTag t) t cs
  end.

(** [root.elementsByTagName(tag)] read at one moment. *)
Definition elementsByTagName (root : QDomElement) (tag : string) : list Addr :=
  filter (λ a, tagAt root a = Some tag) (descendants root).

(** [a.parentNode()] and the chain walked by
    [for (p = a; !p.isNull(); p = p.parentNode())]: the node, its parent,
    ... up to the document element. *)
Definition parentNode (a : Addr) : Addr := removelast a.

Fixpoint prefixes (a : Addr) : list Addr :=
  match a with
  | [] => [[]]
  | i :: a' => [] :: (cons i <$> prefixes a')
  end.

Definition ancestry (a : Addr) : list Addr := reverse (prefixes a).

(** Mutating a child is mutating the child list of its parent. *)
Definition alterChild (f : QDomElement → QDomElement) (i : nat) (parent : QDomElement)
  : QDomElement :=
  Element (tagName parent) (attributes parent) (alter f i (childNodes parent)).

(** Squashing a set of nodes: each is retagged to the non-rendering "g". *)
Definition squashAll (nodes : list Addr) (root : QDomElement) : QDomElement :=
  foldl (λ r a, modify (setTagName "g") a r) root nodes.

End Dom.

(** ** Collaborators of the generator *)

(** C++ [double]s, as rationals. *)
Definition double := Q.

(** The double that stands for a literal or for the exact result of an
    operation on doubles. *)
Class DoubleRounding := {
  fl : double → double
}.

(** [QString::number], [QString::toDouble], [QString::toLong]. *)
Class QtNumbers := {
  number : double → string;
  toDouble : string → double;
  toLong : string → Z
}.

(** The resolutions of [GraphicsUtils]. *)
Class GraphicsUtils := {
  StandardFritzingDPI : double;
  SVGDPI : double
}.

(** The expressions of [svgpathregex.h], each as the test or search it is
    used for: [AaCc] and [MultipleZs] as "the string has a match",
    [MFinder] as the three captured groups of the first match (all empty
    when there is none). *)
Class SvgPathRegex := {
  AaCc : string → bool;
  MultipleZs : string → bool;
  MFinder : string → string * string * string
}.

(** [SVG2gerber::ForWhy], the enumerators the generator names. *)
Inductive ForWhy := ForCopper | ForSilk | ForOutline | ForMask | ForDrill.

#[global] Instance ForWhy_eq_dec : EqDecision ForWhy.
Proof. solve_decision. Defined.

(** ** Clipping, first step: drill holes are left to the drill layer *)

Module JustHoles.
Import QStr Dom.

Section WithCollaborators.
Context {numbers : QtNumbers}.
(** [FSvgRenderer::NonConnectorName] *)
Variable NonConnectorName : string.

(** The test of lines 398-400 on one circle. *)
Definition isJustHole (circle : QDomElement) : bool :=
  contains CaseSensitive (attribute circle "id") NonConnectorName
  && Qeq_bool (toDouble (attribute circle "stroke-width")) 0.

Definition justHoles (root1 : QDomElement) : list Addr :=
  filter (λ a, from_option isJustHole false (nodeAt root1 a) = true)
         (elementsByTagName root1 "circle").

(** Lines 393-408 of [clipToBoard]. *)
Definition squashJustHoles (forWhy : ForWhy) (root1 : QDomElement) : QDomElement :=
  if decide (forWhy ≠ ForDrill) then squashAll (justHoles root1) root1
  else root1.

End WithCollaborators.
End JustHoles.

(** ** Multi-contour splitting of the outline *)

Module Contours.
Import QStr Dom.

Section WithRegex.
Context {regex : SvgPathRegex}.

Definition cutoutsMessage : string :=
  "Fritzing is unable to process the cutouts in this custom PCB shape. " +:+
  "You may need to reload the shape SVG. " +:+
  "Fritzing requires that you make cutouts using a shape 'subtraction' or 'difference' operation in your vector graphics editor.".

(** [path.attribute("d", "").trimmed()] *)
Definition originalPath (path : QDomElement) : string :=
  trimmed (attributeOr path "d" "").

Definition hasMultipleZs (path : QDomElement) : bool := MultipleZs (originalPath path).

(** [path.attribute("d").split("z", Qt::SkipEmptyParts, Qt::CaseInsensitive)] *)
Definition subpathsOf (path : QDomElement) : list string :=
  split CaseInsensitive "z" (attribute path "d").

(** The test inside the [Q_FOREACH] of lines 913-918. *)
Definition beginsWithMove (subpath : string) : bool :=
  startsWith CaseInsensitive (trimmed subpath) "m".

(** The first loop (lines 906-919), which changes nothing in the document:
    [multipleContours] and [contoursOK] after the paths still to visit. *)
Fixpoint checkContours (root : QDomElement) (paths : list Addr)
    (multipleContours contoursOK : bool) : bool * bool :=
  match paths with
  | [] => (multipleContours, contoursOK)
  | path :: paths' =>
      if negb contoursOK then (multipleContours, contoursOK)
      else
        match nodeAt root path with
        | None => checkContours root paths' multipleContours contoursOK
        | Some pathElement =>
            if negb (hasMultipleZs pathElement)
            then checkContours root paths' multipleContours contoursOK
            else checkContours root paths' true
                               (forallb beginsWithMove (subpathsOf pathElement))
        end
  end.

(** [match.captured(1) + match.captured(2) + "," + match.captured(3) + " "] *)
Definition moveText (captured : string * string * string) : string :=
  captured.1.1 +:+ captured.1.2 +:+ "," +:+ captured.2 +:+ " ".

(** The loop of lines 940-956 over the subpaths after the first: the [d]
    of each new path, with [priorM] threaded through. *)
Fixpoint contourData (endsWithZ : bool) (priorM : string) (subpaths : list string)
  : list string :=
  match subpaths with
  | [] => []
  | subpath :: later =>
      let z := if negb (bool_decide (later = [])) || endsWithZ then "z" else "" in
      let d := trimmed subpath +:+ z in
      let captured := MFinder d in
      let d' := if startsWith CaseSensitive d "m" then priorM +:+ d else d in
      let priorM' := if bool_decide (captured.1.1 = "M") then moveText captured
                     else priorM +:+ moveText captured in
      d' :: contourData endsWithZ priorM' later
  end.

(** [parent.appendChild(newChild)] *)
Definition appendChild (newChild : QDomElement) (parent : QDomElement) : QDomElement :=
  Element (tagName parent) (attributes parent) (childNodes parent ++ [newChild]).

(** The [d] values of the paths appended for one path element. *)
Definition newContours (pathElement : QDomElement) (subpaths : list string) : list string :=
  match subpaths with
  | [] => []
  | first :: later =>
      contourData (endsWithChar CaseInsensitive (originalPath pathElement) "z")
                  (moveText (MFinder (trimmed first))) later
  end.

(** The body of the second loop (lines 936-957) for one path with multiple
    Zs: deep clones of the path, each with its own [d], are appended to the
    parent, then the path keeps the first subpath.  [subpaths.at(0)] on an
    empty list is a failed assertion. *)
Definition splitPath (root : QDomElement) (path : Addr) (pathElement : QDomElement)
  : option QDomElement :=
  match subpathsOf pathElement with
  | [] => None
  | first :: later =>
      let root :=
        foldl (λ root d,
                 modify (appendChild (setAttribute "d" d pathElement)) (parentNode path) root)
              root (newContours pathElement (first :: later)) in
      Some (modify (setAttribute "d" (first +:+ "z")) path root)
  end.

(** The second loop (lines 932-959).  The node list is live: paths
    appended by an iteration are met by later ones, so the list is read
    again at each step. *)
Fixpoint splitContours (fuel : nat) (p : nat) (root : QDomElement) : Outcome QDomElement :=
  match fuel with
  | O => OutOfFuel
  | S fuel' =>
      match elementsByTagName root "path" !! p with
      | None => Returns root
      | Some path =>
          match nodeAt root path with
          | None => Returns root
          | Some pathElement =>
              if hasMultipleZs pathElement then
                match splitPath root path pathElement with
                | None => Crashes
                | Some root' => splitContours fuel' (S p) root'
                end
              else splitContours fuel' (S p) root
          end
      end
  end.

(** [dealWithMultipleContours]: the result, the document, what was
    displayed. *)
Definition dealWithMultipleContours (fuel : nat) (root : QDomElement)
    (displayMessageBoxes : bool) : Outcome (bool * QDomElement * list Display) :=
  let '(multipleContours, contoursOK) :=
    checkContours root (elementsByTagName root "path") false true in
  if negb multipleContours then Returns (false, root, [])
  else if negb contoursOK then
    Returns (false, root, [displayMessage cutoutsMessage displayMessageBoxes])
  else
    match splitContours fuel 0 root with
    | Returns root' => Returns (true, root', [])
    | Crashes => Crashes
    | OutOfFuel => OutOfFuel
    end.

(** The number of contour-close markers of a path's data. *)
Fixpoint closeMarkers (d : string) : nat :=
  match d with
  | EmptyString => 0
  | String c d' => (if eqChar CaseInsensitive c "z" then 1 else 0) + closeMarkers d'
  end.

(** No path element of the document has multiple Zs. *)
Definition singleContours (root : QDomElement) : Prop :=
  ∀ b e, b ∈ elementsByTagName root "path" → nodeAt root b = Some e →
         hasMultipleZs e = false.

(** What [splitPath] makes of the parent of the path. *)
Definition splitParent (pathElement : QDomElement) (i : nat) (first : string)
    (data : list string) (parent : QDomElement) : QDomElement :=
  Element (tagName parent) (attributes parent)
    (alter (setAttribute "d" (first +:+ "z")) i
           (childNodes parent ++ ((λ d, setAttribute "d" d pathElement) <$> data))).

(** The path elements among the children of the parent of a path. *)
Definition siblingPaths (root : QDomElement) (path : Addr) : list QDomElement :=
  filter (λ e, tagName e = "path")
         (from_option childNodes [] (nodeAt root (parentNode path))).

(** The count as the specification words it: a well-formed path with [k]
    close markers ends up as exactly [k] sibling paths. *)
Definition onePathPerMarker (fuel : nat) (root : QDomElement) (path : Addr) : Prop :=
  ∀ pathElement,
    nodeAt root path = Some pathElement →
    hasMultipleZs pathElement = true →
    forallb beginsWithMove (subpathsOf pathElement) = true →
    ∃ root', dealWithMultipleContours fuel root false = Returns (true, root', [])
             ∧ length (siblingPaths root' path) = closeMarkers (attribute pathElement "d").

End WithRegex.
End Contours.

(** ** The split contours as the specification words them *)

(** Section 4.1a has the split propagate "the correct move-to coordinate
    at each split boundary by tracking the most recent move command's
    coordinates", and section 8 has the pieces give the geometry of the
    path back.  Read on the move commands that [MFinder] captures: the
    moves written before a piece are those since the most recent absolute
    one, and a piece starts where following its moves from the origin
    leads. *)
Module ContourSpec.
Import QStr Dom.

Section WithCollaborators.
Context {regex : SvgPathRegex} {numbers : QtNumbers}.

(** A move command as [MFinder] captures it: the letter and the two
    coordinates. *)
Definition Move : Type := string * string * string.

Definition isAbsolute (m : Move) : bool := bool_decide (m.1.1 = "M").

(** The moves since the most recent absolute one; all of them when none
    after the first is absolute. *)
Fixpoint sinceAbsolute (moves : list Move) : list Move :=
  match moves with
  | [] => []
  | m :: rest => if existsb isAbsolute rest then sinceAbsolute rest else m :: rest
  end.

Definition moveTexts (moves : list Move) : string :=
  foldr (λ m text, Contours.moveText m +:+ text) "" moves.

(** The text put before a piece that begins with a relative move. *)
Definition propagatedMove (moves : list Move) : string :=
  moveTexts (sinceAbsolute moves).

Definition Point : Type := double * double.

Definition origin : Point := (0%Q, 0%Q).

(** Where a move command leads from a point. *)
Definition moveTo (from : Point) (m : Move) : Point :=
  if isAbsolute m then (toDouble m.1.2, toDouble m.2)
  else ((from.1 + toDouble m.1.2)%Q, (from.2 + toDouble m.2)%Q).

(** Where a run of move commands leads. *)
Definition startPoint (moves : list Move) : Point := foldl moveTo origin moves.

(** The close markers that close nothing: at the very beginning of the
    data or directly after another close marker. *)
Fixpoint idleMarkers (afterMarker : bool) (d : string) : nat :=
  match d with
  | EmptyString => 0
  | String c d' =>
      if eqChar CaseInsensitive c "z"
      then (if afterMarker then 1 else 0) + idleMarkers true d'
      else idleMarkers false d'
  end.

(** The data go on after their last close marker. *)
Definition endsOpen (d : string) : bool :=
  negb (isEmpty d) && negb (endsWithChar CaseInsensitive d "z").

End WithCollaborators.
End ContourSpec.

(** ** Geometry cleaner: the squash pass of [clipToBoard] *)

Module Cleaner.
Import QStr Dom.

(** Modelled from the spec: [TextUtils::squashElement] is not part of the
    generator's file.  Following section 4.1 and the glossary, it retags to
    the non-rendering "g" every element with the given tag name, or, when an
    attribute name is given, every such element on which the attribute is
    present and (when a pattern is given) its value matches the pattern;
    it answers whether anything was squashed. *)
Definition squashes (elementName attName : string)
    (matchContent : option (string → bool)) (e : QDomElement) : bool :=
  bool_decide (tagName e = elementName) &&
  (isEmpty attName ||
   match attributes e !! attName with
   | None => false
   | Some value => from_option (λ matches, matches value) true matchContent
   end).

Definition squashElement (doc : QDomElement) (elementName attName : string)
    (matchContent : option (string → bool)) : QDomElement * bool :=
  let hits := filter (λ a, from_option (squashes elementName attName matchContent) false
                                      (nodeAt doc a) = true)
                     (descendants doc) in
  (squashAll hits doc, negb (bool_decide (hits = []))).

(** [QRegularExpression("^(?!none).*$")]: the value does not start with "none". *)
Definition notNone (value : string) : bool :=
  negb (startsWith CaseSensitive value "none").

Section WithCollaborators.
Context {regex : SvgPathRegex}.
(** [TextUtils::transformStringToTransform(s).isScaling()] *)
Variable isScaling : string → bool.

(** One [if (TextUtils::squashElement(...)) anyConverted = true;] *)
Definition squashStep (elementName attName : string)
    (matchContent : option (string → bool))
    (st : QDomElement * bool) : QDomElement * bool :=
  let '(doc, result) := squashElement st.1 elementName attName matchContent in
  (doc, if result then true else st.2).

(** The walk of lines 472-486 from a path up its ancestry: does some node
    carry a transform attribute that is a scaling one? *)
Definition scaledInAncestry (root : QDomElement) (a : Addr) : bool :=
  existsb (λ p, match nodeAt root p ≫= λ e, attributes e !! "transform" with
                | Some transformString => isScaling transformString
                | None => false
                end)
          (ancestry a).

(** Lines 470-487: the node list is read once, since retagging does not
    invalidate a [QDomNodeList]. *)
Definition squashScaledPaths (st : QDomElement * bool) : QDomElement * bool :=
  let nodeList := elementsByTagName st.1 "path" in
  let scaled := filter (λ a, scaledInAncestry st.1 a = true) nodeList in
  (squashAll scaled st.1, if bool_decide (scaled = []) then st.2 else true).

(** Lines 421-487 of [clipToBoard]: the document and [anyConverted]. *)
Definition clean (domDocument1 : QDomElement) : QDomElement * bool :=
  let st := (domDocument1, false) in
  let st := squashStep "text" "" None st in
  let st := squashStep "ellipse" "" None st in
  let st := squashStep "rect" "rx" None st in
  let st := squashStep "rect" "ry" None st in
  let st := squashStep "rect" "stroke-dasharray" (Some notNone) st in
  let st := squashStep "circle" "stroke-dasharray" (Some notNone) st in
  let st := squashStep "line" "stroke-dasharray" (Some notNone) st in
  let st := squashStep "path" "d" (Some AaCc) st in
  let st := squashStep "path" "d" (Some MultipleZs) st in
  let st := squashStep "image" "" None st in
  squashScaledPaths st.

(** The Gerber-safe set, element by element. *)
Definition noDashes (e : QDomElement) : bool :=
  match attributes e !! "stroke-dasharray" with
  | None => true
  | Some value => bool_decide (value = "none")
  end.

Definition straightSingleContour (e : QDomElement) : bool :=
  match attributes e !! "d" with
  | None => true
  | Some d => negb (AaCc d) && negb (MultipleZs d)
  end.

Definition gerberSafeElement (root : QDomElement) (a : Addr) (e : QDomElement) : bool :=
  let t := tagName e in
  if bool_decide (t = "text") || bool_decide (t = "ellipse") || bool_decide (t = "image")
  then false
  else if bool_decide (t = "rect")
  then bool_decide (attributes e !! "rx" = None)
       && bool_decide (attributes e !! "ry" = None) && noDashes e
  else if bool_decide (t = "circle") || bool_decide (t = "line") then noDashes e
  else if bool_decide (t = "path")
  then straightSingleContour e && negb (scaledInAncestry root a)
  else true.

Definition gerberSafe (root : QDomElement) : bool :=
  forallb (λ a, from_option (gerberSafeElement root a) true (nodeAt root a))
          (descendants root).

End WithCollaborators.
End Cleaner.


(** ** Raster fallback: the render-retry loop *)

Module RasterFallback.

Section WithRenderer.
Variable QImage : Type.
(** A default-constructed image, what [QHash::value] gives for a missing key. *)
Variable nullImage : QImage.
(** [imageToHash]: the MD5 digest of the PNG encoding, in hexadecimal. *)
Variable imageToHash : QImage → string.
(** The renderer is not deterministic: [render k] is the inverted image
    that the rendering number [k] (from 0) of the document leaves in
    [tempImage]. *)
Variable render : nat → QImage.

Record LoopState := {
  hashMap : gmap string QImage;
  counter : nat;
  hash : string;
  renders : nat
}.

Definition initialState : LoopState :=
  {| hashMap := ∅; counter := 0; hash := ""; renders := 0 |}.

(** The [while (true)] of lines 716-741; [None] when the fuel runs out
    before a [break]. *)
Fixpoint retryLoop (fuel : nat) (st : LoopState) : option LoopState :=
  match fuel with
  | O => None
  | S fuel' =>
      let tempImage := render (renders st) in
      let hash' := imageToHash tempImage in
      if decide (is_Some (hashMap st !! hash')) then
        Some {| hashMap := hashMap st; counter := counter st;
                hash := hash'; renders := S (renders st) |}
      else
        let hashMap' := <[hash' := tempImage]> (hashMap st) in
        if (5 <=? counter st)%nat then
          Some {| hashMap := hashMap'; counter := counter st;
                  hash := hash'; renders := S (renders st) |}
        else
          retryLoop fuel' {| hashMap := hashMap'; counter := S (counter st);
                             hash := hash'; renders := S (renders st) |}
  end.

(** Lines 708-743: the image handed on ([hashMap.value(hash)]) and the
    number of renderings made. *)
Definition renderUntilRepeat (fuel : nat) : option (QImage * nat) :=
  st ← retryLoop fuel initialState;
  Some (default nullImage (hashMap st !! hash st), renders st).

(** What the loop knows after some renderings without a repeat, and how
    it ends: used to reason about [retryLoop]. *)
Definition hashOf (k : nat) : string := imageToHash (render k).

Definition retryInvariant (st : LoopState) : Prop :=
  counter st = renders st ∧ renders st ≤ 5 ∧
  (∀ i j, i < j < renders st → hashOf i ≠ hashOf j) ∧
  (∀ h image, hashMap st !! h = Some image ↔
              ∃ j, j < renders st ∧ hashOf j = h ∧ image = render j).

Definition retryOutcome (st : LoopState) : Prop :=
  ∃ n, renders st = S n ∧ n ≤ 5 ∧ hash st = hashOf n ∧
    (∀ i j, i < j < n → hashOf i ≠ hashOf j) ∧
    ((∃ j, j < n ∧ hashOf j = hashOf n ∧ hashMap st !! hashOf n = Some (render j))
     ∨ (n = 5 ∧ (∀ j, j < 5 → hashOf j ≠ hashOf 5)
        ∧ hashMap st !! hashOf n = Some (render 5))).

End WithRenderer.
End RasterFallback.

(** ** Connectors and the TreatAsCircle set *)

Module Connectors.

(** What the generator reads of a [ConnectorItem]: the id of the part it
    is attached to, the svg id of its pin
    ([connector()->fullPinInfo(...)->m_svgId]), whether it is drawn as a
    path, its radius and its stroke width. *)
Record ConnectorItem := {
  attachedToID : Z;
  svgId : string;
  isPath : bool;
  radius : double;
  strokeWidth : double
}.

(** [QMultiHash<long, ConnectorItem *>]: the entries, most recent first. *)
Definition TreatAsCircle := list (Z * ConnectorItem).

Definition insertMulti (key : Z) (item : ConnectorItem) (hash : TreatAsCircle) : TreatAsCircle :=
  (key, item) :: hash.

(** [hash.values()] and [hash.values(key)] *)
Definition values (hash : TreatAsCircle) : list ConnectorItem := hash.*2.

Definition valuesOf (hash : TreatAsCircle) (key : Z) : list ConnectorItem :=
  (filter (λ entry, entry.1 = key) hash).*2.

(** A scene item is a connector item or something else
    ([dynamic_cast<ConnectorItem *>]). *)
Inductive QGraphicsItem :=
  | ConnectorGraphics (connectorItem : ConnectorItem)
  | OtherGraphics.

(** The loop of [doCopper] and [doDrill] over the items colliding with the
    board. *)
Definition collectTreatAsCircle (items : list QGraphicsItem) : TreatAsCircle :=
  foldl (λ treatAsCircle item,
           match item with
           | OtherGraphics => treatAsCircle
           | ConnectorGraphics connectorItem =>
               if negb (isPath connectorItem) then treatAsCircle
               else if Qeq_bool (radius connectorItem) 0 then treatAsCircle
               else insertMulti (attachedToID connectorItem) connectorItem treatAsCircle
           end)
        [] items.

End Connectors.

(** ** Rectangles *)

Module Geometry.

Record QPointF := { px : double; py : double }.

Record QRectF := { left : double; top : double; width : double; height : double }.

Definition right (r : QRectF) : double := (left r + width r)%Q.
Definition bottom (r : QRectF) : double := (top r + height r)%Q.

Definition center (r : QRectF) : QPointF :=
  {| px := (left r + width r / 2)%Q; py := (top r + height r / 2)%Q |}.

End Geometry.

(** ** Donut paths become circles *)

Module Donuts.
Import QStr Dom Connectors Geometry.

Section WithCollaborators.
Context {numbers : QtNumbers} {graphics : GraphicsUtils}.
(** [QSvgRenderer::boundsOnElement] of a renderer loaded with the document. *)
Variable boundsOnElement : QDomElement → string → QRectF.

Definition unique : string :=
  "%%%%%%%%%%%%%%%%%%%%%%%%_________________________________%%%%%%%%%%%%%%%%%%%%%%%%%%%%%".

(** The svg ids of all the connectors of the set (lines 1105-1111). *)
Definition ids (treatAsCircle : TreatAsCircle) : list string :=
  svgId <$> values treatAsCircle.

(** The walk of lines 1123-1140 up the parents of the path: the first
    parent with a part id decides; when the set has connectors for that
    part but none with the id of the path, the walk goes on. *)
Fixpoint findConnectorItem (root1 : QDomElement) (treatAsCircle : TreatAsCircle)
    (id : string) (parents : list Addr) : option ConnectorItem :=
  match parents with
  | [] => None
  | parent :: further =>
      match nodeAt root1 parent with
      | None => None
      | Some parentElement =>
          let pid := attribute parentElement "partID" in
          if isEmpty pid then findConnectorItem root1 treatAsCircle id further
          else
            let connectorItems := valuesOf treatAsCircle (toLong pid) in
            match connectorItems with
            | [] => None
            | _ =>
                match List.find (λ candidate, bool_decide (svgId candidate = id))
                                connectorItems with
                | Some connectorItem => Some connectorItem
                | None => findConnectorItem root1 treatAsCircle id further
                end
            end
      end
  end.

(** [parent.insertBefore(newChild, refChild)] for the child at index [i]. *)
Definition insertBefore (newChild : QDomElement) (i : nat) (parent : QDomElement)
  : QDomElement :=
  Element (tagName parent) (attributes parent)
          (take i (childNodes parent) ++ newChild :: drop i (childNodes parent)).

(** Lines 1148-1162 for the path at [q ++ [i]]: the circle takes the place
    of the path, which moves one to the right and loses its id. *)
Definition makeCircle (root1 : QDomElement) (q : Addr) (i : nat) (id : string)
    (connectorItem : ConnectorItem) : QDomElement :=
  let root1 := modify (setAttribute "id" unique) (q ++ [i]) root1 in
  let bounds := boundsOnElement root1 unique in
  let root1 := modify (removeAttribute "id") (q ++ [i]) root1 in
  let circle := Element "circle" ∅ [] in
  let root1 := modify (insertBefore circle i) q root1 in
  let p := center bounds in
  let root1 := modify (setAttribute "id" id) (q ++ [i]) root1 in
  let root1 := modify (setAttribute "cx" (number (px p))) (q ++ [i]) root1 in
  let root1 := modify (setAttribute "cy" (number (py p))) (q ++ [i]) root1 in
  let root1 :=
    modify (setAttribute "r"
              (number (radius connectorItem * StandardFritzingDPI / SVGDPI)%Q))
           (q ++ [i]) root1 in
  modify (setAttribute "stroke-width"
            (number (strokeWidth connectorItem * StandardFritzingDPI / SVGDPI)%Q))
         (q ++ [i]) root1.

(** The body of the loop of lines 1113-1164 for one path. *)
Definition handlePath (root1 : QDomElement) (treatAsCircle : TreatAsCircle) (path : Addr)
  : QDomElement :=
  match nodeAt root1 path with
  | None => root1
  | Some pathElement =>
      let id := attribute pathElement "id" in
      if isEmpty id then root1
      else if negb (bool_decide (id ∈ ids treatAsCircle)) then root1
      else
        match findConnectorItem root1 treatAsCircle id (ancestry (parentNode path)) with
        | None => root1
        | Some connectorItem =>
            makeCircle root1 (parentNode path) (List.last path 0) id connectorItem
        end
  end.

(** The loop over the (live) list of paths. *)
Fixpoint handlePaths (fuel : nat) (n : nat) (root1 : QDomElement)
    (treatAsCircle : TreatAsCircle) : Outcome QDomElement :=
  match fuel with
  | O => OutOfFuel
  | S fuel' =>
      match elementsByTagName root1 "path" !! n with
      | None => Returns root1
      | Some path => handlePaths fuel' (S n) (handlePath root1 treatAsCircle path) treatAsCircle
      end
  end.

Definition handleDonuts (fuel : nat) (root1 : QDomElement) (treatAsCircle : TreatAsCircle)
  : Outcome QDomElement :=
  match treatAsCircle with
  | [] => Returns root1
  | _ => handlePaths fuel 0 root1 treatAsCircle
  end.

(** The circle as the specification words it: radius and stroke width
    handed through unchanged. *)
Definition passesThrough (connectorItem : ConnectorItem) (circle : QDomElement) : Prop :=
  attribute circle "r" = number (radius connectorItem)
  ∧ attribute circle "stroke-width" = number (strokeWidth connectorItem).

End WithCollaborators.
End Donuts.

(** ** The loop over the donuts, turn by turn *)

Module DonutTurns.
Import QStr Dom Connectors Geometry Donuts.

(** What the loop reads of an element other than the document element:
    its tag, its attributes, and the [partID] attributes of its parents,
    the nearest first. *)
Definition Item : Type := string * gmap string string * list string.

Fixpoint childItems (sub : list string → QDomElement → list Item) (pids : list string)
    (cs : list QDomElement) : list Item :=
  match cs with
  | [] => []
  | c :: cs' => ((tagName c, attributes c, pids) :: sub pids c) ++ childItems sub pids cs'
  end.

(** The elements below [e] in document order; [pids] are the [partID]
    attributes of the parents of [e]. *)
Fixpoint items (pids : list string) (e : QDomElement) : list Item :=
  match e with
  | Element _ m cs => childItems items (default "" (m !! "partID") :: pids) cs
  end.

(** The [partID] attributes of the parents of the node at [a], the
    nearest first. *)
Fixpoint pidsAt (e : QDomElement) (a : Addr) : list string :=
  match a with
  | [] => []
  | i :: a' =>
      match childNodes e !! i with
      | Some c => pidsAt c a' ++ [attribute e "partID"]
      | None => []
      end
  end.

(** The item at an address. *)
Definition itemAt (e : QDomElement) (pids : list string) (a : Addr) (item : Item) : Prop :=
  ∃ x, nodeAt e a = Some x ∧ item = (tagName x, attributes x, pidsAt e a ++ pids).

Definition isPath (item : Item) : Prop := item.1.1 = "path".

#[global] Instance isPath_dec item : Decision (isPath item).
Proof. unfold isPath. apply _. Defined.

Section WithCollaborators.
Context {numbers : QtNumbers} {graphics : GraphicsUtils}.
Variable boundsOnElement : QDomElement → string → QRectF.

(** The walk of lines 1123-1140 as it goes over the [partID] attributes of
    the parents. *)
Fixpoint findByPartIDs (treatAsCircle : TreatAsCircle) (id : string) (pids : list string)
  : option ConnectorItem :=
  match pids with
  | [] => None
  | pid :: further =>
      if isEmpty pid then findByPartIDs treatAsCircle id further
      else
        match valuesOf treatAsCircle (toLong pid) with
        | [] => None
        | connectorItems =>
            match List.find (λ candidate, bool_decide (svgId candidate = id))
                            connectorItems with
            | Some connectorItem => Some connectorItem
            | None => findByPartIDs treatAsCircle id further
            end
        end
  end.

(** The circle of lines 1152-1157. *)
Definition circleAttributes (id : string) (bounds : QRectF) (connectorItem : ConnectorItem)
  : gmap string string :=
  <["stroke-width" := number (strokeWidth connectorItem * StandardFritzingDPI / SVGDPI)%Q]>
    (<["r" := number (radius connectorItem * StandardFritzingDPI / SVGDPI)%Q]>
       (<["cy" := number (py (center bounds))]>
          (<["cx" := number (px (center bounds))]> (<["id" := id]> ∅)))).

(** What lines 1148-1162 make of the parent of the path at index [i]. *)
Definition circleBefore (circle : QDomElement) (i : nat) (parent : QDomElement)
  : QDomElement :=
  Element (tagName parent) (attributes parent)
          (take i (childNodes parent) ++ circle
             :: (removeAttribute "id" <$> take 1 (drop i (childNodes parent)))
             ++ drop (S i) (childNodes parent)).

(** The document when the loop of lines 1113-1164 has made its first [n]
    turns. *)
Fixpoint afterTurns (n : nat) (root1 : QDomElement) (treatAsCircle : TreatAsCircle)
  : QDomElement :=
  match n with
  | O => root1
  | S k =>
      let doc := afterTurns k root1 treatAsCircle in
      match elementsByTagName doc "path" !! k with
      | Some path => handlePath boundsOnElement doc treatAsCircle path
      | None => doc
      end
  end.

(** The bounds the renderer gives in turn [n] (lines 1149-1151), the
    path of the turn carrying the unique id. *)
Definition boundsAt (root1 : QDomElement) (treatAsCircle : TreatAsCircle) (n : nat)
  : QRectF :=
  let during := afterTurns n root1 treatAsCircle in
  let path : option Addr := elementsByTagName during "path" !! n in
  boundsOnElement (modify (setAttribute "id" unique) (default [] path) during) unique.

(** What one turn of the loop leaves where it finds a path: the path as it
    is (lines 1116, 1119, 1141), or the circle and, after it, the path
    without its id. *)
Definition turnItems (treatAsCircle : TreatAsCircle) (bounds : QRectF) (item : Item)
  : list Item :=
  let id := default "" (item.1.2 !! "id") in
  if isEmpty id then [item]
  else if negb (bool_decide (id ∈ ids treatAsCircle)) then [item]
  else
    match findByPartIDs treatAsCircle id item.2 with
    | None => [item]
    | Some connectorItem =>
        [("circle", circleAttributes id bounds connectorItem, item.2);
         (item.1.1, delete "id" item.1.2, item.2)]
    end.

(** The elements of the document when the loop has dealt with the first
    [todo] paths of [l]; [n] counts the paths before [l]. *)
Fixpoint convertFirst (bounds : nat → QRectF) (treatAsCircle : TreatAsCircle)
    (todo n : nat) (l : list Item) : list Item :=
  match l with
  | [] => []
  | item :: l' =>
      if decide (isPath item) then
        match todo with
        | O => item :: l'
        | S todo' =>
            turnItems treatAsCircle (bounds n) item
            ++ convertFirst bounds treatAsCircle todo' (S n) l'
        end
      else item :: convertFirst bounds treatAsCircle todo n l'
  end.

(** ... and when it has dealt with them all. *)
Fixpoint convert (bounds : nat → QRectF) (treatAsCircle : TreatAsCircle)
    (n : nat) (l : list Item) : list Item :=
  match l with
  | [] => []
  | item :: l' =>
      if decide (isPath item) then
        turnItems treatAsCircle (bounds n) item ++ convert bounds treatAsCircle (S n) l'
      else item :: convert bounds treatAsCircle n l'
  end.

End WithCollaborators.
End DonutTurns.

(** ** Board clipper: the bounds test and the holes on the board edge *)

Module Clipper.
Import QStr Geometry.

(** The clipper keeps handles to elements while it inserts and removes
    their siblings, so its document is a store of nodes: a handle stays
    valid whatever happens to other nodes. *)
Definition Handle := nat.

Record QDomNode := {
  tagName : string;
  attributes : gmap string string;
  parentNode : option Handle;
  childNodes : list Handle
}.

Abbreviation QDomDocument := (gmap Handle QDomNode).

Definition tagOf (doc : QDomDocument) (element : Handle) : string :=
  from_option tagName "" (doc !! element).

(** [element.attribute(name)] *)
Definition attribute (doc : QDomDocument) (element : Handle) (name : string) : string :=
  default "" (doc !! element ≫= λ node, attributes node !! name).

Definition setTagName (element : Handle) (t : string) (doc : QDomDocument) : QDomDocument :=
  alter (λ node, {| tagName := t; attributes := attributes node;
                    parentNode := parentNode node; childNodes := childNodes node |})
        element doc.

Definition setAttribute (element : Handle) (name value : string) (doc : QDomDocument)
  : QDomDocument :=
  alter (λ node, {| tagName := tagName node; attributes := <[name := value]> (attributes node);
                    parentNode := parentNode node; childNodes := childNodes node |})
        element doc.

Definition setParent (element : Handle) (parent : option Handle) (doc : QDomDocument)
  : QDomDocument :=
  alter (λ node, {| tagName := tagName node; attributes := attributes node;
                    parentNode := parent; childNodes := childNodes node |})
        element doc.

Definition setChildren (element : Handle) (children : list Handle) (doc : QDomDocument)
  : QDomDocument :=
  alter (λ node, {| tagName := tagName node; attributes := attributes node;
                    parentNode := parentNode node; childNodes := children |})
        element doc.

(** [element.cloneNode(false)]: a new node, not in the tree yet, with the
    tag and the attributes of the element. *)
Definition cloneNode (element : Handle) (doc : QDomDocument) : Handle * QDomDocument :=
  let newElement := fresh (dom doc) in
  (newElement,
   <[newElement := {| tagName := tagOf doc element;
                      attributes := from_option attributes ∅ (doc !! element);
                      parentNode := None; childNodes := [] |}]> doc).

(** The child list with [newChild] put after the first [refChild]. *)
Fixpoint insertedAfter (newChild refChild : Handle) (children : list Handle) : list Handle :=
  match children with
  | [] => []
  | child :: rest =>
      if decide (child = refChild) then child :: newChild :: rest
      else child :: insertedAfter newChild refChild rest
  end.

(** [element.parentNode().insertAfter(newElement, element)]; nothing
    happens on a null parent or when the element is not among the children
    of its parent. *)
Definition insertAfter (newElement element : Handle) (doc : QDomDocument) : QDomDocument :=
  match doc !! element ≫= parentNode with
  | None => doc
  | Some parent =>
      match doc !! parent with
      | None => doc
      | Some parentNode =>
          if bool_decide (element ∈ childNodes parentNode) then
            setParent newElement (Some parent)
              (setChildren parent (insertedAfter newElement element (childNodes parentNode)) doc)
          else doc
      end
  end.

(** [element.parentNode().removeChild(element)] *)
Definition removeFromParent (element : Handle) (doc : QDomDocument) : QDomDocument :=
  match doc !! element ≫= parentNode with
  | None => doc
  | Some parent =>
      match doc !! parent with
      | None => doc
      | Some parentNode =>
          setParent element None
            (setChildren parent (filter (λ child, child ≠ element) (childNodes parentNode)) doc)
      end
  end.

(** What the loops over the holes keep of the nodes they do not work on.
    While clones are inserted, a node keeps its tag, attributes and parent,
    and its children are only added to. *)
Definition sameShallow (node node' : QDomNode) : Prop :=
  tagName node' = tagName node ∧ attributes node' = attributes node
  ∧ parentNode node' = parentNode node.

Definition grows (doc doc' : QDomDocument) : Prop :=
  ∀ element node, doc !! element = Some node →
    ∃ node', doc' !! element = Some node' ∧ sameShallow node node'
             ∧ (∀ child, child ∈ childNodes node → child ∈ childNodes node')
             ∧ (childNodes node = [] → childNodes node' = []).

(** While the clone [newElement] is retested, every other node keeps its
    tag, attributes and parent, and its children but for that clone. *)
Definition prunes (newElement : Handle) (doc doc' : QDomDocument) : Prop :=
  ∀ element node, element ≠ newElement → doc !! element = Some node →
    ∃ node', doc' !! element = Some node' ∧ sameShallow node node'
             ∧ (∀ child, child ∈ childNodes node' → child ∈ childNodes node)
             ∧ (∀ child, child ≠ newElement → child ∈ childNodes node →
                         child ∈ childNodes node').

Definition Qltb (a b : double) : bool := negb (Qle_bool b a).

(** [const double unknownMargin = 0.1]: the double that stands for the
    literal. *)
Definition unknownMargin {rounding : DoubleRounding} : double := fl (1 # 10)%Q.

(** [QRectF::right()] and [QRectF::bottom()]: sums of doubles. *)
Definition rightOf {rounding : DoubleRounding} (r : QRectF) : double :=
  fl (left r + width r)%Q.

Definition bottomOf {rounding : DoubleRounding} (r : QRectF) : double :=
  fl (top r + height r)%Q.

(** The test of lines 542 and 580: the bounds against the four sides of
    the rectangle, each widened by the margin and rounded. *)
Definition outside {rounding : DoubleRounding} (mBounds sourceRes : QRectF) : bool :=
  Qltb (left mBounds) (fl (left sourceRes - unknownMargin)%Q)
  || Qltb (top mBounds) (fl (top sourceRes - unknownMargin)%Q)
  || Qltb (fl (rightOf sourceRes + unknownMargin)%Q) (rightOf mBounds)
  || Qltb (fl (bottomOf sourceRes + unknownMargin)%Q) (bottomOf mBounds).

(** By how much the bounds pass the board rectangle on its four sides. *)
Definition overshoots (mBounds sourceRes : QRectF) : list double :=
  [ (left sourceRes - left mBounds)%Q; (top sourceRes - top mBounds)%Q;
    (right mBounds - right sourceRes)%Q; (bottom mBounds - bottom sourceRes)%Q ].

Section WithCollaborators.
Context {numbers : QtNumbers} {graphics : GraphicsUtils} {rounding : DoubleRounding}.
(** [QString::number] of an [int]. *)
Variable intNumber : Z → string.
(** The renderer loaded with a document: [boundsOnElement],
    [transformForElement], and [QTransform::mapRect]. *)
Variable QTransform : Type.
Variable boundsOnElement : QDomDocument → string → QRectF.
Variable transformForElement : QDomDocument → string → QTransform.
Variable mapRect : QTransform → QRectF → QRectF.

(** Lines 499-502: the board rectangle at the resolution of the document,
    each product and quotient a double. *)
Definition sourceResOf (boardRect : QRectF) : QRectF :=
  let res := StandardFritzingDPI in
  {| left := fl (fl (left boardRect * res) / SVGDPI)%Q;
     top := fl (fl (top boardRect * res) / SVGDPI)%Q;
     width := fl (fl (width boardRect * res) / SVGDPI)%Q;
     height := fl (fl (height boardRect * res) / SVGDPI)%Q |}.

(** [m.mapRect(bounds)] for the element with the given id, on a rendering
    of the given document. *)
Definition mappedBounds (rendered : QDomDocument) (id : string) : QRectF :=
  mapRect (transformForElement rendered id) (boundsOnElement rendered id).

Record ClipState := {
  document : QDomDocument;
  possibleHoles : list Handle;
  anyClipped : bool;
  anyConverted : bool
}.

(** One turn of the loop of lines 535-553.  The renderer was loaded with
    the document as it was before the loop ([rendered]).  [collectLeaves]
    counts the leaves it collects, so [leaves1.at(i)] is in range; a turn
    beyond the leaves does nothing here. *)
Definition clipLeaf (rendered : QDomDocument) (sourceRes : QRectF) (leaves1 : list Handle)
    (st : ClipState) (i : nat) : ClipState :=
  let n := intNumber (Z.of_nat i) in
  match leaves1 !! i with
  | None => st
  | Some element =>
      let mBounds := mappedBounds rendered n in
      if outside mBounds sourceRes then
        {| possibleHoles :=
             if bool_decide (tagOf (document st) element = "circle")
             then possibleHoles st ++ [element] else possibleHoles st;
           document := setTagName element "g" (document st);
           anyClipped := true; anyConverted := true |}
      else st
  end.

(** Clip phase A (lines 530-554). *)
Definition clipPhaseA (forWhy : ForWhy) (boardRect : QRectF) (leaves1 : list Handle)
    (transformCount1 : nat) (anyConverted : bool) (domDocument1 : QDomDocument)
  : ClipState :=
  let st := {| document := domDocument1; possibleHoles := [];
               anyClipped := false; anyConverted := anyConverted |} in
  if decide (forWhy ≠ ForOutline) then
    foldl (clipLeaf domDocument1 (sourceResOf boardRect) leaves1) st (seq 0 transformCount1)
  else st.

Definition holeId (ix : nat) : string := "__" +:+ intNumber (Z.of_nat ix) +:+ "__".

(** One turn of the loop of lines 560-570: the document, [newHoles], [ix]. *)
Definition insetHole (st : QDomDocument * list Handle * nat) (element : Handle)
  : QDomDocument * list Handle * nat :=
  let '(doc, newHoles, ix) := st in
  let '(newElement, doc) := cloneNode element doc in
  let radius := toDouble (attribute doc element "r") in
  let sw := toDouble (attribute doc element "stroke-width") in
  let doc := insertAfter newElement element doc in
  let doc := setAttribute newElement "id" (holeId ix) doc in
  let doc := setAttribute newElement "stroke-width" (intNumber 0) doc in
  let doc := setAttribute newElement "r" (number (radius - sw / 2)%Q) doc in
  let doc := setTagName newElement "circle" doc in
  (doc, newHoles ++ [newElement], S ix).

(** One turn of the loop of lines 573-592, for index [i]; the renderer was
    loaded with the document as the first loop left it ([rendered]). *)
Definition retestHole (rendered : QDomDocument) (sourceRes : QRectF)
    (st : QDomDocument * list Handle) (i : nat) : QDomDocument * list Handle :=
  let '(doc, newHoles) := st in
  match newHoles !! i with
  | None => st
  | Some newElement =>
      if outside (mappedBounds rendered (holeId i)) sourceRes then
        (removeFromParent newElement doc, delete i newHoles)
      else
        let radius := (toDouble (attribute doc newElement "r") + 4)%Q in
        let doc := setAttribute newElement "r" (number radius) doc in
        (setAttribute newElement "stroke-width" (intNumber 2) doc, newHoles)
  end.

(** Lines 557-593: the document with the clones of the holes, as rendered
    for the retest, and the holes that are kept. *)
Definition insetHoles (doc : QDomDocument) (possibleHoles : list Handle)
  : QDomDocument * list Handle :=
  (foldl insetHole (doc, [], 0) possibleHoles).1.

Definition retestHoles (sourceRes : QRectF) (inset : QDomDocument * list Handle)
  : QDomDocument * list Handle :=
  foldl (retestHole inset.1 sourceRes) inset (reverse (seq 0 (length inset.2))).

Definition keepHoles (boardRect : QRectF) (doc : QDomDocument) (possibleHoles : list Handle)
  : QDomDocument * list Handle :=
  match possibleHoles with
  | [] => (doc, [])
  | _ => retestHoles (sourceResOf boardRect) (insetHoles doc possibleHoles)
  end.

(** A node hangs in the tree: it is among the children of its parent. *)
Definition attached (doc : QDomDocument) (element : Handle) : Prop :=
  ∃ node parent parentNode',
    doc !! element = Some node ∧ parentNode node = Some parent
    ∧ doc !! parent = Some parentNode' ∧ element ∈ childNodes parentNode'.

(** The clone of a hole as lines 561-568 leave it, from the attributes of
    the hole. *)
Definition insetClone (ix : nat) (attrs : gmap string string) (parent : option Handle)
  : QDomNode :=
  let radius := toDouble (default "" (attrs !! "r")) in
  let sw := toDouble (default "" (attrs !! "stroke-width")) in
  {| tagName := "circle";
     attributes := <["r" := number (radius - sw / 2)%Q]>
                     (<["stroke-width" := intNumber 0]> (<["id" := holeId ix]> attrs));
     parentNode := parent; childNodes := [] |}.

(** A clone as lines 587-590 leave it when it is within the bounds. *)
Definition enlarged (node : QDomNode) : QDomNode :=
  let radius := (toDouble (default "" (attributes node !! "r")) + 4)%Q in
  {| tagName := tagName node;
     attributes := <["stroke-width" := intNumber 2]>
                     (<["r" := number radius]> (attributes node));
     parentNode := parentNode node; childNodes := childNodes node |}.

(** The reading of the board-edge rule by the radius of the hole: by how
    much the bounds of the hole pass the board rectangle on its worst
    side, in the rendering of phase A where the hole is found by its id;
    a hole survives when the clone with its number is among the holes
    that are kept. *)
Definition Qmax (a b : double) : double := if Qle_bool a b then b else a.

Definition straddle (rendered doc : QDomDocument) (boardRect : QRectF) (element : Handle)
  : double :=
  foldr Qmax 0%Q
        (overshoots (mappedBounds rendered (attribute doc element "id"))
                    (sourceResOf boardRect)).

Definition survives (kept : QDomDocument * list Handle) (ix : nat) : Prop :=
  Exists (λ newElement, attribute kept.1 newElement "id" = holeId ix ∧ attached kept.1 newElement)
         kept.2.

Definition survivesByRadius (rendered doc : QDomDocument) (boardRect : QRectF)
    (possibleHoles : list Handle) : Prop :=
  ∀ ix element, possibleHoles !! ix = Some element →
    let amount := straddle rendered doc boardRect element in
    let radius := toDouble (attribute doc element "r") in
    ((amount < radius)%Q → survives (keepHoles boardRect doc possibleHoles) ix)
    ∧ ((radius < amount)%Q → ¬ survives (keepHoles boardRect doc possibleHoles) ix).

End WithCollaborators.
End Clipper.

(** ** The layer pipeline *)

Module Pipeline.
Import QStr Connectors.

Definition SilkTopSuffix := "_silkTop.gto".
Definition SilkBottomSuffix := "_silkBottom.gbo".
Definition CopperTopSuffix := "_copperTop.gtl".
Definition CopperBottomSuffix := "_copperBottom.gbl".
Definition MaskTopSuffix := "_maskTop.gts".
Definition MaskBottomSuffix := "_maskBottom.gbs".
Definition PasteMaskTopSuffix := "_pasteMaskTop.gtp".
Definition PasteMaskBottomSuffix := "_pasteMaskBottom.gbp".
Definition DrillSuffix := "_drill.txt".
Definition OutlineSuffix := "_contour.gm1".
Definition PickAndPlaceSuffix := "_pnp.xy".
Definition MaskClearanceMils : double := 5%Q.

Inductive ViewLayerPlacement := NewTop | NewBottom.

(** What [doMask] and [doPasteMask] hide in the sketch around their
    rendering. *)
Inductive Hidden := NothingHidden | CopperLogoItems | CopperLogoItemsAndHoles.

(** The collaborators of the pipeline: the layer tables of [ViewLayer], the
    sketch widget, [TextUtils], the Gerber emitter [SVG2gerber], the file
    system.  [clipToBoard] and [cleanOutline] work on the parsed document;
    the pipeline sees them through the string (and the messages) they
    give back. *)
Class Collaborators := {
  ViewLayerID : Type;
  ViewLayerID_eq_dec :: EqDecision ViewLayerID;
  Silkscreen1 : ViewLayerID;
  copperLayers : ViewLayerPlacement → list ViewLayerID;
  maskLayers : ViewLayerPlacement → list ViewLayerID;
  silkLayers : ViewLayerPlacement → list ViewLayerID;
  outlineLayers : list ViewLayerID;
  drillLayers : list ViewLayerID;
  Board : Type;
  findSelectedBoard : option Board * Z;
  boardLayers : Z;
  renderToSVG : Board → Hidden → list ViewLayerID → string * bool;
  collidingItems : Board → list QGraphicsItem;
  parseForWidthAndHeight : string → double * double;
  expandAndFill : string → string → double → string;
  makePasteMask : string → Board → double → list ViewLayerID → string;
  pickAndPlaceText : Board → string → string;
  convert : string → bool → string → ForWhy → double * double → Z * string;
  canOpen : string → bool
}.

Section WithCollaborators.
Context {graphics : GraphicsUtils} {collaborators : Collaborators}.

(** What the export does to the outside, in order. *)
Inductive Event :=
  | Rendered (layers : list ViewLayerID) (hidden : Hidden)
  | Displayed (display : Display)
  | Written (outname : string) (content : string).

#[global] Instance Hidden_eq_dec : EqDecision Hidden.
Proof. solve_decision. Defined.

#[global] Instance Event_eq_dec : EqDecision Event.
Proof. solve_decision. Defined.

(** A computation together with the events it caused. *)
Definition Traced (A : Type) : Type := A * list Event.

#[export] Instance Traced_ret : MRet Traced := λ A a, (a, []).

#[export] Instance Traced_bind : MBind Traced :=
  λ A B k m, let '(b, events) := k m.1 in (b, (m.2 ++ events)%list).

Definition emit (event : Event) : Traced unit := ((), [event]).

(** The event of one [displayMessage(message, displayMessageBoxes)]. *)
Definition displayed (displayMessageBoxes : bool) (message : string) : Event :=
  Displayed (Diagnostics.displayMessage message displayMessageBoxes).

Definition displayMessage (message : string) (displayMessageBoxes : bool) : Traced unit :=
  emit (displayed displayMessageBoxes message).

(** The clipper, by its result and what it displays, and [cleanOutline]. *)
Variable clipToBoardResult :
  string → Board → string → ForWhy → string → bool → TreatAsCircle → string * list Display.
Variable cleanOutline : string → string.

Definition clipToBoard (svgString : string) (board : Board) (layerName : string)
    (forWhy : ForWhy) (clipString : string) (displayMessageBoxes : bool)
    (treatAsCircle : TreatAsCircle) : Traced string :=
  let '(svg, displays) :=
    clipToBoardResult svgString board layerName forWhy clipString displayMessageBoxes
                      treatAsCircle in
  (svg, Displayed <$> displays).

(** [renderTo]: the svg and the [empty] flag. *)
Definition renderTo (layers : list ViewLayerID) (board : Board) (hidden : Hidden)
  : Traced (string * bool) :=
  emit (Rendered layers hidden) ;; mret (renderToSVG board hidden layers).

Definition scaleSize (svgSize : double * double) (factor : double) : double * double :=
  ((svgSize.1 * factor)%Q, (svgSize.2 * factor)%Q).

Definition saveEnd (layerName exportDir prefix suffix : string)
    (displayMessageBoxes : bool) (gerber : string) : Traced bool :=
  let outname := exportDir +:+ "/" +:+ prefix +:+ suffix in
  if negb (canOpen outname) then
    displayMessage (layerName +:+ " layer: unable to save to '" +:+ outname +:+ "'")
                   displayMessageBoxes ;;
    mret false
  else
    emit (Written outname gerber) ;; mret true.

Definition doEnd (svg : string) (boardLayers : Z) (layerName : string) (forWhy : ForWhy)
    (svgSize : double * double) (exportDir prefix suffix : string)
    (displayMessageBoxes : bool) : Traced Z :=
  let '(invalidCount, gerber) :=
    convert svg (bool_decide (boardLayers = 2%Z)) layerName forWhy svgSize in
  saveEnd layerName exportDir prefix suffix displayMessageBoxes gerber ;;
  mret invalidCount.

Definition doCopper (board : Board) (viewLayerIDs : list ViewLayerID)
    (copperName copperSuffix filename exportDir : string)
    (displayMessageBoxes : bool) : Traced Z :=
  '(svg, empty) ← renderTo viewLayerIDs board NothingHidden;
  if empty || isEmpty svg then
    displayMessage (copperName +:+ " layer export is empty.") displayMessageBoxes ;;
    mret 0%Z
  else
    let treatAsCircle := collectTreatAsCircle (collidingItems board) in
    let svgSize := parseForWidthAndHeight svg in
    svg ← clipToBoard svg board copperName ForCopper "" displayMessageBoxes treatAsCircle;
    if isEmpty svg then
      displayMessage (copperName +:+ " layer export is empty (case 2).")
                     displayMessageBoxes ;;
      mret 0%Z
    else
      doEnd svg boardLayers copperName ForCopper (scaleSize svgSize StandardFritzingDPI)
            exportDir filename copperSuffix displayMessageBoxes.

Definition doSilk (silkLayerIDs : list ViewLayerID) (silkName gerberSuffix : string)
    (board : Board) (filename exportDir : string) (displayMessageBoxes : bool)
    (clipString : string) : Traced Z :=
  '(svgSilk, empty) ← renderTo silkLayerIDs board NothingHidden;
  if empty || isEmpty svgSilk then
    (if bool_decide (Silkscreen1 ∈ silkLayerIDs) then
       displayMessage ("silk layer " +:+ silkName +:+ " export is empty")
                      displayMessageBoxes
     else mret ()) ;;
    mret 0%Z
  else
    let svgSize := parseForWidthAndHeight svgSilk in
    let treatAsCircle : TreatAsCircle := [] in
    svgSilk ← clipToBoard svgSilk board silkName ForSilk clipString displayMessageBoxes
                           treatAsCircle;
    if isEmpty svgSilk then
      displayMessage "silk export failure" displayMessageBoxes ;;
      mret 0%Z
    else
      doEnd svgSilk boardLayers silkName ForSilk (scaleSize svgSize StandardFritzingDPI)
            exportDir filename gerberSuffix displayMessageBoxes.

Definition doDrill (board : Board) (filename exportDir : string)
    (displayMessageBoxes : bool) : Traced Z :=
  let drillLayerIDs := drillLayers in
  '(svgDrill, empty) ← renderTo drillLayerIDs board NothingHidden;
  if empty || isEmpty svgDrill then
    displayMessage "exported drill file is empty" displayMessageBoxes ;;
    mret 0%Z
  else
    let svgSize := parseForWidthAndHeight svgDrill in
    let treatAsCircle := collectTreatAsCircle (collidingItems board) in
    svgDrill ← clipToBoard svgDrill board "Copper0" ForDrill "" displayMessageBoxes
                            treatAsCircle;
    if isEmpty svgDrill then
      displayMessage "drill export failure" displayMessageBoxes ;;
      mret 0%Z
    else
      doEnd svgDrill boardLayers "drill" ForDrill (scaleSize svgSize StandardFritzingDPI)
            exportDir filename DrillSuffix displayMessageBoxes.

(** [doMask] also hands back [clipString] (unchanged unless the mask was
    clipped successfully). *)
Definition doMask (maskLayerIDs : list ViewLayerID) (maskName gerberSuffix : string)
    (board : Board) (filename exportDir : string) (displayMessageBoxes : bool)
    (clipString : string) : Traced (Z * string) :=
  '(svgMask, empty) ← renderTo maskLayerIDs board CopperLogoItems;
  if empty || isEmpty svgMask then
    displayMessage ("exported mask layer " +:+ maskName +:+ " is empty")
                   displayMessageBoxes ;;
    mret (0%Z, clipString)
  else
    let svgMask := expandAndFill svgMask "black" (MaskClearanceMils * 2)%Q in
    if isEmpty svgMask then
      displayMessage (maskName +:+ " mask export failure (2)") displayMessageBoxes ;;
      mret (0%Z, clipString)
    else
      let svgSize := parseForWidthAndHeight svgMask in
      let treatAsCircle : TreatAsCircle := [] in
      svgMask ← clipToBoard svgMask board maskName ForMask "" displayMessageBoxes
                             treatAsCircle;
      if isEmpty svgMask then
        displayMessage "mask export failure" displayMessageBoxes ;;
        mret (0%Z, clipString)
      else
        invalidCount ← doEnd svgMask boardLayers maskName ForMask
                              (scaleSize svgSize StandardFritzingDPI)
                              exportDir filename gerberSuffix displayMessageBoxes;
        mret (invalidCount, svgMask).

Definition doPasteMask (maskLayerIDs : list ViewLayerID) (maskName gerberSuffix : string)
    (board : Board) (filename exportDir : string) (displayMessageBoxes : bool)
  : Traced Z :=
  '(svgMask, empty) ← renderTo maskLayerIDs board CopperLogoItemsAndHoles;
  if empty || isEmpty svgMask then
    displayMessage "exported paste mask layer is empty" displayMessageBoxes ;;
    mret 0%Z
  else
    let svgMask := makePasteMask svgMask board StandardFritzingDPI maskLayerIDs in
    if isEmpty svgMask then mret 0%Z
    else
      let svgSize := parseForWidthAndHeight svgMask in
      let treatAsCircle : TreatAsCircle := [] in
      svgMask ← clipToBoard svgMask board maskName ForCopper "" displayMessageBoxes
                             treatAsCircle;
      if isEmpty svgMask then
        displayMessage "mask export failure" displayMessageBoxes ;;
        mret 0%Z
      else
        doEnd svgMask boardLayers maskName ForCopper (scaleSize svgSize StandardFritzingDPI)
              exportDir filename gerberSuffix displayMessageBoxes.

Definition exportPickAndPlace (prefix exportDir : string) (board : Board)
    (displayMessageBoxes : bool) : Traced unit :=
  let outname := exportDir +:+ "/" +:+ prefix +:+ PickAndPlaceSuffix in
  if negb (canOpen outname) then
    displayMessage ("Unable to save pick and place file: " +:+ outname) displayMessageBoxes
  else emit (Written outname (pickAndPlaceText board prefix)).

(** [s.chop(n)] *)
Definition chop (n : nat) (s : string) : string :=
  substring 0 (String.length s - n) s.

(** The consolidated diagnostic of lines 151-160. *)
Definition reportInvalid (outlineInvalidCount silkInvalidCount copperInvalidCount
    maskInvalidCount pasteMaskInvalidCount : Z) (displayMessageBoxes : bool) : Traced unit :=
  if bool_decide (0 < outlineInvalidCount)%Z || bool_decide (0 < silkInvalidCount)%Z
     || bool_decide (0 < copperInvalidCount)%Z || bool_decide (maskInvalidCount ≠ 0%Z)
     || bool_decide (pasteMaskInvalidCount ≠ 0%Z) then
    let s := "" in
    let s := if bool_decide (0 < outlineInvalidCount)%Z
             then s +:+ "the board outline layer, " else s in
    let s := if bool_decide (0 < silkInvalidCount)%Z
             then s +:+ "silkscreen layer(s), " else s in
    let s := if bool_decide (0 < copperInvalidCount)%Z
             then s +:+ "copper layer(s), " else s in
    let s := if bool_decide (0 < maskInvalidCount)%Z
             then s +:+ "mask layer(s), " else s in
    let s := if bool_decide (0 < pasteMaskInvalidCount)%Z
             then s +:+ "paste mask layer(s), " else s in
    displayMessage ("Unable to translate svg curves in " +:+ chop 2 s) displayMessageBoxes
  else mret ().

(** [exportToGerber] once the board is known (lines 95-160). *)
Definition exportBoard (prefix exportDir : string) (board : Board)
    (displayMessageBoxes : bool) : Traced unit :=
  exportPickAndPlace prefix exportDir board displayMessageBoxes ;;
  copperInvalidCount ← doCopper board (copperLayers NewBottom) "Copper0" CopperBottomSuffix
                                  prefix exportDir displayMessageBoxes;
  copperInvalidCount ←
    (if bool_decide (boardLayers = 2%Z) then
       more ← doCopper board (copperLayers NewTop) "Copper1" CopperTopSuffix
                        prefix exportDir displayMessageBoxes;
       mret (copperInvalidCount + more)%Z
     else mret copperInvalidCount);
  '(maskInvalidCount, maskBottom) ←
    doMask (maskLayers NewBottom) "Mask0" MaskBottomSuffix board prefix exportDir
           displayMessageBoxes "";
  '(maskInvalidCount, maskTop) ←
    (if bool_decide (boardLayers = 2%Z) then
       '(more, maskTop) ← doMask (maskLayers NewTop) "Mask1" MaskTopSuffix board prefix
                                  exportDir displayMessageBoxes "";
       mret ((maskInvalidCount + more)%Z, maskTop)
     else mret (maskInvalidCount, ""));
  pasteMaskInvalidCount ←
    doPasteMask (maskLayers NewBottom) "PasteMask0" PasteMaskBottomSuffix board prefix
                exportDir displayMessageBoxes;
  pasteMaskInvalidCount ←
    (if bool_decide (boardLayers = 2%Z) then
       more ← doPasteMask (maskLayers NewTop) "PasteMask1" PasteMaskTopSuffix board prefix
                           exportDir displayMessageBoxes;
       mret (pasteMaskInvalidCount + more)%Z
     else mret pasteMaskInvalidCount);
  silkInvalidCount ← doSilk (silkLayers NewTop) "Silk1" SilkTopSuffix board prefix
                              exportDir displayMessageBoxes maskTop;
  more ← doSilk (silkLayers NewBottom) "Silk0" SilkBottomSuffix board prefix
                  exportDir displayMessageBoxes maskBottom;
  let silkInvalidCount := (silkInvalidCount + more)%Z in
  '(svgOutline, empty) ← renderTo outlineLayers board NothingHidden;
  if empty || isEmpty svgOutline then
    displayMessage "outline is empty" displayMessageBoxes
  else
    let svgOutline := cleanOutline svgOutline in
    svgOutline ← clipToBoard svgOutline board "board" ForOutline "" displayMessageBoxes [];
    let svgSize := parseForWidthAndHeight svgOutline in
    let '(outlineInvalidCount, outlineGerber) :=
      convert svgOutline (bool_decide (boardLayers = 2%Z)) "contour" ForOutline
              (scaleSize svgSize StandardFritzingDPI) in
    saveEnd "contour" exportDir prefix OutlineSuffix displayMessageBoxes outlineGerber ;;
    doDrill board prefix exportDir displayMessageBoxes ;;
    reportInvalid outlineInvalidCount silkInvalidCount copperInvalidCount
                  maskInvalidCount pasteMaskInvalidCount displayMessageBoxes.

(** [exportToGerber]: the board given, or the selected one. *)
Definition exportToGerber (prefix exportDir : string) (board : option Board)
    (displayMessageBoxes : bool) : Traced unit :=
  match board with
  | Some board => exportBoard prefix exportDir board displayMessageBoxes
  | None =>
      let '(board, boardCount) := findSelectedBoard in
      if bool_decide (boardCount = 0%Z) then emit (Displayed (DebugLog "board not found"))
      else match board with
           | None => emit (Displayed (DebugLog "multiple boards found"))
           | Some board => exportBoard prefix exportDir board displayMessageBoxes
           end
  end.

(** *** The export sequence, layer by layer *)

Inductive Layer :=
  | CopperBottom | CopperTop | MaskBottom | MaskTop | PasteMaskBottom | PasteMaskTop
  | SilkTop | SilkBottom | Outline | Drill.

#[global] Instance Layer_eq_dec : EqDecision Layer.
Proof. solve_decision. Defined.

(** The layers in the order [exportToGerber] takes them. *)
Definition exportSequence : list Layer :=
  if bool_decide (boardLayers = 2%Z) then
    [CopperBottom; CopperTop; MaskBottom; MaskTop; PasteMaskBottom; PasteMaskTop;
     SilkTop; SilkBottom; Outline; Drill]
  else
    [CopperBottom; MaskBottom; PasteMaskBottom; SilkTop; SilkBottom; Outline; Drill].

(** The layers after the first occurrence of a layer in a sequence. *)
Fixpoint remainingAfter (layer : Layer) (sequence : list Layer) : list Layer :=
  match sequence with
  | [] => []
  | l :: rest => if decide (l = layer) then rest else remainingAfter layer rest
  end.

(** The view layers a layer is rendered from, and what is hidden then. *)
Definition layerView (layer : Layer) : list ViewLayerID * Hidden :=
  match layer with
  | CopperBottom => (copperLayers NewBottom, NothingHidden)
  | CopperTop => (copperLayers NewTop, NothingHidden)
  | MaskBottom => (maskLayers NewBottom, CopperLogoItems)
  | MaskTop => (maskLayers NewTop, CopperLogoItems)
  | PasteMaskBottom => (maskLayers NewBottom, CopperLogoItemsAndHoles)
  | PasteMaskTop => (maskLayers NewTop, CopperLogoItemsAndHoles)
  | SilkTop => (silkLayers NewTop, NothingHidden)
  | SilkBottom => (silkLayers NewBottom, NothingHidden)
  | Outline => (outlineLayers, NothingHidden)
  | Drill => (drillLayers, NothingHidden)
  end.

Definition rendering (layer : Layer) : Event :=
  Rendered (layerView layer).1 (layerView layer).2.

(** "Rendering that layer produces nothing": the test [empty || svg.isEmpty()]. *)
Definition rendersEmpty (board : Board) (layer : Layer) : bool :=
  let '(svg, empty) := renderToSVG board (layerView layer).2 (layerView layer).1 in
  empty || isEmpty svg.

Definition layerSuffix (layer : Layer) : string :=
  match layer with
  | CopperBottom => CopperBottomSuffix
  | CopperTop => CopperTopSuffix
  | MaskBottom => MaskBottomSuffix
  | MaskTop => MaskTopSuffix
  | PasteMaskBottom => PasteMaskBottomSuffix
  | PasteMaskTop => PasteMaskTopSuffix
  | SilkTop => SilkTopSuffix
  | SilkBottom => SilkBottomSuffix
  | Outline => OutlineSuffix
  | Drill => DrillSuffix
  end.

Definition layerFile (prefix exportDir : string) (layer : Layer) : string :=
  exportDir +:+ "/" +:+ prefix +:+ layerSuffix layer.

(** The text each layer displays when its rendering is empty. *)
Definition emptyDiagnostic (layer : Layer) : string :=
  match layer with
  | CopperBottom => "Copper0 layer export is empty."
  | CopperTop => "Copper1 layer export is empty."
  | MaskBottom => "exported mask layer Mask0 is empty"
  | MaskTop => "exported mask layer Mask1 is empty"
  | PasteMaskBottom | PasteMaskTop => "exported paste mask layer is empty"
  | SilkTop => "silk layer Silk1 export is empty"
  | SilkBottom => "silk layer Silk0 export is empty"
  | Outline => "outline is empty"
  | Drill => "exported drill file is empty"
  end.

(** The guard of [doSilk]: an empty silk layer is reported only when its
    view layers include [Silkscreen1]. *)
Definition silentWhenEmpty (layer : Layer) : bool :=
  match layer with
  | SilkTop | SilkBottom => negb (bool_decide (Silkscreen1 ∈ (layerView layer).1))
  | _ => false
  end.

(** The events of one export of a board. *)
Definition exportEvents (prefix exportDir : string) (board : Board)
    (displayMessageBoxes : bool) : list Event :=
  (exportBoard prefix exportDir board displayMessageBoxes).2.

(** The rule of section 4.4 as it is written: whichever layer of the
    sequence renders empty gets its diagnostic, gets no file, and does not
    keep the layers after it from being rendered. *)
Definition emptyLayersAreSkipped (prefix exportDir : string) (board : Board)
    (displayMessageBoxes : bool) : Prop :=
  ∀ layer, layer ∈ exportSequence → rendersEmpty board layer = true →
    displayed displayMessageBoxes (emptyDiagnostic layer)
      ∈ exportEvents prefix exportDir board displayMessageBoxes
    ∧ (∀ content, Written (layerFile prefix exportDir layer) content
                    ∉ exportEvents prefix exportDir board displayMessageBoxes)
    ∧ (∀ later, later ∈ remainingAfter layer exportSequence →
                rendering later ∈ exportEvents prefix exportDir board displayMessageBoxes).

(** *** How one layer shows in the events, used to reason about the export *)

(** The events of one layer: its rendering first; when that is empty only
    the diagnostic (or nothing, under the guard of [doSilk]); a file is
    written, to the layer's own name, only when it is not empty. *)
Definition layerSegment (prefix exportDir : string) (board : Board)
    (displayMessageBoxes : bool) (layer : Layer) (events : list Event) : Prop :=
  ∃ rest,
    events = rendering layer :: rest
    ∧ (rendersEmpty board layer = true →
       rest = if silentWhenEmpty layer then []
              else [displayed displayMessageBoxes (emptyDiagnostic layer)])
    ∧ (∀ outname content, Written outname content ∈ rest →
       outname = layerFile prefix exportDir layer ∧ rendersEmpty board layer = false).

Definition optionalSegment (prefix exportDir : string) (board : Board)
    (displayMessageBoxes : bool) (layer : Layer) (events : list Event) : Prop :=
  if bool_decide (boardLayers = 2%Z)
  then layerSegment prefix exportDir board displayMessageBoxes layer events
  else events = [].

(** The outline and what follows it: the rendering; when that is empty
    only the diagnostic; otherwise the contour file at most, then the
    drill layer, then no more files. *)
Definition outlineTail (prefix exportDir : string) (board : Board)
    (displayMessageBoxes : bool) (events : list Event) : Prop :=
  ∃ rest,
    events = rendering Outline :: rest
    ∧ (rendersEmpty board Outline = true →
       rest = [displayed displayMessageBoxes (emptyDiagnostic Outline)])
    ∧ (rendersEmpty board Outline = false →
       ∃ contour drill report,
         rest = (contour ++ drill ++ report)%list
         ∧ (∀ outname content, Written outname content ∈ contour →
                               outname = layerFile prefix exportDir Outline)
         ∧ layerSegment prefix exportDir board displayMessageBoxes Drill drill
         ∧ (∀ outname content, Written outname content ∉ report)).

(** A list of events cut into consecutive segments, one per property. *)
Fixpoint segmented (parts : list (list Event → Prop)) (events : list Event) : Prop :=
  match parts with
  | [] => events = []
  | part :: parts' =>
      ∃ segment rest, events = (segment ++ rest)%list ∧ part segment ∧ segmented parts' rest
  end.

Definition pickAndPlaceSegment (prefix exportDir : string) (events : list Event) : Prop :=
  ∀ outname content, Written outname content ∈ events →
                     outname = exportDir +:+ "/" +:+ prefix +:+ PickAndPlaceSuffix.

(** The events of an export: the pick-and-place file, one segment per
    layer, and the outline with what follows it. *)
Definition exportShape (prefix exportDir : string) (board : Board)
    (displayMessageBoxes : bool) : list (list Event → Prop) :=
  [ pickAndPlaceSegment prefix exportDir;
    layerSegment prefix exportDir board displayMessageBoxes CopperBottom;
    optionalSegment prefix exportDir board displayMessageBoxes CopperTop;
    layerSegment prefix exportDir board displayMessageBoxes MaskBottom;
    optionalSegment prefix exportDir board displayMessageBoxes MaskTop;
    layerSegment prefix exportDir board displayMessageBoxes PasteMaskBottom;
    optionalSegment prefix exportDir board displayMessageBoxes PasteMaskTop;
    layerSegment prefix exportDir board displayMessageBoxes SilkTop;
    layerSegment prefix exportDir board displayMessageBoxes SilkBottom;
    outlineTail prefix exportDir board displayMessageBoxes ].

(** The export gets to every layer up to the outline; that it gets to the
    drill layer is stated only for an outline that is not empty. *)
Definition reached (board : Board) (layer : Layer) : Prop :=
  layer = Drill → rendersEmpty board Outline = false.

End WithCollaborators.
End Pipeline.

(** ** Raster images: collision test, clip mask, run-length paths *)

Module Raster.

(** [QRgb], and the two colours of a [QImage::Format_Mono] image with the
    colour table Qt gives it (index 0 black, index 1 white). *)
Definition QRgb := N.
Definition white : QRgb := 4294967295%N.
Definition black : QRgb := 4278190080%N.

Definition monoColor (index : N) : QRgb :=
  if (index =? 0)%N then black else white.

(** What the generator reads of a [QImage]: [width()], [height()] and
    [pixel(x, y)]. *)
Record QImage := {
  width : nat;
  height : nat;
  pixel : Z → Z → QRgb
}.

(** [image.setPixel(x, y, index)] on a mono image. *)
Definition setPixel (image : QImage) (x y : Z) (index : N) : QImage :=
  {| width := width image; height := height image;
     pixel := λ x' y', if decide (x' = x ∧ y' = y) then monoColor index
                       else pixel image x' y' |}.

(** The inner loop of [pixelsCollide] from column [x], with the number of
    columns still to visit. *)
Fixpoint collideInRow (image1 image2 : QImage) (y x : Z) (columns : nat) : bool :=
  match columns with
  | O => false
  | S columns' =>
      if (pixel image1 x y =? white)%N then collideInRow image1 image2 y (x + 1) columns'
      else if (pixel image2 x y =? white)%N then collideInRow image1 image2 y (x + 1) columns'
      else true
  end.

(** The outer loop from row [y]. *)
Fixpoint collideInRows (image1 image2 : QImage) (x1 x2 y : Z) (rows : nat) : bool :=
  match rows with
  | O => false
  | S rows' =>
      if collideInRow image1 image2 y x1 (Z.to_nat (x2 - x1)) then true
      else collideInRows image1 image2 x1 x2 (y + 1) rows'
  end.

(** [pixelsCollide] (lines 60-76). *)
Definition pixelsCollide (image1 image2 : QImage) (x1 y1 x2 y2 : Z) : bool :=
  collideInRows image1 image2 x1 x2 y1 (Z.to_nat (y2 - y1)).

(** Lines 752-758: the pixels of the board area that the clip image does
    not leave white are set to index 0. *)
Fixpoint maskRow (clipImage : QImage) (y x : Z) (columns : nat) (image : QImage) : QImage :=
  match columns with
  | O => image
  | S columns' =>
      let image := if negb (pixel clipImage x y =? white)%N then setPixel image x y 0
                   else image in
      maskRow clipImage y (x + 1) columns' image
  end.

Fixpoint maskRows (clipImage : QImage) (twidth : nat) (y : Z) (rows : nat) (image : QImage)
  : QImage :=
  match rows with
  | O => image
  | S rows' => maskRows clipImage twidth (y + 1) rows' (maskRow clipImage y 0 twidth image)
  end.

Definition maskByClip (clipImage : QImage) (twidth theight : nat) (image : QImage) : QImage :=
  maskRows clipImage twidth 0 theight image.

(** What [makePath] appends to [paths]: the text of one run of white
    pixels, from [whiteStart] to [whiteEnd] in row [y], or a line break. *)
Inductive Chunk :=
  | Segment (whiteStart y whiteEnd : Z)
  | LineBreak.

#[global] Instance Chunk_eq_dec : EqDecision Chunk.
Proof. solve_decision. Defined.

Record ScanState := {
  paths : list Chunk;
  lineCount : nat
}.

Definition unknownMaxLineCount : nat := 10.

(** Lines 868-873 and 886-891: the segment is appended, and a line break
    after every [unknownMaxLineCount] segments. *)
Definition closeSegment (whiteStart y whiteEnd : Z) (st : ScanState) : ScanState :=
  let paths := paths st ++ [Segment whiteStart y whiteEnd] in
  if decide (S (lineCount st) = unknownMaxLineCount)
  then {| paths := paths ++ [LineBreak]; lineCount := 0 |}
  else {| paths := paths; lineCount := S (lineCount st) |}.

(** The loop over the columns of row [y] (lines 858-884) from column [x]:
    [inWhite], [whiteStart] and the text so far. *)
Fixpoint scanRow (image : QImage) (y x : Z) (columns : nat) (inWhite : bool)
    (whiteStart : Z) (st : ScanState) : bool * Z * ScanState :=
  match columns with
  | O => (inWhite, whiteStart, st)
  | S columns' =>
      let current := pixel image x y in
      if inWhite then
        if (current =? white)%N then scanRow image y (x + 1) columns' true whiteStart st
        else scanRow image y (x + 1) columns' false whiteStart
                     (closeSegment whiteStart y (x - 1) st)
      else
        if negb (current =? white)%N then scanRow image y (x + 1) columns' false whiteStart st
        else scanRow image y (x + 1) columns' true x st
  end.

(** One row (lines 856-892). *)
Definition scanLine (image : QImage) (y : Z) (st : ScanState) : ScanState :=
  let '(inWhite, whiteStart, st) := scanRow image y 0 (width image) false 0 st in
  if inWhite then closeSegment whiteStart y (Z.of_nat (width image) - 1) st else st.

Fixpoint scanLines (image : QImage) (y : Z) (rows : nat) (st : ScanState) : ScanState :=
  match rows with
  | O => st
  | S rows' => scanLines image (y + 1) rows' (scanLine image y st)
  end.

(** The chunks of [paths] when the loops are through. *)
Definition pathChunks (image : QImage) : list Chunk :=
  paths (scanLines image 0 (height image) {| paths := []; lineCount := 0 |}).

Definition newline : string := String (ascii_of_nat 10) "".

Section WithNumbers.
Context {numbers : QtNumbers}.

(** [QString("M%1,%2L%3,%2 ").arg(whiteStart + halfUnit).arg(y + halfUnit)
    .arg(whiteEnd + halfUnit)]; [arg] formats a double as [QString::number]
    does. *)
Definition chunkText (unit : double) (chunk : Chunk) : string :=
  let halfUnit := (unit / 2)%Q in
  match chunk with
  | Segment whiteStart y whiteEnd =>
      "M" +:+ number (inject_Z whiteStart + halfUnit)%Q +:+ ","
          +:+ number (inject_Z y + halfUnit)%Q +:+ "L"
          +:+ number (inject_Z whiteEnd + halfUnit)%Q +:+ ","
          +:+ number (inject_Z y + halfUnit)%Q +:+ " "
  | LineBreak => newline
  end.

(** [makePath] (lines 850-897), for a colour string without place
    markers. *)
Definition makePath (image : QImage) (unit : double) (colorString : string) : string :=
  let paths := String.concat "" (chunkText unit <$> pathChunks image) in
  let path := "<path fill='none' stroke='" +:+ colorString +:+ "' stroke-width='"
              +:+ number unit +:+ "' stroke-linecap='square' d='" in
  path +:+ paths +:+ "' />" +:+ newline.

End WithNumbers.

(** A run of white pixels of a row that cannot be extended on either side. *)
Definition whiteAt (image : QImage) (x y : Z) : Prop := pixel image x y = white.

Definition maximalRun (image : QImage) (whiteStart y whiteEnd : Z) : Prop :=
  (0 ≤ y < Z.of_nat (height image))%Z
  ∧ (0 ≤ whiteStart ≤ whiteEnd)%Z ∧ (whiteEnd < Z.of_nat (width image))%Z
  ∧ (∀ x, (whiteStart ≤ x ≤ whiteEnd)%Z → whiteAt image x y)
  ∧ (whiteStart = 0%Z ∨ ¬ whiteAt image (whiteStart - 1) y)
  ∧ (whiteEnd = (Z.of_nat (width image) - 1)%Z ∨ ¬ whiteAt image (whiteEnd + 1) y).

(** A white pixel lies on a segment of the text. *)
Definition covered (chunks : list Chunk) (x y : Z) : Prop :=
  ∃ whiteStart whiteEnd, Segment whiteStart y whiteEnd ∈ chunks ∧ (whiteStart ≤ x ≤ whiteEnd)%Z.

Definition allMaximal (image : QImage) (chunks : list Chunk) : Prop :=
  ∀ whiteStart y whiteEnd, Segment whiteStart y whiteEnd ∈ chunks →
                           maximalRun image whiteStart y whiteEnd.

(** What the loop over the columns of row [y] knows before column [x]:
    used to reason about [scanRow]. *)
Definition rowInvariant (image : QImage) (y : Z) (base : list Chunk) (x : Z)
    (inWhite : bool) (whiteStart : Z) (st : ScanState) : Prop :=
  (inWhite = true →
   (0 ≤ whiteStart < x)%Z ∧ (∀ x', (whiteStart ≤ x' < x)%Z → whiteAt image x' y)
   ∧ (whiteStart = 0%Z ∨ ¬ whiteAt image (whiteStart - 1) y))
  ∧ (inWhite = false → x = 0%Z ∨ ¬ whiteAt image (x - 1) y)
  ∧ allMaximal image (paths st)
  ∧ (∀ x', (0 ≤ x' < x)%Z → whiteAt image x' y →
           (inWhite = true ∧ (whiteStart ≤ x')%Z) ∨ covered (paths st) x' y)
  ∧ (∀ chunk, chunk ∈ base → chunk ∈ paths st).

(** What the text knows of the line breaks: after [lineCount] segments
    since the last one, they stand at the places 10, 21, 32, ... *)
Definition breakInvariant (st : ScanState) : Prop :=
  lineCount st < unknownMaxLineCount
  ∧ (∃ q, length (paths st) = 11 * q + lineCount st)
  ∧ (∀ i chunk, paths st !! i = Some chunk → chunk = LineBreak ↔ ∃ q, i = 11 * q + 10).

End Raster.

(** ** Clipping by the clip image, and the document to rasterize *)

Module ImageClip.
Import QStr Geometry Clipper.

(** [qMax(a, b)] and [qMin(a, b)], and the conversion of a [double] to
    [int], which drops the fraction. *)
Definition qMax (a b : double) : double := if Qltb a b then b else a.
Definition qMin (a b : double) : double := if Qltb a b then a else b.
Definition toInt (a : double) : Z := if Qltb a 0%Q then Qceiling a else Qfloor a.

(** Lines 621-624: the bounds of a leaf as a window of pixels of the board
    area, [x1], [y1], [x2], [y2]. *)
Definition window (mBounds sourceRes : QRectF) : Z * Z * Z * Z :=
  (Qfloor (qMax 0%Q (left mBounds - left sourceRes)%Q),
   Qfloor (qMax 0%Q (top mBounds - top sourceRes)%Q),
   Qceiling (qMin (width sourceRes) (right mBounds - left sourceRes)%Q),
   Qceiling (qMin (height sourceRes) (bottom mBounds - top sourceRes)%Q)).

(** [source.moveTo(0, 0)] of the overload of [clipToBoard] that takes the
    board (lines 371-375). *)
Definition moveTo (x y : double) (r : QRectF) : QRectF :=
  {| left := x; top := y; width := width r; height := height r |}.

Definition boardSource (sceneBoundingRect : QRectF) : QRectF :=
  moveTo 0%Q 0%Q sceneBoundingRect.

Section WithCollaborators.
Context {numbers : QtNumbers} {graphics : GraphicsUtils} {rounding : DoubleRounding}.
Variable intNumber : Z → string.
Variable QTransform : Type.
Variable boundsOnElement : QDomDocument → string → QRectF.
Variable transformForElement : QDomDocument → string → QTransform.
Variable mapRect : QTransform → QRectF → QRectF.

(** The document, [anyClipped] and [anyConverted]. *)
Definition ImageClipState : Type := QDomDocument * bool * bool.

(** One turn of the loop of lines 609-630.  The renderer and the image
    [another] were made from the document as it was before the loop
    ([rendered]). *)
Definition clipLeafByImage (rendered : QDomDocument) (another clipImage : Raster.QImage)
    (sourceRes : QRectF) (leaves1 : list Handle) (st : ImageClipState) (i : nat)
  : ImageClipState :=
  match leaves1 !! i with
  | None => st
  | Some element =>
      if bool_decide (tagOf st.1.1 element = "g") then st
      else
        let mBounds :=
          mappedBounds QTransform boundsOnElement transformForElement mapRect rendered
                       (intNumber (Z.of_nat i)) in
        let '(x1, y1, x2, y2) := window mBounds sourceRes in
        if Raster.pixelsCollide another clipImage x1 y1 x2 y2
        then (setTagName element "g" st.1.1, true, true)
        else st
  end.

(** Lines 595-631; without a clip string there is no clip image and
    nothing happens. *)
Definition clipByImage (another : Raster.QImage) (clipImage : option Raster.QImage) (boardRect : QRectF)
    (leaves1 : list Handle) (transformCount1 : nat) (st : ImageClipState) : ImageClipState :=
  match clipImage with
  | None => st
  | Some clipImage =>
      foldl (clipLeafByImage st.1.1 another clipImage (sourceResOf boardRect) leaves1)
            st (seq 0 transformCount1)
  end.

(** One turn of the loop of lines 639-647: what document 1 still draws is
    taken out of document 2. *)
Definition syncLeaf (domDocument1 : QDomDocument) (leaves1 leaves2 : list Handle)
    (domDocument2 : QDomDocument) (i : nat) : QDomDocument :=
  match leaves1 !! i, leaves2 !! i with
  | Some element1, Some element2 =>
      if bool_decide (tagOf domDocument1 element1 ≠ "g")
      then setTagName element2 "g" domDocument2
      else domDocument2
  | _, _ => domDocument2
  end.

Definition syncRaster (domDocument1 : QDomDocument) (leaves1 leaves2 : list Handle)
    (transformCount1 : nat) (domDocument2 : QDomDocument) : QDomDocument :=
  foldl (syncLeaf domDocument1 leaves1 leaves2) domDocument2 (seq 0 transformCount1).

(** Lines 650-660: the document element of document 2 gets the size of
    the image, and a view box that starts where the board does.
    [coords[0]] and [coords[1]] on a shorter list are failed assertions. *)
Definition expandToImage (boardRect : QRectF) (root2 : Handle) (domDocument2 : QDomDocument)
  : Outcome QDomDocument :=
  let sourceRes := sourceResOf boardRect in
  let twidth := toInt (width sourceRes) in
  let theight := toInt (height sourceRes) in
  let doc := setAttribute root2 "width" (intNumber twidth +:+ "px") domDocument2 in
  let doc := setAttribute root2 "height" (intNumber theight +:+ "px") doc in
  if negb (Qeq_bool (left boardRect) 0%Q) || negb (Qeq_bool (top boardRect) 0%Q) then
    let viewBox := attribute doc root2 "viewBox" in
    match split CaseSensitive " " viewBox with
    | _ :: _ :: rest =>
        let coords := number (left sourceRes) :: number (top sourceRes) :: rest in
        Returns (setAttribute root2 "viewBox" (String.concat " " coords) doc)
    | _ => Crashes
    end
  else Returns doc.

End WithCollaborators.

Section WithOutlineMerger.
Import Dom.
(** [mergeOutlineElement], by what it makes of [svgString]: the document
    as it is at the call is rendered, its outline is scanned and the
    result merged into the string. *)
Variable mergeOutlineElement : QDomElement → string → nat → string.

(** The document, [svgString], and the documents that were rendered. *)
Definition OutlineState : Type := QDomElement * string * list QDomElement.

(** One turn of the loop of lines 682-689. *)
Definition isolateStep (paths : list Addr) (st : OutlineState) (p : nat) : OutlineState :=
  let '(root2, svgString, rendered) := st in
  match paths !! p with
  | None => st
  | Some path =>
      let root2 := modify (Dom.setTagName "path") path root2 in
      let root2 :=
        if decide (0 < p) then
          match paths !! (p - 1) with
          | Some previous => modify (Dom.setTagName "g") previous root2
          | None => root2
          end
        else root2 in
      (root2, mergeOutlineElement root2 svgString p, rendered ++ [root2])
  end.

(** Lines 671-691 for the outline; retagging does not invalidate the node
    list, which is read once. *)
Definition mergeOutline (root2 : QDomElement) (svgString : string) : OutlineState :=
  let paths := elementsByTagName root2 "path" in
  match paths with
  | [] => (root2, mergeOutlineElement root2 svgString 0, [root2])
  | _ => foldl (isolateStep paths) (squashAll paths root2, svgString, [])
               (seq 0 (length paths))
  end.

(** A document in which, of the paths of [root2], only [current] is still
    a path, the others being squashed; nothing else differs from [root2]. *)
Definition alone (root2 : QDomElement) (current : option Addr) (doc : QDomElement) : Prop :=
  ∀ a, attrsAt doc a = attrsAt root2 a
       ∧ tagAt doc a = if decide (current = Some a) then Some "path"
                       else if decide (a ∈ elementsByTagName root2 "path") then Some "g"
                       else tagAt root2 a.

End WithOutlineMerger.
End ImageClip.

(** ** The outline is reduced to the board outline *)

Module OutlineCleaner.
Import QStr Clipper.

Definition MagicBoardOutlineID : string := "boardoutline".

(** Lines 803-805: the first leaf whose id is the board outline's. *)
Definition isBoardOutline (doc : QDomDocument) (leaf : Handle) : bool :=
  bool_decide (default "" (doc !! leaf ≫= λ node, attributes node !! "id")
               = MagicBoardOutlineID).

Fixpoint findBoardOutline (doc : QDomDocument) (leaves : list Handle) (i : nat) : option nat :=
  match leaves with
  | [] => None
  | leaf :: later =>
      if isBoardOutline doc leaf then Some i else findBoardOutline doc later (S i)
  end.

(** Lines 806-811, from the leaf number [j]: every leaf but the one
    numbered [i] is taken out of its parent.  Among several leaves none is
    the document element; a leaf without a parent element is left alone
    here. *)
Fixpoint removeOtherLeaves (leaves : list Handle) (j i : nat) (doc : QDomDocument)
  : QDomDocument :=
  match leaves with
  | [] => doc
  | jleaf :: later =>
      removeOtherLeaves later (S j) i
        (if decide (i ≠ j) then removeFromParent jleaf doc else doc)
  end.

Section WithSerializer.
(** [doc.toString()] *)
Variable toString : QDomDocument → string.

(** [cleanOutline] (lines 787-821) on the parsed [outlineSvg]; [leaves]
    are the leaves that [TextUtils::collectLeaves] finds, followed by the
    text elements. *)
Definition cleanOutline (outlineSvg : string) (doc : QDomDocument) (leaves : list Handle)
  : string :=
  match leaves with
  | [] => ""
  | [_] => outlineSvg
  | _ =>
      match findBoardOutline doc leaves 0 with
      | Some i => toString (removeOtherLeaves leaves 0 i doc)
      | None => outlineSvg
      end
  end.

End WithSerializer.
End OutlineCleaner.

(** ** Pick-and-place: the description column *)

Module PickAndPlaceRows.
Import QStr.

Definition valueKeys : list string :=
  ["resistance"; "capacitance"; "inductance"; "voltage"; "current"; "power"; "mpn"; "mn"].

(** [s.replace(before, after)] for one-character strings. *)
Fixpoint replaceChar (before after : ascii) (s : string) : string :=
  match s with
  | EmptyString => EmptyString
  | String c s' => String (if Ascii.eqb c before then after else c) (replaceChar before after s')
  end.

(** [s.toLower()] on the ASCII range. *)
Fixpoint lower (s : string) : string :=
  match s with
  | EmptyString => EmptyString
  | String c s' => String (toLower c) (lower s')
  end.

(** Lines 1063-1071: for each key the local property of the part or, when
    that is empty, its property ([QHash::value], empty for a missing
    key), each followed by ";"; then every comma becomes "_". *)
Definition description (localProp : string → string) (properties : gmap string string)
  : string :=
  replaceChar "," "_"
    (foldl (λ description valueKey,
              let prop := localProp valueKey in
              let prop := if isEmpty prop then default "" (properties !! valueKey) else prop in
              description +:+ prop +:+ ";")
           "" valueKeys).

End PickAndPlaceRows.

(** ** What an export leaves behind *)

Module ExportFiles.
Import QStr Pipeline.

Section WithCollaborators.
Context {collaborators : Collaborators}.

(** The names of the files written, in the order of the writes. *)
Definition writtenFiles (events : list Event) : list string :=
  omap (λ event, match event with Written outname _ => Some outname | _ => None end) events.

(** The texts shown in message boxes, in order. *)
Definition messageBoxes (events : list Event) : list string :=
  omap (λ event, match event with Displayed (MessageBox message) => Some message
                             | _ => None end) events.

(** The suffixes in the order [exportToGerber] gets to their files. *)
Definition suffixes : list string :=
  [ PickAndPlaceSuffix; CopperBottomSuffix; CopperTopSuffix; MaskBottomSuffix;
    MaskTopSuffix; PasteMaskBottomSuffix; PasteMaskTopSuffix; SilkTopSuffix;
    SilkBottomSuffix; OutlineSuffix; DrillSuffix ].

Definition outputFile (prefix exportDir suffix : string) : string :=
  exportDir +:+ "/" +:+ prefix +:+ suffix.

Definition outputFiles (prefix exportDir : string) : list string :=
  outputFile prefix exportDir <$> suffixes.

(** Nothing, or the one file, which could be opened. *)
Definition atMost (prefix exportDir suffix : string) (files : list string) : Prop :=
  files = []
  ∨ (files = [outputFile prefix exportDir suffix]
     ∧ canOpen (outputFile prefix exportDir suffix) = true).

(** The files are files of the given suffixes, in that order, each at most
    once, and each could be opened. *)
Definition inOrder (prefix exportDir : string) (among : list string)
    (files : list string) : Prop :=
  files `sublist_of` (outputFile prefix exportDir <$> among)
  ∧ Forall (λ outname, canOpen outname = true) files.

End WithCollaborators.
End ExportFiles.

(** ** What phase A knows of the leaves it has gone through *)

Module PossibleHoles.
Import QStr Geometry Clipper.

Section WithCollaborators.
Context {graphics : GraphicsUtils} {rounding : DoubleRounding}.
Variable intNumber : Z → string.
Variable QTransform : Type.
Variable boundsOnElement : QDomDocument → string → QRectF.
Variable transformForElement : QDomDocument → string → QTransform.
Variable mapRect : QTransform → QRectF → QRectF.
Variables (rendered : QDomDocument) (sourceRes : QRectF) (leaves1 : list Handle).

(** The test of line 542 for the leaf of turn [i]. *)
Definition passes (i : nat) : bool :=
  outside (mappedBounds QTransform boundsOnElement transformForElement mapRect
                        rendered (intNumber (Z.of_nat i))) sourceRes.

(** The element is the leaf of a turn among [indices] that was outside
    the bounds. *)
Definition clippedAt (indices : list nat) (element : Handle) : Prop :=
  ∃ i, i ∈ indices ∧ leaves1 !! i = Some element ∧ passes i = true.

(** What the loop keeps true of its state, after the turns [indices] on
    the document [doc]. *)
Definition holesInvariant (doc : QDomDocument) (indices : list nat) (st : ClipState) : Prop :=
  (∀ element, is_Some (document st !! element) ↔ is_Some (doc !! element))
  ∧ (∀ element, tagOf (document st) element = tagOf doc element
                ∨ (tagOf (document st) element = "g" ∧ clippedAt indices element))
  ∧ (∀ element, clippedAt indices element → is_Some (doc !! element) →
                tagOf (document st) element = "g")
  ∧ (∀ element, element ∈ possibleHoles st
                ↔ clippedAt indices element ∧ tagOf doc element = "circle")
  ∧ NoDup (possibleHoles st)
  ∧ (anyClipped st = true ↔ ∃ element, clippedAt indices element).

End WithCollaborators.
End PossibleHoles.

(** ** Sample collaborators and documents, to run the model on *)

Module Sample.
Import QStr Dom.

(** Plain decimal notation standing in for Qt's number formatting and
    parsing. *)

Definition digitChar (d : Z) : ascii := ascii_of_nat (48 + Z.to_nat d).

Fixpoint showDigits (fuel : nat) (n : Z) (acc : string) : string :=
  match fuel with
  | O => acc
  | S fuel' =>
      let acc' := String (digitChar (n mod 10)) acc in
      if (n <? 10)%Z then acc' else showDigits fuel' (n / 10) acc'
  end.

Definition showNat (n : Z) : string := showDigits (S (Z.to_nat (Z.log2 n))) n "".

Definition showZ (z : Z) : string :=
  if (z <? 0)%Z then "-" +:+ showNat (- z) else showNat z.

(** The fractional digits of [r / d] for [0 <= r < d], at most [k] of them,
    stopping when the remainder vanishes. *)
Fixpoint showFraction (k : nat) (r d : Z) : string :=
  match k with
  | O => ""
  | S k' =>
      if (r =? 0)%Z then ""
      else String (digitChar (10 * r / d)) (showFraction k' ((10 * r) mod d) d)
  end.

Definition showQ (q : Q) : string :=
  let n := Qnum (Qred q) in
  let d := Zpos (Qden (Qred q)) in
  let i := (Z.abs n / d)%Z in
  let r := (Z.abs n mod d)%Z in
  (if (n <? 0)%Z then "-" else "") +:+ showNat i +:+
  (if (r =? 0)%Z then "" else "." +:+ showFraction 6 r d).

Definition digitValue (c : ascii) : option Z :=
  let n := nat_of_ascii c in
  if (48 <=? n)%nat && (n <=? 57)%nat then Some (Z.of_nat (n - 48)) else None.

(** Reads digits: the value so far, how many were read, and the rest. *)
Fixpoint readDigits (s : string) (acc : Z) (count : nat) : Z * nat * string :=
  match s with
  | EmptyString => (acc, count, s)
  | String c s' =>
      match digitValue c with
      | Some d => readDigits s' (10 * acc + d)%Z (S count)
      | None => (acc, count, s)
      end
  end.

Definition readSign (s : string) : bool * string :=
  match s with
  | String "-" s' => (true, s')
  | String "+" s' => (false, s')
  | _ => (false, s)
  end.

(** Decimal notation [-12.5]; anything else reads as 0, as a failed
    [toDouble] does. *)
Definition readQ (s : string) : Q :=
  let '(neg, s1) := readSign s in
  let '(i, ni, s2) := readDigits s1 0 0 in
  let '(f, nf, s3) :=
    match s2 with
    | String "." s' => readDigits s' 0 0
    | _ => (0%Z, 0%nat, s2)
    end in
  if bool_decide (s3 = "") && negb (Nat.eqb (ni + nf) 0) then
    let v := (inject_Z i + inject_Z f / inject_Z (10 ^ Z.of_nat nf))%Q in
    Qred (if neg then - v else v)%Q
  else 0%Q.

Definition readZ (s : string) : Z :=
  let '(neg, s1) := readSign s in
  let '(i, ni, s2) := readDigits s1 0 0 in
  if bool_decide (s2 = "") && negb (Nat.eqb ni 0) then (if neg then - i else i)%Z else 0%Z.

#[export] Instance plainNumbers : QtNumbers :=
  {| number := showQ; toDouble := readQ; toLong := readZ |}.

(** The IEEE 754 double nearest to a rational, ties to even: 53
    significant bits; the limits of the exponent are left out. *)
Definition nearestDouble (q : Q) : Q :=
  let n := Z.abs (Qnum q) in
  let d := Zpos (Qden q) in
  if (n =? 0)%Z then 0%Q
  else
    let e0 := (Z.log2 n - Z.log2 d - 52)%Z in
    let scaled (e : Z) : Z * Z :=
      if (0 <=? e)%Z then (n, d * 2 ^ e)%Z else (n * 2 ^ (- e), d)%Z in
    let e := if ((scaled e0).1 / (scaled e0).2 <? 2 ^ 52)%Z then (e0 - 1)%Z else e0 in
    let '(num, den) := scaled e in
    let m := (num / den)%Z in
    let r := (num mod den)%Z in
    let m' := if (2 * r <? den)%Z then m
              else if (den <? 2 * r)%Z then (m + 1)%Z
              else if Z.even m then m else (m + 1)%Z in
    let v := if (0 <=? e)%Z then inject_Z (m' * 2 ^ e)
             else Qmake m' (Z.to_pos (2 ^ (- e))) in
    Qred (if (Qnum q <? 0)%Z then Qopp v else v).

#[export] Instance binary64 : DoubleRounding := {| fl := nearestDouble |}.

(** Modelled from the spec: [svgpathregex.h] is not part of the generator's
    file.  Section 4.1 names "a curve command" and "multiple closed-contour
    markers"; section 4.1a "the most recent move command's coordinates".
    They are read as: some arc or curve letter occurs; some close marker
    is followed, after optional white space, by further data; the first
    move letter with the two unsigned decimal numbers after it. *)
Fixpoint anyChar (p : ascii → bool) (s : string) : bool :=
  match s with
  | EmptyString => false
  | String c s' => p c || anyChar p s'
  end.

Fixpoint takeWhile (p : ascii → bool) (s : string) : string :=
  match s with
  | EmptyString => EmptyString
  | String c s' => if p c then String c (takeWhile p s') else EmptyString
  end.

Fixpoint dropWhile (p : ascii → bool) (s : string) : string :=
  match s with
  | EmptyString => EmptyString
  | String c s' => if p c then dropWhile p s' else s
  end.

Definition oneOf (letters : string) (c : ascii) : bool :=
  anyChar (Ascii.eqb c) letters.

Definition hasCurve (d : string) : bool := anyChar (oneOf "aAcCqQtTsS") d.

Fixpoint hasMultipleZs (d : string) : bool :=
  match d with
  | EmptyString => false
  | String c d' => (oneOf "zZ" c && negb (isEmpty (trimLeft d'))) || hasMultipleZs d'
  end.

Fixpoint findM (d : string) : string * string * string :=
  match d with
  | EmptyString => ("", "", "")
  | String c d' =>
      if oneOf "mM" c then
        let afterM := trimLeft d' in
        let x := takeWhile (oneOf "0123456789.") afterM in
        let afterX := dropWhile (λ c, isSpace c || oneOf "," c)
                                (dropWhile (oneOf "0123456789.") afterM) in
        (String c "", x, takeWhile (oneOf "0123456789.") afterX)
      else findM d'
  end.

#[export] Instance pathRegex : SvgPathRegex :=
  {| AaCc := hasCurve; MultipleZs := hasMultipleZs; MFinder := findM |}.

(** No transform counts as scaling except one written with "scale" or
    "matrix"; enough to run the cleaner on the sample documents. *)
Definition scaleByName (transformString : string) : bool :=
  contains CaseSensitive transformString "scale"
  || contains CaseSensitive transformString "matrix".

Definition attrsOf (l : list (string * string)) : gmap string string :=
  list_to_map l.

(** A board with one drill hole (a non-connector circle without stroke) and
    one pad. *)
Definition holesDocument : QDomElement :=
  Element "svg" (attrsOf [("width", "1in")])
    [ Element "g" (attrsOf [("id", "copper0")])
        [ Element "circle" (attrsOf [("id", "nonconn0"); ("cx", "50"); ("cy", "50");
                                     ("r", "10"); ("stroke-width", "0")]) [];
          Element "circle" (attrsOf [("id", "connector0pin"); ("cx", "20"); ("cy", "20");
                                     ("r", "10"); ("stroke-width", "5")]) [] ] ].

(** Only Gerber-safe primitives. *)
Definition safeDocument : QDomElement :=
  Element "svg" (attrsOf [("width", "1in")])
    [ Element "g" (attrsOf [("transform", "translate(3,4)")])
        [ Element "rect" (attrsOf [("x", "0"); ("y", "0"); ("width", "5"); ("height", "5");
                                   ("stroke-dasharray", "none")]) [];
          Element "circle" (attrsOf [("cx", "20"); ("cy", "20"); ("r", "10")]) [];
          Element "line" (attrsOf [("x1", "0"); ("y1", "0"); ("x2", "9"); ("y2", "9")]) [];
          Element "path" (attrsOf [("d", "M0,0 L10,0 L10,10 z")]) [] ] ].

(** A renderer that drops pixels on its second try: images are stood for
    by their pixel sums, the digest by the decimal notation of the sum. *)
Definition flakyRender (k : nat) : nat :=
  match k with
  | 1 => 41
  | _ => 42
  end.

Definition digest (image : nat) : string := showZ (Z.of_nat image).

(** A two-layer board with copper and mask content, nothing on the
    silkscreens and no outline; every file can be written.  The layer
    tables follow the names of the generator's layers. *)
Inductive SampleLayer :=
  | BoardLayer | Copper0Layer | Copper0TraceLayer | Copper1Layer | Copper1TraceLayer
  | Silkscreen0Layer | Silkscreen0LabelLayer | Silkscreen1Layer | Silkscreen1LabelLayer.

#[global] Instance SampleLayer_eq_dec : EqDecision SampleLayer.
Proof. solve_decision. Defined.

Definition sampleRender (layers : list SampleLayer) : string * bool :=
  if bool_decide (Copper0Layer ∈ layers) || bool_decide (Copper1Layer ∈ layers)
  then ("<svg><rect width='5' height='5'/></svg>", false)
  else ("", true).

Definition bareBoard : Pipeline.Collaborators :=
  {| Pipeline.ViewLayerID := SampleLayer;
     Pipeline.Silkscreen1 := Silkscreen1Layer;
     Pipeline.copperLayers placement :=
       match placement with
       | Pipeline.NewBottom => [Copper0Layer; Copper0TraceLayer]
       | Pipeline.NewTop => [Copper1Layer; Copper1TraceLayer]
       end;
     Pipeline.maskLayers placement :=
       match placement with
       | Pipeline.NewBottom => [Copper0Layer]
       | Pipeline.NewTop => [Copper1Layer]
       end;
     Pipeline.silkLayers placement :=
       match placement with
       | Pipeline.NewBottom => [Silkscreen0Layer; Silkscreen0LabelLayer]
       | Pipeline.NewTop => [Silkscreen1Layer; Silkscreen1LabelLayer]
       end;
     Pipeline.outlineLayers := [BoardLayer];
     Pipeline.drillLayers :=
       [Copper0Layer; Copper0TraceLayer; Copper1Layer; Copper1TraceLayer];
     Pipeline.Board := unit;
     Pipeline.findSelectedBoard := (Some (), 1%Z);
     Pipeline.boardLayers := 2%Z;
     Pipeline.renderToSVG _ _ layers := sampleRender layers;
     Pipeline.collidingItems _ := [];
     Pipeline.parseForWidthAndHeight _ := (1%Q, 1%Q);
     Pipeline.expandAndFill svg _ _ := svg;
     Pipeline.makePasteMask svg _ _ _ := svg;
     Pipeline.pickAndPlaceText _ _ := "RefDes,Description,Package,X,Y,Rotation,Side,Mount";
     Pipeline.convert svg _ layerName _ _ := (0%Z, "G04 " +:+ layerName +:+ "*");
     Pipeline.canOpen _ := true |}.

Definition fritzingDPI : GraphicsUtils :=
  {| StandardFritzingDPI := 1000%Q; SVGDPI := 90%Q |}.

(** A clipper that lets everything through, and an outline cleaner that
    changes nothing. *)
Definition passThrough (svgString : string) (board : unit) (layerName : string)
    (forWhy : ForWhy) (clipString : string) (displayMessageBoxes : bool)
    (treatAsCircle : Connectors.TreatAsCircle)
  : string * list Display := (svgString, []).

Definition bareBoardEvents : list (Pipeline.Event (collaborators := bareBoard)) :=
  Pipeline.exportEvents (graphics := fritzingDPI) (collaborators := bareBoard)
    passThrough id "demo" "out" () false.

(** Board outlines: one path in the board group. *)
Definition outlineDocument (d : string) : QDomElement :=
  Element "svg" (attrsOf [("width", "1in")])
    [ Element "g" (attrsOf [("id", "board")])
        [ Element "path" (attrsOf [("id", "boardoutline"); ("d", d)]) [] ] ].

(** A square with two cutouts, written with absolute moves and without a
    final close marker. *)
Definition openCutouts : string := "M0,0L9,0L9,9zM2,2L3,2L3,3zM5,5L6,5L6,6".

(** The same shape with relative moves and a final close marker. *)
Definition relativeCutouts : string :=
  "M0,0 l9,0 l0,9 z m2,2 l1,0 l0,1 z m3,3 l1,0 l0,1 z".

(** A cutout drawn as a second contour without its own move command. *)
Definition malformedCutouts : string := "M0,0 l9,0 l0,9 z l2,2 l1,0 l0,1 z".

(** The [d] attributes of the paths of a document, in document order. *)
Definition pathData (root : QDomElement) : list string :=
  (λ a, from_option (λ e, attribute e "d") "" (nodeAt root a))
    <$> elementsByTagName root "path".

(** A part with one pad drawn as a donut path, and the connector of that
    pad: radius 9 and stroke width 4.5 in pixels. *)
Definition donutDocument : QDomElement :=
  Element "svg" (attrsOf [("width", "1in")])
    [ Element "g" (attrsOf [("partID", "7")])
        [ Element "path"
            (attrsOf [("id", "connector0pin");
                      ("d", "M50,41a9,9 0 1 0 0.01,0z M50,45a5,5 0 1 1 -0.01,0z")]) [] ] ].

Definition padConnector : Connectors.ConnectorItem :=
  {| Connectors.attachedToID := 7; Connectors.svgId := "connector0pin";
     Connectors.isPath := true; Connectors.radius := 9%Q;
     Connectors.strokeWidth := (9 # 2)%Q |}.

(** A part with two pads drawn as donut paths, and the connector of the
    second pad. *)
Definition twoPadsDocument : QDomElement :=
  Element "svg" (attrsOf [("width", "1in")])
    [ Element "g" (attrsOf [("partID", "7")])
        [ Element "path"
            (attrsOf [("id", "connector0pin");
                      ("d", "M50,41a9,9 0 1 0 0.01,0z M50,45a5,5 0 1 1 -0.01,0z")]) [];
          Element "path"
            (attrsOf [("id", "connector1pin");
                      ("d", "M150,41a9,9 0 1 0 0.01,0z M150,45a5,5 0 1 1 -0.01,0z")]) [] ] ].

Definition secondPad : Connectors.ConnectorItem :=
  {| Connectors.attachedToID := 7; Connectors.svgId := "connector1pin";
     Connectors.isPath := true; Connectors.radius := 9%Q;
     Connectors.strokeWidth := (9 # 2)%Q |}.

(** A renderer that finds every element in one given box. *)
Definition boxRenderer (box : Geometry.QRectF) (document : QDomElement) (id : string)
  : Geometry.QRectF := box.

Definition padBox : Geometry.QRectF :=
  {| Geometry.left := 39%Q; Geometry.top := 39%Q;
     Geometry.width := 22%Q; Geometry.height := 22%Q |}.

(** A renderer that knows circles: the bounds of the circle with the given
    id are the square around its centre that holds its stroke; no element
    is transformed. *)
Definition circleBounds (document : Clipper.QDomDocument) (id : string) : Geometry.QRectF :=
  match List.find (λ entry, bool_decide (Clipper.attributes entry.2 !! "id" = Some id))
                  (map_to_list document) with
  | Some (element, node) =>
      let value name := readQ (Clipper.attribute document element name) in
      let reach := (value "r" + value "stroke-width" / 2)%Q in
      if bool_decide (Clipper.tagName node = "circle") then
        {| Geometry.left := Qred (value "cx" - reach); Geometry.top := Qred (value "cy" - reach);
           Geometry.width := Qred (2 * reach); Geometry.height := Qred (2 * reach) |}
      else {| Geometry.left := 0%Q; Geometry.top := 0%Q; Geometry.width := 0%Q;
           Geometry.height := 0%Q |}
  | None => {| Geometry.left := 0%Q; Geometry.top := 0%Q; Geometry.width := 0%Q;
           Geometry.height := 0%Q |}
  end.

Definition noTransform (document : Clipper.QDomDocument) (id : string) : unit := ().

Definition mapIdentity (m : unit) (r : Geometry.QRectF) : Geometry.QRectF := r.

Definition node (t : string) (attrs : list (string * string)) (parent : option nat)
    (children : list nat) : Clipper.QDomNode :=
  {| Clipper.tagName := t; Clipper.attributes := attrsOf attrs;
     Clipper.parentNode := parent; Clipper.childNodes := children |}.

(** A board of 9 by 9 pixels (100 by 100 at the resolution of the
    document) with three rings, numbered as leaves 0, 1 and 2: one well
    inside; one of radius 10 and stroke width 2 passing the right edge by
    6; one of radius 10 and stroke width 14 passing it by 12. *)
Definition edgeBoard : Clipper.QDomDocument :=
  list_to_map
    [ (0, node "svg" [("width", "100px")] None [1]);
      (1, node "g" [] (Some 0) [2; 3; 4]);
      (2, node "circle" [("id", "0"); ("cx", "50"); ("cy", "50"); ("r", "10");
                         ("stroke-width", "2")] (Some 1) []);
      (3, node "circle" [("id", "1"); ("cx", "95"); ("cy", "50"); ("r", "10");
                         ("stroke-width", "2")] (Some 1) []);
      (4, node "circle" [("id", "2"); ("cx", "95"); ("cy", "80"); ("r", "10");
                         ("stroke-width", "14")] (Some 1) []) ].

Definition edgeBoardRect : Geometry.QRectF :=
  {| Geometry.left := 0%Q; Geometry.top := 0%Q; Geometry.width := 9%Q;
     Geometry.height := 9%Q |}.

Definition edgeClipped : Clipper.ClipState :=
  Clipper.clipPhaseA (graphics := fritzingDPI) (rounding := binary64) showZ unit
    circleBounds noTransform mapIdentity
    ForCopper edgeBoardRect [2; 3; 4] 3 false edgeBoard.

Definition edgeHoles : Clipper.QDomDocument * list nat :=
  Clipper.keepHoles (numbers := plainNumbers) (graphics := fritzingDPI)
    (rounding := binary64) showZ unit
    circleBounds noTransform mapIdentity edgeBoardRect
    (Clipper.document edgeClipped) (Clipper.possibleHoles edgeClipped).

(** A board with two leaves, numbered 0 and 1, and a board rectangle of
    27 by 27 pixels: 300 by 300 at the resolution of the document.  Its
    right side widened by the margin is the double nearest to 300.1,
    which lies above 300.1; [nextDouble] is the double after it.  The
    renderer finds each leaf in the box the table has for its number:
    leaf 0 reaches the widened side exactly, leaf 1 passes it by one
    step of the doubles. *)
Definition marginBoard : Clipper.QDomDocument :=
  list_to_map
    [ (0, node "svg" [("width", "300px")] None [1; 2]);
      (1, node "rect" [("id", "0")] (Some 0) []);
      (2, node "rect" [("id", "1")] (Some 0) []) ].

Definition marginBoardRect : Geometry.QRectF :=
  {| Geometry.left := 0%Q; Geometry.top := 0%Q; Geometry.width := 27%Q;
     Geometry.height := 27%Q |}.

Definition widenedRight : Q := (2639707515964621 # 8796093022208)%Q.

Definition nextDouble : Q := (5279415031929243 # 17592186044416)%Q.

Definition marginBoxes : list (string * Geometry.QRectF) :=
  [ ("0", {| Geometry.left := 0%Q; Geometry.top := 100%Q; Geometry.width := widenedRight;
             Geometry.height := 100%Q |});
    ("1", {| Geometry.left := 0%Q; Geometry.top := 100%Q; Geometry.width := nextDouble;
             Geometry.height := 100%Q |}) ].

Definition tableBounds (table : list (string * Geometry.QRectF))
    (document : Clipper.QDomDocument) (id : string) : Geometry.QRectF :=
  match List.find (λ entry, bool_decide (entry.1 = id)) table with
  | Some entry => entry.2
  | None => {| Geometry.left := 0%Q; Geometry.top := 0%Q; Geometry.width := 0%Q;
               Geometry.height := 0%Q |}
  end.

Definition marginClipped : Clipper.ClipState :=
  Clipper.clipPhaseA (graphics := fritzingDPI) (rounding := binary64) showZ unit
    (tableBounds marginBoxes) noTransform mapIdentity
    ForCopper marginBoardRect [1; 2] 2 false marginBoard.

(** A column of twelve white pixels, a black image, and a row of six
    pixels (white but for the third) with a clip image that is white but
    for the fifth pixel. *)
Definition whiteColumn : Raster.QImage :=
  {| Raster.width := 1; Raster.height := 12; Raster.pixel := λ _ _, Raster.white |}.

Definition blackImage : Raster.QImage :=
  {| Raster.width := 2; Raster.height := 2; Raster.pixel := λ _ _, Raster.black |}.

Definition sixPixels : Raster.QImage :=
  {| Raster.width := 6; Raster.height := 1;
     Raster.pixel := λ x _, if decide (x = 2%Z) then Raster.black else Raster.white |}.

Definition clipFifth : Raster.QImage :=
  {| Raster.width := 6; Raster.height := 1;
     Raster.pixel := λ x _, if decide (x = 4%Z) then Raster.black else Raster.white |}.

(** For the board of the three rings: a rendering that is black all over,
    a clip image that is white but for one pixel under the ring in the
    middle, and a document element with a view box, with a board
    rectangle away from the origin. *)
Definition blackBoard : Raster.QImage :=
  {| Raster.width := 100; Raster.height := 100; Raster.pixel := λ _ _, Raster.black |}.

Definition clipDot : Raster.QImage :=
  {| Raster.width := 100; Raster.height := 100;
     Raster.pixel := λ x y, if decide (x = 45%Z ∧ y = 45%Z) then Raster.black
                            else Raster.white |}.

Definition viewBoxDocument : Clipper.QDomDocument :=
  list_to_map [ (0, node "svg" [("viewBox", "0 0 100 100")] None []) ].

Definition offsetBoardRect : Geometry.QRectF :=
  {| Geometry.left := 9%Q; Geometry.top := (9 # 2)%Q; Geometry.width := 9%Q;
     Geometry.height := 9%Q |}.

End Sample.

(* ===================================================================== *)
(** * Part II: properties                                                 *)
(* ===================================================================== *)

(** C9: the mount classification sends "TO-220" to "THT",
    "TO-220-LEADLESS" to "SMT", the empty package to "MANUAL" and
    "QFN-32", which matches no keyword, to "SMT". *)
Theorem checkMountTechnology_examples :
  PickAndPlace.checkMountTechnology "TO-220" = "THT" ∧
  PickAndPlace.checkMountTechnology "TO-220-LEADLESS" = "SMT" ∧
  PickAndPlace.checkMountTechnology "" = "MANUAL" ∧
  PickAndPlace.checkMountTechnology "QFN-32" = "SMT".
Proof. repeat split; vm_compute; reflexivity. Qed.

(** ** The document tree *)

Section DomFacts.
Import Dom.

Lemma QDomElement_children_ind (P : QDomElement → Prop) :
  (∀ t m cs, Forall P cs → P (Element t m cs)) → ∀ e, P e.
Proof.
  intros step. fix rec 1. intros [t m cs]. apply step.
  induction cs as [|c cs IHcs]; constructor; [apply rec | exact IHcs].
Qed.

Lemma nodeAt_modify_same f a e :
  nodeAt (modify f a e) a = f <$> nodeAt e a.
Proof.
  revert e. induction a as [|i a IH]; intros e; simpl; [done|].
  rewrite list_lookup_alter. destruct (decide (i = i)); [|done].
  destruct (childNodes e !! i) as [c|]; simpl; [apply IH | done].
Qed.

(** A mutation that keeps a node's children leaves every other node's
    tag and attributes alone. *)
Lemma shallow_modify_other {A} (π : QDomElement → A) f a b e :
  (∀ x, childNodes (f x) = childNodes x) →
  (∀ t m cs cs', π (Element t m cs) = π (Element t m cs')) →
  a ≠ b →
  π <$> nodeAt (modify f a e) b = π <$> nodeAt e b.
Proof.
  intros Hf Hπ. revert e b. induction a as [|i a IH]; intros e b Hab.
  - destruct b as [|j b]; [done|]. simpl. by rewrite Hf.
  - destruct b as [|j b]; simpl.
    + f_equal. destruct e; simpl. apply Hπ.
    + rewrite list_lookup_alter. destruct (decide (i = j)) as [->|Hij]; [|done].
      destruct (childNodes e !! j) as [c|]; simpl; [|done].
      apply IH. congruence.
Qed.

Lemma tagAt_modify_setTagName t a b e :
  tagAt (modify (setTagName t) a e) b =
    if decide (a = b) then (λ _, t) <$> tagAt e b else tagAt e b.
Proof.
  unfold tagAt. destruct (decide (a = b)) as [->|Hab].
  - rewrite nodeAt_modify_same. by destruct (nodeAt e b).
  - by apply (shallow_modify_other tagName).
Qed.

Lemma attrsAt_modify_setTagName t a b e :
  attrsAt (modify (setTagName t) a e) b = attrsAt e b.
Proof.
  unfold attrsAt. destruct (decide (a = b)) as [->|Hab].
  - rewrite nodeAt_modify_same. by destruct (nodeAt e b).
  - by apply (shallow_modify_other attributes).
Qed.

Lemma tagAt_squashAll nodes root b :
  tagAt (squashAll nodes root) b =
    if decide (b ∈ nodes) then (λ _, "g") <$> tagAt root b else tagAt root b.
Proof.
  unfold squashAll. revert root.
  induction nodes as [|a nodes IH]; intros root; simpl.
  - destruct (decide (b ∈ [])) as [Hin|]; [|done]. by apply elem_of_nil in Hin.
  - rewrite IH, tagAt_modify_setTagName.
    repeat case_decide; subst; try done;
      try (by destruct (tagAt root b)); set_solver.
Qed.

Lemma attrsAt_squashAll nodes root b :
  attrsAt (squashAll nodes root) b = attrsAt root b.
Proof.
  unfold squashAll. revert root.
  induction nodes as [|a nodes IH]; intros root; simpl; [done|].
  by rewrite IH, attrsAt_modify_setTagName.
Qed.

Lemma elem_of_childAddrs sub i cs a :
  a ∈ childAddrs sub i cs ↔
  ∃ j c a', cs !! j = Some c ∧ a = (i + j) :: a' ∧ (a' = [] ∨ a' ∈ sub c).
Proof.
  revert i. induction cs as [|c cs IH]; intros i; simpl.
  - split; [by intros ?%elem_of_nil | by intros (j & ? & ? & ? & _)].
  - rewrite elem_of_cons, elem_of_app, list_elem_of_fmap, IH. split.
    + intros [->|[(a' & -> & Ha')|(j & c' & a' & Hj & -> & Ha')]].
      * exists 0, c, []. rewrite Nat.add_0_r. auto.
      * exists 0, c, a'. rewrite Nat.add_0_r. auto.
      * exists (S j), c', a'. rewrite Nat.add_succ_r. auto.
    + intros ([|j] & c' & a' & Hj & -> & Ha'); simpl in Hj.
      * injection Hj as <-. rewrite Nat.add_0_r.
        destruct Ha' as [->|Ha']; [by left | right; left; eauto].
      * right. right. exists j, c', a'. rewrite Nat.add_succ_r. auto.
Qed.

(** The descendants are exactly the valid handles other than the root. *)
Lemma elem_of_descendants e a :
  a ∈ descendants e ↔ a ≠ [] ∧ is_Some (nodeAt e a).
Proof.
  revert a. induction e as [t m cs IH] using QDomElement_children_ind.
  intros a. simpl. rewrite elem_of_childAddrs. split.
  - intros (j & c & a' & Hj & -> & Ha'). split; [done|]. simpl. rewrite Hj. simpl.
    destruct Ha' as [->|Ha']; [by eexists|].
    rewrite Forall_lookup in IH. by apply (IH j c Hj).
  - intros [Hne Hsome]. destruct a as [|j a']; [done|]. simpl in Hsome.
    destruct (cs !! j) as [c|] eqn:Hj; simpl in Hsome; [|by destruct Hsome].
    exists j, c, a'. split_and!; [done..|].
    destruct a' as [|k a'']; [by left|right].
    rewrite Forall_lookup in IH. by apply (IH j c Hj).
Qed.

End DomFacts.

(** ** Drill holes are left to the drill layer *)

Section JustHolesFacts.
Import QStr Dom JustHoles.
Context {numbers : QtNumbers}.
Variable NonConnectorName : string.

Lemma elem_of_justHoles root1 a :
  a ∈ justHoles NonConnectorName root1 ↔
  a ≠ [] ∧ ∃ circle, nodeAt root1 a = Some circle ∧ tagName circle = "circle"
                     ∧ isJustHole NonConnectorName circle = true.
Proof.
  unfold justHoles, elementsByTagName, tagAt.
  rewrite !list_elem_of_filter, elem_of_descendants. split.
  - intros (Hhole & Htag & Hne & _). split; [done|].
    destruct (nodeAt root1 a) as [circle|]; simpl in *; [|done].
    exists circle. split_and!; congruence.
  - intros (Hne & circle & Hat & Htag & Hhole). rewrite Hat. simpl.
    split_and!; [done | congruence | done | by eexists].
Qed.

End JustHolesFacts.

(** C10: when the clip is not for the drill layer, every circle below the
    document element whose id contains the non-connector marker and whose
    stroke width reads as 0 is retagged to the non-rendering "g" (its
    attributes stay), and this happens in the first step of [clipToBoard],
    before donuts, contours or squashing; for the drill layer the step
    leaves the document as it is. *)
Theorem squashJustHoles_excludes_drill_holes {numbers : QtNumbers}
    (NonConnectorName : string) (forWhy : ForWhy) (root1 : Dom.QDomElement) :
  (forWhy ≠ ForDrill →
   ∀ a circle,
     a ≠ [] → Dom.nodeAt root1 a = Some circle →
     Dom.tagName circle = "circle" →
     QStr.contains QStr.CaseSensitive (Dom.attribute circle "id") NonConnectorName = true →
     (toDouble (Dom.attribute circle "stroke-width") == 0)%Q →
     Dom.tagAt (JustHoles.squashJustHoles NonConnectorName forWhy root1) a = Some "g"
     ∧ Dom.attrsAt (JustHoles.squashJustHoles NonConnectorName forWhy root1) a
       = Some (Dom.attributes circle))
  ∧ (forWhy = ForDrill →
     JustHoles.squashJustHoles NonConnectorName forWhy root1 = root1).
Proof.
  unfold JustHoles.squashJustHoles. split.
  - intros Hwhy a circle Hne Hat Htag Hid Hsw.
    rewrite decide_True by done.
    rewrite tagAt_squashAll, attrsAt_squashAll.
    rewrite decide_True.
    + unfold Dom.tagAt, Dom.attrsAt. by rewrite Hat.
    + apply elem_of_justHoles. split; [done|]. exists circle. split_and!; [done..|].
      unfold JustHoles.isJustHole. rewrite Hid. simpl. by apply Qeq_bool_iff.
  - intros ->. by rewrite decide_False by (intros Hd; by apply Hd).
Qed.

Lemma squashJustHoles_excludes_drill_holes_witness :
  let squashed forWhy :=
    JustHoles.squashJustHoles (numbers := Sample.plainNumbers) "nonconn" forWhy
                              Sample.holesDocument in
  Dom.tagAt (squashed ForCopper) [0; 0] = Some "g"
  ∧ Dom.tagAt (squashed ForCopper) [0; 1] = Some "circle"
  ∧ squashed ForDrill = Sample.holesDocument.
Proof.
  split_and!.
  - eapply (squashJustHoles_excludes_drill_holes (numbers := Sample.plainNumbers)
              "nonconn" ForCopper Sample.holesDocument);
      [done | done | vm_compute; reflexivity | reflexivity | reflexivity | reflexivity].
  - vm_compute. reflexivity.
  - by apply (squashJustHoles_excludes_drill_holes (numbers := Sample.plainNumbers)
                "nonconn" ForDrill Sample.holesDocument).
Defined.

(** ** The squash pass on Gerber-safe documents *)

Section CleanerFacts.
Import QStr Dom Cleaner.
Context {regex : SvgPathRegex}.
Variable isScaling : string → bool.

Lemma filter_none {A} (P : A → Prop) `{!∀ x, Decision (P x)} (l : list A) :
  (∀ x, x ∈ l → ¬ P x) → filter P l = [].
Proof.
  intros Hnone. apply elem_of_nil_inv. intros x [HP Hx]%list_elem_of_filter.
  by apply (Hnone x).
Qed.

Lemma squashElement_none doc elementName attName matchContent :
  (∀ a e, a ∈ descendants doc → nodeAt doc a = Some e →
          squashes elementName attName matchContent e = false) →
  squashElement doc elementName attName matchContent = (doc, false).
Proof.
  intros Hnone. unfold squashElement. rewrite filter_none; [done|].
  intros a Ha. destruct (nodeAt doc a) as [e|] eqn:Hat; simpl; [|done].
  by rewrite (Hnone a e Ha Hat).
Qed.

Lemma gerberSafe_element root a e :
  gerberSafe isScaling root = true → a ∈ descendants root → nodeAt root a = Some e →
  gerberSafeElement isScaling root a e = true.
Proof.
  unfold gerberSafe. rewrite forallb_forall. intros Hall Ha Hat.
  apply list_elem_of_In in Ha. specialize (Hall a Ha). by rewrite Hat in Hall.
Qed.

Lemma squashStep_safe root elementName attName matchContent :
  gerberSafe isScaling root = true →
  (∀ a e, gerberSafeElement isScaling root a e = true →
          squashes elementName attName matchContent e = false) →
  squashStep elementName attName matchContent (root, false) = (root, false).
Proof.
  intros Hsafe Hstep. unfold squashStep. cbn [fst snd].
  rewrite squashElement_none; [done|].
  intros a e Ha Hat. apply (Hstep a). by apply gerberSafe_element.
Qed.

Ltac safe_case :=
  intros a e; unfold gerberSafeElement, squashes, noDashes, straightSingleContour, notNone;
  simpl; repeat (case_bool_decide; simpl; try congruence);
  repeat (destruct (attributes e !! _); simpl; try congruence);
  repeat (case_bool_decide; simpl; subst; try congruence);
  rewrite ?andb_true_iff, ?negb_true_iff; try tauto; try naive_solver.

Lemma clean_safe root :
  gerberSafe isScaling root = true → clean isScaling root = (root, false).
Proof.
  intros Hsafe. unfold clean.
  rewrite (squashStep_safe root "text" "" None Hsafe) by safe_case.
  rewrite (squashStep_safe root "ellipse" "" None Hsafe) by safe_case.
  rewrite (squashStep_safe root "rect" "rx" None Hsafe) by safe_case.
  rewrite (squashStep_safe root "rect" "ry" None Hsafe) by safe_case.
  rewrite (squashStep_safe root "rect" "stroke-dasharray" _ Hsafe) by safe_case.
  rewrite (squashStep_safe root "circle" "stroke-dasharray" _ Hsafe) by safe_case.
  rewrite (squashStep_safe root "line" "stroke-dasharray" _ Hsafe) by safe_case.
  rewrite (squashStep_safe root "path" "d" _ Hsafe) by safe_case.
  rewrite (squashStep_safe root "path" "d" _ Hsafe) by safe_case.
  rewrite (squashStep_safe root "image" "" None Hsafe) by safe_case.
  unfold squashScaledPaths. cbn [fst snd].
  rewrite filter_none; [done|].
  intros a [Htag Ha]%list_elem_of_filter. unfold tagAt in Htag.
  destruct (nodeAt root a) as [e|] eqn:Hat; simpl in Htag; [|done].
  pose proof (gerberSafe_element root a e Hsafe Ha Hat) as He.
  revert He. unfold gerberSafeElement.
  injection Htag as Htag. rewrite Htag. simpl.
  rewrite andb_true_iff, negb_true_iff. intros [_ ->]. done.
Qed.

End CleanerFacts.

(** C7: on a document all of whose elements below the document element
    are Gerber-safe (no text, ellipse or image; rects without rx, ry and
    without a stroke-dasharray other than "none"; circles and lines
    without such a dash array; paths without curve commands, without
    multiple contour-close markers and with no scaling transform on
    themselves or an ancestor), the squash pass of [clipToBoard] reports
    that nothing was converted and returns the document unchanged. *)
Theorem clean_gerberSafe_unchanged {regex : SvgPathRegex}
    (isScaling : string → bool) (root : Dom.QDomElement) :
  Cleaner.gerberSafe isScaling root = true →
  Cleaner.clean isScaling root = (root, false).
Proof. apply clean_safe. Qed.

Lemma clean_gerberSafe_unchanged_witness :
  Cleaner.clean (regex := Sample.pathRegex) Sample.scaleByName Sample.safeDocument
  = (Sample.safeDocument, false).
Proof.
  apply (clean_gerberSafe_unchanged (regex := Sample.pathRegex)
           Sample.scaleByName Sample.safeDocument).
  vm_compute. reflexivity.
Defined.

(** ** The render-retry loop *)

Section RetryFacts.
Import RasterFallback.
Context {QImage : Type} (nullImage : QImage) (imageToHash : QImage → string)
        (render : nat → QImage).

Local Abbreviation H := (hashOf QImage imageToHash render).
Local Abbreviation retryInvariant := (retryInvariant QImage imageToHash render).
Local Abbreviation retryOutcome := (retryOutcome QImage imageToHash render).

Lemma retryLoop_from fuel st :
  retryInvariant st → 6 ≤ fuel + renders _ st →
  ∃ st', retryLoop QImage imageToHash render fuel st = Some st' ∧ retryOutcome st'.
Proof.
  revert st. induction fuel as [|fuel IH]; intros st (Hc & Hle & Hdistinct & Hmap) Hfuel.
  - simpl in Hfuel. lia.
  - cbn [retryLoop]. fold (H (renders _ st)). case_decide as Hseen.
    + eexists. split; [reflexivity|]. exists (renders _ st). simpl. split_and!; [done..|].
      left. destruct Hseen as [image Himage].
      destruct (proj1 (Hmap _ _) Himage) as (j & Hj & Hhash & ->). eauto.
    + assert (Hfresh : ∀ j, j < renders _ st → H j ≠ H (renders _ st)).
      { intros j Hj Heq. apply Hseen. exists (render j). apply Hmap. eauto. }
      destruct (5 <=? counter _ st) eqn:Hbound.
      * apply Nat.leb_le in Hbound.
        eexists. split; [reflexivity|]. exists (renders _ st). simpl.
        assert (renders _ st = 5) as Hfive by lia.
        split_and!; [done..|]. right. rewrite Hfive in *.
        split_and!; [done | done |]. by rewrite lookup_insert_eq.
      * apply Nat.leb_gt in Hbound. apply IH; [|simpl; lia].
        split_and!; simpl; [lia | lia | |].
        -- intros i j Hij. destruct (decide (j = renders _ st)) as [->|Hne].
           ++ apply Hfresh. lia.
           ++ apply Hdistinct. lia.
        -- intros h image. rewrite lookup_insert. case_decide as Hh.
           ++ subst h. split.
              ** intros [= <-]. exists (renders _ st). split_and!; [lia | done..].
              ** intros (j & Hj & Hhash & ->).
                 destruct (decide (j = renders _ st)) as [->|Hne]; [done|].
                 exfalso. apply (Hfresh j); [lia | done].
           ++ rewrite Hmap. split.
              ** intros (j & Hj & Hhash & ->). exists j. split_and!; [lia | done..].
              ** intros (j & Hj & Hhash & ->).
                 destruct (decide (j = renders _ st)) as [->|Hne]; [done|].
                 exists j. split_and!; [lia | done..].
Qed.

Lemma retryInvariant_initial : retryInvariant (initialState QImage).
Proof.
  split_and!; simpl; [done | lia | intros; lia |].
  intros h image. rewrite lookup_empty. split; [done|]. intros (j & Hj & _). lia.
Qed.

End RetryFacts.

(** C8: the render-retry loop ends after at most six renderings (the
    first and at most five retries, whatever the renderer produces): it
    stops at the first rendering [n] whose content hash was seen before
    and hands on the image stored under that hash, which is one of the
    earlier renderings with the hash of rendering [n] (the same picture as
    rendering [n] whenever equal hashes mean equal images); with no repeat
    among renderings 0..5 it stops after rendering 5 and hands on that
    last image. *)
Theorem renderUntilRepeat_bounded {QImage : Type} (nullImage : QImage)
    (imageToHash : QImage → string) (render : nat → QImage) (fuel : nat) :
  6 ≤ fuel →
  ∃ image n,
    RasterFallback.renderUntilRepeat QImage nullImage imageToHash render fuel
      = Some (image, S n)
    ∧ n ≤ 5
    ∧ (∀ i j, i < j < n → imageToHash (render i) ≠ imageToHash (render j))
    ∧ imageToHash image = imageToHash (render n)
    ∧ ((∃ j, j < n ∧ imageToHash (render j) = imageToHash (render n) ∧ image = render j)
       ∨ (n = 5 ∧ (∀ j, j < 5 → imageToHash (render j) ≠ imageToHash (render 5))
          ∧ image = render 5))
    ∧ ((∀ a b, imageToHash (render a) = imageToHash (render b) → render a = render b) →
       image = render n).
Proof.
  intros Hfuel.
  destruct (retryLoop_from imageToHash render fuel (RasterFallback.initialState QImage))
    as (st & Hrun & n & Hn & Hle & Hhash & Hdistinct & Hcases).
  { apply retryInvariant_initial. }
  { simpl. lia. }
  unfold RasterFallback.renderUntilRepeat. rewrite Hrun. simpl. rewrite Hhash, Hn.
  destruct Hcases as [(j & Hj & Heq & Hlook)|(-> & Hfresh & Hlook)]; rewrite Hlook; simpl.
  - exists (render j), n. split_and!; [done..| eauto | ]. intros Hinj. by apply Hinj.
  - exists (render 5), 5. split_and!; [done..| right; done | done].
Qed.

Lemma renderUntilRepeat_bounded_witness :
  ∃ image n,
    RasterFallback.renderUntilRepeat nat 0 Sample.digest Sample.flakyRender 6
      = Some (image, S n)
    ∧ n ≤ 5 ∧ Sample.digest image = Sample.digest (Sample.flakyRender n).
Proof.
  destruct (renderUntilRepeat_bounded 0 Sample.digest Sample.flakyRender 6)
    as (image & n & Hrun & Hle & _ & Hhash & _); [lia|].
  exists image, n. done.
Defined.

(** ** The layer pipeline *)

Section PipelineFacts.
Import QStr Connectors Pipeline.
Context {graphics : GraphicsUtils} {collaborators : Collaborators}.
Variable clipToBoardResult :
  string → Board → string → ForWhy → string → bool → TreatAsCircle → string * list Display.
Variable cleanOutline : string → string.
Variables (prefix exportDir : string) (board : Board) (displayMessageBoxes : bool).

Local Abbreviation clipToBoard := (Pipeline.clipToBoard clipToBoardResult).
Local Abbreviation layerSegment :=
  (Pipeline.layerSegment prefix exportDir board displayMessageBoxes).

Lemma events_bind {A B} (m : Traced A) (k : A → Traced B) :
  (m ≫= k).2 = (m.2 ++ (k m.1).2)%list.
Proof. unfold mbind, Traced_bind. by destruct (k m.1). Qed.

Lemma value_bind {A B} (m : Traced A) (k : A → Traced B) :
  (m ≫= k).1 = (k m.1).1.
Proof. unfold mbind, Traced_bind. by destruct (k m.1). Qed.

Lemma clipToBoard_no_file svg layerName forWhy clipString treatAsCircle outname content :
  Written outname content
    ∉ (clipToBoard svg board layerName forWhy clipString displayMessageBoxes treatAsCircle).2.
Proof.
  unfold Pipeline.clipToBoard. destruct (clipToBoardResult _ _ _ _ _ _ _) as [svg' messages].
  simpl. by intros (message & Heq & _)%list_elem_of_fmap.
Qed.

Lemma displayMessage_no_file message outname content :
  Written outname content ∉ (displayMessage message displayMessageBoxes).2.
Proof.
  unfold displayMessage, displayed. simpl. by intros Hin%list_elem_of_singleton.
Qed.

Lemma doEnd_file svg layers layerName forWhy svgSize suffix outname content :
  Written outname content
    ∈ (doEnd svg layers layerName forWhy svgSize exportDir prefix suffix displayMessageBoxes).2 →
  outname = exportDir +:+ "/" +:+ prefix +:+ suffix.
Proof.
  unfold doEnd, saveEnd. destruct (convert _ _ _ _ _) as [invalidCount gerber].
  rewrite events_bind. destruct (canOpen _); simpl; rewrite ?app_nil_r;
    intros Hin%list_elem_of_singleton; [congruence|].
  done.
Qed.

(** After clipping: a failure message, or the conversion and the file. *)
Lemma clipped_file {A} svg layerName forWhy clipString treatAsCircle
    (k : string → Traced A) suffix outname content :
  (∀ svg', Written outname content ∈ (k svg').2 →
           outname = exportDir +:+ "/" +:+ prefix +:+ suffix) →
  Written outname content
    ∈ (clipToBoard svg board layerName forWhy clipString displayMessageBoxes treatAsCircle
         ≫= k).2 →
  outname = exportDir +:+ "/" +:+ prefix +:+ suffix.
Proof.
  intros Hk. rewrite events_bind, elem_of_app. intros [Hin|Hin].
  - by apply clipToBoard_no_file in Hin.
  - by apply Hk in Hin.
Qed.

Lemma rendersEmpty_view layer ids hidden :
  layerView layer = (ids, hidden) →
  rendersEmpty board layer =
    (let '(svg, empty) := renderToSVG board hidden ids in empty || isEmpty svg).
Proof. intros Hview. unfold rendersEmpty. by rewrite Hview. Qed.

Lemma message_or_file {A} (a : A) message (m : Traced A) (failed : bool) suffix outname content :
  (Written outname content ∈ m.2 → outname = exportDir +:+ "/" +:+ prefix +:+ suffix) →
  Written outname content
    ∈ (if failed then displayMessage message displayMessageBoxes ;; mret a else m).2 →
  outname = exportDir +:+ "/" +:+ prefix +:+ suffix.
Proof.
  intros Hm. destruct failed; [|done]. rewrite events_bind, elem_of_app. intros [Hin|Hin].
  - by apply displayMessage_no_file in Hin.
  - by apply elem_of_nil in Hin.
Qed.

Lemma renderTo_bind {A} ids hidden (k : string * bool → Traced A) :
  (renderTo ids board hidden ≫= k).2
  = Rendered ids hidden :: (k (renderToSVG board hidden ids)).2.
Proof. unfold renderTo. by rewrite events_bind, value_bind, events_bind. Qed.

Lemma failure_events {A} (a : A) message :
  (displayMessage message displayMessageBoxes ;; mret a).2
  = [displayed displayMessageBoxes message].
Proof. by rewrite events_bind. Qed.

Lemma doCopper_segment layer ids name suffix :
  layerView layer = (ids, NothingHidden) → layerSuffix layer = suffix →
  emptyDiagnostic layer = name +:+ " layer export is empty." →
  silentWhenEmpty layer = false →
  layerSegment layer (doCopper clipToBoardResult board ids name suffix prefix exportDir
                               displayMessageBoxes).2.
Proof.
  intros Hview Hsuffix Hdiag Hsilent. unfold Pipeline.layerSegment, rendering, layerFile.
  rewrite (rendersEmpty_view layer _ _ Hview), Hview, Hsuffix, Hdiag, Hsilent.
  unfold doCopper. rewrite renderTo_bind. cbn [fst snd].
  destruct (renderToSVG board NothingHidden ids) as [svg empty].
  eexists. split; [reflexivity|]. destruct (empty || isEmpty svg); split; try done.
  - intros outname content. rewrite failure_events.
    intros Hin. by apply displayMessage_no_file in Hin.
  - intros outname content Hin. split; [|done]. revert Hin.
    apply clipped_file. intros svg'. apply message_or_file, doEnd_file.
Qed.

Lemma doPasteMask_segment layer ids name suffix :
  layerView layer = (ids, CopperLogoItemsAndHoles) → layerSuffix layer = suffix →
  emptyDiagnostic layer = "exported paste mask layer is empty" →
  silentWhenEmpty layer = false →
  layerSegment layer (doPasteMask clipToBoardResult ids name suffix board prefix exportDir
                                  displayMessageBoxes).2.
Proof.
  intros Hview Hsuffix Hdiag Hsilent. unfold Pipeline.layerSegment, rendering, layerFile.
  rewrite (rendersEmpty_view layer _ _ Hview), Hview, Hsuffix, Hdiag, Hsilent.
  unfold doPasteMask. rewrite renderTo_bind. cbn [fst snd].
  destruct (renderToSVG board CopperLogoItemsAndHoles ids) as [svg empty].
  eexists. split; [reflexivity|]. destruct (empty || isEmpty svg); split; try done.
  - intros outname content. rewrite failure_events.
    intros Hin. by apply displayMessage_no_file in Hin.
  - intros outname content Hin. split; [|done]. revert Hin.
    destruct (isEmpty (makePasteMask _ _ _ _)); [by intros ?%elem_of_nil|].
    apply clipped_file. intros svg'. apply message_or_file, doEnd_file.
Qed.

Lemma doDrill_segment :
  layerSegment Drill (doDrill clipToBoardResult board prefix exportDir displayMessageBoxes).2.
Proof.
  unfold Pipeline.layerSegment, rendering, layerFile, rendersEmpty. cbn [layerView fst snd].
  unfold doDrill. rewrite renderTo_bind.
  destruct (renderToSVG board NothingHidden drillLayers) as [svg empty].
  eexists. split; [reflexivity|]. destruct (empty || isEmpty svg); split; try done.
  - intros outname content. rewrite failure_events.
    intros Hin. by apply displayMessage_no_file in Hin.
  - intros outname content Hin. split; [|done]. revert Hin.
    apply clipped_file. intros svg'. apply message_or_file, doEnd_file.
Qed.

Lemma doSilk_segment layer ids name suffix clipString :
  layerView layer = (ids, NothingHidden) → layerSuffix layer = suffix →
  emptyDiagnostic layer = "silk layer " +:+ name +:+ " export is empty" →
  silentWhenEmpty layer = negb (bool_decide (Silkscreen1 ∈ ids)) →
  layerSegment layer (doSilk clipToBoardResult ids name suffix board prefix exportDir
                             displayMessageBoxes clipString).2.
Proof.
  intros Hview Hsuffix Hdiag Hsilent. unfold Pipeline.layerSegment, rendering, layerFile.
  rewrite (rendersEmpty_view layer _ _ Hview), Hview, Hsuffix, Hdiag, Hsilent.
  unfold doSilk. rewrite renderTo_bind. cbn [fst snd].
  destruct (renderToSVG board NothingHidden ids) as [svg empty].
  eexists. split; [reflexivity|]. destruct (empty || isEmpty svg); split; try done.
  - intros _. rewrite events_bind. by destruct (bool_decide _).
  - intros outname content. rewrite events_bind, elem_of_app. intros [Hin|Hin].
    + destruct (bool_decide _); [by apply displayMessage_no_file in Hin|].
      by apply elem_of_nil in Hin.
    + by apply elem_of_nil in Hin.
  - intros outname content Hin. split; [|done]. revert Hin.
    apply clipped_file. intros svg'. apply message_or_file, doEnd_file.
Qed.

Lemma doMask_segment layer ids name suffix clipString :
  layerView layer = (ids, CopperLogoItems) → layerSuffix layer = suffix →
  emptyDiagnostic layer = "exported mask layer " +:+ name +:+ " is empty" →
  silentWhenEmpty layer = false →
  layerSegment layer (doMask clipToBoardResult ids name suffix board prefix exportDir
                             displayMessageBoxes clipString).2.
Proof.
  intros Hview Hsuffix Hdiag Hsilent. unfold Pipeline.layerSegment, rendering, layerFile.
  rewrite (rendersEmpty_view layer _ _ Hview), Hview, Hsuffix, Hdiag, Hsilent.
  unfold doMask. rewrite renderTo_bind. cbn [fst snd].
  destruct (renderToSVG board CopperLogoItems ids) as [svg empty].
  eexists. split; [reflexivity|]. destruct (empty || isEmpty svg); split; try done.
  - intros outname content. rewrite failure_events.
    intros Hin. by apply displayMessage_no_file in Hin.
  - intros outname content Hin. split; [|done]. revert Hin.
    destruct (isEmpty (expandAndFill _ _ _)).
    { rewrite failure_events. intros Hin. by apply displayMessage_no_file in Hin. }
    apply clipped_file. intros svg'. apply message_or_file.
    rewrite events_bind, elem_of_app. intros [Hin|Hin]; [by apply doEnd_file in Hin|].
    by apply elem_of_nil in Hin.
Qed.

Lemma reportInvalid_no_file outline silk copper mask paste outname content :
  Written outname content
    ∉ (reportInvalid outline silk copper mask paste displayMessageBoxes).2.
Proof.
  unfold reportInvalid. destruct (_ || _); [apply displayMessage_no_file|].
  by intros ?%elem_of_nil.
Qed.

Lemma outline_tail (report : Z → Traced unit) :
  (∀ count outname content, Written outname content ∉ (report count).2) →
  Pipeline.outlineTail prefix exportDir board displayMessageBoxes
    (renderTo outlineLayers board NothingHidden ≫= λ '(svgOutline, empty),
       if empty || isEmpty svgOutline
       then displayMessage "outline is empty" displayMessageBoxes
       else
         clipToBoard (cleanOutline svgOutline) board "board" ForOutline ""
                     displayMessageBoxes [] ≫= λ svgOutline0,
           let '(outlineInvalidCount, outlineGerber) :=
             convert svgOutline0 (bool_decide (boardLayers = 2%Z)) "contour" ForOutline
                     (scaleSize (parseForWidthAndHeight svgOutline0) StandardFritzingDPI) in
           saveEnd "contour" exportDir prefix OutlineSuffix displayMessageBoxes
                   outlineGerber ≫= λ _,
             doDrill clipToBoardResult board prefix exportDir displayMessageBoxes ≫= λ _,
               report outlineInvalidCount).2.
Proof.
  intros Hreport. unfold outlineTail, rendering, rendersEmpty. cbn [layerView fst snd].
  rewrite renderTo_bind.
  destruct (renderToSVG board NothingHidden outlineLayers) as [svg empty].
  eexists. split; [reflexivity|]. destruct (empty || isEmpty svg); split; try done.
  intros _. rewrite events_bind.
  destruct (convert _ _ _ _ _) as [outlineInvalidCount outlineGerber].
  rewrite !events_bind. rewrite app_assoc. eexists _, _, _. split; [reflexivity|].
  split_and!.
  - intros outname content [Hin|Hin]%elem_of_app; [by apply clipToBoard_no_file in Hin|].
    revert Hin. unfold saveEnd, layerFile. cbn [layerSuffix].
    destruct (canOpen _); simpl; rewrite ?app_nil_r;
      intros Hin%list_elem_of_singleton; [congruence|].
    done.
  - apply doDrill_segment.
  - apply Hreport.
Qed.

Lemma optional_copper count :
  optionalSegment prefix exportDir board displayMessageBoxes CopperTop
    ((if bool_decide (boardLayers = 2%Z)
      then doCopper clipToBoardResult board (copperLayers NewTop) "Copper1" CopperTopSuffix
                    prefix exportDir displayMessageBoxes ≫= λ more, mret (count + more)%Z
      else mret count) : Traced Z).2.
Proof.
  unfold optionalSegment. destruct (bool_decide _); [|done].
  rewrite events_bind, app_nil_r. by apply doCopper_segment.
Qed.

Lemma optional_paste count :
  optionalSegment prefix exportDir board displayMessageBoxes PasteMaskTop
    ((if bool_decide (boardLayers = 2%Z)
      then doPasteMask clipToBoardResult (maskLayers NewTop) "PasteMask1" PasteMaskTopSuffix
                       board prefix exportDir displayMessageBoxes
           ≫= λ more, mret (count + more)%Z
      else mret count) : Traced Z).2.
Proof.
  unfold optionalSegment. destruct (bool_decide _); [|done].
  rewrite events_bind, app_nil_r. by apply doPasteMask_segment.
Qed.

Lemma optional_mask count :
  optionalSegment prefix exportDir board displayMessageBoxes MaskTop
    ((if bool_decide (boardLayers = 2%Z)
      then doMask clipToBoardResult (maskLayers NewTop) "Mask1" MaskTopSuffix
                  board prefix exportDir displayMessageBoxes ""
           ≫= λ '(more, maskTop), mret ((count + more)%Z, maskTop)
      else mret (count, "")) : Traced (Z * string)).2.
Proof.
  unfold optionalSegment. destruct (bool_decide _); [|done].
  rewrite events_bind. destruct (doMask _ _ _ _ _ _ _ _ _).1.
  rewrite app_nil_r. by apply doMask_segment.
Qed.

Lemma segmented_bind {A B} part parts (m : Traced A) (k : A → Traced B) :
  part m.2 → (∀ a, segmented parts (k a).2) → segmented (part :: parts) (m ≫= k).2.
Proof. intros Hm Hk. rewrite events_bind. exists m.2, (k m.1).2. auto. Qed.

Lemma segmented_last part events : part events → segmented [part] events.
Proof. intros Hpart. exists events, []. by rewrite app_nil_r. Qed.

Lemma exportBoard_shape :
  segmented (exportShape prefix exportDir board displayMessageBoxes)
    (exportEvents clipToBoardResult cleanOutline prefix exportDir board displayMessageBoxes).
Proof.
  unfold exportShape, exportEvents, exportBoard.
  apply segmented_bind; [|intros _].
  { unfold pickAndPlaceSegment, exportPickAndPlace. intros outname content.
    destruct (canOpen _); simpl; intros Hin%list_elem_of_singleton; [congruence|].
    done. }
  apply segmented_bind; [by apply doCopper_segment | intros copperInvalidCount].
  apply segmented_bind; [apply optional_copper | intros copperInvalidCount0].
  apply segmented_bind; [by apply doMask_segment | intros [maskInvalidCount maskBottom]].
  apply segmented_bind; [apply optional_mask | intros [maskInvalidCount0 maskTop]].
  apply segmented_bind; [by apply doPasteMask_segment | intros pasteMaskInvalidCount].
  apply segmented_bind; [apply optional_paste | intros pasteMaskInvalidCount0].
  apply segmented_bind; [by apply doSilk_segment | intros silkInvalidCount].
  apply segmented_bind; [by apply doSilk_segment | intros more].
  apply segmented_last, outline_tail. intros. apply reportInvalid_no_file.
Qed.

Local Abbreviation events :=
  (exportEvents clipToBoardResult cleanOutline prefix exportDir board displayMessageBoxes).

Lemma segmented_part parts (all : list Event) i part :
  segmented parts all → parts !! i = Some part →
  ∃ segment, part segment ∧ ∀ x, x ∈ segment → x ∈ all.
Proof.
  revert all i. induction parts as [|p parts IH]; intros all i Hseg Hi; [done|].
  destruct Hseg as (segment & rest & -> & Hp & Hrest). destruct i as [|i]; simpl in Hi.
  - injection Hi as <-. exists segment. split; [done|]. intros x Hx. apply elem_of_app. auto.
  - destruct (IH rest i Hrest Hi) as (segment' & Hpart & Hsub).
    exists segment'. split; [done|]. intros x Hx. apply elem_of_app. auto.
Qed.

Lemma segmented_elem parts (all : list Event) x :
  segmented parts all → x ∈ all →
  ∃ part segment, part ∈ parts ∧ part segment ∧ x ∈ segment.
Proof.
  revert all. induction parts as [|p parts IH]; intros all Hseg Hx.
  - simpl in Hseg. subst. by apply elem_of_nil in Hx.
  - destruct Hseg as (segment & rest & -> & Hp & Hrest).
    apply elem_of_app in Hx as [Hx|Hx].
    + exists p, segment. split_and!; [left | done..].
    + destruct (IH rest Hrest Hx) as (part & segment' & Hin & Hpart & Hx').
      exists part, segment'. split_and!; [by right | done..].
Qed.

Lemma two_layers layer :
  layer ∈ exportSequence → layer ∈ [CopperTop; MaskTop; PasteMaskTop] →
  bool_decide (boardLayers = 2%Z) = true.
Proof.
  unfold exportSequence. destruct (bool_decide _); [done|].
  rewrite !elem_of_cons. intros Hseq Htop.
  destruct Htop as [->|[->|[->|?%elem_of_nil]]]; [| |  |done];
    repeat (destruct Hseq as [?|Hseq]; [done|]); by apply elem_of_nil in Hseq.
Qed.

(** Every layer up to the silkscreens has its segment among the events. *)
Lemma layer_segment_in_events layer :
  layer ∈ exportSequence → layer ≠ Outline → layer ≠ Drill →
  ∃ segment, layerSegment layer segment ∧ ∀ x, x ∈ segment → x ∈ events.
Proof.
  intros Hseq Houtline Hdrill. pose proof exportBoard_shape as Hshape.
  pose proof (two_layers layer Hseq) as Htwo.
  destruct layer; try done.
  - apply (segmented_part _ _ 1 _ Hshape eq_refl).
  - destruct (segmented_part _ _ 2 _ Hshape eq_refl) as (segment & Hopt & Hsub).
    unfold optionalSegment in Hopt. rewrite Htwo in Hopt by (rewrite !elem_of_cons; auto). eauto.
  - apply (segmented_part _ _ 3 _ Hshape eq_refl).
  - destruct (segmented_part _ _ 4 _ Hshape eq_refl) as (segment & Hopt & Hsub).
    unfold optionalSegment in Hopt. rewrite Htwo in Hopt by (rewrite !elem_of_cons; auto). eauto.
  - apply (segmented_part _ _ 5 _ Hshape eq_refl).
  - destruct (segmented_part _ _ 6 _ Hshape eq_refl) as (segment & Hopt & Hsub).
    unfold optionalSegment in Hopt. rewrite Htwo in Hopt by (rewrite !elem_of_cons; auto). eauto.
  - apply (segmented_part _ _ 7 _ Hshape eq_refl).
  - apply (segmented_part _ _ 8 _ Hshape eq_refl).
Qed.

Lemma outline_tail_in_events :
  ∃ tail, outlineTail prefix exportDir board displayMessageBoxes tail
          ∧ ∀ x, x ∈ tail → x ∈ events.
Proof. apply (segmented_part _ _ 9 _ exportBoard_shape eq_refl). Qed.

Lemma segment_written layer segment outname content :
  layerSegment layer segment → Written outname content ∈ segment →
  outname = layerFile prefix exportDir layer ∧ rendersEmpty board layer = false.
Proof.
  intros (rest & -> & _ & Hfile) [Heq|Hin]%elem_of_cons; [done|].
  by apply (Hfile _ content).
Qed.

(** Whatever file the export writes is the pick-and-place file or the file
    of a layer whose rendering is not empty. *)
Lemma written_origin outname content :
  Written outname content ∈ events →
  outname = exportDir +:+ "/" +:+ prefix +:+ PickAndPlaceSuffix
  ∨ ∃ layer, outname = layerFile prefix exportDir layer ∧ rendersEmpty board layer = false.
Proof.
  intros Hin.
  destruct (segmented_elem _ _ _ exportBoard_shape Hin) as (part & segment & Hpart & Hseg & Hx).
  unfold exportShape in Hpart. rewrite !elem_of_cons in Hpart.
  unfold optionalSegment in *.
  destruct Hpart as [->|[->|[->|[->|[->|[->|[->|[->|[->|[->|?%elem_of_nil]]]]]]]]]];
    [by left; apply (Hseg _ content) | | | | | | | | | | done];
    try (right; eexists; by apply (segment_written _ _ _ content Hseg Hx));
    try (destruct (bool_decide (boardLayers = 2%Z));
         [right; eexists; by apply (segment_written _ _ _ content Hseg Hx)
         | subst; by apply elem_of_nil in Hx]).
  destruct Hseg as (rest & -> & Hempty & Hfull).
  apply elem_of_cons in Hx as [Hx|Hx]; [done|].
  destruct (rendersEmpty board Outline) eqn:Houtline.
  - rewrite Hempty in Hx by done. apply list_elem_of_singleton in Hx.
    unfold displayed in Hx. by destruct displayMessageBoxes.
  - destruct (Hfull eq_refl) as (contour & drill & report & -> & Hcontour & Hdrill & Hreport).
    rewrite !elem_of_app in Hx. destruct Hx as [Hx|[Hx|Hx]].
    + right. exists Outline. split; [by eapply Hcontour | done].
    + right. eexists. by apply (segment_written _ _ _ content Hdrill Hx).
    + by apply Hreport in Hx.
Qed.

Lemma layerFile_inj layer layer' :
  layerFile prefix exportDir layer = layerFile prefix exportDir layer' → layer = layer'.
Proof.
  unfold layerFile. intros Heq. do 3 apply String.app_inj in Heq.
  by destruct layer, layer'.
Qed.

Lemma layerFile_not_pickAndPlace layer :
  layerFile prefix exportDir layer ≠ exportDir +:+ "/" +:+ prefix +:+ PickAndPlaceSuffix.
Proof.
  unfold layerFile. intros Heq. do 3 apply String.app_inj in Heq. by destruct layer.
Qed.

Lemma remainingAfter_subseteq layer sequence later :
  later ∈ remainingAfter layer sequence → later ∈ sequence.
Proof.
  induction sequence as [|l sequence IH]; simpl; [done|].
  case_decide; intros Hin; apply elem_of_cons; auto.
Qed.

Lemma rendering_in_events later :
  later ∈ exportSequence → reached board later → rendering later ∈ events.
Proof.
  intros Hseq Hreached.
  destruct (decide (later = Outline)) as [->|Houtline];
    [|destruct (decide (later = Drill)) as [->|Hdrill]].
  - destruct outline_tail_in_events as (tail & (rest & -> & _) & Hsub).
    apply Hsub. left.
  - destruct outline_tail_in_events as (tail & (rest & -> & _ & Hfull) & Hsub).
    destruct (Hfull (Hreached eq_refl))
      as (contour & drill & report & -> & _ & (rest' & -> & _) & _).
    apply Hsub. right. rewrite !elem_of_app. right. left. left.
  - destruct (layer_segment_in_events later Hseq Houtline Hdrill)
      as (segment & (rest & -> & _) & Hsub).
    apply Hsub. left.
Qed.

Lemma diagnostic_in_events layer :
  layer ∈ exportSequence → rendersEmpty board layer = true → reached board layer →
  silentWhenEmpty layer = false →
  displayed displayMessageBoxes (emptyDiagnostic layer) ∈ events.
Proof.
  intros Hseq Hempty Hreached Hsilent.
  destruct (decide (layer = Outline)) as [->|Houtline];
    [|destruct (decide (layer = Drill)) as [->|Hdrill]].
  - destruct outline_tail_in_events as (tail & (rest & -> & Hrest & _) & Hsub).
    apply Hsub. rewrite (Hrest Hempty). right. left.
  - destruct outline_tail_in_events as (tail & (rest & -> & _ & Hfull) & Hsub).
    destruct (Hfull (Hreached eq_refl))
      as (contour & drill & report & -> & _ & (rest' & -> & Hrest & _) & _).
    apply Hsub. right. rewrite !elem_of_app. right. left.
    rewrite (Hrest Hempty). right. left.
  - destruct (layer_segment_in_events layer Hseq Houtline Hdrill)
      as (segment & (rest & -> & Hrest & _) & Hsub).
    apply Hsub. rewrite (Hrest Hempty), Hsilent. right. left.
Qed.

End PipelineFacts.

(** C2 (as amended): a layer of the export sequence whose rendering is
    empty gets no file.  For every layer the export gets to (each one up to
    the outline; the drill layer is covered for an outline that is not
    empty) the empty rendering is reported with the layer's diagnostic,
    except under the guard of [doSilk], which reports an empty silk layer
    only when its view layers include [Silkscreen1]; and every later layer
    the export gets to is still rendered. *)
Theorem empty_layer_is_skipped {graphics : GraphicsUtils}
    {collaborators : Pipeline.Collaborators}
    (clipToBoardResult : string → Pipeline.Board → string → ForWhy → string → bool →
                         Connectors.TreatAsCircle → string * list Display)
    (cleanOutline : string → string) (prefix exportDir : string)
    (board : Pipeline.Board) (displayMessageBoxes : bool) (layer : Pipeline.Layer) :
  let events := Pipeline.exportEvents clipToBoardResult cleanOutline prefix exportDir
                                      board displayMessageBoxes in
  layer ∈ Pipeline.exportSequence → Pipeline.rendersEmpty board layer = true →
  (Pipeline.reached board layer → Pipeline.silentWhenEmpty layer = false →
   Pipeline.displayed displayMessageBoxes (Pipeline.emptyDiagnostic layer) ∈ events)
  ∧ (∀ content,
       Pipeline.Written (Pipeline.layerFile prefix exportDir layer) content ∉ events)
  ∧ (∀ later, later ∈ Pipeline.remainingAfter layer Pipeline.exportSequence →
              Pipeline.reached board later → Pipeline.rendering later ∈ events).
Proof.
  intros events Hseq Hempty. split_and!.
  - intros Hreached Hsilent. by apply diagnostic_in_events.
  - intros content Hin. apply written_origin in Hin as [Heq|(layer' & Heq & Hfull)].
    + by apply layerFile_not_pickAndPlace in Heq.
    + apply layerFile_inj in Heq. subst layer'. congruence.
  - intros later Hlater Hreached. apply rendering_in_events; [|done].
    by apply remainingAfter_subseteq in Hlater.
Qed.

Lemma empty_layer_is_skipped_witness :
  Pipeline.Displayed (collaborators := Sample.bareBoard)
      (DebugLog "silk layer Silk1 export is empty")
    ∈ Sample.bareBoardEvents
  ∧ (∀ content, Pipeline.Written (collaborators := Sample.bareBoard)
                  "out/demo_silkTop.gto" content ∉ Sample.bareBoardEvents)
  ∧ Pipeline.rendering (collaborators := Sample.bareBoard) Pipeline.Outline
    ∈ Sample.bareBoardEvents.
Proof.
  destruct (empty_layer_is_skipped (graphics := Sample.fritzingDPI)
              (collaborators := Sample.bareBoard) Sample.passThrough id "demo" "out" ()
              false Pipeline.SilkTop) as (Hdiagnostic & Hfile & Hlater).
  - vm_compute. do 6 right. left.
  - reflexivity.
  - split_and!.
    + apply Hdiagnostic; [by intros [=] | reflexivity].
    + exact Hfile.
    + apply (Hlater Pipeline.Outline); [vm_compute; right; left | by intros [=]].
Defined.

(** The rule as section 4.4 words it fails on the sample board, whose
    silkscreens and outline are empty: nothing is displayed for the bottom
    silkscreen, and the drill layer is never rendered. *)
Lemma emptyLayersAreSkipped_fails :
  ¬ Pipeline.emptyLayersAreSkipped (graphics := Sample.fritzingDPI)
      (collaborators := Sample.bareBoard) Sample.passThrough id "demo" "out" () false.
Proof.
  intros Hrule.
  destruct (Hrule Pipeline.SilkBottom) as (Hdiagnostic & _).
  { vm_compute. do 7 right. left. }
  { reflexivity. }
  assert (bool_decide
            (Pipeline.displayed (collaborators := Sample.bareBoard) false
               (Pipeline.emptyDiagnostic Pipeline.SilkBottom)
             ∈ Sample.bareBoardEvents) = false) as Hsilent
    by (vm_compute; reflexivity).
  by apply bool_decide_eq_false_1 in Hsilent.
Qed.

Example empty_outline_skips_drill :
  Pipeline.rendering (collaborators := Sample.bareBoard) Pipeline.Drill
    ∉ Sample.bareBoardEvents.
Proof.
  assert (bool_decide
            (Pipeline.rendering (collaborators := Sample.bareBoard) Pipeline.Drill
             ∈ Sample.bareBoardEvents) = false) as Hskipped
    by (vm_compute; reflexivity).
  by apply bool_decide_eq_false_1 in Hskipped.
Qed.

(** ** Multi-contour splitting *)

Section ContourFacts.
Import QStr Dom Contours.
Context {regex : SvgPathRegex}.

Lemma checkContours_stopped root paths multipleContours :
  checkContours root paths multipleContours false = (multipleContours, false).
Proof. by destruct paths. Qed.

(** A path with multiple Zs one of whose subpaths does not begin with a
    move makes the first loop end with [multipleContours] set and
    [contoursOK] cleared. *)
Lemma checkContours_malformed root paths multipleContours contoursOK path pathElement :
  (contoursOK = false → multipleContours = true) →
  path ∈ paths → nodeAt root path = Some pathElement →
  hasMultipleZs pathElement = true →
  forallb beginsWithMove (subpathsOf pathElement) = false →
  checkContours root paths multipleContours contoursOK = (true, false).
Proof.
  intros Hinv Hin Hat Hmulti Hbad. revert multipleContours contoursOK Hinv.
  induction paths as [|head paths IH]; intros multipleContours contoursOK Hinv.
  - by apply elem_of_nil in Hin.
  - simpl. destruct contoursOK; simpl; [|by rewrite Hinv].
    apply elem_of_cons in Hin as [<-|Hin].
    + rewrite Hat, Hmulti, Hbad. simpl. apply checkContours_stopped.
    + destruct (nodeAt root head) as [headElement|]; [|by apply IH].
      destruct (hasMultipleZs headElement); simpl; apply IH; done.
Qed.

End ContourFacts.

(** C3: when a path of the outline document has multiple contour-close
    markers and one of the subpaths between the markers does not begin
    with a move command, [dealWithMultipleContours] displays the message
    about cutouts, returns false and hands the document back as it was:
    no [d] attribute is changed, and the run does not depend on the fuel
    of the splitting loop, which is never entered. *)
Theorem malformed_cutouts_are_reported {regex : SvgPathRegex}
    (fuel : nat) (root : Dom.QDomElement) (displayMessageBoxes : bool)
    (path : Dom.Addr) (pathElement : Dom.QDomElement) (subpath : string) :
  path ∈ Dom.elementsByTagName root "path" →
  Dom.nodeAt root path = Some pathElement →
  Contours.hasMultipleZs pathElement = true →
  subpath ∈ Contours.subpathsOf pathElement →
  Contours.beginsWithMove subpath = false →
  Contours.dealWithMultipleContours fuel root displayMessageBoxes
  = Returns (false, root, [displayMessage Contours.cutoutsMessage displayMessageBoxes]).
Proof.
  intros Hin Hat Hmulti Hsub Hmove. unfold Contours.dealWithMultipleContours.
  rewrite (checkContours_malformed root _ false true path pathElement); try done.
  apply not_true_is_false. rewrite forallb_forall. intros Hall.
  apply list_elem_of_In in Hsub. specialize (Hall subpath Hsub). congruence.
Qed.

Section DomSurgery.
Import Dom.

Lemma nodeAt_app root a b :
  nodeAt root (a ++ b) = nodeAt root a ≫= λ x, nodeAt x b.
Proof.
  revert root. induction a as [|i a IH]; intros root; simpl; [done|].
  destruct (childNodes root !! i) as [c|]; simpl; [apply IH | done].
Qed.

Lemma nodeAt_modify_below f a rest root :
  nodeAt (modify f a root) (a ++ rest) = nodeAt root a ≫= λ x, nodeAt (f x) rest.
Proof.
  revert root. induction a as [|i a IH]; intros root; simpl; [done|].
  rewrite list_lookup_alter_eq.
  destruct (childNodes root !! i) as [c|]; simpl; [apply IH | done].
Qed.

(** A mutation at [a] leaves the tag and the attributes of every node
    that is not at or below [a]. *)
Lemma shallow_modify_off {A} (π : QDomElement → A) f a b root :
  (∀ t m cs cs', π (Element t m cs) = π (Element t m cs')) →
  ¬ a `prefix_of` b →
  π <$> nodeAt (modify f a root) b = π <$> nodeAt root b.
Proof.
  intros Hπ. revert root b. induction a as [|i a IH]; intros root b Hoff.
  - destruct Hoff. apply prefix_nil.
  - destruct b as [|j b]; simpl.
    + f_equal. destruct root; simpl. apply Hπ.
    + rewrite list_lookup_alter. destruct (decide (i = j)) as [->|Hij]; [|done].
      destruct (childNodes root !! j) as [c|]; simpl; [|done].
      apply IH. intros Hpre. apply Hoff. by apply prefix_cons.
Qed.

Lemma modify_ext f g a root :
  (∀ x, f x = g x) → modify f a root = modify g a root.
Proof.
  intros Hfg. revert root. induction a as [|i a IH]; intros root; simpl; [done|].
  f_equal. apply list_alter_ext; [|done]. intros x _. apply IH.
Qed.

Lemma modify_id a root : modify id a root = root.
Proof.
  revert root. induction a as [|i a IH]; intros [t m cs]; simpl; [done|].
  f_equal. by apply list_alter_id.
Qed.

Lemma modify_modify f g a root :
  modify f a (modify g a root) = modify (f ∘ g) a root.
Proof.
  revert root. induction a as [|i a IH]; intros root; simpl; [done|].
  f_equal. rewrite list_alter_alter_eq. apply list_alter_ext; [|done].
  intros x _. apply IH.
Qed.

Lemma modify_snoc f q i root :
  modify f (q ++ [i]) root = modify (alterChild f i) q root.
Proof.
  revert root. induction q as [|j q IH]; intros root; simpl; [done|].
  f_equal. apply list_alter_ext; [|done]. intros x _. apply IH.
Qed.

Lemma parentNode_snoc (a : Addr) :
  a ≠ [] → ∃ i, a = parentNode a ++ [i].
Proof.
  intros Hne. exists (List.last a 0). unfold parentNode.
  by apply app_removelast_last.
Qed.

End DomSurgery.

Section SplitFacts.
Import QStr Dom Contours.
Context {regex : SvgPathRegex}.

Lemma splitContours_single fuel p root :
  singleContours root →
  length (elementsByTagName root "path") - p < fuel →
  splitContours fuel p root = Returns root.
Proof.
  intros Hsingle. revert p. induction fuel as [|fuel IH]; intros p Hfuel; [lia|].
  simpl. destruct (elementsByTagName root "path" !! p) as [path|] eqn:Hp; [|done].
  destruct (nodeAt root path) as [pathElement|] eqn:Hat; [|done].
  rewrite (Hsingle path pathElement); [|by eapply list_elem_of_lookup_2|done].
  apply IH. apply lookup_lt_Some in Hp. lia.
Qed.

(** The loop passes over single-contour paths. *)
Lemma splitContours_skip k fuel p root :
  (∀ j b e, p ≤ j < p + k → elementsByTagName root "path" !! j = Some b →
            nodeAt root b = Some e → hasMultipleZs e = false) →
  p + k ≤ length (elementsByTagName root "path") →
  splitContours (k + fuel) p root = splitContours fuel (p + k) root.
Proof.
  revert p. induction k as [|k IH]; intros p Hskip Hlen.
  - by rewrite Nat.add_0_r.
  - simpl. destruct (elementsByTagName root "path" !! p) as [path|] eqn:Hp.
    2:{ apply lookup_ge_None in Hp. lia. }
    destruct (nodeAt root path) as [pathElement|] eqn:Hat.
    2:{ assert (path ∈ elementsByTagName root "path") as Hin
          by (by eapply list_elem_of_lookup_2).
        apply list_elem_of_filter in Hin as [Htag _]. unfold tagAt in Htag.
        by rewrite Hat in Htag. }
    rewrite (Hskip p path pathElement); [|lia|done|done].
    rewrite IH; [f_equal; lia | | lia].
    intros j b e Hj. apply Hskip. lia.
Qed.

Lemma appendChildren_fold pathElement q data root :
  foldl (λ root d, modify (appendChild (setAttribute "d" d pathElement)) q root) root data
  = modify (λ parent, Element (tagName parent) (attributes parent)
                        (childNodes parent ++ ((λ d, setAttribute "d" d pathElement) <$> data)))
           q root.
Proof.
  revert root. induction data as [|d data IH]; intros root; simpl.
  - rewrite (modify_ext _ id), modify_id; [done|].
    intros [t m cs]. simpl. by rewrite app_nil_r.
  - rewrite IH, modify_modify. apply modify_ext. intros [t m cs]. simpl.
    by rewrite <- app_assoc.
Qed.

Lemma splitPath_parent root q i pathElement first later :
  subpathsOf pathElement = first :: later →
  splitPath root (q ++ [i]) pathElement
  = Some (modify (splitParent pathElement i first (newContours pathElement (first :: later)))
                 q root).
Proof.
  intros Hsub. unfold splitPath. rewrite Hsub. f_equal.
  unfold parentNode. rewrite removelast_last.
  rewrite appendChildren_fold, modify_snoc, modify_modify.
  apply modify_ext. by intros [t m cs].
Qed.

End SplitFacts.

Section SplitResult.
Import QStr Dom Contours.
Context {regex : SvgPathRegex}.

Lemma elem_of_elementsByTagName root t b :
  b ∈ elementsByTagName root t ↔ b ≠ [] ∧ ∃ e, nodeAt root b = Some e ∧ tagName e = t.
Proof.
  unfold elementsByTagName, tagAt. rewrite list_elem_of_filter, elem_of_descendants. split.
  - intros (Htag & Hne & _). split; [done|].
    destruct (nodeAt root b) as [e|]; simpl in Htag; [|done].
    exists e. split; congruence.
  - intros (Hne & e & Hat & Htag). rewrite Hat. simpl. split_and!; [congruence | done | by eexists].
Qed.

Lemma hasMultipleZs_attributes e e' :
  attributes e = attributes e' → hasMultipleZs e = hasMultipleZs e'.
Proof. unfold hasMultipleZs, originalPath, attributeOr. by intros ->. Qed.

Lemma hasMultipleZs_setAttribute d e :
  hasMultipleZs (setAttribute "d" d e) = MultipleZs (trimmed d).
Proof.
  unfold hasMultipleZs, originalPath, attributeOr, setAttribute. simpl.
  by rewrite lookup_insert_eq.
Qed.

Variables (root : QDomElement) (q : Addr) (i : nat) (pathElement : QDomElement).
Variables (first : string) (data : list string).
Hypothesis Hpath : nodeAt root (q ++ [i]) = Some pathElement.
Hypothesis Hothers :
  ∀ other e, other ∈ elementsByTagName root "path" → other ≠ q ++ [i] →
             nodeAt root other = Some e → hasMultipleZs e = false.
Hypothesis Hfirst : MultipleZs (trimmed (first +:+ "z")) = false.
Hypothesis Hdata : Forall (λ d, MultipleZs (trimmed d) = false) data.

Lemma old_path_single b e :
  b ≠ [] → b ≠ q ++ [i] → nodeAt root b = Some e → tagName e = "path" →
  hasMultipleZs e = false.
Proof.
  intros Hne Hother Hat Htag. apply (Hothers b e); [|done..].
  apply elem_of_elementsByTagName. eauto.
Qed.

(** A node below the path element is a node of the old document. *)
Lemma below_path_single rest e :
  rest ≠ [] → nodeAt pathElement rest = Some e → tagName e = "path" →
  hasMultipleZs e = false.
Proof.
  intros Hrest Hat Htag. apply (old_path_single ((q ++ [i]) ++ rest)); [| | |done].
  - by destruct q.
  - intros Heq. rewrite <- (app_nil_r (q ++ [i])) in Heq at 2.
    by apply app_inv_head in Heq.
  - by rewrite nodeAt_app, Hpath.
Qed.

Lemma copy_single d rest e :
  MultipleZs (trimmed d) = false →
  nodeAt (setAttribute "d" d pathElement) rest = Some e → tagName e = "path" →
  hasMultipleZs e = false.
Proof.
  intros Hd Hat Htag. destruct rest as [|k rest].
  - injection Hat as <-. by rewrite hasMultipleZs_setAttribute.
  - by apply (below_path_single (k :: rest)).
Qed.

Lemma split_singleContours :
  singleContours (modify (splitParent pathElement i first data) q root).
Proof.
  intros b e [Hne (e' & Hat & Htag)]%elem_of_elementsByTagName He.
  rewrite He in Hat. injection Hat as <-.
  pose proof Hpath as Hchild. rewrite nodeAt_app in Hchild.
  destruct (nodeAt root q) as [parent|] eqn:Hq; [|done]. simpl in Hchild.
  destruct (childNodes parent !! i) as [child|] eqn:Hi; [|done].
  simpl in Hchild. injection Hchild as Hchild.
  destruct (decide (q `prefix_of` b)) as [[rest ->]|Hoff].
  - rewrite nodeAt_modify_below, Hq in He. simpl in He.
    destruct rest as [|j rest].
    + injection He as <-. rewrite app_nil_r in Hne.
      rewrite (hasMultipleZs_attributes _ parent) by done.
      apply (old_path_single q); [done | | done | done].
      intros Heq. rewrite <- (app_nil_r q) in Heq at 1. by apply app_inv_head in Heq.
    + simpl in He. rewrite list_lookup_alter in He.
      destruct (decide (i = j)) as [<-|Hij].
      * rewrite lookup_app_l, Hi in He by (by eapply lookup_lt_Some). simpl in He.
        subst child. by apply (copy_single (first +:+ "z") rest).
      * destruct (decide (j < length (childNodes parent))) as [Hold|Hnew].
        -- rewrite lookup_app_l in He by done.
           apply (old_path_single (q ++ j :: rest)); [by destruct q | | | done].
           ++ intros Heq. apply app_inv_head in Heq. congruence.
           ++ by rewrite nodeAt_app, Hq.
        -- rewrite lookup_app_r, list_lookup_fmap in He by lia.
           destruct (data !! _) as [d|] eqn:Hd; simpl in He; [|done].
           apply (copy_single d rest); [|done..].
           rewrite Forall_lookup in Hdata. by eapply Hdata.
  - pose proof (shallow_modify_off (λ x, (tagName x, attributes x))
                  (splitParent pathElement i first data) q b root
                  (λ _ _ _ _, eq_refl) Hoff) as Hshallow.
    rewrite He in Hshallow. simpl in Hshallow.
    destruct (nodeAt root b) as [e0|] eqn:Hb; simpl in Hshallow; [|done].
    injection Hshallow as Htag0 Hattrs0.
    rewrite (hasMultipleZs_attributes e e0) by done.
    apply (old_path_single b); [done | | done | congruence].
    intros ->. apply Hoff. by eexists.
Qed.

End SplitResult.

Section SplitTheorem.
Import QStr Dom Contours.
Context {regex : SvgPathRegex}.

(** The first loop finds nothing to object to when every path with
    multiple Zs has well-formed subpaths. *)
Lemma checkContours_wellformed root paths multipleContours :
  (∀ b e, b ∈ paths → nodeAt root b = Some e → hasMultipleZs e = true →
          forallb beginsWithMove (subpathsOf e) = true) →
  ∃ found,
    checkContours root paths multipleContours true = (found, true)
    ∧ (multipleContours = true → found = true)
    ∧ ((∃ b e, b ∈ paths ∧ nodeAt root b = Some e ∧ hasMultipleZs e = true) → found = true).
Proof.
  revert multipleContours. induction paths as [|head paths IH]; intros multipleContours Hok.
  - exists multipleContours. split_and!; [done..|]. by intros (b & e & ?%elem_of_nil & _).
  - simpl. destruct (nodeAt root head) as [headElement|] eqn:Hhead.
    + destruct (hasMultipleZs headElement) eqn:Hmulti; simpl.
      * rewrite (Hok head headElement) by (done || left).
        destruct (IH true) as (found & Hrun & Hset & _).
        { intros b e Hb. apply Hok. by right. }
        exists found. split_and!; [done | by intros; apply Hset | by intros; apply Hset].
      * destruct (IH multipleContours) as (found & Hrun & Hset & Hfound).
        { intros b e Hb. apply Hok. by right. }
        exists found. split_and!; [done..|].
        intros (b & e & [->|Hb]%elem_of_cons & Hat & Hm); [congruence|].
        apply Hfound. eauto.
    + destruct (IH multipleContours) as (found & Hrun & Hset & Hfound).
      { intros b e Hb. apply Hok. by right. }
      exists found. split_and!; [done..|].
      intros (b & e & [->|Hb]%elem_of_cons & Hat & Hm); [congruence|].
      apply Hfound. eauto.
Qed.

Lemma split_contours_run root q i pathElement first later :
  q ++ [i] ∈ elementsByTagName root "path" →
  nodeAt root (q ++ [i]) = Some pathElement →
  hasMultipleZs pathElement = true →
  subpathsOf pathElement = first :: later →
  (∀ other e, other ∈ elementsByTagName root "path" → other ≠ q ++ [i] →
              nodeAt root other = Some e → hasMultipleZs e = false) →
  MultipleZs (trimmed (first +:+ "z")) = false →
  Forall (λ d, MultipleZs (trimmed d) = false) (newContours pathElement (first :: later)) →
  ∃ enough, ∀ fuel, enough ≤ fuel →
    splitContours fuel 0 root
    = Returns (modify (splitParent pathElement i first
                         (newContours pathElement (first :: later))) q root).
Proof.
  intros Hin Hat Hmulti Hsub Hothers Hfirst Hdata.
  set (root' := modify _ q root).
  destruct (list_elem_of_split_l _ _ Hin) as (before & after & Hlist & Hbefore).
  exists (length before + length (elementsByTagName root' "path") + 2).
  intros fuel Hfuel.
  assert (fuel = length before + S (fuel - length before - 1)) as Hsplit by lia.
  rewrite Hsplit.
  rewrite splitContours_skip; cbn [Nat.add splitContours].
  - rewrite Hlist at 1. rewrite list_lookup_middle by done. rewrite Hat, Hmulti.
    rewrite (splitPath_parent root q i pathElement first later Hsub). fold root'.
    apply splitContours_single; [|lia].
    by apply split_singleContours.
  - intros j b e Hj Hb He. apply (Hothers b e); [by eapply list_elem_of_lookup_2 | | done].
    intros ->. apply Hbefore. rewrite Hlist in Hb.
    assert (j < length before) as Hlt by (clear -Hj; lia).
    rewrite lookup_app_l in Hb by exact Hlt. by eapply list_elem_of_lookup_2.
  - rewrite Hlist, length_app. lia.
Qed.

End SplitTheorem.

(** The run of [dealWithMultipleContours] on a well-formed outline whose
    path is the only one with multiple Zs: the children of the parent
    afterwards, the copies by [Contours.newContours]. *)
Lemma split_contours_children {regex : SvgPathRegex} (root : Dom.QDomElement)
    (displayMessageBoxes : bool) (path : Dom.Addr) (pathElement : Dom.QDomElement)
    (first : string) (later : list string) :
  let data := Contours.newContours pathElement (first :: later) in
  let rewritten := Dom.setAttribute "d" (first +:+ "z") pathElement in
  let copies := (λ d, Dom.setAttribute "d" d pathElement) <$> data in
  path ∈ Dom.elementsByTagName root "path" →
  Dom.nodeAt root path = Some pathElement →
  Contours.hasMultipleZs pathElement = true →
  Contours.subpathsOf pathElement = first :: later →
  forallb Contours.beginsWithMove (first :: later) = true →
  (∀ other e, other ∈ Dom.elementsByTagName root "path" → other ≠ path →
              Dom.nodeAt root other = Some e → Contours.hasMultipleZs e = false) →
  MultipleZs (QStr.trimmed (first +:+ "z")) = false →
  Forall (λ d, MultipleZs (QStr.trimmed d) = false) data →
  ∃ root' parent i enough,
    (∀ fuel, enough ≤ fuel →
       Contours.dealWithMultipleContours fuel root displayMessageBoxes
       = Returns (true, root', []))
    ∧ path = Dom.parentNode path ++ [i]
    ∧ Dom.nodeAt root (Dom.parentNode path) = Some parent
    ∧ Dom.nodeAt root' path = Some rewritten
    ∧ Dom.childNodes <$> Dom.nodeAt root' (Dom.parentNode path)
      = Some (alter (λ _, rewritten) i (Dom.childNodes parent) ++ copies)
    ∧ length copies = length later.
Proof.
  intros data rewritten copies Hin Hat Hmulti Hsub Hmoves Hothers Hfirst Hdata.
  assert (path ≠ []) as Hne by (apply elem_of_elementsByTagName in Hin; tauto).
  destruct (parentNode_snoc path Hne) as [i Hpath].
  set (q := Dom.parentNode path) in *. clearbody q. subst path.
  destruct (split_contours_run root q i pathElement first later)
    as [enough Hrun]; try done.
  pose proof Hat as Hchild. rewrite nodeAt_app in Hchild.
  destruct (Dom.nodeAt root q) as [parent|] eqn:Hq; [|done]. simpl in Hchild.
  destruct (Dom.childNodes parent !! i) as [child|] eqn:Hi; [|done].
  simpl in Hchild. injection Hchild as ->.
  eexists _, parent, i, enough. split_and!.
  - intros fuel Hfuel. unfold Contours.dealWithMultipleContours.
    destruct (checkContours_wellformed root (Dom.elementsByTagName root "path") false)
      as (found & -> & _ & Hfound).
    { intros b e Hb He Hm. destruct (decide (b = q ++ [i])) as [->|Hother].
      - rewrite Hat in He. injection He as <-. by rewrite Hsub.
      - rewrite (Hothers b e) in Hm; done. }
    rewrite Hfound by eauto. simpl. by rewrite (Hrun fuel Hfuel).
  - done.
  - done.
  - rewrite nodeAt_modify_below, Hq. simpl.
    rewrite list_lookup_alter_eq, lookup_app_l, Hi by (by eapply lookup_lt_Some). done.
  - rewrite nodeAt_modify_same, Hq. simpl. f_equal.
    rewrite alter_app_l by (by eapply lookup_lt_Some). f_equal.
    apply list_alter_ext; [|done]. intros x Hx. rewrite Hi in Hx. by injection Hx as <-.
  - unfold copies, data. rewrite length_fmap. simpl.
    generalize (Contours.moveText (MFinder (QStr.trimmed first))).
    generalize (QStr.endsWithChar QStr.CaseInsensitive (Contours.originalPath pathElement) "z").
    clear. induction later as [|s later IH]; intros z priorM; simpl; [done|].
    f_equal. apply IH.
Qed.

Lemma malformed_cutouts_are_reported_witness :
  Contours.dealWithMultipleContours (regex := Sample.pathRegex) 0
    (Sample.outlineDocument Sample.malformedCutouts) true
  = Returns (false, Sample.outlineDocument Sample.malformedCutouts,
             [MessageBox Contours.cutoutsMessage]).
Proof.
  apply (malformed_cutouts_are_reported (regex := Sample.pathRegex) 0
           (Sample.outlineDocument Sample.malformedCutouts) true [0; 0]
           (Dom.Element "path"
              (Sample.attrsOf [("id", "boardoutline"); ("d", Sample.malformedCutouts)]) [])
           " l2,2 l1,0 l0,1 ").
  - vm_compute. left.
  - reflexivity.
  - reflexivity.
  - vm_compute. right. left.
  - reflexivity.
Defined.

(** ** The pieces of a split path *)

Section PieceFacts.
Import QStr Dom Contours ContourSpec.
Context {regex : SvgPathRegex} {numbers : QtNumbers}.

Lemma string_app_assoc (a b c : string) : (a +:+ b) +:+ c = a +:+ (b +:+ c).
Proof.
  induction a as [|x a IH]; [done|].
  change (String x ((a +:+ b) +:+ c) = String x (a +:+ (b +:+ c))). by rewrite IH.
Qed.

Lemma string_app_empty (a : string) : a +:+ "" = a.
Proof.
  induction a as [|x a IH]; [done|].
  change (String x (a +:+ "") = String x a). by rewrite IH.
Qed.

Lemma moveTexts_app l1 l2 : moveTexts (l1 ++ l2) = moveTexts l1 +:+ moveTexts l2.
Proof.
  unfold moveTexts. induction l1 as [|m l1 IH]; [done|].
  cbn [app foldr]. by rewrite IH, string_app_assoc.
Qed.

Lemma existsb_snoc {A} (f : A → bool) l x : existsb f (l ++ [x]) = existsb f l || f x.
Proof. rewrite existsb_app. simpl. by rewrite orb_false_r. Qed.

Lemma sinceAbsolute_relative moves :
  existsb isAbsolute moves = false → sinceAbsolute moves = moves.
Proof.
  induction moves as [|m rest IH]; simpl; [done|].
  intros [_ Hrest]%orb_false_elim. by rewrite Hrest.
Qed.

(** One more move: an absolute one starts the run again, a relative one
    joins it. *)
Lemma sinceAbsolute_snoc moves m :
  moves ≠ [] →
  sinceAbsolute (moves ++ [m])
  = if isAbsolute m then [m] else sinceAbsolute moves ++ [m].
Proof.
  induction moves as [|m0 rest IH]; intros Hne; [done|]. simpl.
  rewrite existsb_snoc.
  destruct rest as [|m1 rest'].
  - simpl. by destruct (isAbsolute m).
  - specialize (IH ltac:(done)).
    destruct (existsb isAbsolute (m1 :: rest')) eqn:Hrest; simpl.
    + exact IH.
    + destruct (isAbsolute m) eqn:Hm; [exact IH|]. done.
Qed.

Lemma propagatedMove_snoc moves m :
  moves ≠ [] →
  propagatedMove (moves ++ [m])
  = if isAbsolute m then moveText m else propagatedMove moves +:+ moveText m.
Proof.
  intros Hne. unfold propagatedMove. rewrite sinceAbsolute_snoc by done.
  destruct (isAbsolute m); simpl; [apply string_app_empty|].
  rewrite moveTexts_app. simpl. by rewrite string_app_empty.
Qed.

(** An absolute move leads to its point from anywhere. *)
Lemma foldl_moveTo_absolute moves :
  existsb isAbsolute moves = true →
  ∀ p q, foldl moveTo p (sinceAbsolute moves) = foldl moveTo q moves.
Proof.
  induction moves as [|m rest IH]; simpl; [done|]. intros Hsome p q.
  destruct (existsb isAbsolute rest) eqn:Hrest; [by apply IH|].
  rewrite orb_false_r in Hsome. simpl. unfold moveTo at 2 4. by rewrite Hsome.
Qed.

Lemma startPoint_sinceAbsolute moves m :
  startPoint (sinceAbsolute moves ++ [m]) = startPoint (moves ++ [m]).
Proof.
  unfold startPoint. rewrite !foldl_app. simpl. f_equal.
  destruct (existsb isAbsolute moves) eqn:Hsome.
  - by apply foldl_moveTo_absolute.
  - by rewrite sinceAbsolute_relative.
Qed.

(** The text of the copies, one by one: lines 942-953. *)
Lemma contourData_lookup endsWithZ :
  ∀ rest seen j subpath,
  let body := λ (i : nat) (s : string),
    trimmed s +:+ (if bool_decide (S i < length rest) || endsWithZ then "z" else "") in
  let moves := seen ++ imap (λ i s, MFinder (body i s)) (take j rest) in
  seen ≠ [] → rest !! j = Some subpath →
  contourData endsWithZ (propagatedMove seen) rest !! j
  = Some ((if startsWith CaseSensitive (body j subpath) "m" then propagatedMove moves
           else "") +:+ body j subpath).
Proof.
  induction rest as [|s0 rest IH]; intros seen j subpath body moves Hseen Hj; [done|].
  assert ((if negb (bool_decide (rest = [])) || endsWithZ then "z" else "")
          = (if bool_decide (1 < S (length rest)) || endsWithZ then "z" else ""))
    as Hz.
  { destruct rest as [|s1 rest']; repeat case_bool_decide; simpl in *; done || lia. }
  cbn [contourData]. cbv zeta. rewrite Hz.
  set (d0 := trimmed s0 +:+ (if bool_decide (1 < S (length rest)) || endsWithZ
                             then "z" else "")).
  assert (∀ i s, (trimmed s +:+ (if bool_decide (S i < length rest) || endsWithZ
                                 then "z" else ""))
                 = body (S i) s) as Hbody.
  { intros i s. unfold body. cbn [length].
    destruct (decide (S i < length rest)).
    - by rewrite !bool_decide_eq_true_2 by lia.
    - by rewrite !bool_decide_eq_false_2 by lia. }
  destruct j as [|j].
  - injection Hj as <-. unfold moves. cbn [take imap]. rewrite app_nil_r.
    change (body 0 s0) with d0. cbn [lookup list_lookup].
    by destruct (startsWith CaseSensitive d0 "m").
  - change ((s0 :: rest) !! S j) with (rest !! j) in Hj.
    rewrite lookup_cons_ne_0 by done. cbn [pred].
    assert ((if bool_decide ((MFinder d0).1.1 = "M") then moveText (MFinder d0)
             else propagatedMove seen +:+ moveText (MFinder d0))
            = propagatedMove (seen ++ [MFinder d0])) as ->.
    { by rewrite propagatedMove_snoc. }
    rewrite (IH (seen ++ [MFinder d0]) j subpath) by (done || by destruct seen).
    rewrite Hbody. unfold moves. cbn [take imap]. change (body 0 s0) with d0.
    rewrite <- app_assoc. cbn [app].
    assert (imap (λ i s, MFinder (trimmed s +:+ (if bool_decide (S i < length rest)
                                                     || endsWithZ then "z" else "")))
                 (take j rest)
            = imap ((λ i s, MFinder (body i s)) ∘ S) (take j rest)) as ->; [|done].
    apply imap_ext. intros i s _. cbn [compose]. by rewrite Hbody.
Qed.

Lemma newContours_lookup pathElement first later j subpath :
  let endsWithZ := endsWithChar CaseInsensitive (originalPath pathElement) "z" in
  let body := λ (i : nat) (s : string),
    trimmed s +:+ (if bool_decide (S i < length later) || endsWithZ then "z" else "") in
  let moves := MFinder (trimmed first) :: imap (λ i s, MFinder (body i s)) (take j later) in
  later !! j = Some subpath →
  newContours pathElement (first :: later) !! j
  = Some ((if startsWith CaseSensitive (body j subpath) "m" then propagatedMove moves
           else "") +:+ body j subpath).
Proof.
  intros endsWithZ body moves Hj. unfold newContours.
  assert (moveText (MFinder (trimmed first)) = propagatedMove [MFinder (trimmed first)])
    as -> by (unfold propagatedMove; simpl; by rewrite string_app_empty).
  by rewrite (contourData_lookup endsWithZ later [MFinder (trimmed first)] j subpath).
Qed.

(** The pieces and the close markers. *)
Lemma splitKeep_head cs sep s :
  ∃ p ps, splitKeep cs sep s = p :: ps
          ∧ (p = "" ↔ s = "" ∨ ∃ c s', s = String c s' ∧ eqChar cs c sep = true).
Proof.
  destruct s as [|c s']; simpl.
  - eexists _, _. split; [done|]. split; [by left|done].
  - destruct (eqChar cs c sep) eqn:Hc.
    + eexists _, _. split; [done|]. split; [|done]. intros _. right. by exists c, s'.
    + destruct (splitKeep cs sep s') as [|p ps]; eexists _, _; (split; [done|]).
      * split; [done|]. intros [|(c' & s'' & [= -> ->] & Hc')]; congruence.
      * split; [done|]. intros [|(c' & s'' & [= -> ->] & Hc')]; congruence.
Qed.

Lemma idleMarkers_flag d :
  idleMarkers true d
  = idleMarkers false d
    + (match d with
       | String c _ => if eqChar CaseInsensitive c "z" then 1 else 0
       | EmptyString => 0
       end).
Proof.
  destruct d as [|c d']; [done|]. cbn [idleMarkers].
  destruct (eqChar CaseInsensitive c "z"); lia.
Qed.

Lemma endsOpen_cons c d :
  endsOpen (String c d)
  = if isEmpty d then negb (eqChar CaseInsensitive c "z") else endsOpen d.
Proof. by destruct d. Qed.

Lemma pieces_and_markers d :
  length (split CaseInsensitive "z" d) + idleMarkers true d
  = closeMarkers d + (if endsOpen d then 1 else 0).
Proof.
  unfold split. induction d as [|c d IH]; [done|].
  cbn [splitKeep closeMarkers idleMarkers]. rewrite endsOpen_cons.
  destruct (eqChar CaseInsensitive c "z") eqn:Hc.
  - rewrite filter_cons_False by (intros Hne; by apply Hne).
    destruct d as [|c' d']; [done|]. cbn [isEmpty negb]. lia.
  - destruct (splitKeep_head CaseInsensitive "z" d) as (p & ps & Hsplit & Hempty).
    rewrite Hsplit in IH |- *. rewrite filter_cons_True by done.
    rewrite (idleMarkers_flag d) in IH.
    destruct d as [|c' d'].
    + cbn in Hsplit. injection Hsplit as <- <-. done.
    + cbn [isEmpty negb].
      destruct (eqChar CaseInsensitive c' "z") eqn:Hc'.
      * assert (p = "") as -> by (apply Hempty; right; by exists c', d').
        rewrite filter_cons_False in IH by (intros Hne; by apply Hne).
        cbn [length] in *. lia.
      * assert (p ≠ "") as Hp.
        { intros [|(c'' & d'' & [= -> ->] & Hc'')]%Hempty; congruence. }
        rewrite filter_cons_True in IH by done. cbn [length] in *. lia.
Qed.

End PieceFacts.

Section CopyFacts.
Import QStr Dom Contours.
Context {regex : SvgPathRegex}.

Lemma length_contourData endsWithZ priorM later :
  length (contourData endsWithZ priorM later) = length later.
Proof.
  revert priorM. induction later as [|s later IH]; intros priorM; simpl; [done|].
  f_equal. apply IH.
Qed.

Lemma length_newContours pathElement first later :
  length (newContours pathElement (first :: later)) = length later.
Proof. apply length_contourData. Qed.

End CopyFacts.



(** Data that begin with a close marker: three markers, two subpaths. *)
Example leading_marker_closes_nothing :
  QStr.split QStr.CaseInsensitive "z" "zM0,0L1,1zM2,2L3,3z" = ["M0,0L1,1"; "M2,2L3,3"]
  ∧ Contours.closeMarkers "zM0,0L1,1zM2,2L3,3z" = 3
  ∧ ContourSpec.idleMarkers true "zM0,0L1,1zM2,2L3,3z" = 1
  ∧ ContourSpec.endsOpen "zM0,0L1,1zM2,2L3,3z" = false.
Proof. vm_compute. done. Qed.


Example split_open_cutouts :
  Sample.pathData
    <$> (match Contours.dealWithMultipleContours (regex := Sample.pathRegex) 10
                 (Sample.outlineDocument Sample.openCutouts) false with
         | Returns (_, root', _) => Some root'
         | _ => None
         end)
  = Some ["M0,0L9,0L9,9z"; "M2,2L3,2L3,3z"; "M5,5L6,5L6,6"].
Proof. vm_compute. reflexivity. Qed.

Section CountFacts.
Import Dom.

Lemma length_filter_fmap {A B} (f : A → B) (P : B → Prop) `{!∀ x, Decision (P x)}
    (l : list A) :
  length (filter P (f <$> l)) = length (filter (λ a, P (f a)) l).
Proof.
  induction l as [|a l IH]; [done|].
  rewrite fmap_cons, !filter_cons. destruct (decide (P (f a))); simpl; by rewrite IH.
Qed.

Lemma length_elementsByTagName t e :
  length (elementsByTagName e t) = countTag t e.
Proof.
  induction e as [tg m cs IH] using QDomElement_children_ind.
  unfold elementsByTagName. simpl.
  assert (∀ pre,
    length (filter (λ a, tagAt (Element tg m (pre ++ cs)) a = Some t)
                   (childAddrs descendants (length pre) cs))
    = countChildren (countTag t) t cs) as Hgen.
  { induction cs as [|c cs IHcs]; intros pre; simpl; [done|].
    apply Forall_cons in IH as [IHc IHrest].
    assert (tagAt (Element tg m (pre ++ c :: cs)) [length pre] = Some (tagName c)) as Hhead.
    { unfold tagAt. simpl. by rewrite list_lookup_middle. }
    assert (∀ a, tagAt (Element tg m (pre ++ c :: cs)) (length pre :: a) = tagAt c a) as Hbelow.
    { intros a. unfold tagAt. simpl. by rewrite list_lookup_middle. }
    specialize (IHcs IHrest (pre ++ [c])).
    rewrite <- app_assoc, length_app in IHcs. simpl in IHcs.
    rewrite Nat.add_1_r in IHcs.
    unfold elementsByTagName in IHc.
    assert (length (filter (λ a, tagAt (Element tg m (pre ++ c :: cs)) a = Some t)
                           (cons (length pre) <$> descendants c)) = countTag t c) as Hc.
    { etrans; [apply length_filter_fmap|]. etrans; [|apply IHc]. f_equal.
      apply list_filter_iff. intros a. by rewrite Hbelow. }
    rewrite filter_cons, Hhead, filter_app.
    destruct (decide (Some (tagName c) = Some t)) as [Heq|Hne],
             (decide (tagName c = t)) as [Heq'|Hne']; try congruence;
      cbn [length]; rewrite length_app;
      (etrans; [apply f_equal2; [apply Hc | apply IHcs]|]) ||
      (etrans; [apply f_equal, f_equal2; [apply Hc | apply IHcs]|]); lia. }
  apply (Hgen []).
Qed.

Lemma countChildren_app sub t cs cs' :
  countChildren sub t (cs ++ cs') = countChildren sub t cs + countChildren sub t cs'.
Proof. induction cs as [|c cs IH]; simpl; [done|]. rewrite IH. lia. Qed.

Lemma countChildren_alter sub t g i cs :
  (∀ c, tagName (g c) = tagName c ∧ sub (g c) = sub c) →
  countChildren sub t (alter g i cs) = countChildren sub t cs.
Proof.
  intros Hg. revert i. induction cs as [|c cs IH]; intros [|i]; simpl; [done..| |].
  - destruct (Hg c) as [-> ->]. done.
  - f_equal. apply IH.
Qed.

(** A mutation that keeps the tag of the node and the count below it keeps
    the count of the whole document. *)
Lemma countTag_modify t f a e :
  (∀ x, tagName (f x) = tagName x) → (∀ x, countTag t (f x) = countTag t x) →
  tagName (modify f a e) = tagName e ∧ countTag t (modify f a e) = countTag t e.
Proof.
  intros Htag Hcount. revert e. induction a as [|i a IH]; intros e; simpl; [done|].
  split; [done|]. destruct e as [tg m cs]. simpl.
  apply countChildren_alter. intros c. apply IH.
Qed.

End CountFacts.

(** ** Donut paths become circles *)

Section DonutFacts.
Import QStr Dom Connectors Geometry Donuts.
Context {numbers : QtNumbers} {graphics : GraphicsUtils}.
Variable boundsOnElement : QDomElement → string → QRectF.

Lemma nodeAt_modify_sibling f q i j rest root :
  i ≠ j → nodeAt (modify f (q ++ [i]) root) (q ++ j :: rest) = nodeAt root (q ++ j :: rest).
Proof.
  intros Hij. revert root. induction q as [|k q IH]; intros root; simpl.
  - by rewrite list_lookup_alter_ne.
  - rewrite list_lookup_alter_eq. destruct (childNodes root !! k) as [c|]; simpl; [apply IH|done].
Qed.

Lemma findConnectorItem_registered root1 treatAsCircle id parents connectorItem :
  findConnectorItem root1 treatAsCircle id parents = Some connectorItem →
  connectorItem ∈ values treatAsCircle ∧ svgId connectorItem = id.
Proof.
  induction parents as [|parent further IH]; simpl; [done|].
  destruct (nodeAt root1 parent) as [parentElement|]; [|done].
  destruct (isEmpty _); [done|].
  destruct (valuesOf treatAsCircle _) as [|candidate candidates] eqn:Hvalues; [done|].
  destruct (List.find _ _) as [found|] eqn:Hfind; [|done].
  intros [= <-]. apply find_some in Hfind as [Hin Hid].
  apply bool_decide_eq_true in Hid. split; [|done].
  apply list_elem_of_In in Hin. rewrite <- Hvalues in Hin.
  unfold valuesOf, values in *. apply list_elem_of_fmap in Hin as ([key item] & -> & Hin).
  apply list_elem_of_filter in Hin as [_ Hin]. apply list_elem_of_fmap. by exists (key, item).
Qed.

Lemma makeCircle_nodes root1 q i id connectorItem pathElement :
  nodeAt root1 (q ++ [i]) = Some pathElement →
  let bounds := boundsOnElement (modify (setAttribute "id" unique) (q ++ [i]) root1) unique in
  let root' := makeCircle boundsOnElement root1 q i id connectorItem in
  nodeAt root' (q ++ [i])
  = Some (Element "circle"
            (<["stroke-width" :=
                 number (strokeWidth connectorItem * StandardFritzingDPI / SVGDPI)%Q]>
             (<["r" := number (radius connectorItem * StandardFritzingDPI / SVGDPI)%Q]>
              (<["cy" := number (py (center bounds))]>
               (<["cx" := number (px (center bounds))]>
                (<["id" := id]> ∅))))) [])
  ∧ nodeAt root' (q ++ [S i]) = Some (removeAttribute "id" pathElement).
Proof.
  intros Hpath bounds root'. unfold root', makeCircle. fold bounds.
  set (marked := modify (setAttribute "id" unique) (q ++ [i]) root1).
  set (cleared := modify (removeAttribute "id") (q ++ [i]) marked).
  assert (nodeAt cleared (q ++ [i]) = Some (removeAttribute "id" pathElement)) as Hcleared.
  { unfold cleared, marked. rewrite !nodeAt_modify_same, Hpath. simpl. f_equal.
    unfold removeAttribute, setAttribute. simpl. by rewrite delete_insert_eq. }
  rewrite nodeAt_app in Hcleared.
  destruct (nodeAt cleared q) as [parent|] eqn:Hq; [|done]. simpl in Hcleared.
  destruct (childNodes parent !! i) as [child|] eqn:Hi; [|done].
  simpl in Hcleared. injection Hcleared as ->.
  assert (length (take i (childNodes parent)) = i) as Htake.
  { apply lookup_lt_Some in Hi. rewrite length_take. lia. }
  split.
  - rewrite !nodeAt_modify_same, nodeAt_modify_below, Hq. simpl.
    rewrite list_lookup_middle by done. done.
  - rewrite !nodeAt_modify_sibling by lia.
    rewrite nodeAt_modify_below, Hq. simpl.
    rewrite lookup_app_r by lia. rewrite Htake, Nat.sub_succ_l, Nat.sub_diag by lia. simpl.
    rewrite lookup_drop, Nat.add_0_r, Hi. done.
Qed.

End DonutFacts.

Section DonutLoop.
Import QStr Dom Connectors Geometry Donuts.
Context {numbers : QtNumbers} {graphics : GraphicsUtils}.
Variable boundsOnElement : QDomElement → string → QRectF.

Lemma countTag_attributes t tg m m' cs :
  countTag t (Element tg m cs) = countTag t (Element tg m' cs).
Proof. done. Qed.

Lemma countTag_insertBefore t newChild i parent :
  tagName newChild ≠ t → childNodes newChild = [] →
  countTag t (insertBefore newChild i parent) = countTag t parent.
Proof.
  intros Htag Hleaf. destruct parent as [tg m cs]. unfold insertBefore. simpl.
  rewrite countChildren_app. simpl. rewrite decide_False by done.
  destruct newChild as [tg' m' cs']. simpl in Hleaf. subst cs'. simpl.
  rewrite <- (take_drop i cs) at 3. rewrite countChildren_app. lia.
Qed.

Lemma countTag_makeCircle root1 q i id connectorItem :
  countTag "path" (makeCircle boundsOnElement root1 q i id connectorItem)
  = countTag "path" root1.
Proof.
  unfold makeCircle.
  repeat (etrans; [apply countTag_modify; [by intros [] | by intros []]|]).
  etrans; [apply countTag_modify; [by intros []|]|].
  { intros x. by apply countTag_insertBefore. }
  repeat (etrans; [apply countTag_modify; [by intros [] | by intros []]|]).
  done.
Qed.

Lemma countTag_handlePath root1 treatAsCircle path :
  countTag "path" (handlePath boundsOnElement root1 treatAsCircle path)
  = countTag "path" root1.
Proof.
  unfold handlePath. destruct (nodeAt root1 path); [|done].
  destruct (isEmpty _); [done|]. destruct (negb _); [done|].
  destruct (findConnectorItem _ _ _ _); [|done]. apply countTag_makeCircle.
Qed.

(** The loop over the paths ends: converting a donut adds no path. *)
Lemma handlePaths_returns fuel n root1 treatAsCircle :
  countTag "path" root1 - n < fuel →
  ∃ root', handlePaths boundsOnElement fuel n root1 treatAsCircle = Returns root'.
Proof.
  revert n root1. induction fuel as [|fuel IH]; intros n root1 Hfuel; [lia|].
  simpl. destruct (elementsByTagName root1 "path" !! n) as [path|] eqn:Hn; [|by eexists].
  apply IH. rewrite countTag_handlePath.
  apply lookup_lt_Some in Hn. rewrite length_elementsByTagName in Hn. lia.
Qed.

Lemma handleDonuts_returns fuel root1 treatAsCircle :
  countTag "path" root1 < fuel →
  ∃ root', handleDonuts boundsOnElement fuel root1 treatAsCircle = Returns root'.
Proof.
  intros Hfuel. unfold handleDonuts. destruct treatAsCircle; [by eexists|].
  apply handlePaths_returns. lia.
Qed.

End DonutLoop.

(** One turn of the loop of [handleDonuts], for a path whose id is not
    empty and for which the walk up its parents finds a connector of the
    set: the circle stands where the path stood, and the path follows it,
    without its id. *)
Lemma handlePath_puts_circle {numbers : QtNumbers} {graphics : GraphicsUtils}
    (boundsOnElement : Dom.QDomElement → string → Geometry.QRectF)
    (root1 : Dom.QDomElement) (treatAsCircle : Connectors.TreatAsCircle)
    (path : Dom.Addr) (pathElement : Dom.QDomElement)
    (connectorItem : Connectors.ConnectorItem) :
  let id := Dom.attribute pathElement "id" in
  let bounds :=
    boundsOnElement (Dom.modify (Dom.setAttribute "id" Donuts.unique) path root1)
                    Donuts.unique in
  let root' := Donuts.handlePath boundsOnElement root1 treatAsCircle path in
  path ≠ [] →
  Dom.nodeAt root1 path = Some pathElement →
  id ≠ "" →
  Donuts.findConnectorItem root1 treatAsCircle id (Dom.ancestry (Dom.parentNode path))
  = Some connectorItem →
  (∃ circle,
     Dom.nodeAt root' path = Some circle
     ∧ Dom.tagName circle = "circle" ∧ Dom.childNodes circle = []
     ∧ Dom.attribute circle "id" = id
     ∧ Dom.attribute circle "cx" = number (Geometry.px (Geometry.center bounds))
     ∧ Dom.attribute circle "cy" = number (Geometry.py (Geometry.center bounds))
     ∧ Dom.attribute circle "r"
       = number (Connectors.radius connectorItem * StandardFritzingDPI / SVGDPI)%Q
     ∧ Dom.attribute circle "stroke-width"
       = number (Connectors.strokeWidth connectorItem * StandardFritzingDPI / SVGDPI)%Q)
  ∧ Dom.nodeAt root' (Dom.parentNode path ++ [S (List.last path 0)])
    = Some (Dom.removeAttribute "id" pathElement)
  ∧ connectorItem ∈ Connectors.values treatAsCircle
  ∧ Connectors.svgId connectorItem = id
  ∧ (∀ fuel, Dom.countTag "path" root1 < fuel →
       ∃ result, Donuts.handleDonuts boundsOnElement fuel root1 treatAsCircle
                 = Returns result).
Proof.
  intros id bounds root' Hne Hpath Hid Hfound.
  destruct (findConnectorItem_registered _ _ _ _ _ Hfound) as [Hregistered HsvgId].
  assert (root' = Donuts.makeCircle boundsOnElement root1 (Dom.parentNode path)
                                    (List.last path 0) id connectorItem) as ->.
  { unfold root', Donuts.handlePath. rewrite Hpath. fold id.
    destruct id as [|c rest] eqn:Hidv; [done|]. simpl QStr.isEmpty. cbv iota.
    rewrite bool_decide_eq_true_2; [by rewrite Hfound|].
    unfold Donuts.ids. apply list_elem_of_fmap. by exists connectorItem. }
  assert (path = Dom.parentNode path ++ [List.last path 0]) as Hsplit
    by (by apply app_removelast_last).
  destruct (makeCircle_nodes boundsOnElement root1 (Dom.parentNode path) (List.last path 0)
              id connectorItem pathElement) as [Hcircle Hmoved]; [by rewrite <- Hsplit|].
  rewrite <- Hsplit in Hcircle. fold bounds in Hcircle.
  split; [|split_and!; [done..|]].
  - eexists. split; [exact Hcircle|]. unfold Dom.attribute. simpl.
    split_and!; try done; by simplify_map_eq.
  - intros fuel Hfuel. by apply handleDonuts_returns.
Qed.

(** The pad of the sample part has radius 9 and stroke width 4.5; the
    circle that [handleDonuts] makes of its path has radius 100 and stroke
    width 50. *)
Lemma donut_passthrough_fails :
  ∃ root' circle,
    Donuts.handleDonuts (numbers := Sample.plainNumbers) (graphics := Sample.fritzingDPI)
      (Sample.boxRenderer Sample.padBox) 5 Sample.donutDocument
      [(7%Z, Sample.padConnector)] = Returns root'
    ∧ Dom.nodeAt root' [0; 0] = Some circle
    ∧ Dom.tagName circle = "circle"
    ∧ Dom.attribute circle "r" = "100"
    ∧ Dom.attribute circle "stroke-width" = "50"
    ∧ ¬ Donuts.passesThrough (numbers := Sample.plainNumbers) Sample.padConnector circle.
Proof.
  eexists _, _. split_and!; [vm_compute; reflexivity | reflexivity | reflexivity..|].
  intros [Hr _]. vm_compute in Hr. discriminate.
Qed.

(** ** Clip phase A *)

Section PhaseAFacts.
Import Geometry Clipper.
Context {graphics : GraphicsUtils} {rounding : DoubleRounding}.
Variable intNumber : Z → string.
Variable QTransform : Type.
Variable boundsOnElement : QDomDocument → string → QRectF.
Variable transformForElement : QDomDocument → string → QTransform.
Variable mapRect : QTransform → QRectF → QRectF.

Local Abbreviation mappedBounds :=
  (Clipper.mappedBounds QTransform boundsOnElement transformForElement mapRect).
Local Abbreviation clipLeaf :=
  (Clipper.clipLeaf intNumber QTransform boundsOnElement transformForElement mapRect).

Lemma Qltb_lt a b : Qltb a b = true ↔ (a < b)%Q.
Proof.
  unfold Qltb. rewrite negb_true_iff. split.
  - intros Hle. apply Qnot_le_lt. intros Hba. apply Qle_bool_iff in Hba. congruence.
  - intros Hlt. apply not_true_is_false. intros Hle%Qle_bool_iff.
    by apply Qlt_not_le in Hlt.
Qed.

Lemma Qltb_ge a b : Qltb a b = false ↔ (b <= a)%Q.
Proof. unfold Qltb. rewrite negb_false_iff. apply Qle_bool_iff. Qed.

(** The test leaves alone the bounds that lie within the four sides of
    the board rectangle as the code widens them, and no others. *)
Lemma outside_within mBounds sourceRes :
  outside mBounds sourceRes = false
  ↔ (fl (left sourceRes - unknownMargin) <= left mBounds)%Q
    ∧ (fl (top sourceRes - unknownMargin) <= top mBounds)%Q
    ∧ (rightOf mBounds <= fl (rightOf sourceRes + unknownMargin))%Q
    ∧ (bottomOf mBounds <= fl (bottomOf sourceRes + unknownMargin))%Q.
Proof. unfold outside. rewrite !orb_false_iff, !Qltb_ge. tauto. Qed.

Lemma outside_beyond mBounds sourceRes :
  outside mBounds sourceRes = true
  ↔ (left mBounds < fl (left sourceRes - unknownMargin))%Q
    ∨ (top mBounds < fl (top sourceRes - unknownMargin))%Q
    ∨ (fl (rightOf sourceRes + unknownMargin) < rightOf mBounds)%Q
    ∨ (fl (bottomOf sourceRes + unknownMargin) < bottomOf mBounds)%Q.
Proof. unfold outside. rewrite !orb_true_iff, !Qltb_lt. tauto. Qed.

Lemma lookup_setTagName element t doc other :
  setTagName element t doc !! other
  = if decide (element = other)
    then (λ node, {| tagName := t; attributes := attributes node;
                     parentNode := parentNode node; childNodes := childNodes node |})
           <$> doc !! other
    else doc !! other.
Proof.
  unfold setTagName. case_decide as Heq.
  - subst. by rewrite lookup_alter_eq.
  - by rewrite lookup_alter_ne.
Qed.

(** The document after the loop over some leaf indices: a leaf that no
    index squashes is as it was; a leaf that some index squashes is "g",
    with the attributes, the parent and the children it had. *)
Lemma clipLeaves_kept rendered sourceRes leaves1 indices st element :
  (∀ i, i ∈ indices → leaves1 !! i = Some element →
        outside (mappedBounds rendered (intNumber (Z.of_nat i))) sourceRes = false) →
  document (foldl (clipLeaf rendered sourceRes leaves1) st indices) !! element
  = document st !! element.
Proof.
  revert st. induction indices as [|i indices IH]; intros st Hkept; simpl; [done|].
  rewrite IH by (intros j Hj; apply Hkept; by right).
  unfold Clipper.clipLeaf. destruct (leaves1 !! i) as [leaf|] eqn:Hleaf; [|done].
  destruct (outside _ _) eqn:Hout; [|done]. simpl.
  rewrite lookup_setTagName. case_decide as Heq; [|done]. subst leaf.
  rewrite Hkept in Hout; [done | by left | done].
Qed.

Lemma clipLeaves_shallow rendered sourceRes leaves1 indices st element :
  (attributes <$> document (foldl (clipLeaf rendered sourceRes leaves1) st indices) !! element
   = attributes <$> document st !! element)
  ∧ (tagOf (document st) element = "g" →
     tagOf (document (foldl (clipLeaf rendered sourceRes leaves1) st indices)) element = "g").
Proof.
  revert st. induction indices as [|i indices IH]; intros st; simpl; [done|].
  destruct (IH (clipLeaf rendered sourceRes leaves1 st i)) as [-> Hg].
  assert (attributes <$> document (clipLeaf rendered sourceRes leaves1 st i) !! element
          = attributes <$> document st !! element
          ∧ (tagOf (document st) element = "g" →
             tagOf (document (clipLeaf rendered sourceRes leaves1 st i)) element = "g"))
    as [Hattrs Htag].
  { unfold Clipper.clipLeaf. destruct (leaves1 !! i) as [leaf|]; [|done].
    destruct (outside _ _); [|done]. simpl. unfold tagOf.
    rewrite lookup_setTagName. case_decide; [|done].
    by destruct (document st !! element). }
  split; [done|]. auto.
Qed.

Lemma clipLeaves_squashed rendered sourceRes leaves1 indices st element node i :
  i ∈ indices → leaves1 !! i = Some element → document st !! element = Some node →
  outside (mappedBounds rendered (intNumber (Z.of_nat i))) sourceRes = true →
  tagOf (document (foldl (clipLeaf rendered sourceRes leaves1) st indices)) element = "g".
Proof.
  revert st node. induction indices as [|j indices IH]; intros st node Hi Hleaf Hnode Hout.
  - by apply elem_of_nil in Hi.
  - simpl. apply elem_of_cons in Hi as [<-|Hi].
    + apply clipLeaves_shallow. unfold Clipper.clipLeaf. rewrite Hleaf, Hout. simpl.
      unfold tagOf. rewrite lookup_setTagName, decide_True, Hnode by done. done.
    + assert (is_Some (document (clipLeaf rendered sourceRes leaves1 st j) !! element))
        as [node' Hnode'].
      { unfold Clipper.clipLeaf. destruct (leaves1 !! j) as [leaf|]; [|by eexists].
        destruct (outside (mappedBounds rendered (intNumber (Z.of_nat j))) sourceRes);
          [|by eexists].
        cbn [document]. rewrite lookup_setTagName. case_decide; [subst|]; rewrite Hnode; by eexists. }
      by eapply IH.
Qed.

End PhaseAFacts.


(** ** The holes on the board edge *)

Section StoreFacts.
Import Clipper.

Lemma insertedAfter_keeps newChild refChild children child :
  child ∈ children → child ∈ insertedAfter newChild refChild children.
Proof.
  induction children as [|c rest IH]; simpl; [done|].
  intros Hchild. apply elem_of_cons in Hchild as [->|Hchild];
    case_decide; rewrite !elem_of_cons; auto.
Qed.

Lemma insertedAfter_new newChild refChild children :
  refChild ∈ children → newChild ∈ insertedAfter newChild refChild children.
Proof.
  induction children as [|c rest IH]; simpl; [by intros ?%elem_of_nil|].
  intros Href. case_decide as Heq; rewrite !elem_of_cons; [auto|].
  apply elem_of_cons in Href as [->|Href]; [done | auto].
Qed.

Lemma sameShallow_leaf node node' :
  sameShallow node node' → childNodes node = [] → childNodes node' = [] → node' = node.
Proof.
  destruct node, node'. unfold sameShallow. simpl.
  by intros (-> & -> & ->) -> ->.
Qed.

Lemma grows_refl doc : grows doc doc.
Proof. intros element node Hnode. exists node. by repeat split. Qed.

Lemma grows_trans doc1 doc2 doc3 : grows doc1 doc2 → grows doc2 doc3 → grows doc1 doc3.
Proof.
  intros H12 H23 element node Hnode.
  destruct (H12 _ _ Hnode) as (node2 & Hnode2 & (Htag2 & Hattrs2 & Hparent2) & Hin2 & Hnil2).
  destruct (H23 _ _ Hnode2) as (node3 & Hnode3 & (Htag3 & Hattrs3 & Hparent3) & Hin3 & Hnil3).
  exists node3. repeat split; try congruence; auto.
Qed.

Lemma insertAfter_grows newElement element doc :
  ∀ other node, other ≠ newElement → doc !! other = Some node →
    ∃ node', insertAfter newElement element doc !! other = Some node'
             ∧ sameShallow node node'
             ∧ (∀ child, child ∈ childNodes node → child ∈ childNodes node')
             ∧ (childNodes node = [] → childNodes node' = []).
Proof.
  intros other node Hother Hnode. unfold insertAfter.
  destruct (doc !! element ≫= parentNode) as [parent|]; [|exists node; by repeat split].
  destruct (doc !! parent) as [parentNode'|] eqn:Hparent; [|exists node; by repeat split].
  case_bool_decide; [|exists node; by repeat split].
  unfold setParent, setChildren. rewrite lookup_alter_ne by done.
  destruct (decide (parent = other)) as [->|Hne].
  - rewrite lookup_alter_eq, Hparent. simpl. eexists. split; [done|].
    assert (parentNode' = node) as -> by congruence. repeat split; simpl.
    + apply insertedAfter_keeps.
    + by intros ->.
  - rewrite lookup_alter_ne by done. exists node. by repeat split.
Qed.

End StoreFacts.

Section InsetFacts.
Import Clipper.
Context {numbers : QtNumbers}.
Variable intNumber : Z → string.

Local Abbreviation insetHole := (Clipper.insetHole intNumber).
Local Abbreviation insetClone := (Clipper.insetClone intNumber).

Lemma fresh_unused (doc : QDomDocument) : doc !! fresh (dom doc) = None.
Proof. apply not_elem_of_dom, is_fresh. Qed.

Lemma insetHole_state doc newHoles ix element :
  ∃ doc', insetHole (doc, newHoles, ix) element
          = (doc', newHoles ++ [fresh (dom doc)], S ix).
Proof. unfold Clipper.insetHole, cloneNode. by eexists. Qed.

Lemma insetHole_grows doc newHoles ix element :
  grows doc (insetHole (doc, newHoles, ix) element).1.1.
Proof.
  intros other node Hnode. pose proof (fresh_unused doc) as Hfresh.
  assert (other ≠ fresh (dom doc)) as Hother by congruence.
  unfold Clipper.insetHole, cloneNode. cbn [fst snd].
  unfold setTagName, setAttribute. rewrite !lookup_alter_ne by done.
  apply insertAfter_grows; [done|]. by rewrite lookup_insert_ne.
Qed.

Lemma insetHole_new doc newHoles ix element :
  is_Some ((insetHole (doc, newHoles, ix) element).1.1 !! fresh (dom doc)).
Proof.
  unfold Clipper.insetHole, cloneNode. cbn [fst snd].
  unfold setTagName, setAttribute. rewrite !lookup_alter_is_Some.
  unfold insertAfter. repeat case_match; unfold setParent, setChildren;
    rewrite ?lookup_alter_is_Some, lookup_insert_eq; by eexists.
Qed.

(** The clone of a hole that hangs under a parent: what the first loop
    makes of it, and where it puts it. *)
Lemma insetHole_clone doc newHoles ix element node parent parentNode' :
  doc !! element = Some node → parentNode node = Some parent →
  doc !! parent = Some parentNode' → element ∈ childNodes parentNode' →
  let newElement := fresh (dom doc) in
  let doc' := (insetHole (doc, newHoles, ix) element).1.1 in
  doc' !! newElement = Some (insetClone ix (attributes node) (Some parent))
  ∧ ∃ parentNode'', doc' !! parent = Some parentNode'' ∧ newElement ∈ childNodes parentNode''.
Proof.
  intros Helement Hparent Hnode' Hchild newElement doc'.
  pose proof (fresh_unused doc) as Hfresh. fold newElement in Hfresh.
  assert (element ≠ newElement) as Hne1 by congruence.
  assert (parent ≠ newElement) as Hne2 by congruence.
  unfold doc', Clipper.insetHole, cloneNode. cbn [fst snd]. fold newElement.
  set (clone := {| tagName := tagOf doc element;
                   attributes := from_option attributes ∅ (doc !! element);
                   parentNode := None; childNodes := [] |}).
  set (doc1 := <[newElement := clone]> doc).
  assert (doc1 !! element = Some node) as Helement1
    by (unfold doc1; by rewrite lookup_insert_ne).
  assert (doc1 !! parent = Some parentNode') as Hparent1
    by (unfold doc1; by rewrite lookup_insert_ne).
  assert (insertAfter newElement element doc1
          = setParent newElement (Some parent)
              (setChildren parent
                 (insertedAfter newElement element (childNodes parentNode')) doc1)) as ->.
  { unfold insertAfter. rewrite Helement1. simpl. rewrite Hparent, Hparent1.
    by rewrite bool_decide_eq_true_2. }
  unfold attribute. rewrite Helement1. simpl.
  unfold setTagName, setAttribute, setParent, setChildren. split.
  - rewrite !lookup_alter_eq, lookup_alter_ne by done.
    unfold doc1. rewrite lookup_insert_eq. simpl.
    unfold clone, Clipper.insetClone. by rewrite Helement.
  - rewrite !lookup_alter_ne, lookup_alter_eq, Hparent1 by done. simpl.
    eexists. split; [done|]. simpl. by apply insertedAfter_new.
Qed.

(** The first loop as a whole: the nodes of the document are kept, the
    clones are new and distinct, and the clone of hole [k] is the inset
    copy of that hole, hanging under the same parent. *)
Lemma insetHoles_fold possibleHoles :
  ∀ doc newHoles ix,
    ∃ doc' clones,
      foldl insetHole (doc, newHoles, ix) possibleHoles
      = (doc', newHoles ++ clones, ix + length possibleHoles)
      ∧ grows doc doc' ∧ NoDup clones ∧ (∀ clone, clone ∈ clones → doc !! clone = None)
      ∧ (∀ k element node parent parentNode',
           possibleHoles !! k = Some element →
           doc !! element = Some node → parentNode node = Some parent →
           doc !! parent = Some parentNode' → element ∈ childNodes parentNode' →
           ∃ newElement,
             clones !! k = Some newElement
             ∧ doc' !! newElement
               = Some (insetClone (ix + k) (attributes node) (Some parent))
             ∧ ∃ parentNode'', doc' !! parent = Some parentNode''
                               ∧ newElement ∈ childNodes parentNode'').
Proof.
  induction possibleHoles as [|hole rest IH]; intros doc newHoles ix.
  - exists doc, []. simpl. rewrite app_nil_r, Nat.add_0_r.
    split_and!; [done | apply grows_refl | constructor | by intros ? ?%elem_of_nil |].
    intros k ????; by rewrite lookup_nil.
  - cbn [foldl length]. destruct (insetHole_state doc newHoles ix hole) as [doc1 Hstep].
    pose proof (insetHole_grows doc newHoles ix hole) as Hgrows1.
    pose proof (insetHole_new doc newHoles ix hole) as Hnew1.
    rewrite Hstep in Hgrows1, Hnew1 |- *. cbn [fst snd] in Hgrows1, Hnew1.
    destruct (IH doc1 (newHoles ++ [fresh (dom doc)]) (S ix))
      as (doc' & clones & Hfold & Hgrows & Hnodup & Hunused & Hclones).
    exists doc', (fresh (dom doc) :: clones). split_and!.
    + rewrite Hfold. f_equal; [|lia]. f_equal. by rewrite <- app_assoc.
    + by eapply grows_trans.
    + constructor; [|done]. intros Hin%Hunused. rewrite Hin in Hnew1. by inversion Hnew1.
    + intros clone [->|Hin%Hunused]%elem_of_cons; [apply fresh_unused|].
      destruct (doc !! clone) as [node|] eqn:Hnode; [|done].
      destruct (Hgrows1 _ _ Hnode) as (node' & Hnode' & _). congruence.
    + intros [|k] element node parent parentNode' Hk Helement Hparent Hnode' Hchild.
      * injection Hk as ->. exists (fresh (dom doc)). split; [done|].
        destruct (insetHole_clone doc newHoles ix element node parent parentNode'
                    Helement Hparent Hnode' Hchild) as [Hclone (pn1 & Hpn1 & Hin1)].
        rewrite Hstep in Hclone, Hpn1. cbn [fst snd] in Hclone, Hpn1.
        destruct (Hgrows _ _ Hclone) as (clone' & Hclone' & Hshallow & _ & Hnil).
        destruct (Hgrows _ _ Hpn1) as (pn' & Hpn' & _ & Hin' & _).
        rewrite Nat.add_0_r. split; [|exists pn'; auto].
        rewrite Hclone'. f_equal. apply sameShallow_leaf; [done | done | by apply Hnil].
      * simpl in Hk.
        destruct (Hgrows1 _ _ Helement) as (node1 & Hnode1 & (_ & Hattrs & Hpar) & _).
        destruct (Hgrows1 _ _ Hnode') as (pn1 & Hpn1 & _ & Hin1 & _).
        destruct (Hclones k element node1 parent pn1 Hk Hnode1) as (clone & Hk' & Hclone & Hin');
          [congruence | done | by apply Hin1 |].
        exists clone. split; [done|]. rewrite Hattrs in Hclone.
        by replace (ix + S k) with (S ix + k) by lia.
Qed.

End InsetFacts.

Section RetestFacts.
Import Geometry Clipper.
Context {numbers : QtNumbers} {graphics : GraphicsUtils} {rounding : DoubleRounding}.
Variable intNumber : Z → string.
Variable QTransform : Type.
Variable boundsOnElement : QDomDocument → string → QRectF.
Variable transformForElement : QDomDocument → string → QTransform.
Variable mapRect : QTransform → QRectF → QRectF.
Variable rendered : QDomDocument.
Variable sourceRes : QRectF.

Local Abbreviation retestHole :=
  (Clipper.retestHole intNumber QTransform boundsOnElement transformForElement mapRect
                      rendered sourceRes).
Local Abbreviation stillClipped k :=
  (outside (Clipper.mappedBounds QTransform boundsOnElement transformForElement mapRect
                                 rendered (holeId intNumber k)) sourceRes).

Lemma removeFromParent_prunes newElement doc :
  prunes newElement doc (removeFromParent newElement doc).
Proof.
  intros other node Hother Hnode. unfold removeFromParent.
  destruct (doc !! newElement ≫= parentNode) as [parent|]; [|exists node; by repeat split].
  destruct (doc !! parent) as [parentNode'|] eqn:Hparent; [|exists node; by repeat split].
  unfold setParent, setChildren. rewrite lookup_alter_ne by done.
  destruct (decide (parent = other)) as [->|Hne].
  - rewrite lookup_alter_eq, Hparent. simpl. eexists. split; [done|].
    assert (parentNode' = node) as -> by congruence. repeat split; simpl.
    + by intros child [_ Hin]%list_elem_of_filter.
    + intros child Hchild Hin. by apply list_elem_of_filter.
  - rewrite lookup_alter_ne by done. exists node. by repeat split.
Qed.

Lemma retestHole_prunes doc newHoles i newElement :
  newHoles !! i = Some newElement →
  prunes newElement doc (retestHole (doc, newHoles) i).1.
Proof.
  intros Hi. unfold Clipper.retestHole. rewrite Hi.
  destruct (stillClipped i); cbn [fst]; [apply removeFromParent_prunes|].
  intros other node Hother Hnode. unfold setAttribute.
  rewrite !lookup_alter_ne by done. exists node. by repeat split.
Qed.

Lemma retestHole_list doc newHoles i :
  (retestHole (doc, newHoles) i).2 = newHoles
  ∨ (retestHole (doc, newHoles) i).2 = delete i newHoles.
Proof.
  unfold Clipper.retestHole. destruct (newHoles !! i); [|by left].
  destruct (stillClipped i); [by right | by left].
Qed.

Lemma elem_of_delete_other (l : list Handle) i x :
  (∀ y, l !! i = Some y → y ≠ x) → x ∈ delete i l ↔ x ∈ l.
Proof.
  intros Hi. destruct (l !! i) as [y|] eqn:Hy.
  - rewrite delete_take_drop. rewrite <- (take_drop_middle l i y Hy) at 3.
    rewrite !elem_of_app, elem_of_cons. specialize (Hi y eq_refl).
    intuition congruence.
  - apply lookup_ge_None in Hy.
    by rewrite delete_take_drop, take_ge, drop_ge, app_nil_r by lia.
Qed.

(** A turn of the second loop for another clone leaves a clone that has
    no children as it is, and on any node that is not the clone of the
    turn it keeps the tag, the attributes, the parent, and the children
    other than the clone of the turn. *)
Lemma retestHole_other doc newHoles i newElement :
  (∀ other, newHoles !! i = Some other → other ≠ newElement) →
  (∀ node, doc !! newElement = Some node → childNodes node = [] →
           (retestHole (doc, newHoles) i).1 !! newElement = Some node)
  ∧ (∀ element node,
       (∀ other, newHoles !! i = Some other → other ≠ element) →
       doc !! element = Some node →
       ∃ node', (retestHole (doc, newHoles) i).1 !! element = Some node'
                ∧ sameShallow node node'
                ∧ (newElement ∈ childNodes node ↔ newElement ∈ childNodes node')).
Proof.
  intros Hother. destruct (newHoles !! i) as [other|] eqn:Hi.
  - pose proof (retestHole_prunes doc newHoles i other Hi) as Hprunes.
    specialize (Hother other eq_refl). split.
    + intros node Hnode Hleaf.
      destruct (Hprunes newElement node) as (node' & Hnode' & Hshallow & Hsub & _);
        [done..|].
      rewrite Hnode'. f_equal. apply sameShallow_leaf; [done..|].
      destruct (childNodes node') as [|child rest]; [done|].
      specialize (Hsub child). rewrite Hleaf in Hsub.
      exfalso. eapply not_elem_of_nil, Hsub. by left.
    + intros element node Helement Hnode. specialize (Helement other eq_refl).
      destruct (Hprunes element node) as (node' & Hnode' & Hshallow & Hsub & Hsup);
        [done..|].
      exists node'. split_and!; [done..|]. split; [apply Hsup; done | apply Hsub].
  - unfold Clipper.retestHole. rewrite Hi. split.
    + by intros node Hnode _.
    + intros element node _ Hnode. exists node. by repeat split.
Qed.

Lemma reverse_seq_S n : reverse (seq 0 (S n)) = n :: reverse (seq 0 n).
Proof. by rewrite seq_S, reverse_snoc. Qed.

Lemma sameShallow_trans node1 node2 node3 :
  sameShallow node1 node2 → sameShallow node2 node3 → sameShallow node1 node3.
Proof. unfold sameShallow. intros (? & ? & ?) (? & ? & ?). repeat split; congruence. Qed.

Lemma retestHole_at doc newHoles k newElement :
  newHoles !! k = Some newElement →
  retestHole (doc, newHoles) k
  = if stillClipped k then (removeFromParent newElement doc, delete k newHoles)
    else (setAttribute newElement "stroke-width" (intNumber 2)
            (setAttribute newElement "r"
               (number (toDouble (attribute doc newElement "r") + 4)%Q) doc),
          newHoles).
Proof. intros Hk. unfold Clipper.retestHole. by rewrite Hk. Qed.

Section OneClone.
Variables newElement parent element : Handle.

(** The turns below the place of a clone in [newHoles] (or any turns,
    when it is not in the list). *)
Lemma retest_below n :
  ∀ doc newHoles,
    NoDup newHoles →
    (∀ j, newHoles !! j = Some newElement → n ≤ j) →
    (∀ other, other ∈ newHoles → other ≠ parent ∧ other ≠ element) →
    let st' := foldl retestHole (doc, newHoles) (reverse (seq 0 n)) in
    (∀ node, doc !! newElement = Some node → childNodes node = [] →
             st'.1 !! newElement = Some node)
    ∧ (∀ node, doc !! parent = Some node →
         ∃ node', st'.1 !! parent = Some node'
                  ∧ (newElement ∈ childNodes node ↔ newElement ∈ childNodes node'))
    ∧ (∀ node, doc !! element = Some node →
         ∃ node', st'.1 !! element = Some node' ∧ sameShallow node node')
    ∧ (newElement ∈ newHoles ↔ newElement ∈ st'.2).
Proof.
  induction n as [|n IH]; intros doc newHoles Hnodup Hplace Hold.
  - simpl. split_and!; [auto | | | done]; intros node Hnode; exists node; by repeat split.
  - rewrite reverse_seq_S. cbn [foldl].
    assert (∀ other, newHoles !! n = Some other → other ≠ newElement) as Hother.
    { intros other Hn ->. apply Hplace in Hn. lia. }
    destruct (retestHole_other doc newHoles n newElement Hother) as [Hclone Hnodes].
    pose proof (retestHole_list doc newHoles n) as Hlist.
    destruct (retestHole (doc, newHoles) n) as [doc1 newHoles1].
    cbn [fst snd] in Hclone, Hnodes, Hlist.
    assert (newHoles1 `sublist_of` newHoles) as Hsub
      by (destruct Hlist as [-> | ->]; [done | apply sublist_delete]).
    assert (newElement ∈ newHoles ↔ newElement ∈ newHoles1) as Hin.
    { destruct Hlist as [-> | ->]; [done|]. symmetry. by apply elem_of_delete_other. }
    destruct (IH doc1 newHoles1) as (Hclone' & Hparent' & Helement' & Hin').
    + by eapply sublist_NoDup.
    + intros j Hj. destruct Hlist as [-> | ->]; [apply Hplace in Hj; lia|].
      rewrite list_lookup_delete in Hj. case_decide; [apply Hplace in Hj|]; lia.
    + intros other Hin1. apply Hold. by eapply elem_of_sublist.
    + split_and!.
      * intros node Hnode Hleaf. apply Hclone'; [by apply Hclone | done].
      * intros node Hnode.
        destruct (Hnodes parent node) as (node1 & Hnode1 & _ & Hiff1); [|done|].
        { intros other Hn%list_elem_of_lookup_2. by apply Hold in Hn as [? ?]. }
        destruct (Hparent' _ Hnode1) as (node' & Hnode' & Hiff'). exists node'.
        split; [done|]. by rewrite Hiff1.
      * intros node Hnode.
        destruct (Hnodes element node) as (node1 & Hnode1 & Hsame1 & _); [|done|].
        { intros other Hn%list_elem_of_lookup_2. by apply Hold in Hn as [? ?]. }
        destruct (Helement' _ Hnode1) as (node' & Hnode' & Hsame'). exists node'.
        split; [done|]. by eapply sameShallow_trans.
      * by rewrite Hin.
Qed.

(** The second loop from any index above the place [k] of a clone that
    hangs under its parent: the turn [k] settles the clone by the bounds
    test on the clone with the id of [k], and no other turn touches it. *)
Lemma retest_from k clone n :
  ∀ doc newHoles parentNode' node,
    k < n → NoDup newHoles → newHoles !! k = Some newElement →
    (∀ other, other ∈ newHoles → other ≠ parent ∧ other ≠ element) →
    doc !! newElement = Some clone → childNodes clone = [] →
    parentNode clone = Some parent →
    doc !! parent = Some parentNode' → newElement ∈ childNodes parentNode' →
    doc !! element = Some node →
    let st' := foldl retestHole (doc, newHoles) (reverse (seq 0 n)) in
    (∃ node', st'.1 !! element = Some node' ∧ sameShallow node node')
    ∧ (if stillClipped k then
        st'.1 !! newElement
        = Some {| tagName := tagName clone; attributes := attributes clone;
                  parentNode := None; childNodes := [] |}
        ∧ (newElement ∉ st'.2)
        ∧ ∃ parentNode'', st'.1 !! parent = Some parentNode''
                          ∧ newElement ∉ childNodes parentNode''
      else
        st'.1 !! newElement = Some (enlarged intNumber clone)
        ∧ newElement ∈ st'.2
        ∧ ∃ parentNode'', st'.1 !! parent = Some parentNode''
                          ∧ newElement ∈ childNodes parentNode'').
Proof.
  induction n as [|n IH];
    intros doc newHoles parentNode' node Hk Hnodup Hplace Hold Hclone Hleaf Hparent
           Hnode' Hchild Hnode; [lia|].
  rewrite reverse_seq_S. cbn [foldl].
  assert (newElement ≠ parent ∧ newElement ≠ element) as [Hne1 Hne2]
    by (by eapply Hold, list_elem_of_lookup_2).
  destruct (decide (n = k)) as [->|Hnk].
  - rewrite (retestHole_at _ _ _ _ Hplace). destruct (stillClipped k) eqn:Hout.
    + assert (newElement ∉ delete k newHoles) as Hgone.
      { intros [j Hj]%list_elem_of_lookup. rewrite list_lookup_delete in Hj.
        case_decide; pose proof (NoDup_lookup _ _ _ _ Hnodup Hj Hplace); lia. }
      destruct (retest_below k (removeFromParent newElement doc) (delete k newHoles))
        as (Hclone' & Hparent' & Helement' & Hin').
      * eapply sublist_NoDup; [done | apply sublist_delete].
      * intros j Hj%list_elem_of_lookup_2. done.
      * intros other Hin. apply Hold. eapply elem_of_sublist; [done | apply sublist_delete].
      * assert (removeFromParent newElement doc
                = setParent newElement None
                    (setChildren parent
                       (filter (λ child, child ≠ newElement) (childNodes parentNode')) doc))
          as Hremoved.
        { unfold removeFromParent. rewrite Hclone. simpl. by rewrite Hparent, Hnode'. }
        split; [|split_and!].
        -- destruct (removeFromParent_prunes newElement doc element node)
             as (node1 & Hnode1 & Hsame1 & _); [done..|].
           destruct (Helement' _ Hnode1) as (node2 & Hnode2 & Hsame2).
           exists node2. split; [done|]. by eapply sameShallow_trans.
        -- apply Hclone'; [|done]. rewrite Hremoved. unfold setParent, setChildren.
           rewrite lookup_alter_eq, lookup_alter_ne, Hclone by done. simpl.
           by rewrite Hleaf.
        -- by rewrite <- Hin'.
        -- destruct (Hparent' {| tagName := tagName parentNode';
                                  attributes := attributes parentNode';
                                  parentNode := parentNode parentNode';
                                  childNodes := filter (λ child, child ≠ newElement)
                                                       (childNodes parentNode') |})
             as (node2 & Hnode2 & Hiff).
           { rewrite Hremoved. unfold setParent, setChildren.
             by rewrite lookup_alter_ne, lookup_alter_eq, Hnode' by done. }
           exists node2. split; [done|]. rewrite <- Hiff. simpl.
           by intros [? _]%list_elem_of_filter.
    + set (doc1 := setAttribute newElement "stroke-width" (intNumber 2)
                     (setAttribute newElement "r"
                        (number (toDouble (attribute doc newElement "r") + 4)%Q) doc)).
      destruct (retest_below k doc1 newHoles) as (Hclone' & Hparent' & Helement' & Hin');
        [done | | done |].
      { intros j Hj. pose proof (NoDup_lookup _ _ _ _ Hnodup Hj Hplace). lia. }
      split; [|split_and!].
      * apply Helement'. unfold doc1, setAttribute. by rewrite !lookup_alter_ne.
      * apply Hclone'; [|done]. unfold doc1, setAttribute, attribute.
        by rewrite !lookup_alter_eq, Hclone.
      * apply Hin'. by eapply list_elem_of_lookup_2.
      * destruct (Hparent' parentNode') as (node2 & Hnode2 & Hiff).
        { unfold doc1, setAttribute. by rewrite !lookup_alter_ne. }
        exists node2. split; [done|]. by apply Hiff.
  - assert (∀ other, newHoles !! n = Some other → other ≠ newElement) as Hother.
    { intros other Hn ->. pose proof (NoDup_lookup _ _ _ _ Hnodup Hn Hplace). lia. }
    destruct (retestHole_other doc newHoles n newElement Hother) as [Hkeeps Hnodes].
    pose proof (retestHole_list doc newHoles n) as Hlist.
    destruct (retestHole (doc, newHoles) n) as [doc1 newHoles1].
    cbn [fst snd] in Hkeeps, Hnodes, Hlist.
    assert (newHoles1 `sublist_of` newHoles) as Hsub
      by (destruct Hlist as [-> | ->]; [done | apply sublist_delete]).
    destruct (Hnodes parent parentNode') as (pn1 & Hpn1 & _ & Hiff1); [|done|].
    { intros other Hn%list_elem_of_lookup_2. by apply Hold in Hn as [? ?]. }
    destruct (Hnodes element node) as (node1 & Hnode1 & Hsame1 & _); [|done|].
    { intros other Hn%list_elem_of_lookup_2. by apply Hold in Hn as [? ?]. }
    destruct (IH doc1 newHoles1 pn1 node1) as [(node2 & Hnode2 & Hsame2) Hsettled].
    + lia.
    + by eapply sublist_NoDup.
    + destruct Hlist as [-> | ->]; [done|]. rewrite list_lookup_delete_lt; [done | lia].
    + intros other Hin1. apply Hold. by eapply elem_of_sublist.
    + by apply Hkeeps.
    + done.
    + done.
    + done.
    + by apply Hiff1.
    + done.
    + split; [|done]. exists node2. split; [done|]. by eapply sameShallow_trans.
Qed.

End OneClone.

End RetestFacts.



(** The doubles of the sample: 0.1, and the right side of the board of
    300 by 300 widened by it. *)
Example nearest_double_of_a_tenth :
  fl (DoubleRounding := Sample.binary64) (1 # 10)%Q
  = (3602879701896397 # 36028797018963968)%Q.
Proof. vm_compute. reflexivity. Qed.

Example widened_right_side :
  fl (DoubleRounding := Sample.binary64)
     (Clipper.rightOf (rounding := Sample.binary64)
        (Clipper.sourceResOf (graphics := Sample.fritzingDPI) (rounding := Sample.binary64)
           Sample.marginBoardRect)
      + Clipper.unknownMargin (rounding := Sample.binary64))%Q
  = Sample.widenedRight.
Proof. vm_compute. reflexivity. Qed.



(** The other half of the rule by the radius fails on the same board: the
    ring of radius 10 and stroke width 14 passes the edge by 12, more than
    its radius, and its clone (radius 3) is within the board, so it is
    kept with radius 7. *)
Example wide_ring_survives :
  Qlt (toDouble (QtNumbers := Sample.plainNumbers)
                (Clipper.attribute (Clipper.document Sample.edgeClipped) 4 "r"))
      (Clipper.straddle (graphics := Sample.fritzingDPI) (rounding := Sample.binary64) unit Sample.circleBounds
         Sample.noTransform Sample.mapIdentity Sample.edgeBoard
         (Clipper.document Sample.edgeClipped) Sample.edgeBoardRect 4)
  ∧ Clipper.survives Sample.showZ Sample.edgeHoles 1.
Proof.
  split; [by vm_compute|]. apply Exists_exists. exists 6. split_and!.
  - apply (list_elem_of_lookup_2 _ 0). vm_compute. reflexivity.
  - vm_compute. reflexivity.
  - eexists _, 1, _. split_and!; [vm_compute; reflexivity | reflexivity
                                 | vm_compute; reflexivity | simpl; rewrite !elem_of_cons; auto].
Qed.

(** ** Raster images *)

Section CollisionFacts.
Import Raster.

Lemma collideInRow_true image1 image2 y x columns :
  collideInRow image1 image2 y x columns = true
  ↔ ∃ x', (x ≤ x' < x + Z.of_nat columns)%Z
          ∧ pixel image1 x' y ≠ white ∧ pixel image2 x' y ≠ white.
Proof.
  revert x. induction columns as [|columns IH]; intros x; simpl.
  - split; [done|]. intros (x' & Hx' & _). lia.
  - destruct (N.eqb_spec (pixel image1 x y) white) as [Hp1|Hp1];
      [|destruct (N.eqb_spec (pixel image2 x y) white) as [Hp2|Hp2]].
    + rewrite IH. split; intros (x' & Hx' & Hw1 & Hw2); exists x'.
      * split; [lia | done].
      * split; [|done]. destruct (decide (x' = x)) as [->|]; [done | lia].
    + rewrite IH. split; intros (x' & Hx' & Hw1 & Hw2); exists x'.
      * split; [lia | done].
      * split; [|done]. destruct (decide (x' = x)) as [->|]; [done | lia].
    + split; [|done]. intros _. exists x. split; [lia | done].
Qed.

Lemma collideInRows_true image1 image2 x1 x2 y rows :
  collideInRows image1 image2 x1 x2 y rows = true
  ↔ ∃ x' y', (x1 ≤ x' < x2)%Z ∧ (y ≤ y' < y + Z.of_nat rows)%Z
             ∧ pixel image1 x' y' ≠ white ∧ pixel image2 x' y' ≠ white.
Proof.
  revert y. induction rows as [|rows IH]; intros y; simpl.
  - split; [done|]. intros (x' & y' & _ & Hy' & _). lia.
  - destruct (collideInRow image1 image2 y x1 (Z.to_nat (x2 - x1))) eqn:Hrow.
    + split; [|done]. intros _. apply collideInRow_true in Hrow as (x' & Hx' & Hw).
      exists x', y. split; [lia|]. split; [lia | done].
    + rewrite IH. split; intros (x' & y' & Hx' & Hy' & Hw1 & Hw2); exists x', y'.
      * split; [done|]. split; [lia | done].
      * split; [done|]. split; [|done].
        destruct (decide (y' = y)) as [->|]; [|lia].
        apply not_true_iff_false in Hrow. exfalso. apply Hrow, collideInRow_true.
        exists x'. split; [lia | done].
Qed.

Lemma pixelsCollide_true image1 image2 x1 y1 x2 y2 :
  pixelsCollide image1 image2 x1 y1 x2 y2 = true
  ↔ ∃ x y, (x1 ≤ x < x2)%Z ∧ (y1 ≤ y < y2)%Z
           ∧ pixel image1 x y ≠ white ∧ pixel image2 x y ≠ white.
Proof.
  unfold pixelsCollide. rewrite collideInRows_true.
  split; intros (x & y & Hx & Hy & Hw); exists x, y; (split; [done|]); (split; [lia|done]).
Qed.

End CollisionFacts.

(** X1: [pixelsCollide] answers true exactly when some pixel of the
    window [x1 <= x < x2], [y1 <= y < y2] is not white in both images; so
    it answers false on an empty window, and the two images can be
    exchanged. *)
Theorem pixelsCollide_window (image1 image2 : Raster.QImage) (x1 y1 x2 y2 : Z) :
  (Raster.pixelsCollide image1 image2 x1 y1 x2 y2 = true
   ↔ ∃ x y, (x1 ≤ x < x2)%Z ∧ (y1 ≤ y < y2)%Z
            ∧ Raster.pixel image1 x y ≠ Raster.white
            ∧ Raster.pixel image2 x y ≠ Raster.white)
  ∧ ((x2 ≤ x1 ∨ y2 ≤ y1)%Z → Raster.pixelsCollide image1 image2 x1 y1 x2 y2 = false)
  ∧ Raster.pixelsCollide image1 image2 x1 y1 x2 y2
    = Raster.pixelsCollide image2 image1 x1 y1 x2 y2.
Proof.
  split_and!.
  - apply pixelsCollide_true.
  - intros Hempty. apply not_true_iff_false. intros (x & y & Hx & Hy & _)%pixelsCollide_true.
    lia.
  - apply eq_true_iff_eq. rewrite !pixelsCollide_true.
    split; intros (x & y & Hx & Hy & Hw1 & Hw2); by exists x, y.
Qed.

Section MakePathFacts.
Import Raster.
Variable image : QImage.

Lemma elem_of_closeSegment whiteStart y whiteEnd st chunk :
  chunk ∈ paths (closeSegment whiteStart y whiteEnd st)
  ↔ chunk ∈ paths st ∨ chunk = Segment whiteStart y whiteEnd
    ∨ (chunk = LineBreak ∧ S (lineCount st) = unknownMaxLineCount).
Proof.
  unfold closeSegment. case_decide; simpl; rewrite !elem_of_app, !list_elem_of_singleton;
    intuition congruence.
Qed.

Lemma allMaximal_closeSegment whiteStart y whiteEnd st :
  allMaximal image (paths st) → maximalRun image whiteStart y whiteEnd →
  allMaximal image (paths (closeSegment whiteStart y whiteEnd st)).
Proof.
  intros Hall Hrun s y' e [Hold|[Hnew|[Hbreak _]]]%elem_of_closeSegment.
  - by apply Hall.
  - by injection Hnew as -> -> ->.
  - done.
Qed.

Lemma covered_closeSegment whiteStart y whiteEnd st x y' :
  covered (paths st) x y' → covered (paths (closeSegment whiteStart y whiteEnd st)) x y'.
Proof.
  intros (s & e & Hin & Hx). exists s, e. split; [|done].
  apply elem_of_closeSegment. by left.
Qed.

Lemma scanRow_invariant y base columns :
  (0 ≤ y < Z.of_nat (height image))%Z →
  ∀ x inWhite whiteStart st,
    (0 ≤ x)%Z → (x + Z.of_nat columns = Z.of_nat (width image))%Z →
    rowInvariant image y base x inWhite whiteStart st →
    let '(inWhite', whiteStart', st') := scanRow image y x columns inWhite whiteStart st in
    rowInvariant image y base (Z.of_nat (width image)) inWhite' whiteStart' st'.
Proof.
  intros Hy. induction columns as [|columns IH];
    intros x inWhite whiteStart st Hx Hwidth Hinv; simpl.
  - by replace (Z.of_nat (width image)) with x by lia.
  - destruct Hinv as (Hwhite & Hblack & Hall & Hcover & Hbase).
    destruct inWhite; destruct (N.eqb_spec (pixel image x y) white) as [Hpx|Hpx]; simpl.
    + apply IH; [lia..|]. destruct (Hwhite eq_refl) as (Hstart & Hrun & Hleft).
      split_and!; [|done|done| |done].
      * intros _. split_and!; [lia..| |done].
        intros x' Hx'. destruct (decide (x' = x)) as [->|]; [done|]. apply Hrun. lia.
      * intros x' Hx' Hw. destruct (decide (x' = x)) as [->|]; [left; split; [done|lia]|].
        apply Hcover; [lia | done].
    + apply IH; [lia..|]. destruct (Hwhite eq_refl) as (Hstart & Hrun & Hleft).
      split_and!; [done| | | |].
      * intros _. right. by replace (x + 1 - 1)%Z with x by lia.
      * apply allMaximal_closeSegment; [done|].
        split_and!; [lia..| |done|].
        -- intros x' Hx'. apply Hrun. lia.
        -- right. by replace (x - 1 + 1)%Z with x by lia.
      * intros x' Hx' Hw. right. destruct (decide (x' = x)) as [->|]; [done|].
        destruct (Hcover x') as [[_ Hin]|Hold]; [lia | done | |].
        -- exists whiteStart, (x - 1)%Z. split; [|lia].
           apply elem_of_closeSegment. right. by left.
        -- by apply covered_closeSegment.
      * intros chunk Hchunk. apply elem_of_closeSegment. left. by apply Hbase.
    + apply IH; [lia..|].
      split_and!; [|done|done| |done].
      * intros _. split_and!; [lia..| |].
        -- intros x' Hx'. by replace x' with x by lia.
        -- destruct (Hblack eq_refl) as [->|Hprev]; [by left | by right].
      * intros x' Hx' Hw. destruct (decide (x' = x)) as [->|]; [left; split; [done|lia]|].
        destruct (Hcover x') as [[? _]|Hold]; [lia | done | done | by right].
    + apply IH; [lia..|].
      split_and!; [done| |done| |done].
      * intros _. right. by replace (x + 1 - 1)%Z with x by lia.
      * intros x' Hx' Hw. destruct (decide (x' = x)) as [->|]; [done|].
        destruct (Hcover x') as [[? _]|Hold]; [lia | done | done | by right].
Qed.

(** One row: the segments stay maximal runs, the white pixels of the row
    are covered, and nothing that was in the text is lost. *)
Lemma scanLine_row y st :
  (0 ≤ y < Z.of_nat (height image))%Z → allMaximal image (paths st) →
  allMaximal image (paths (scanLine image y st))
  ∧ (∀ x, (0 ≤ x < Z.of_nat (width image))%Z → whiteAt image x y →
          covered (paths (scanLine image y st)) x y)
  ∧ (∀ chunk, chunk ∈ paths st → chunk ∈ paths (scanLine image y st)).
Proof.
  intros Hy Hall. unfold scanLine.
  pose proof (scanRow_invariant y (paths st) (width image) Hy 0 false 0 st) as Hrow.
  destruct (scanRow image y 0 (width image) false 0 st) as [[inWhite whiteStart] st'].
  destruct Hrow as (Hwhite & Hblack & Hall' & Hcover & Hbase); [lia | lia | |].
  { split_and!; [done | by left | done | lia | done]. }
  destruct inWhite.
  - destruct (Hwhite eq_refl) as (Hstart & Hrun & Hleft). split_and!.
    + apply allMaximal_closeSegment; [done|].
      split_and!; [lia..| |done|by left]. intros x Hx. apply Hrun. lia.
    + intros x Hx Hw. destruct (Hcover x Hx Hw) as [[_ Hin]|Hold].
      * exists whiteStart, (Z.of_nat (width image) - 1)%Z. split; [|lia].
        apply elem_of_closeSegment. right. by left.
      * by apply covered_closeSegment.
    + intros chunk Hchunk. apply elem_of_closeSegment. left. by apply Hbase.
  - split_and!; [done| |done].
    intros x Hx Hw. by destruct (Hcover x Hx Hw) as [[? _]|Hold].
Qed.

Lemma scanLines_rows rows :
  ∀ y st,
    (0 ≤ y)%Z → (y + Z.of_nat rows = Z.of_nat (height image))%Z →
    allMaximal image (paths st) →
    (∀ x y', (0 ≤ x < Z.of_nat (width image))%Z → (0 ≤ y' < y)%Z → whiteAt image x y' →
             covered (paths st) x y') →
    allMaximal image (paths (scanLines image y rows st))
    ∧ (∀ x y', (0 ≤ x < Z.of_nat (width image))%Z → (0 ≤ y' < Z.of_nat (height image))%Z →
               whiteAt image x y' → covered (paths (scanLines image y rows st)) x y').
Proof.
  induction rows as [|rows IH]; intros y st Hy Hheight Hall Hcover; simpl.
  - split; [done|]. intros x y' Hx Hy'. apply Hcover; [done | lia].
  - destruct (scanLine_row y st) as (Hall' & Hrow & Hkept); [lia | done |].
    apply IH; [lia | lia | done |].
    intros x y' Hx Hy' Hw. destruct (decide (y' = y)) as [->|]; [by apply Hrow|].
    destruct (Hcover x y') as (s & e & Hin & Hse); [done | lia | done |].
    exists s, e. split; [by apply Hkept | done].
Qed.

Lemma pathChunks_runs :
  allMaximal image (pathChunks image)
  ∧ (∀ x y, (0 ≤ x < Z.of_nat (width image))%Z → (0 ≤ y < Z.of_nat (height image))%Z →
            whiteAt image x y → covered (pathChunks image) x y).
Proof.
  apply scanLines_rows; [lia | lia | |].
  - intros s y e Hin. by apply elem_of_nil in Hin.
  - intros x y' _ Hy'. lia.
Qed.

End MakePathFacts.

Section LineBreakFacts.
Import Raster.
Variable image : QImage.
Variable P : ScanState → Prop.
Hypothesis closeSegment_keeps :
  ∀ whiteStart y whiteEnd st, P st → P (closeSegment whiteStart y whiteEnd st).

Lemma scanRow_keeps y columns :
  ∀ x inWhite whiteStart st, P st → P (scanRow image y x columns inWhite whiteStart st).2.
Proof.
  induction columns as [|columns IH]; intros x inWhite whiteStart st Hst; simpl; [done|].
  destruct inWhite; destruct (pixel image x y =? white)%N; simpl; apply IH; auto.
Qed.

Lemma scanLine_keeps y st : P st → P (scanLine image y st).
Proof.
  intros Hst. unfold scanLine.
  pose proof (scanRow_keeps y (width image) 0 false 0 st Hst) as Hrow.
  destruct (scanRow image y 0 (width image) false 0 st) as [[inWhite whiteStart] st'].
  destruct inWhite; auto.
Qed.

Lemma scanLines_keeps rows : ∀ y st, P st → P (scanLines image y rows st).
Proof.
  induction rows as [|rows IH]; intros y st Hst; simpl; [done|].
  by apply IH, scanLine_keeps.
Qed.

End LineBreakFacts.

Section BreakInvariant.
Import Raster.

Lemma breakInvariant_closeSegment whiteStart y whiteEnd st :
  breakInvariant st → breakInvariant (closeSegment whiteStart y whiteEnd st).
Proof.
  unfold breakInvariant, closeSegment, unknownMaxLineCount.
  intros (Hcount & (q & Hlength) & Hbreaks).
  assert (∀ i chunk, (paths st ++ [Segment whiteStart y whiteEnd]) !! i = Some chunk →
                     chunk = LineBreak ↔ ∃ q', i = 11 * q' + 10) as Hsegment.
  { intros i chunk Hi. apply lookup_app_Some in Hi as [Hi|[Hlen Hi]]; [by apply Hbreaks|].
    apply list_lookup_singleton_Some in Hi as [Hi <-]. split; [done|].
    intros [q' Hq']. lia. }
  case_decide as Hten; simpl.
  - split_and!; [lia | |].
    + exists (S q). rewrite !length_app. simpl. lia.
    + intros i chunk Hi. apply lookup_app_Some in Hi as [Hi|[Hlen Hi]]; [by apply Hsegment|].
      apply list_lookup_singleton_Some in Hi as [Hi <-]. split; [|done].
      intros _. exists q. rewrite length_app in Hlen, Hi. simpl in Hlen, Hi. lia.
  - split_and!; [lia | | done].
    exists q. rewrite length_app. simpl. lia.
Qed.

Lemma breakInvariant_pathChunks image i chunk :
  pathChunks image !! i = Some chunk → chunk = LineBreak ↔ ∃ q, i = 11 * q + 10.
Proof.
  assert (breakInvariant (scanLines image 0 (height image) {| paths := []; lineCount := 0 |}))
    as (_ & _ & Hbreaks).
  { apply scanLines_keeps; [intros; by apply breakInvariant_closeSegment|].
    unfold breakInvariant, unknownMaxLineCount. simpl. split_and!; [lia | by exists 0 |].
    intros j c Hj. by rewrite lookup_nil in Hj. }
  apply Hbreaks.
Qed.

Lemma if_decide_iff {A} (P Q : Prop) `{!Decision P, !Decision Q} (a b : A) :
  (P ↔ Q) → (if decide P then a else b) = (if decide Q then a else b).
Proof. intros HPQ. do 2 case_decide; tauto. Qed.

Lemma if_decide_or {A} (P Q : Prop) `{!Decision P, !Decision Q} (a b : A) :
  (if decide P then a else if decide Q then a else b) = (if decide (P ∨ Q) then a else b).
Proof. repeat case_decide; tauto. Qed.

Lemma pixel_maskRow clipImage y columns :
  ∀ x image x' y',
    pixel (maskRow clipImage y x columns image) x' y'
    = if decide ((x ≤ x' < x + Z.of_nat columns)%Z ∧ y' = y ∧ pixel clipImage x' y' ≠ white)
      then black else pixel image x' y'.
Proof.
  induction columns as [|columns IH]; intros x image x' y'; simpl.
  - case_decide as Hin; [lia | done].
  - rewrite IH. destruct (N.eqb_spec (pixel clipImage x y) white) as [Hclip|Hclip]; simpl.
    + apply if_decide_iff. split; intros (Hx' & -> & Hw); (split_and!; [| |done|done]);
        try lia. destruct (decide (x' = x)) as [->|]; [done | lia].
    + unfold monoColor. simpl. rewrite if_decide_or. apply if_decide_iff. split.
      * intros [(Hx' & -> & Hw)|[-> ->]]; split_and!; try lia; done.
      * intros (Hx' & -> & Hw). destruct (decide (x' = x)) as [->|]; [by right|].
        left. split_and!; try lia; done.
Qed.

Lemma size_maskRow clipImage y columns :
  ∀ x image, width (maskRow clipImage y x columns image) = width image
             ∧ height (maskRow clipImage y x columns image) = height image.
Proof.
  induction columns as [|columns IH]; intros x image; simpl; [done|].
  destruct (IH (x + 1)%Z (if negb (pixel clipImage x y =? white)%N
                          then setPixel image x y 0 else image)) as [-> ->].
  by destruct (negb _).
Qed.

Lemma pixel_maskRows clipImage twidth rows :
  ∀ y image x' y',
    pixel (maskRows clipImage twidth y rows image) x' y'
    = if decide ((0 ≤ x' < Z.of_nat twidth)%Z ∧ (y ≤ y' < y + Z.of_nat rows)%Z
                 ∧ pixel clipImage x' y' ≠ white)
      then black else pixel image x' y'.
Proof.
  induction rows as [|rows IH]; intros y image x' y'; simpl.
  - case_decide as Hin; [lia | done].
  - rewrite IH, pixel_maskRow, if_decide_or. apply if_decide_iff. split.
    + intros [(Hx' & Hy' & Hw)|(Hx' & -> & Hw)]; split_and!; try lia; done.
    + intros (Hx' & Hy' & Hw). destruct (decide (y' = y)) as [->|].
      * right. split_and!; try lia; done.
      * left. split_and!; try lia; done.
Qed.

Lemma size_maskRows clipImage twidth rows :
  ∀ y image, width (maskRows clipImage twidth y rows image) = width image
             ∧ height (maskRows clipImage twidth y rows image) = height image.
Proof.
  induction rows as [|rows IH]; intros y image; simpl; [done|].
  destruct (IH (y + 1)%Z (maskRow clipImage y 0 twidth image)) as [-> ->].
  apply size_maskRow.
Qed.

End BreakInvariant.

(** X2: the path data of [makePath] has one segment for each maximal
    horizontal run of white pixels of the image: every segment lies in
    the image, covers white pixels only and cannot be extended to the
    left or to the right, and every white pixel of the image lies on a
    segment of its row. *)
Theorem makePath_segments_are_white_runs (image : Raster.QImage) :
  (∀ whiteStart y whiteEnd,
     Raster.Segment whiteStart y whiteEnd ∈ Raster.pathChunks image →
     Raster.maximalRun image whiteStart y whiteEnd)
  ∧ (∀ x y, (0 ≤ x < Z.of_nat (Raster.width image))%Z →
            (0 ≤ y < Z.of_nat (Raster.height image))%Z →
            Raster.pixel image x y = Raster.white →
            ∃ whiteStart whiteEnd,
              Raster.Segment whiteStart y whiteEnd ∈ Raster.pathChunks image
              ∧ (whiteStart ≤ x ≤ whiteEnd)%Z).
Proof. apply pathChunks_runs. Qed.

Example makePath_six_pixels :
  Raster.makePath (numbers := Sample.plainNumbers) Sample.sixPixels 1%Q "#000000"
  = "<path fill='none' stroke='#000000' stroke-width='1' stroke-linecap='square' d='"
    +:+ "M0.5,0.5L1.5,0.5 M3.5,0.5L5.5,0.5 ' />" +:+ Raster.newline.
Proof. vm_compute. reflexivity. Qed.

(** X3: in the text of [makePath] a line break follows every tenth
    segment and stands nowhere else: the chunks at the places 10, 21,
    32, ... (counted from 0) are the line breaks. *)
Theorem makePath_line_breaks (image : Raster.QImage) (i : nat) (chunk : Raster.Chunk) :
  Raster.pathChunks image !! i = Some chunk →
  chunk = Raster.LineBreak ↔ ∃ q, i = 11 * q + 10.
Proof. apply breakInvariant_pathChunks. Qed.

Lemma makePath_line_breaks_witness :
  Raster.pathChunks Sample.whiteColumn !! 10 = Some Raster.LineBreak
  ∧ (Raster.LineBreak = Raster.LineBreak ↔ ∃ q, 10 = 11 * q + 10).
Proof.
  split; [vm_compute; reflexivity|].
  apply (makePath_line_breaks Sample.whiteColumn 10 Raster.LineBreak).
  vm_compute. reflexivity.
Defined.

(** X4: for an image without a white pixel (in particular one of width
    or height 0) [makePath] gives a path element with empty data. *)
Theorem makePath_without_white {numbers : QtNumbers} (image : Raster.QImage)
    (unit : double) (colorString : string) :
  (∀ x y, (0 ≤ x < Z.of_nat (Raster.width image))%Z →
          (0 ≤ y < Z.of_nat (Raster.height image))%Z →
          Raster.pixel image x y ≠ Raster.white) →
  Raster.makePath image unit colorString
  = ("<path fill='none' stroke='" +:+ colorString +:+ "' stroke-width='" +:+ number unit
     +:+ "' stroke-linecap='square' d='") +:+ "' />" +:+ Raster.newline.
Proof.
  intros Hblack. unfold Raster.makePath.
  assert (Raster.pathChunks image = []) as ->; [|done].
  destruct (Raster.pathChunks image) as [|chunk rest] eqn:Hchunks; [done|]. exfalso.
  destruct chunk as [whiteStart y whiteEnd|].
  - destruct (pathChunks_runs image) as [Hruns _].
    destruct (Hruns whiteStart y whiteEnd) as (Hy & Hstart & Hend & Hwhite & _).
    { rewrite Hchunks. by left. }
    apply (Hblack whiteStart y); [lia | done |]. apply Hwhite. lia.
  - destruct (breakInvariant_pathChunks image 0 Raster.LineBreak) as [Hplace _].
    { by rewrite Hchunks. }
    destruct (Hplace eq_refl) as [q Hq]. lia.
Qed.

Lemma makePath_without_white_witness :
  Raster.makePath (numbers := Sample.plainNumbers) Sample.blackImage 1%Q "#000000"
  = "<path fill='none' stroke='#000000' stroke-width='1' stroke-linecap='square' d='' />"
    +:+ Raster.newline.
Proof.
  etrans; [apply (makePath_without_white (numbers := Sample.plainNumbers)
                    Sample.blackImage 1%Q "#000000")|].
  - intros x y _ _. vm_compute. discriminate.
  - vm_compute. reflexivity.
Defined.

(** X5: once the clip image is applied (lines 749-759), no segment of the
    path passes over a pixel of the board area ([twidth] by [theight])
    that the clip image does not leave white; every other white pixel of
    the image, those of the margin beyond the board area included, is
    still on a segment. *)
Theorem clip_image_cuts_segments (clipImage image : Raster.QImage) (twidth theight : nat) :
  let masked := Raster.maskByClip clipImage twidth theight image in
  let cut x y := (0 ≤ x < Z.of_nat twidth)%Z ∧ (0 ≤ y < Z.of_nat theight)%Z
                 ∧ Raster.pixel clipImage x y ≠ Raster.white in
  (∀ whiteStart y whiteEnd x,
     Raster.Segment whiteStart y whiteEnd ∈ Raster.pathChunks masked →
     (whiteStart ≤ x ≤ whiteEnd)%Z →
     Raster.pixel image x y = Raster.white ∧ ¬ cut x y)
  ∧ (∀ x y, (0 ≤ x < Z.of_nat (Raster.width image))%Z →
            (0 ≤ y < Z.of_nat (Raster.height image))%Z →
            Raster.pixel image x y = Raster.white → ¬ cut x y →
            ∃ whiteStart whiteEnd,
              Raster.Segment whiteStart y whiteEnd ∈ Raster.pathChunks masked
              ∧ (whiteStart ≤ x ≤ whiteEnd)%Z).
Proof.
  intros masked cut.
  assert (∀ x y, Raster.pixel masked x y
                 = if decide (cut x y) then Raster.black else Raster.pixel image x y)
    as Hpixel.
  { intros x y. unfold masked, Raster.maskByClip. rewrite pixel_maskRows.
    apply if_decide_iff. unfold cut. split; intros (Hx & Hy & Hw); split_and!; try lia; done. }
  destruct (size_maskRows clipImage twidth theight 0 image) as [Hwidth Hheight].
  destruct (pathChunks_runs masked) as [Hruns Hcovered]. split.
  - intros whiteStart y whiteEnd x Hin Hx.
    destruct (Hruns _ _ _ Hin) as (_ & _ & _ & Hwhite & _).
    specialize (Hwhite x Hx). unfold Raster.whiteAt in Hwhite. rewrite Hpixel in Hwhite.
    by case_decide.
  - intros x y Hx Hy Hwhite Hcut. apply Hcovered.
    + unfold masked, Raster.maskByClip. by rewrite Hwidth.
    + unfold masked, Raster.maskByClip. by rewrite Hheight.
    + unfold Raster.whiteAt. rewrite Hpixel. by case_decide.
Qed.

Example clip_image_cuts_six_pixels :
  Raster.pathChunks (Raster.maskByClip Sample.clipFifth 6 1 Sample.sixPixels)
  = [Raster.Segment 0 0 1; Raster.Segment 3 0 3; Raster.Segment 5 0 5].
Proof. vm_compute. reflexivity. Qed.

(** ** Clipping by the clip image *)

Section ImageClipFacts.
Import Geometry Clipper ImageClip.
Context {graphics : GraphicsUtils} {rounding : DoubleRounding}.
Variable intNumber : Z → string.
Variable QTransform : Type.
Variable boundsOnElement : QDomDocument → string → QRectF.
Variable transformForElement : QDomDocument → string → QTransform.
Variable mapRect : QTransform → QRectF → QRectF.

Local Abbreviation clipLeafByImage :=
  (ImageClip.clipLeafByImage intNumber QTransform boundsOnElement transformForElement mapRect).

Lemma seq_split_at count i :
  i < count → seq 0 count = seq 0 i ++ i :: seq (S i) (count - S i).
Proof.
  intros Hi. replace count with (i + S (count - S i)) at 1 by lia.
  by rewrite seq_app.
Qed.

Lemma clipLeavesByImage_others rendered another clipImage sourceRes leaves1 other indices :
  ∀ st, (∀ j, j ∈ indices → leaves1 !! j ≠ Some other) →
        (foldl (clipLeafByImage rendered another clipImage sourceRes leaves1) st indices).1.1
          !! other
        = st.1.1 !! other.
Proof.
  induction indices as [|j indices IH]; intros st Hothers; [done|]. cbn [foldl].
  rewrite IH by (intros k Hk; apply Hothers; by right).
  unfold ImageClip.clipLeafByImage.
  destruct (leaves1 !! j) as [element|] eqn:Hj; [|done].
  case_bool_decide; [done|]. destruct (window _ _) as [[[x1 y1] x2] y2].
  destruct (Raster.pixelsCollide _ _ _ _ _ _); [|done]. cbn [fst].
  rewrite lookup_setTagName. case_decide as Heq; [|done]. subst.
  exfalso. apply (Hothers j); [by left | done].
Qed.

Lemma syncLeaves_others domDocument1 leaves1 leaves2 other indices :
  ∀ domDocument2, (∀ j, j ∈ indices → leaves2 !! j ≠ Some other) →
    foldl (syncLeaf domDocument1 leaves1 leaves2) domDocument2 indices !! other
    = domDocument2 !! other.
Proof.
  induction indices as [|j indices IH]; intros domDocument2 Hothers; [done|]. cbn [foldl].
  rewrite IH by (intros k Hk; apply Hothers; by right).
  unfold syncLeaf. destruct (leaves1 !! j) as [element1|]; [|done].
  destruct (leaves2 !! j) as [element2|] eqn:Hj; [|done].
  case_bool_decide; [|done].
  rewrite lookup_setTagName. case_decide as Heq; [|done]. subst.
  exfalso. apply (Hothers j); [by left | done].
Qed.

Lemma other_indices (leaves : list Handle) i element (indices : list nat) :
  NoDup leaves → leaves !! i = Some element → i ∉ indices →
  ∀ j, j ∈ indices → leaves !! j ≠ Some element.
Proof.
  intros Hnodup Hi Hnot j Hj Hleaf.
  apply Hnot. by rewrite <- (NoDup_lookup _ _ _ _ Hnodup Hleaf Hi).
Qed.

Lemma not_elem_of_seq_before i : i ∉ seq 0 i.
Proof. rewrite elem_of_seq. lia. Qed.

Lemma not_elem_of_seq_after i n : i ∉ seq (S i) n.
Proof. rewrite elem_of_seq. lia. Qed.

Lemma Clipper_lookup_retag element t (doc : QDomDocument) :
  setTagName element t doc !! element
  = (λ node, {| tagName := t; attributes := attributes node;
                parentNode := parentNode node; childNodes := childNodes node |})
      <$> doc !! element.
Proof. by rewrite lookup_setTagName, decide_True. Qed.

End ImageClipFacts.



(** X7: after the loop of lines 639-647 no leaf is drawn twice: a leaf
    that document 1 still draws (its tag is not "g") is squashed in
    document 2, keeping its attributes, and the counterpart of a leaf that
    document 1 has squashed is left in document 2 as it was, to be
    rasterized. *)
Theorem raster_document_drops_converted_leaves
    (domDocument1 domDocument2 : Clipper.QDomDocument)
    (leaves1 leaves2 : list Clipper.Handle) (transformCount1 i : nat)
    (element1 element2 : Clipper.Handle) (node2 : Clipper.QDomNode) :
  let synced := ImageClip.syncRaster domDocument1 leaves1 leaves2 transformCount1
                                     domDocument2 in
  NoDup leaves2 → i < transformCount1 →
  leaves1 !! i = Some element1 → leaves2 !! i = Some element2 →
  domDocument2 !! element2 = Some node2 →
  (Clipper.tagOf domDocument1 element1 ≠ "g" →
   Clipper.tagOf synced element2 = "g"
   ∧ Clipper.attributes <$> synced !! element2 = Some (Clipper.attributes node2))
  ∧ (Clipper.tagOf domDocument1 element1 = "g" → synced !! element2 = Some node2).
Proof.
  intros synced Hnodup Hi Hleaf1 Hleaf2 Hnode2.
  unfold synced, ImageClip.syncRaster.
  rewrite (seq_split_at _ _ Hi), foldl_app. cbn [foldl].
  set (step := ImageClip.syncLeaf domDocument1 leaves1 leaves2).
  assert (foldl step domDocument2 (seq 0 i) !! element2 = Some node2) as Hbefore.
  { unfold step. rewrite syncLeaves_others; [done|].
    eapply other_indices; [done..|]. apply not_elem_of_seq_before. }
  assert (∀ doc, foldl step doc (seq (S i) (transformCount1 - S i)) !! element2
                 = doc !! element2) as Hafter.
  { intros doc. unfold step. apply syncLeaves_others.
    eapply other_indices; [done..|]. apply not_elem_of_seq_after. }
  unfold Clipper.tagOf at 2. rewrite !Hafter.
  unfold step at 1 3 5. unfold ImageClip.syncLeaf. rewrite Hleaf1, Hleaf2.
  case_bool_decide as Htag.
  - rewrite Clipper_lookup_retag, Hbefore. simpl. by split.
  - rewrite Hbefore. split; [by intros ?|done].
Qed.

Lemma raster_document_drops_converted_leaves_witness :
  Clipper.tagOf
    (ImageClip.syncRaster (Clipper.document Sample.edgeClipped) [2; 3; 4] [2; 3; 4] 3
                          Sample.edgeBoard) 2 = "g".
Proof.
  destruct (raster_document_drops_converted_leaves (Clipper.document Sample.edgeClipped)
              Sample.edgeBoard [2; 3; 4] [2; 3; 4] 3 0 2 2
              (Sample.node "circle" [("id", "0"); ("cx", "50"); ("cy", "50"); ("r", "10");
                                     ("stroke-width", "2")] (Some 1) []))
    as [Hdrawn _].
  - apply (bool_decide_unpack (NoDup [2; 3; 4])). vm_compute. exact I.
  - lia.
  - reflexivity.
  - reflexivity.
  - vm_compute. reflexivity.
  - apply Hdrawn. by vm_compute.
Defined.

Section ExpandFacts.
Import Clipper.

Lemma lookup_setAttribute element name value (doc : QDomDocument) other :
  setAttribute element name value doc !! other
  = if decide (element = other)
    then (λ node, {| tagName := tagName node;
                     attributes := <[name := value]> (attributes node);
                     parentNode := parentNode node; childNodes := childNodes node |})
           <$> doc !! other
    else doc !! other.
Proof.
  unfold setAttribute. case_decide as Heq.
  - subst. by rewrite lookup_alter_eq.
  - by rewrite lookup_alter_ne.
Qed.

End ExpandFacts.

(** X8: [expandToImage] (lines 650-660) gives the document element of
    document 2 the width and height of the image in pixels and touches no
    other node.  For a board rectangle at the origin the view box is left
    alone; that is always so through the overload of [clipToBoard] that
    takes the board, which moves the rectangle to the origin.  For a
    rectangle elsewhere the first two numbers of the view box are
    replaced by the left and top of the board at the resolution of the
    document and the other numbers are kept; a view box with fewer than
    two numbers (or none) makes the code index its list out of range. *)
Theorem view_box_follows_the_board {numbers : QtNumbers} {graphics : GraphicsUtils} {rounding : DoubleRounding}
    (intNumber : Z → string) (boardRect sceneBoundingRect : Geometry.QRectF)
    (root2 : Clipper.Handle) (domDocument2 : Clipper.QDomDocument)
    (node : Clipper.QDomNode) :
  let sourceRes := Clipper.sourceResOf boardRect in
  let sized :=
    <["height" := intNumber (ImageClip.toInt (Geometry.height sourceRes)) +:+ "px"]>
      (<["width" := intNumber (ImageClip.toInt (Geometry.width sourceRes)) +:+ "px"]>
         (Clipper.attributes node)) in
  let coords :=
    QStr.split QStr.CaseSensitive " " (default "" (Clipper.attributes node !! "viewBox")) in
  let atOrigin := (Geometry.left boardRect == 0)%Q ∧ (Geometry.top boardRect == 0)%Q in
  let result := ImageClip.expandToImage intNumber boardRect root2 domDocument2 in
  let expanded attrs doc :=
    doc !! root2 = Some {| Clipper.tagName := Clipper.tagName node;
                           Clipper.attributes := attrs;
                           Clipper.parentNode := Clipper.parentNode node;
                           Clipper.childNodes := Clipper.childNodes node |}
    ∧ ∀ other, other ≠ root2 → doc !! other = domDocument2 !! other in
  domDocument2 !! root2 = Some node →
  (atOrigin → ∃ doc, result = Returns doc ∧ expanded sized doc)
  ∧ (¬ atOrigin → 2 ≤ length coords →
     ∃ doc, result = Returns doc
            ∧ expanded (<["viewBox" :=
                            String.concat " " (number (Geometry.left sourceRes)
                                               :: number (Geometry.top sourceRes)
                                               :: drop 2 coords)]> sized) doc)
  ∧ (¬ atOrigin → length coords < 2 → result = Crashes)
  ∧ (∃ doc, ImageClip.expandToImage intNumber (ImageClip.boardSource sceneBoundingRect)
              root2 domDocument2 = Returns doc
            ∧ Clipper.attribute doc root2 "viewBox"
              = Clipper.attribute domDocument2 root2 "viewBox").
Proof.
  intros sourceRes sized coords atOrigin result expanded Hnode.
  assert (∀ rect,
            Clipper.attribute
              (Clipper.setAttribute root2 "height"
                 (intNumber (ImageClip.toInt (Geometry.height (Clipper.sourceResOf rect)))
                  +:+ "px")
                 (Clipper.setAttribute root2 "width"
                    (intNumber (ImageClip.toInt (Geometry.width (Clipper.sourceResOf rect)))
                     +:+ "px") domDocument2)) root2 "viewBox"
            = default "" (Clipper.attributes node !! "viewBox")) as HviewBox.
  { intros rect. unfold Clipper.attribute.
    rewrite !lookup_setAttribute, !decide_True, Hnode by done. simpl.
    by rewrite !lookup_insert_ne. }
  assert (Qeq_bool (Geometry.left boardRect) 0 = true
          ∧ Qeq_bool (Geometry.top boardRect) 0 = true ↔ atOrigin) as Horigin
    by (unfold atOrigin; by rewrite !Qeq_bool_iff).
  unfold result, ImageClip.expandToImage. fold sourceRes. split_and!.
  - intros [Hleft Htop]%Horigin. rewrite Hleft, Htop. simpl. eexists. split; [done|].
    unfold expanded. split.
    + by rewrite !lookup_setAttribute, !decide_True, Hnode.
    + intros other Hother. by rewrite !lookup_setAttribute, !decide_False.
  - intros Hoff Hcoords.
    assert (negb (Qeq_bool (Geometry.left boardRect) 0)
            || negb (Qeq_bool (Geometry.top boardRect) 0) = true) as ->.
    { destruct (Qeq_bool (Geometry.left boardRect) 0) eqn:Hleft; [|done].
      destruct (Qeq_bool (Geometry.top boardRect) 0) eqn:Htop; [|done].
      exfalso. by apply Hoff, Horigin. }
    unfold sourceRes. rewrite HviewBox. fold coords.
    destruct coords as [|first [|second rest]]; simpl in Hcoords; [lia | lia |].
    eexists. split; [done|]. unfold expanded. split.
    + by rewrite !lookup_setAttribute, !decide_True, Hnode.
    + intros other Hother. by rewrite !lookup_setAttribute, !decide_False.
  - intros Hoff Hcoords.
    assert (negb (Qeq_bool (Geometry.left boardRect) 0)
            || negb (Qeq_bool (Geometry.top boardRect) 0) = true) as ->.
    { destruct (Qeq_bool (Geometry.left boardRect) 0) eqn:Hleft; [|done].
      destruct (Qeq_bool (Geometry.top boardRect) 0) eqn:Htop; [|done].
      exfalso. by apply Hoff, Horigin. }
    unfold sourceRes. rewrite HviewBox. fold coords.
    destruct coords as [|first [|second rest]]; simpl in Hcoords; [done | done | lia].
  - unfold ImageClip.expandToImage.
    assert (negb (Qeq_bool (Geometry.left (ImageClip.boardSource sceneBoundingRect)) 0)
            || negb (Qeq_bool (Geometry.top (ImageClip.boardSource sceneBoundingRect)) 0)
            = false) as -> by reflexivity.
    eexists. split; [done|].
    rewrite HviewBox. unfold Clipper.attribute. by rewrite Hnode.
Qed.

Lemma view_box_follows_the_board_witness :
  ∃ doc,
    ImageClip.expandToImage (numbers := Sample.plainNumbers) (graphics := Sample.fritzingDPI) (rounding := Sample.binary64)
      Sample.showZ Sample.offsetBoardRect 0 Sample.viewBoxDocument = Returns doc
    ∧ Clipper.attribute doc 0 "viewBox" = "100 50 100 100"
    ∧ Clipper.attribute doc 0 "width" = "100px".
Proof.
  destruct (view_box_follows_the_board (numbers := Sample.plainNumbers)
              (graphics := Sample.fritzingDPI) (rounding := Sample.binary64) Sample.showZ Sample.offsetBoardRect
              Sample.offsetBoardRect 0 Sample.viewBoxDocument
              (Sample.node "svg" [("viewBox", "0 0 100 100")] None []))
    as (_ & Hoff & _).
  - vm_compute. reflexivity.
  - destruct Hoff as (doc & Hresult & Hroot & _).
    + intros [Hleft _]. by vm_compute in Hleft.
    + vm_compute. lia.
    + exists doc. split; [exact Hresult|]. unfold Clipper.attribute. rewrite Hroot.
      split; vm_compute; reflexivity.
Defined.

Section OutlineFacts.
Import Dom ImageClip.

Lemma NoDup_childAddrs sub cs :
  Forall (λ c, NoDup (sub c) ∧ [] ∉ sub c) cs → ∀ i, NoDup (childAddrs sub i cs).
Proof.
  induction 1 as [|c cs [Hnodup Hnil] Hcs IH]; intros i; simpl; [constructor|].
  constructor.
  - intros [(a' & Heq & Hin)%list_elem_of_fmap|(j & c' & a' & _ & Heq & _)%elem_of_childAddrs]
      %elem_of_app.
    + injection Heq as <-. done.
    + injection Heq as Heq. lia.
  - apply NoDup_app. split_and!.
    + apply NoDup_fmap_2; [|done]. by intros a b [= ->].
    + intros a (a'' & -> & _)%list_elem_of_fmap (j & c' & a' & _ & Heq & _)%elem_of_childAddrs.
      injection Heq as Heq. lia.
    + apply IH.
Qed.

Lemma NoDup_descendants e : NoDup (descendants e).
Proof.
  induction e as [t m cs IH] using QDomElement_children_ind. simpl.
  apply NoDup_childAddrs. eapply Forall_impl; [exact IH|].
  intros c Hc. split; [done|]. intros Hnil%elem_of_descendants. by destruct Hnil.
Qed.

Lemma NoDup_elementsByTagName root t : NoDup (elementsByTagName root t).
Proof. apply NoDup_filter, NoDup_descendants. Qed.

Variable mergeOutlineElement : QDomElement → string → nat → string.
Variable root2 : QDomElement.

Local Abbreviation paths := (elementsByTagName root2 "path").

Lemma alone_squashAll : alone root2 None (squashAll paths root2).
Proof.
  intros a. rewrite attrsAt_squashAll, tagAt_squashAll. split; [done|].
  rewrite (decide_False (P := None = Some a)) by done. case_decide as Hin; [|done].
  apply elem_of_elementsByTagName in Hin as (_ & e & Hnode & Htag).
  unfold tagAt. by rewrite Hnode.
Qed.

Lemma tagAt_path a : a ∈ paths → tagAt root2 a = Some "path".
Proof.
  intros (_ & e & Hnode & Htag)%elem_of_elementsByTagName.
  unfold tagAt. rewrite Hnode. simpl. by rewrite Htag.
Qed.

(** The state after the first [k] turns of the second loop. *)
Lemma isolate_turns svgString k :
  k ≤ length paths →
  ∃ doc svg rendered,
    foldl (isolateStep mergeOutlineElement paths) (squashAll paths root2, svgString, [])
          (seq 0 k) = (doc, svg, rendered)
    ∧ length rendered = k
    ∧ alone root2 (if decide (0 < k) then paths !! (k - 1) else None) doc
    ∧ ∀ p, p < k → ∃ shown, rendered !! p = Some shown ∧ alone root2 (paths !! p) shown.
Proof.
  induction k as [|k IH]; intros Hk.
  - eexists _, _, _. split; [done|]. split_and!; [done | apply alone_squashAll | lia].
  - destruct IH as (doc & svg & rendered & Hfold & Hlength & Halone & Hshown); [lia|].
    rewrite seq_S, foldl_app, Hfold. cbn [foldl Nat.add].
    destruct (lookup_lt_is_Some_2 paths k) as [path Hpath]; [lia|].
    unfold isolateStep. rewrite Hpath.
    set (doc' := if decide (0 < k) then
                   match paths !! (k - 1) with
                   | Some previous => modify (Dom.setTagName "g") previous
                                             (modify (Dom.setTagName "path") path doc)
                   | None => modify (Dom.setTagName "path") path doc
                   end
                 else modify (Dom.setTagName "path") path doc).
    assert (alone root2 (Some path) doc') as Halone'.
    { revert Halone. unfold doc'.
      destruct (decide (0 < k)) as [Hpos|Hpos]; intros Halone a;
        destruct (Halone a) as [Hattrs Htag].
      - destruct (lookup_lt_is_Some_2 paths (k - 1)) as [previous Hprevious]; [lia|].
        rewrite Hprevious in Htag |- *.
        rewrite attrsAt_modify_setTagName, attrsAt_modify_setTagName.
        rewrite !tagAt_modify_setTagName, Htag. split; [done|].
        assert (previous ≠ path) as Hne.
        { intros ->. pose proof (NoDup_lookup _ _ _ _ (NoDup_elementsByTagName root2 "path")
                                   Hprevious Hpath). lia. }
        assert (previous ∈ paths) by (by eapply list_elem_of_lookup_2).
        assert (path ∈ paths) by (by eapply list_elem_of_lookup_2).
        repeat case_decide; simplify_eq; try done.
      - rewrite attrsAt_modify_setTagName, tagAt_modify_setTagName, Htag. split; [done|].
        assert (path ∈ paths) by (by eapply list_elem_of_lookup_2).
        repeat case_decide; simplify_eq; done. }
    eexists _, _, _. split; [done|]. split_and!.
    + rewrite length_app. simpl. lia.
    + rewrite decide_True by lia. replace (S k - 1) with k by lia. by rewrite Hpath.
    + intros p Hp. destruct (decide (p = k)) as [->|Hne].
      * exists doc'. split; [|by rewrite Hpath].
        rewrite lookup_app_r by lia. by replace (k - length rendered) with 0 by lia.
      * destruct (Hshown p) as (shown & Hp' & Hshown'); [lia|].
        exists shown. split; [|done]. by apply lookup_app_l_Some.
Qed.

End OutlineFacts.

(** X9: for the outline (lines 671-691) the paths of document 2 are
    rasterized one at a time: a document without paths is handed to
    [mergeOutlineElement] once, as it is; otherwise there are as many
    calls as paths, and the document of the call number [p] has the path
    number [p] as its only path, every other path being squashed and
    nothing else changed. *)
Theorem outline_paths_are_merged_one_at_a_time
    (mergeOutlineElement : Dom.QDomElement → string → nat → string)
    (root2 : Dom.QDomElement) (svgString : string) :
  let paths := Dom.elementsByTagName root2 "path" in
  let rendered := (ImageClip.mergeOutline mergeOutlineElement root2 svgString).2 in
  (paths = [] → rendered = [root2])
  ∧ (paths ≠ [] → length rendered = length paths)
  ∧ (∀ p path, paths !! p = Some path →
       ∃ shown, rendered !! p = Some shown ∧ ImageClip.alone root2 (Some path) shown).
Proof.
  intros paths rendered. unfold rendered, ImageClip.mergeOutline. fold paths.
  destruct (isolate_turns mergeOutlineElement root2 svgString (length paths))
    as (doc & svg & shown & Hfold & Hlength & _ & Hshown); [done|].
  fold paths in Hfold. destruct paths as [|first rest] eqn:Hpaths.
  - split_and!; [done | done |]. intros p path Hp. by rewrite lookup_nil in Hp.
  - rewrite Hfold. cbn [snd]. split_and!; [done | done |].
    intros p path Hp. destruct (Hshown p) as (doc' & Hdoc' & Halone).
    { by eapply lookup_lt_Some. }
    exists doc'. split; [done|]. unfold paths in Hpaths. rewrite Hpaths in Halone.
    by rewrite Hp in Halone.
Qed.

(** ** The outline cleaner *)

Section OutlineCleanerFacts.
Import Clipper OutlineCleaner.

Lemma removeFromParent_children leaf (doc : QDomDocument) element node :
  doc !! element = Some node →
  ∃ node', removeFromParent leaf doc !! element = Some node'
           ∧ ∀ child, child ∈ childNodes node' → child ∈ childNodes node.
Proof.
  intros Hnode. unfold removeFromParent.
  destruct (doc !! leaf ≫= parentNode) as [parent|]; [|by exists node].
  destruct (doc !! parent) as [parentNode'|] eqn:Hparent; [|by exists node].
  unfold setParent, setChildren.
  destruct (decide (leaf = element)) as [->|Hleaf];
    destruct (decide (parent = element)) as [->|Hne];
    rewrite ?lookup_alter_eq, ?lookup_alter_ne, ?lookup_alter_eq, ?Hnode by done;
    simpl; eexists; (split; [done|]); simpl; try done.
  - intros child [_ Hin]%list_elem_of_filter. congruence.
  - intros child [_ Hin]%list_elem_of_filter. congruence.
Qed.

Lemma removeFromParent_detaches leaf (doc : QDomDocument) node parent parentNode' :
  doc !! leaf = Some node → parentNode node = Some parent →
  doc !! parent = Some parentNode' →
  ∃ node' parentNode'',
    removeFromParent leaf doc !! leaf = Some node' ∧ parentNode node' = None
    ∧ removeFromParent leaf doc !! parent = Some parentNode''
    ∧ leaf ∉ childNodes parentNode''.
Proof.
  intros Hnode Hparent Hnode'. unfold removeFromParent.
  rewrite Hnode. simpl. rewrite Hparent, Hnode'. unfold setParent, setChildren.
  destruct (decide (parent = leaf)) as [->|Hne].
  - rewrite !lookup_alter_eq, Hnode. simpl. eexists _, _. split_and!; [done..|].
    simpl. by intros [? _]%list_elem_of_filter.
  - rewrite lookup_alter_eq, !lookup_alter_ne, lookup_alter_eq, Hnode, Hnode' by done.
    simpl. eexists _, _. split_and!; [done..|].
    simpl. by intros [? _]%list_elem_of_filter.
Qed.

(** Taking a list of distinct nodes out of their parents. *)
Lemma removeAll_others removed :
  ∀ (doc : QDomDocument) element node,
    element ∉ removed → doc !! element = Some node →
    ∃ node', foldl (λ doc leaf, removeFromParent leaf doc) doc removed !! element = Some node'
             ∧ sameShallow node node'
             ∧ (∀ child, child ∈ childNodes node' → child ∈ childNodes node)
             ∧ (∀ child, child ∉ removed → child ∈ childNodes node →
                         child ∈ childNodes node').
Proof.
  induction removed as [|leaf removed IH]; intros doc element node Hnot Hnode.
  - exists node. by repeat split.
  - apply not_elem_of_cons in Hnot as [Hne Hnot]. cbn [foldl].
    destruct (removeFromParent_prunes leaf doc element node)
      as (node1 & Hnode1 & Hsame1 & Hsub1 & Hsup1); [done..|].
    destruct (IH _ _ _ Hnot Hnode1) as (node' & Hnode' & Hsame' & Hsub' & Hsup').
    exists node'. split_and!; [done | by eapply sameShallow_trans | auto |].
    intros child [Hchild Hchild']%not_elem_of_cons Hin. auto.
Qed.

Lemma removeAll_children removed :
  ∀ (doc : QDomDocument) element node,
    doc !! element = Some node →
    ∃ node', foldl (λ doc leaf, removeFromParent leaf doc) doc removed !! element = Some node'
             ∧ ∀ child, child ∈ childNodes node' → child ∈ childNodes node.
Proof.
  induction removed as [|leaf removed IH]; intros doc element node Hnode.
  - by exists node.
  - cbn [foldl].
    destruct (removeFromParent_children leaf doc element node Hnode) as (node1 & Hnode1 & Hsub1).
    destruct (IH _ _ _ Hnode1) as (node' & Hnode' & Hsub'). exists node'. auto.
Qed.

Lemma removeAll_detached removed :
  NoDup removed →
  ∀ (doc : QDomDocument) leaf node parent parentNode',
    leaf ∈ removed → doc !! leaf = Some node → parentNode node = Some parent →
    doc !! parent = Some parentNode' →
    ∃ node' parentNode'',
      foldl (λ doc leaf, removeFromParent leaf doc) doc removed !! leaf = Some node'
      ∧ parentNode node' = None
      ∧ foldl (λ doc leaf, removeFromParent leaf doc) doc removed !! parent
        = Some parentNode''
      ∧ leaf ∉ childNodes parentNode''.
Proof.
  induction 1 as [|first removed Hfirst Hnodup IH];
    intros doc leaf node parent parentNode' Hin Hnode Hparent Hnode'.
  - by apply elem_of_nil in Hin.
  - cbn [foldl]. apply elem_of_cons in Hin as [->|Hin].
    + destruct (removeFromParent_detaches first doc node parent parentNode')
        as (node1 & parent1 & Hnode1 & Hnone & Hparent1 & Hout); [done..|].
      destruct (removeAll_others removed _ _ _ Hfirst Hnode1)
        as (node' & Hnode'' & (_ & _ & Hsame) & _).
      destruct (removeAll_children removed _ _ _ Hparent1) as (parent' & Hparent' & Hsub).
      exists node', parent'. split_and!; [done | congruence | done | auto].
    + assert (leaf ≠ first) as Hne by (by intros ->).
      destruct (removeFromParent_prunes first doc leaf node)
        as (node1 & Hnode1 & (_ & _ & Hsame1) & _); [done..|].
      destruct (removeFromParent_children first doc parent parentNode' Hnode')
        as (parent1 & Hparent1 & _).
      eapply IH; [done | done | congruence | done].
Qed.

Lemma removeOtherLeaves_fold leaves :
  ∀ j i (doc : QDomDocument),
    removeOtherLeaves leaves j i doc
    = foldl (λ doc leaf, removeFromParent leaf doc) doc
            (if decide (j ≤ i) then delete (i - j) leaves else leaves).
Proof.
  induction leaves as [|jleaf later IH]; intros j i doc; simpl.
  - by case_decide.
  - rewrite IH. destruct (decide (i ≠ j)) as [Hne|Heq].
    + destruct (decide (j ≤ i)).
      * rewrite decide_True by lia. by replace (i - j) with (S (i - S j)) by lia.
      * by rewrite decide_False by lia.
    + apply dec_stable in Heq as ->. rewrite decide_False, decide_True by lia.
      by rewrite Nat.sub_diag.
Qed.

Lemma findBoardOutline_first (doc : QDomDocument) leaves :
  ∀ j i, findBoardOutline doc leaves j = Some i →
         ∃ leaf, j ≤ i ∧ leaves !! (i - j) = Some leaf ∧ isBoardOutline doc leaf = true.
Proof.
  induction leaves as [|leaf later IH]; intros j i; simpl; [done|].
  destruct (isBoardOutline doc leaf) eqn:Hleaf.
  - intros [= <-]. exists leaf. by rewrite Nat.sub_diag.
  - intros (leaf' & Hj & Hleaf' & Houtline)%IH. exists leaf'. split_and!; [lia| |done].
    by replace (i - j) with (S (i - S j)) by lia.
Qed.

Lemma findBoardOutline_none (doc : QDomDocument) leaves :
  ∀ j, findBoardOutline doc leaves j = None
       ↔ ∀ leaf, leaf ∈ leaves → isBoardOutline doc leaf = false.
Proof.
  induction leaves as [|leaf later IH]; intros j; simpl.
  - split; [|done]. by intros _ leaf ?%elem_of_nil.
  - destruct (isBoardOutline doc leaf) eqn:Hleaf.
    + split; [done|]. intros Hall. rewrite Hall in Hleaf; [done | by left].
    + rewrite IH. split.
      * intros Hall leaf' [->|Hin]%elem_of_cons; auto.
      * intros Hall leaf' Hin. apply Hall. by right.
Qed.

Lemma removeFromParent_keeps leaf (doc : QDomDocument) element node :
  doc !! element = Some node →
  ∃ node', removeFromParent leaf doc !! element = Some node'
           ∧ ∀ child, child ≠ leaf → child ∈ childNodes node → child ∈ childNodes node'.
Proof.
  intros Hnode. unfold removeFromParent.
  destruct (doc !! leaf ≫= parentNode) as [parent|]; [|by exists node].
  destruct (doc !! parent) as [parentNode'|] eqn:Hparent; [|by exists node].
  unfold setParent, setChildren.
  destruct (decide (leaf = element)) as [->|Hleaf];
    destruct (decide (parent = element)) as [->|Hne];
    rewrite ?lookup_alter_eq, ?lookup_alter_ne, ?lookup_alter_eq, ?Hnode by done;
    simpl; eexists; (split; [done|]); simpl; try done.
  - intros child Hchild Hin. apply list_elem_of_filter. split; [done | congruence].
  - intros child Hchild Hin. apply list_elem_of_filter. split; [done | congruence].
Qed.

Lemma removeAll_keeps removed :
  ∀ (doc : QDomDocument) element node,
    doc !! element = Some node →
    ∃ node', foldl (λ doc leaf, removeFromParent leaf doc) doc removed !! element = Some node'
             ∧ ∀ child, child ∉ removed → child ∈ childNodes node → child ∈ childNodes node'.
Proof.
  induction removed as [|leaf removed IH]; intros doc element node Hnode.
  - by exists node.
  - cbn [foldl].
    destruct (removeFromParent_keeps leaf doc element node Hnode) as (node1 & Hnode1 & Hsup1).
    destruct (IH _ _ _ Hnode1) as (node' & Hnode' & Hsup'). exists node'. split; [done|].
    intros child [Hchild Hchild']%not_elem_of_cons Hin. auto.
Qed.

Lemma elem_of_delete_NoDup (leaves : list Handle) i kept other :
  NoDup leaves → leaves !! i = Some kept →
  other ∈ delete i leaves ↔ other ∈ leaves ∧ other ≠ kept.
Proof.
  intros Hnodup Hkept. rewrite delete_take_drop.
  rewrite <- (take_drop_middle leaves i kept Hkept) in Hnodup |- * at 3.
  apply NoDup_app in Hnodup as (_ & Hdisjoint & [Hkept' _]%NoDup_cons).
  rewrite !elem_of_app, elem_of_cons. split.
  - intros [Hin|Hin]; (split; [auto|]); intros ->.
    + apply (Hdisjoint kept Hin). by left.
    + done.
  - intros [[Hin|[->|Hin]] Hne]; auto. done.
Qed.

End OutlineCleanerFacts.

(** X10: [cleanOutline] gives the empty string for a document without
    leaves, and the string it was given, not a new serialization, for a
    single leaf or when no leaf has the id "boardoutline".  With several
    distinct leaves one of which has that id, the first such leaf is kept
    in its place under its parent; every other leaf that hangs under a
    parent is taken out of it; a node that is not a leaf keeps its tag,
    attributes and parent, and loses no child but leaves. *)
Theorem outline_is_reduced_to_the_board_outline
    (toString : Clipper.QDomDocument → string) (outlineSvg : string)
    (doc : Clipper.QDomDocument) (leaves : list Clipper.Handle) :
  let result := OutlineCleaner.cleanOutline toString outlineSvg doc leaves in
  (leaves = [] → result = "")
  ∧ (length leaves = 1 → result = outlineSvg)
  ∧ ((∀ leaf, leaf ∈ leaves → OutlineCleaner.isBoardOutline doc leaf = false) →
     leaves ≠ [] → result = outlineSvg)
  ∧ (2 ≤ length leaves → NoDup leaves →
     (∃ leaf, leaf ∈ leaves ∧ OutlineCleaner.isBoardOutline doc leaf = true) →
     ∃ kept cleaned,
       kept ∈ leaves ∧ OutlineCleaner.isBoardOutline doc kept = true
       ∧ result = toString cleaned
       ∧ (∀ node, doc !! kept = Some node →
            ∃ node', cleaned !! kept = Some node' ∧ Clipper.sameShallow node node')
       ∧ (Clipper.attached doc kept → Clipper.attached cleaned kept)
       ∧ (∀ other node parent parentNode',
            other ∈ leaves → other ≠ kept →
            doc !! other = Some node → Clipper.parentNode node = Some parent →
            doc !! parent = Some parentNode' →
            ∃ node' parentNode'',
              cleaned !! other = Some node' ∧ Clipper.parentNode node' = None
              ∧ cleaned !! parent = Some parentNode''
              ∧ other ∉ Clipper.childNodes parentNode'')
       ∧ (∀ element node,
            element ∉ leaves → doc !! element = Some node →
            ∃ node', cleaned !! element = Some node' ∧ Clipper.sameShallow node node'
                     ∧ (∀ child, child ∈ Clipper.childNodes node' →
                                 child ∈ Clipper.childNodes node)
                     ∧ (∀ child, child ∉ leaves ∨ child = kept →
                                 child ∈ Clipper.childNodes node →
                                 child ∈ Clipper.childNodes node'))).
Proof.
  intros result. unfold result, OutlineCleaner.cleanOutline. split_and!.
  - by intros ->.
  - by destruct leaves as [|first [|second rest]].
  - intros Hnone%(findBoardOutline_none doc leaves 0) Hleaves. rewrite Hnone.
    by destruct leaves as [|first [|second rest]].
  - intros Hlength Hnodup (leaf & Hleaf & Houtline).
    destruct (OutlineCleaner.findBoardOutline doc leaves 0) as [i|] eqn:Hfind.
    2:{ rewrite findBoardOutline_none in Hfind. rewrite Hfind in Houtline; done. }
    destruct (findBoardOutline_first doc leaves 0 i Hfind) as (kept & _ & Hkept & Hkept').
    rewrite Nat.sub_0_r in Hkept.
    assert (OutlineCleaner.removeOtherLeaves leaves 0 i doc
            = foldl (λ doc leaf, Clipper.removeFromParent leaf doc) doc (delete i leaves))
      as Hcleaned.
    { rewrite removeOtherLeaves_fold, decide_True by lia. by rewrite Nat.sub_0_r. }
    assert (NoDup (delete i leaves)) as Hnodup'
      by (eapply sublist_NoDup; [done | apply sublist_delete]).
    assert (kept ∉ delete i leaves) as Hkept''.
    { rewrite (elem_of_delete_NoDup leaves i kept) by done. by intros [_ ?]. }
    exists kept, (OutlineCleaner.removeOtherLeaves leaves 0 i doc).
    rewrite Hcleaned. split_and!.
    + by eapply list_elem_of_lookup_2.
    + done.
    + by destruct leaves as [|first [|second rest]]; simpl in Hlength; [lia | lia |].
    + intros node Hnode.
      destruct (removeAll_others (delete i leaves) doc kept node)
        as (node' & Hnode' & Hsame & _); [done..|]. by exists node'.
    + intros (node & parent & parentNode' & Hnode & Hparent & Hnode' & Hchild).
      destruct (removeAll_others (delete i leaves) doc kept node)
        as (node1 & Hnode1 & (_ & _ & Hsame) & _); [done..|].
      destruct (removeAll_keeps (delete i leaves) doc parent parentNode' Hnode')
        as (parent1 & Hparent1 & Hkeeps).
      exists node1, parent, parent1. split_and!; [done | congruence | done | auto].
    + intros other node parent parentNode' Hother Hne Hnode Hparent Hnode'.
      eapply (removeAll_detached (delete i leaves)); [done | | done..].
      by apply (elem_of_delete_NoDup leaves i kept).
    + intros element node Helement Hnode.
      destruct (removeAll_others (delete i leaves) doc element node)
        as (node' & Hnode' & Hsame & Hsub & Hsup); [|done|].
      { intros [Hin _]%(elem_of_delete_NoDup leaves i kept); done. }
      exists node'. split_and!; [done..|].
      intros child Hchild Hin. apply Hsup; [|done].
      intros [Hin' Hne]%(elem_of_delete_NoDup leaves i kept); [|done..].
      by destruct Hchild.
Qed.

(** ** Pick-and-place *)

Section MountFacts.
Import QStr PickAndPlace PickAndPlaceRows.

Lemma toLower_idem c : toLower (toLower c) = toLower c.
Proof. destruct c as [[] [] [] [] [] [] [] []]; vm_compute; reflexivity. Qed.

Lemma eqChar_lower a b : eqChar CaseInsensitive (toLower a) b = eqChar CaseInsensitive a b.
Proof. unfold eqChar. by rewrite toLower_idem. Qed.

Lemma startsWith_lower s p :
  startsWith CaseInsensitive (lower s) p = startsWith CaseInsensitive s p.
Proof.
  revert s. induction p as [|b p IH]; intros s; [by destruct s|].
  destruct s as [|a s]; [done|]. cbn [lower startsWith]. by rewrite eqChar_lower, IH.
Qed.

Lemma contains_lower s p :
  contains CaseInsensitive (lower s) p = contains CaseInsensitive s p.
Proof.
  induction s as [|a s IH].
  - done.
  - change (lower (String a s)) with (String (toLower a) (lower s)).
    cbn [contains]. rewrite IH. f_equal.
    apply (startsWith_lower (String a s) p).
Qed.

Lemma scanKnownTHT_lower package known :
  scanKnownTHT (lower package) known = scanKnownTHT package known.
Proof.
  induction known as [|k known IH]; simpl; [done|]. by rewrite !contains_lower, IH.
Qed.

Lemma scanKnownTHT_spec package known :
  scanKnownTHT package known
  = if existsb (contains CaseInsensitive package) known
    then if contains CaseInsensitive package "LEADLESS" then "SMT" else "THT"
    else "SMT".
Proof.
  induction known as [|k known IH]; [done|]. cbn [scanKnownTHT existsb].
  destruct (contains CaseInsensitive package k); simpl; [|done].
  by destruct (contains CaseInsensitive package "LEADLESS").
Qed.

Lemma contains_nonempty cs s p : p ≠ "" → contains cs s p = true → s ≠ "".
Proof. intros Hp Hs ->. destruct p; [done|]. simpl in Hs. done. Qed.

Lemma no_comma_replaceChar s :
  contains CaseSensitive (replaceChar "," "_" s) "," = false.
Proof.
  induction s as [|c s IH]; [done|]. cbn [replaceChar contains]. rewrite IH.
  cbn [startsWith eqChar]. rewrite orb_false_r.
  destruct (Ascii.eqb_spec c ","); [done|].
  destruct (replaceChar "," "_" s); by rewrite ?andb_true_r, (proj2 (Ascii.eqb_neq _ _)).
Qed.

Lemma description_fold (localProp : string → string) (p p' : gmap string string) keys s :
  (∀ k, k ∈ keys → localProp k = "" → p !! k = p' !! k) →
  foldl (λ description valueKey,
           let prop := localProp valueKey in
           let prop := if isEmpty prop then default "" (p !! valueKey) else prop in
           description +:+ prop +:+ ";") s keys
  = foldl (λ description valueKey,
             let prop := localProp valueKey in
             let prop := if isEmpty prop then default "" (p' !! valueKey) else prop in
             description +:+ prop +:+ ";") s keys.
Proof.
  revert s. induction keys as [|k keys IH]; intros s Hsame; [done|]. cbn [foldl].
  rewrite IH by (intros k' Hk'; apply Hsame; by right). do 2 f_equal.
  destruct (localProp k) eqn:Hk; [|done]. simpl. rewrite (Hsame k); [done | by left | done].
Qed.

End MountFacts.

(** X11: the decision table of [checkMountTechnology]: the answer is
    "MANUAL" exactly for the empty package name; it is "THT" exactly when
    the name contains "THT", or contains no "SMD" but one of the known
    through-hole package names and no "LEADLESS" (all without regard to
    case); it is "SMT" in every other case. *)
Theorem checkMountTechnology_table (package : string) :
  let has := QStr.contains QStr.CaseInsensitive package in
  let tht :=
    has "THT" = true
    ∨ (has "SMD" = false ∧ (∃ known, known ∈ PickAndPlace.knownTHTPackages ∧ has known = true)
       ∧ has "LEADLESS" = false) in
  (PickAndPlace.checkMountTechnology package = "MANUAL" ↔ package = "")
  ∧ (PickAndPlace.checkMountTechnology package = "THT" ↔ tht)
  ∧ (PickAndPlace.checkMountTechnology package = "SMT" ↔ package ≠ "" ∧ ¬ tht).
Proof.
  intros has tht.
  assert (tht → package ≠ "") as Hnonempty.
  { intros [Hthtk|(_ & (known & Hin & Hknown) & _)] ->; [done|].
    assert (Forall (λ k, QStr.contains QStr.CaseInsensitive "" k = false)
                   PickAndPlace.knownTHTPackages) as Hall by (repeat constructor).
    rewrite Forall_forall in Hall. unfold has in Hknown. by rewrite Hall in Hknown. }
  assert (existsb has PickAndPlace.knownTHTPackages = true
          ↔ ∃ known, known ∈ PickAndPlace.knownTHTPackages ∧ has known = true) as Hknown.
  { rewrite existsb_exists. by setoid_rewrite list_elem_of_In. }
  assert (tht ↔ has "THT" = true
                ∨ (has "SMD" = false ∧ existsb has PickAndPlace.knownTHTPackages = true
                   ∧ has "LEADLESS" = false)) as Htable
    by (unfold tht; rewrite Hknown; tauto).
  unfold PickAndPlace.checkMountTechnology. rewrite scanKnownTHT_spec. fold has.
  destruct (QStr.isEmpty package) eqn:Hempty.
  - assert (package = "") as Hpackage by (by destruct package).
    split_and!; split; try done; intuition congruence.
  - assert (package ≠ "") as Hpackage by (by intros ->).
    rewrite Htable.
    destruct (has "THT"), (has "SMD"), (existsb has PickAndPlace.knownTHTPackages),
      (has "LEADLESS"); split_and!; split; try done; intuition congruence.
Qed.

(** X12: [checkMountTechnology] does not look at the case of the letters
    of the package name. *)
Theorem checkMountTechnology_ignores_case (package : string) :
  PickAndPlace.checkMountTechnology (PickAndPlaceRows.lower package)
  = PickAndPlace.checkMountTechnology package.
Proof.
  unfold PickAndPlace.checkMountTechnology.
  rewrite !contains_lower, scanKnownTHT_lower. by destruct package.
Qed.

(** X13: the description that lines 1063-1071 build for a pick-and-place
    row holds no comma when line 1071 is done, whatever the properties of
    the part hold, and a property of the part counts only for a key whose
    local property is empty.  This is the string handed to the second
    [arg] of line 1084; what the chain of [arg]s makes of the row is not
    part of the statement. *)
Theorem description_has_no_comma (localProp : string → string)
    (properties properties' : gmap string string) :
  QStr.contains QStr.CaseSensitive (PickAndPlaceRows.description localProp properties) ","
  = false
  ∧ ((∀ key, key ∈ PickAndPlaceRows.valueKeys → localProp key = "" →
             properties !! key = properties' !! key) →
     PickAndPlaceRows.description localProp properties
     = PickAndPlaceRows.description localProp properties').
Proof.
  split; [apply no_comma_replaceChar|].
  intros Hsame. unfold PickAndPlaceRows.description. f_equal. by apply description_fold.
Qed.

Example description_of_a_resistor :
  PickAndPlaceRows.description
    (λ key, if decide (key = "resistance") then "4,7k" else "")
    (list_to_map [("resistance", "220R"); ("power", "0.25W"); ("package", "THT")])
  = "4_7k;;;;;0.25W;;;".
Proof. vm_compute. reflexivity. Qed.

(** ** The TreatAsCircle set and the donuts *)

Section TreatAsCircleFacts.
Import Dom Connectors Donuts.

Lemma elem_of_collect_step (acc : TreatAsCircle) item key connectorItem :
  (key, connectorItem)
    ∈ match item with
      | OtherGraphics => acc
      | ConnectorGraphics candidate =>
          if negb (isPath candidate) then acc
          else if Qeq_bool (radius candidate) 0 then acc
          else insertMulti (attachedToID candidate) candidate acc
      end
  ↔ (key, connectorItem) ∈ acc
    ∨ (item = ConnectorGraphics connectorItem ∧ key = attachedToID connectorItem
       ∧ isPath connectorItem = true ∧ ¬ (radius connectorItem == 0)%Q).
Proof.
  destruct item as [candidate|]; [|naive_solver].
  destruct (isPath candidate) eqn:Hpath; simpl; [|naive_solver congruence].
  destruct (Qeq_bool (radius candidate) 0) eqn:Hradius.
  - apply Qeq_bool_iff in Hradius. naive_solver.
  - apply Qeq_bool_neq in Hradius. unfold insertMulti. rewrite elem_of_cons. naive_solver.
Qed.

Lemma elem_of_collect items :
  ∀ (acc : TreatAsCircle) key connectorItem,
    (key, connectorItem)
      ∈ foldl (λ treatAsCircle item,
                 match item with
                 | OtherGraphics => treatAsCircle
                 | ConnectorGraphics connectorItem =>
                     if negb (isPath connectorItem) then treatAsCircle
                     else if Qeq_bool (radius connectorItem) 0 then treatAsCircle
                     else insertMulti (attachedToID connectorItem) connectorItem treatAsCircle
                 end) acc items
    ↔ (key, connectorItem) ∈ acc
      ∨ (key = attachedToID connectorItem ∧ ConnectorGraphics connectorItem ∈ items
         ∧ isPath connectorItem = true ∧ ¬ (radius connectorItem == 0)%Q).
Proof.
  induction items as [|item items IH]; intros acc key connectorItem; cbn [foldl].
  - split; [by left|]. intros [?|(_ & ?%elem_of_nil & _)]; done.
  - rewrite IH, elem_of_collect_step, elem_of_cons. naive_solver.
Qed.

Lemma elem_of_valuesOf (hash : TreatAsCircle) key connectorItem :
  connectorItem ∈ valuesOf hash key ↔ (key, connectorItem) ∈ hash.
Proof.
  unfold valuesOf. rewrite list_elem_of_fmap. split.
  - intros ([key' item] & -> & [Hkey Hin]%list_elem_of_filter). simpl in Hkey. by subst.
  - intros Hin. exists (key, connectorItem). split; [done|].
    by apply list_elem_of_filter.
Qed.

Context {numbers : QtNumbers}.

(** The connector found for a path is among those registered for the part
    id of one of the parents walked. *)
Lemma findConnectorItem_part root1 treatAsCircle id parents connectorItem :
  findConnectorItem root1 treatAsCircle id parents = Some connectorItem →
  ∃ parent parentElement,
    parent ∈ parents ∧ nodeAt root1 parent = Some parentElement
    ∧ attribute parentElement "partID" ≠ ""
    ∧ connectorItem ∈ valuesOf treatAsCircle (toLong (attribute parentElement "partID")).
Proof.
  induction parents as [|parent further IH]; simpl; [done|].
  destruct (nodeAt root1 parent) as [parentElement|] eqn:Hparent; [|done].
  destruct (QStr.isEmpty (attribute parentElement "partID")) eqn:Hpid.
  - intros (parent' & element' & Hin & Hrest)%IH. exists parent', element'.
    split; [by right | done].
  - destruct (valuesOf treatAsCircle (toLong (attribute parentElement "partID")))
      as [|first others] eqn:Hvalues; [done|].
    destruct (List.find _ (first :: others)) as [found|] eqn:Hfind.
    + intros [= <-]. exists parent, parentElement. split_and!; [by left | done | |].
      * intros Hempty. by rewrite Hempty in Hpid.
      * apply find_some in Hfind as [Hin _]. rewrite Hvalues. by apply list_elem_of_In.
    + intros (parent' & element' & Hin & Hrest)%IH. exists parent', element'.
      split; [by right | done].
Qed.

End TreatAsCircleFacts.

(** X14: the TreatAsCircle set that [doCopper] and [doDrill] collect
    holds exactly the connectors of the scene that are drawn as a path
    and have a radius other than 0, each under the id of the part it is
    attached to; looking up a part id gives the connectors of that part. *)
Theorem treatAsCircle_holds_path_connectors (items : list Connectors.QGraphicsItem)
    (key : Z) (connectorItem : Connectors.ConnectorItem) :
  let registered :=
    Connectors.ConnectorGraphics connectorItem ∈ items
    ∧ Connectors.isPath connectorItem = true
    ∧ ¬ (Connectors.radius connectorItem == 0)%Q in
  (connectorItem ∈ Connectors.values (Connectors.collectTreatAsCircle items) ↔ registered)
  ∧ (connectorItem ∈ Connectors.valuesOf (Connectors.collectTreatAsCircle items) key
     ↔ key = Connectors.attachedToID connectorItem ∧ registered).
Proof.
  intros registered. unfold Connectors.collectTreatAsCircle. split.
  - unfold Connectors.values. rewrite list_elem_of_fmap. split.
    + intros ([key' item] & -> & Hin). apply elem_of_collect in Hin as [Hin|(_ & Hin)];
        [by apply elem_of_nil in Hin | done].
    + intros Hregistered. exists (Connectors.attachedToID connectorItem, connectorItem).
      split; [done|]. apply elem_of_collect. right. by split.
  - rewrite elem_of_valuesOf, elem_of_collect. split.
    + intros [Hin|Hin]; [by apply elem_of_nil in Hin | done].
    + intros Hin. by right.
Qed.

(** X15: with the set collected from the scene, the connector that
    [handleDonuts] finds for a path is a connector of the scene that is
    drawn as a path with a radius other than 0, has the id of the path as
    its svg id, and is attached to the part whose id one of the parents of
    the path carries in its partID attribute. *)
Theorem donut_connector_belongs_to_the_part {numbers : QtNumbers}
    (root1 : Dom.QDomElement) (items : list Connectors.QGraphicsItem) (id : string)
    (parents : list Dom.Addr) (connectorItem : Connectors.ConnectorItem) :
  Donuts.findConnectorItem root1 (Connectors.collectTreatAsCircle items) id parents
  = Some connectorItem →
  Connectors.ConnectorGraphics connectorItem ∈ items
  ∧ Connectors.isPath connectorItem = true
  ∧ ¬ (Connectors.radius connectorItem == 0)%Q
  ∧ Connectors.svgId connectorItem = id
  ∧ ∃ parent parentElement,
      parent ∈ parents ∧ Dom.nodeAt root1 parent = Some parentElement
      ∧ toLong (Dom.attribute parentElement "partID")
        = Connectors.attachedToID connectorItem.
Proof.
  intros Hfound.
  destruct (findConnectorItem_registered _ _ _ _ _ Hfound) as [_ HsvgId].
  destruct (findConnectorItem_part _ _ _ _ _ Hfound)
    as (parent & parentElement & Hparent & Hnode & _ & Hvalues).
  apply elem_of_valuesOf, elem_of_collect in Hvalues
    as [Hin|(Hkey & Hscene & Hpath & Hradius)]; [by apply elem_of_nil in Hin|].
  split_and!; [done..|]. by exists parent, parentElement.
Qed.

Lemma donut_connector_belongs_to_the_part_witness :
  Connectors.svgId Sample.padConnector = "connector0pin"
  ∧ ∃ parent parentElement,
      parent ∈ Dom.ancestry [0] ∧ Dom.nodeAt Sample.donutDocument parent = Some parentElement
      ∧ toLong (QtNumbers := Sample.plainNumbers) (Dom.attribute parentElement "partID")
        = Connectors.attachedToID Sample.padConnector.
Proof.
  destruct (donut_connector_belongs_to_the_part (numbers := Sample.plainNumbers)
              Sample.donutDocument [Connectors.ConnectorGraphics Sample.padConnector]
              "connector0pin" (Dom.ancestry [0]) Sample.padConnector)
    as (_ & _ & _ & HsvgId & Hpart).
  - vm_compute. reflexivity.
  - split; [exact HsvgId | exact Hpart].
Defined.

Section DonutEdgeFacts.
Import Dom Connectors Donuts.
Context {numbers : QtNumbers} {graphics : GraphicsUtils}.
Variable boundsOnElement : QDomElement → string → Geometry.QRectF.

Local Abbreviation handlePath := (Donuts.handlePath boundsOnElement).
Local Abbreviation handlePaths := (Donuts.handlePaths boundsOnElement).

Lemma handlePaths_unregistered treatAsCircle root1 fuel :
  (∀ path pathElement,
     path ∈ elementsByTagName root1 "path" → nodeAt root1 path = Some pathElement →
     attribute pathElement "id" = "" ∨ attribute pathElement "id" ∉ ids treatAsCircle) →
  ∀ n, length (elementsByTagName root1 "path") - n < fuel →
       handlePaths fuel n root1 treatAsCircle = Returns root1.
Proof.
  intros Hunregistered. induction fuel as [|fuel IH]; intros n Hfuel; [lia|]. simpl.
  destruct (elementsByTagName root1 "path" !! n) as [path|] eqn:Hpath; [|done].
  assert (handlePath root1 treatAsCircle path = root1) as ->.
  { unfold Donuts.handlePath.
    destruct (nodeAt root1 path) as [pathElement|] eqn:Hnode; [|done].
    destruct (Hunregistered path pathElement) as [Hid|Hid];
      [by eapply list_elem_of_lookup_2 | done | |].
    - by rewrite Hid.
    - destruct (QStr.isEmpty _); [done|]. by rewrite bool_decide_eq_false_2. }
  apply IH. apply lookup_lt_Some in Hpath. lia.
Qed.

Lemma handlePaths_count treatAsCircle fuel :
  ∀ n root1 root',
    handlePaths fuel n root1 treatAsCircle = Returns root' →
    countTag "path" root' = countTag "path" root1.
Proof.
  induction fuel as [|fuel IH]; intros n root1 root'; simpl; [done|].
  destruct (elementsByTagName root1 "path" !! n) as [path|]; [|by intros [= <-]].
  intros Hrest%IH. by rewrite Hrest, countTag_handlePath.
Qed.

End DonutEdgeFacts.

(** X16: [handleDonuts] gives the document back as it is when the
    TreatAsCircle set is empty (so for the silkscreen, mask and paste mask
    layers), and also when no path of the document has an id that is the
    svg id of a connector of the set. *)
Theorem handleDonuts_leaves_other_paths {numbers : QtNumbers} {graphics : GraphicsUtils}
    (boundsOnElement : Dom.QDomElement → string → Geometry.QRectF)
    (root1 : Dom.QDomElement) (treatAsCircle : Connectors.TreatAsCircle) :
  (∀ fuel, Donuts.handleDonuts boundsOnElement fuel root1 [] = Returns root1)
  ∧ ((∀ path pathElement,
        path ∈ Dom.elementsByTagName root1 "path" → Dom.nodeAt root1 path = Some pathElement →
        Dom.attribute pathElement "id" = ""
        ∨ Dom.attribute pathElement "id" ∉ Donuts.ids treatAsCircle) →
     ∀ fuel, Dom.countTag "path" root1 < fuel →
             Donuts.handleDonuts boundsOnElement fuel root1 treatAsCircle = Returns root1).
Proof.
  split; [done|]. intros Hunregistered fuel Hfuel. unfold Donuts.handleDonuts.
  destruct treatAsCircle as [|entry entries] eqn:Hset; [done|]. rewrite <- Hset in *.
  apply handlePaths_unregistered; [done|]. rewrite length_elementsByTagName. lia.
Qed.

(** X17: [handleDonuts] neither removes nor adds a path element: the
    path of a donut stays in the document, beside the circle that is made
    for it. *)
Theorem handleDonuts_keeps_every_path {numbers : QtNumbers} {graphics : GraphicsUtils}
    (boundsOnElement : Dom.QDomElement → string → Geometry.QRectF) (fuel : nat)
    (root1 root' : Dom.QDomElement) (treatAsCircle : Connectors.TreatAsCircle) :
  Donuts.handleDonuts boundsOnElement fuel root1 treatAsCircle = Returns root' →
  Dom.countTag "path" root' = Dom.countTag "path" root1.
Proof.
  unfold Donuts.handleDonuts. destruct treatAsCircle as [|entry entries].
  - by intros [= <-].
  - apply handlePaths_count.
Qed.

Lemma handleDonuts_keeps_every_path_witness :
  ∃ root',
    Donuts.handleDonuts (numbers := Sample.plainNumbers) (graphics := Sample.fritzingDPI)
      (Sample.boxRenderer Sample.padBox) 5 Sample.donutDocument
      [(7%Z, Sample.padConnector)] = Returns root'
    ∧ Dom.countTag "circle" root' = 1
    ∧ Dom.countTag "path" root' = Dom.countTag "path" Sample.donutDocument.
Proof.
  eexists. split; [vm_compute; reflexivity|]. split; [vm_compute; reflexivity|].
  apply (handleDonuts_keeps_every_path (numbers := Sample.plainNumbers)
           (graphics := Sample.fritzingDPI) (Sample.boxRenderer Sample.padBox) 5
           Sample.donutDocument _ [(7%Z, Sample.padConnector)]).
  vm_compute. reflexivity.
Defined.

(** ** The donuts: every registered path gets its circle *)

Section ItemFacts.
Import QStr Dom Connectors Geometry Donuts DonutTurns.

Lemma childItems_app sub pids cs cs' :
  childItems sub pids (cs ++ cs') = childItems sub pids cs ++ childItems sub pids cs'.
Proof.
  induction cs as [|c cs IH]; simpl; [done|]. by rewrite IH, <- !app_assoc.
Qed.

Lemma childAddrs_app sub i cs cs' :
  childAddrs sub i (cs ++ cs') = childAddrs sub i cs ++ childAddrs sub (i + length cs) cs'.
Proof.
  revert i. induction cs as [|c cs IH]; intros i; simpl.
  - by rewrite Nat.add_0_r.
  - replace (i + S (length cs)) with (S i + length cs) by lia.
    by rewrite IH, <- !app_assoc.
Qed.

(** The items of a document are the items at its addresses, in the order
    of [descendants]. *)
Lemma items_descendants e :
  ∀ pids, Forall2 (itemAt e pids) (descendants e) (items pids e).
Proof.
  induction e as [t m cs IH] using QDomElement_children_ind. intros pids. simpl.
  set (pids' := default "" (m !! "partID") :: pids).
  assert (∀ pre,
            Forall2 (itemAt (Element t m (pre ++ cs)) pids)
                    (childAddrs descendants (length pre) cs)
                    (childItems items pids' cs)) as Hgen; [|apply (Hgen [])].
  induction cs as [|c cs IHcs]; intros pre; simpl; [constructor|].
  apply Forall_cons in IH as [IHc IHrest].
  constructor; [|apply Forall2_app].
  - exists c. simpl. rewrite list_lookup_middle by done. simpl. done.
  - apply Forall2_fmap_l. eapply Forall2_impl; [apply (IHc pids')|].
    intros a item (x & Hx & ->). exists x. simpl.
    rewrite list_lookup_middle by done. simpl. split; [done|].
    by rewrite <- app_assoc.
  - specialize (IHcs IHrest (pre ++ [c])).
    rewrite <- app_assoc, length_app in IHcs. simpl in IHcs.
    by rewrite Nat.add_1_r in IHcs.
Qed.

Lemma itemAt_lookup e k a :
  descendants e !! k = Some a →
  ∃ x, nodeAt e a = Some x ∧ items [] e !! k = Some (tagName x, attributes x, pidsAt e a).
Proof.
  intros Ha. pose proof (items_descendants e []) as Haligned.
  destruct (Forall2_lookup_l _ _ _ _ _ Haligned Ha) as (item & Hitem & x & Hx & ->).
  exists x. by rewrite app_nil_r in Hitem.
Qed.

Lemma item_lookup e k item :
  items [] e !! k = Some item →
  ∃ a x, descendants e !! k = Some a ∧ nodeAt e a = Some x
         ∧ item = (tagName x, attributes x, pidsAt e a).
Proof.
  intros Hitem. pose proof (items_descendants e []) as Haligned.
  destruct (Forall2_lookup_r _ _ _ _ _ Haligned Hitem) as (a & Ha & x & Hx & ->).
  exists a, x. by rewrite app_nil_r.
Qed.

End ItemFacts.

Section WalkFacts.
Import QStr Dom Connectors Geometry Donuts DonutTurns.
Context {numbers : QtNumbers}.

(** The walk up the parents reads their [partID] attributes only. *)
Lemma findConnectorItem_walk root1 treatAsCircle id parents pids :
  Forall2 (λ parent pid, ∃ e, nodeAt root1 parent = Some e ∧ attribute e "partID" = pid)
          parents pids →
  findConnectorItem root1 treatAsCircle id parents = findByPartIDs treatAsCircle id pids.
Proof.
  induction 1 as [|parent pid parents pids (e & He & Hpid) _ IH]; simpl; [done|].
  rewrite He, Hpid, IH. destruct (isEmpty pid); [done|].
  by destruct (valuesOf _ _).
Qed.

Lemma parents_pidsAt e a x :
  a ≠ [] → nodeAt e a = Some x →
  Forall2 (λ parent pid, ∃ p, nodeAt e parent = Some p ∧ attribute p "partID" = pid)
          (ancestry (parentNode a)) (pidsAt e a).
Proof.
  revert e. induction a as [|i a IH]; intros e Hne Hx; [done|].
  cbn [nodeAt pidsAt] in Hx |- *.
  destruct (childNodes e !! i) as [c|] eqn:Hc; [|done]. simpl in Hx.
  destruct a as [|j a'].
  - simpl. unfold ancestry. simpl. constructor; [|constructor]. by exists e.
  - change (parentNode (i :: j :: a')) with (i :: parentNode (j :: a')).
    unfold ancestry. cbn [prefixes]. rewrite reverse_cons, <- fmap_reverse.
    apply Forall2_app; [|constructor; [by exists e | constructor]].
    apply Forall2_fmap_l. eapply Forall2_impl; [by apply (IH c)|].
    intros parent pid (p & Hp & Hpid). exists p. simpl. by rewrite Hc.
Qed.

Lemma findConnectorItem_pidsAt root1 treatAsCircle id a x :
  a ≠ [] → nodeAt root1 a = Some x →
  findConnectorItem root1 treatAsCircle id (ancestry (parentNode a))
  = findByPartIDs treatAsCircle id (pidsAt root1 a).
Proof. intros Hne Hx. by eapply findConnectorItem_walk, parents_pidsAt. Qed.

End WalkFacts.

Section SpliceFacts.
Import QStr Dom Connectors Geometry Donuts DonutTurns.
Context {numbers : QtNumbers} {graphics : GraphicsUtils}.
Variable boundsOnElement : QDomElement → string → QRectF.

Lemma modify_ext_at f g a root :
  (∀ x, nodeAt root a = Some x → f x = g x) → modify f a root = modify g a root.
Proof.
  revert root. induction a as [|i a IH]; intros root Hfg; simpl; [by apply Hfg|].
  f_equal. apply list_alter_ext; [|done]. intros c Hc. apply IH.
  intros x Hx. apply Hfg. simpl. by rewrite Hc.
Qed.

(** Lines 1148-1162 as one change of the parent of the path. *)
Lemma makeCircle_circleBefore root1 q i id connectorItem pathElement :
  nodeAt root1 (q ++ [i]) = Some pathElement →
  makeCircle boundsOnElement root1 q i id connectorItem
  = modify
      (circleBefore
         (Element "circle"
            (circleAttributes id
               (boundsOnElement (modify (setAttribute "id" unique) (q ++ [i]) root1) unique)
               connectorItem) [])
         i)
      q root1.
Proof.
  intros Hpath. unfold makeCircle. cbv zeta.
  rewrite !modify_snoc, !modify_modify.
  apply modify_ext_at. intros parent Hparent.
  rewrite nodeAt_app, Hparent in Hpath. simpl in Hpath.
  destruct (childNodes parent !! i) as [c|] eqn:Hc; simplify_eq/=.
  destruct parent as [tg m cs]. simpl in Hc.
  apply list_elem_of_split_length in Hc as (l1 & l2 & -> & ->).
  unfold circleBefore, alterChild, insertBefore, compose. simpl. f_equal.
  assert (∀ f, alter f (length l1) (l1 ++ pathElement :: l2) = l1 ++ f pathElement :: l2)
    as Halter.
  { intros f. by rewrite <- (Nat.add_0_r (length l1)), alter_app_r. }
  assert (∀ x, drop (S (length l1)) (l1 ++ x :: l2) = l2) as Hdrop.
  { intros x. by rewrite (cons_middle x l1 l2), app_assoc, drop_app_length'
      by (rewrite length_app; simpl; lia). }
  rewrite ?Halter, !take_app_length, !drop_app_length, ?Hdrop.
  assert (∀ f x l, alter f (length l1) (l1 ++ x :: l) = l1 ++ f x :: l) as Halter'.
  { intros f x l. by rewrite <- (Nat.add_0_r (length l1)), alter_app_r. }
  rewrite !Halter'. simpl.
  destruct pathElement as [tp mp cp]. unfold setAttribute, removeAttribute. simpl.
  rewrite delete_insert_eq, !take_app_length, !drop_app_length, !Halter'. done.
Qed.

End SpliceFacts.

Section TurnFacts.
Import QStr Dom Connectors Geometry Donuts DonutTurns.
Context {numbers : QtNumbers} {graphics : GraphicsUtils}.
Variable boundsOnElement : QDomElement → string → QRectF.

Lemma length_childItems pids i cs :
  length (childItems items pids cs) = length (childAddrs descendants i cs).
Proof.
  revert i. induction cs as [|c cs IH]; intros i; [done|].
  cbn [childItems childAddrs length app]. rewrite !length_app, length_fmap.
  f_equal. f_equal; [|apply IH].
  symmetry. exact (Forall2_length _ _ _ (items_descendants c pids)).
Qed.

Lemma modify_keeps f a e :
  (∀ x, tagName (f x) = tagName x ∧ attributes (f x) = attributes x) →
  tagName (modify f a e) = tagName e ∧ attributes (modify f a e) = attributes e.
Proof. intros Hf. destruct a; simpl; [apply Hf | done]. Qed.

Lemma items_removeAttribute_id pids e :
  items pids (removeAttribute "id" e) = items pids e.
Proof. destruct e as [t m cs]. simpl. by rewrite lookup_delete_ne. Qed.

(** The elements of the document, before and after the circle is put
    before the path at [q ++ [i]]. *)
Lemma items_circleBefore root1 q i pathElement :
  ∀ pids,
  nodeAt root1 (q ++ [i]) = Some pathElement →
  ∃ I1 I2,
    items pids root1
    = I1 ++ (tagName pathElement, attributes pathElement, pidsAt root1 (q ++ [i]) ++ pids) :: I2
    ∧ descendants root1 !! length I1 = Some (q ++ [i])
    ∧ ∀ circleAttrs,
        items pids (modify (circleBefore (Element "circle" circleAttrs []) i) q root1)
        = I1 ++ ("circle", circleAttrs, pidsAt root1 (q ++ [i]) ++ pids)
             :: (tagName pathElement, delete "id" (attributes pathElement),
                 pidsAt root1 (q ++ [i]) ++ pids) :: I2.
Proof.
  revert root1. induction q as [|j q IH]; intros [t m cs] pids Hpath.
  - simpl in Hpath. destruct (cs !! i) as [c|] eqn:Hc; simplify_eq/=.
    apply list_elem_of_split_length in Hc as (l1 & l2 & -> & ->).
    set (pids' := default "" (m !! "partID") :: pids).
    exists (childItems items pids' l1), (items pids' pathElement ++ childItems items pids' l2).
    rewrite list_lookup_middle by done. simpl.
    split; [by rewrite childItems_app|]. split.
    + rewrite childAddrs_app. simpl.
      by apply list_lookup_middle, length_childItems.
    + intros circleAttrs. unfold circleBefore. simpl.
      rewrite take_app_length, drop_app_length. simpl.
      replace (drop (S (length l1)) (l1 ++ pathElement :: l2)) with l2.
      2:{ by rewrite (cons_middle pathElement l1 l2), app_assoc, drop_app_length'
            by (rewrite length_app; simpl; lia). }
      rewrite childItems_app. cbn [childItems app]. rewrite items_removeAttribute_id.
      by destruct pathElement.
  - simpl in Hpath. destruct (cs !! j) as [c|] eqn:Hc; simplify_eq/=.
    apply list_elem_of_split_length in Hc as (l1 & l2 & -> & ->).
    set (pids' := default "" (m !! "partID") :: pids).
    destruct (IH c pids' Hpath) as (J1 & J2 & Hitems & Hindex & Hafter).
    rewrite list_lookup_middle by done.
    exists (childItems items pids' l1 ++ (tagName c, attributes c, pids') :: J1),
           (J2 ++ childItems items pids' l2).
    unfold attribute. simpl.
    split; [|split].
    + rewrite childItems_app. cbn [childItems]. rewrite Hitems.
      unfold pids'. by repeat first [rewrite <- app_assoc | progress cbn [app]].
    + rewrite childAddrs_app. simpl.
      rewrite length_app, (length_childItems pids' 0 l1). simpl.
      generalize (childAddrs descendants 0 l1). intros A.
      rewrite lookup_app_r by apply Nat.le_add_r.
      rewrite Nat.add_comm, Nat.add_sub, lookup_cons_ne_0 by done. cbn [pred].
      rewrite lookup_app_l.
      2:{ rewrite length_fmap. by eapply lookup_lt_Some. }
      rewrite list_lookup_fmap. exact (f_equal (fmap (cons (length l1))) Hindex).
    + intros circleAttrs.
      rewrite <- (Nat.add_0_r (length l1)), alter_app_r. simpl.
      rewrite childItems_app. simpl.
      destruct (modify_keeps (circleBefore (Element "circle" circleAttrs []) i) q c)
        as [-> ->]; [by intros []|].
      rewrite Hafter. unfold pids'.
      by repeat first [rewrite <- app_assoc | progress cbn [app]].
Qed.

(** The place of an element among the elements with its tag. *)
Lemma filter_lookup_take {A} (P : A → Prop) `{∀ x, Decision (P x)} (l : list A) n k a :
  NoDup l → filter P l !! n = Some a → l !! k = Some a →
  length (filter P (take k l)) = n.
Proof.
  intros Hnodup Hn Hk.
  assert (P a) as Ha.
  { apply list_elem_of_lookup_2 in Hn. by apply list_elem_of_filter in Hn as []. }
  apply list_elem_of_split_length in Hk as (l1 & l2 & -> & ->).
  rewrite take_app_length.
  eapply NoDup_lookup; [by apply (NoDup_filter P), Hnodup| |exact Hn].
  rewrite filter_app, filter_cons_True by done. by apply list_lookup_middle.
Qed.

Lemma paths_aligned doc (l : list Addr) (l' : list Item) :
  Forall2 (itemAt doc []) l l' →
  length (filter isPath l') = length (filter (λ a, tagAt doc a = Some "path") l).
Proof.
  intros Haligned. symmetry. eapply Forall2_length, Forall2_filter; [|exact Haligned].
  intros a item (x & Hx & ->). unfold isPath, tagAt. rewrite Hx. simpl.
  split; congruence.
Qed.

(** One turn of the loop, on the elements of the document. *)
Lemma items_handlePath doc treatAsCircle n path :
  elementsByTagName doc "path" !! n = Some path →
  ∃ I1 item I2,
    items [] doc = I1 ++ item :: I2 ∧ isPath item ∧ length (filter isPath I1) = n
    ∧ itemAt doc [] path item
    ∧ items [] (handlePath boundsOnElement doc treatAsCircle path)
      = I1 ++ turnItems treatAsCircle
                (boundsOnElement (modify (setAttribute "id" unique) path doc) unique) item
           ++ I2.
Proof.
  intros Hn.
  pose proof (list_elem_of_lookup_2 _ _ _ Hn) as Hin.
  apply elem_of_elementsByTagName in Hin as (Hne & x & Hx & Htag).
  destruct (parentNode_snoc path Hne) as (i & Hsnoc).
  assert (List.last path 0 = i) as Hlast by (rewrite Hsnoc; apply last_last).
  set (q := parentNode path) in *.
  rewrite Hsnoc in Hx.
  destruct (items_circleBefore doc q i x [] Hx) as (I1 & I2 & Hitems & Hindex & Hafter).
  rewrite <- Hsnoc in Hx, Hitems, Hindex, Hafter.
  rewrite app_nil_r in Hitems.
  exists I1, (tagName x, attributes x, pidsAt doc path), I2.
  split; [done|]. split; [done|].
  split; [|split; [exists x; by rewrite app_nil_r|]].
  - unfold elementsByTagName in Hn.
    rewrite <- (filter_lookup_take _ _ _ _ _ (NoDup_descendants doc) Hn Hindex).
    rewrite <- (paths_aligned doc (take (length I1) (descendants doc))
                              (take (length I1) (items [] doc))).
    + by rewrite Hitems, take_app_length.
    + apply Forall2_take, items_descendants.
  - unfold handlePath, turnItems. rewrite Hx. cbn [fst snd].
    fold (attribute x "id").
    destruct (isEmpty (attribute x "id")); [done|].
    destruct (negb _); [done|].
    rewrite (findConnectorItem_pidsAt doc treatAsCircle _ path x Hne Hx).
    destruct (findByPartIDs _ _ _) as [connectorItem|]; [|done].
    fold q. rewrite Hlast.
    rewrite (makeCircle_circleBefore boundsOnElement doc q i _ connectorItem x)
      by (by rewrite <- Hsnoc).
    rewrite <- Hsnoc. specialize (Hafter (circleAttributes (attribute x "id")
      (boundsOnElement (modify (setAttribute "id" unique) path doc) unique) connectorItem)).
    rewrite app_nil_r in Hafter. exact Hafter.
Qed.

End TurnFacts.

Section LoopFacts.
Import QStr Dom Connectors Geometry Donuts DonutTurns.
Context {numbers : QtNumbers} {graphics : GraphicsUtils}.
Variable boundsOnElement : QDomElement → string → QRectF.
Variable treatAsCircle : TreatAsCircle.
Variable bounds : nat → QRectF.

Local Abbreviation pathsIn l := (length (filter isPath l)).

Lemma convertFirst_none n l : convertFirst bounds treatAsCircle 0 n l = l.
Proof.
  induction l as [|item l IH]; simpl; [done|].
  destruct (decide (isPath item)); [done|]. by rewrite IH.
Qed.

(** A turn leaves one path where it finds one. *)
Lemma pathsIn_turnItems box item :
  isPath item → pathsIn (turnItems treatAsCircle box item) = 1.
Proof.
  intros Hpath. unfold turnItems.
  assert (pathsIn [item] = 1) as Hsame by (by rewrite filter_cons_True).
  destruct (isEmpty _); [done|]. destruct (negb _); [done|].
  destruct (findByPartIDs _ _ _); [|done].
  rewrite filter_cons_False by (unfold isPath; simpl; discriminate).
  by rewrite filter_cons_True.
Qed.

Lemma pathsIn_convertFirst todo n l :
  pathsIn (convertFirst bounds treatAsCircle todo n l) = pathsIn l.
Proof.
  revert todo n. induction l as [|item l IH]; intros todo n; simpl; [done|].
  destruct (decide (isPath item)) as [Hpath|Hother].
  - destruct todo as [|todo]; [done|].
    rewrite filter_app, length_app, pathsIn_turnItems, IH by done.
    by rewrite filter_cons_True.
  - by rewrite !filter_cons_False, IH.
Qed.

Lemma convertFirst_all todo n l :
  pathsIn l ≤ todo →
  convertFirst bounds treatAsCircle todo n l = convert bounds treatAsCircle n l.
Proof.
  revert todo n. induction l as [|item l IH]; intros todo n Hall; simpl; [done|].
  destruct (decide (isPath item)) as [Hpath|Hother].
  - rewrite filter_cons_True in Hall by done. simpl in Hall.
    destruct todo as [|todo]; [lia|]. rewrite IH by lia. done.
  - rewrite filter_cons_False in Hall by done. by rewrite IH.
Qed.

Lemma convert_app n l1 l2 :
  convert bounds treatAsCircle n (l1 ++ l2)
  = convert bounds treatAsCircle n l1 ++ convert bounds treatAsCircle (n + pathsIn l1) l2.
Proof.
  revert n. induction l1 as [|item l1 IH]; intros n; simpl.
  - by rewrite Nat.add_0_r.
  - destruct (decide (isPath item)) as [Hpath|Hother].
    + rewrite filter_cons_True by done. simpl.
      rewrite IH, <- app_assoc. do 3 f_equal. lia.
    + rewrite filter_cons_False by done. by rewrite IH.
Qed.

Lemma pathsIn_convert n l : pathsIn (convert bounds treatAsCircle n l) = pathsIn l.
Proof.
  rewrite <- (convertFirst_all (pathsIn l)) by done. apply pathsIn_convertFirst.
Qed.

Lemma convertFirst_app n l1 l2 :
  convertFirst bounds treatAsCircle (pathsIn l1) n (l1 ++ l2)
  = convert bounds treatAsCircle n l1 ++ l2.
Proof.
  revert n. induction l1 as [|item l1 IH]; intros n; simpl.
  - apply convertFirst_none.
  - destruct (decide (isPath item)) as [Hpath|Hother].
    + rewrite filter_cons_True by done. simpl. by rewrite IH, <- app_assoc.
    + rewrite filter_cons_False by done. by rewrite IH.
Qed.

(** The next turn changes the first path the loop has not dealt with. *)
Lemma convertFirst_next l :
  ∀ todo n I1 item I2,
  convertFirst bounds treatAsCircle todo n l = I1 ++ item :: I2 →
  isPath item → pathsIn I1 = todo →
  convertFirst bounds treatAsCircle (S todo) n l
  = I1 ++ turnItems treatAsCircle (bounds (n + todo)) item ++ I2.
Proof.
  induction l as [|x l IH]; intros todo n I1 item I2 Hsplit Hpath Hcount.
  { by destruct I1. }
  simpl in Hsplit |- *. destruct (decide (isPath x)) as [Hx|Hx].
  - destruct todo as [|todo].
    + destruct I1 as [|y I1].
      * simplify_eq/=. by rewrite convertFirst_none, Nat.add_0_r.
      * simplify_eq/=. by rewrite filter_cons_True in Hcount.
    + pose proof (pathsIn_turnItems (bounds n) x Hx) as Hone.
      assert (∃ further, I1 = turnItems treatAsCircle (bounds n) x ++ further
                ∧ convertFirst bounds treatAsCircle todo (S n) l = further ++ item :: I2)
        as (further & -> & Hrest).
      { apply app_eq_inv in Hsplit as [(k & Hturn & Hrest)|(k & Hturn & Hrest)];
          [|by exists k].
        rewrite Hturn, filter_app, length_app, Hcount in Hone.
        destruct k as [|y k].
        - exists []. rewrite app_nil_r in Hturn. by rewrite Hturn, app_nil_r.
        - simplify_eq/=. rewrite filter_cons_True in Hone by done. simpl in Hone. lia. }
      rewrite filter_app, length_app, Hone in Hcount.
      simpl in Hcount. injection Hcount as Hfurther.
      rewrite (IH todo (S n) further item I2 Hrest Hpath Hfurther).
      replace (n + S todo) with (S n + todo) by (clear; lia).
      by rewrite <- !app_assoc.
  - destruct I1 as [|y I1]; [by injection Hsplit as -> _|].
    injection Hsplit as -> Hrest. rewrite filter_cons_False in Hcount by done.
    by rewrite (IH todo n I1 item I2 Hrest Hpath Hcount).
Qed.

End LoopFacts.

Section DonutResult.
Import QStr Dom Connectors Geometry Donuts DonutTurns.
Context {numbers : QtNumbers} {graphics : GraphicsUtils}.
Variable boundsOnElement : QDomElement → string → QRectF.
Variable root1 : QDomElement.
Variable treatAsCircle : TreatAsCircle.

Local Abbreviation pathsIn l := (length (filter isPath l)).
Local Abbreviation turns n := (afterTurns boundsOnElement n root1 treatAsCircle).
Local Abbreviation boxes := (boundsAt boundsOnElement root1 treatAsCircle).

Lemma countTag_afterTurns n : countTag "path" (turns n) = countTag "path" root1.
Proof.
  induction n as [|n IH]; simpl; [done|].
  destruct (elementsByTagName _ _ !! n); [|done].
  by rewrite countTag_handlePath.
Qed.

Lemma pathsIn_items doc : pathsIn (items [] doc) = countTag "path" doc.
Proof.
  rewrite <- length_elementsByTagName. apply paths_aligned, items_descendants.
Qed.

(** The elements of the document after [n] turns. *)
Lemma items_afterTurns n :
  items [] (turns n) = convertFirst boxes treatAsCircle n 0 (items [] root1).
Proof.
  induction n as [|n IH]; [by rewrite convertFirst_none|].
  cbn [afterTurns].
  destruct (elementsByTagName (turns n) "path" !! n) as [path|] eqn:Hn.
  - destruct (items_handlePath boundsOnElement (turns n) treatAsCircle n path Hn)
      as (I1 & item & I2 & Hitems & Hpath & Hcount & _ & ->).
    rewrite IH in Hitems.
    rewrite (convertFirst_next treatAsCircle boxes _ n 0 I1 item I2 Hitems Hpath Hcount).
    change (0 + n) with n. unfold boundsAt. cbv zeta. by rewrite Hn.
  - apply lookup_ge_None in Hn.
    rewrite length_elementsByTagName, countTag_afterTurns, <- pathsIn_items in Hn.
    rewrite IH, !convertFirst_all by lia. done.
Qed.

(** From turn [n] on, the loop makes the turns that are left. *)
Lemma handlePaths_afterTurns fuel :
  ∀ n, n ≤ countTag "path" root1 → countTag "path" root1 - n < fuel →
  handlePaths boundsOnElement fuel n (turns n) treatAsCircle
  = Returns (turns (countTag "path" root1)).
Proof.
  induction fuel as [|fuel IH]; intros n Hn Hfuel; [lia|].
  cbn [handlePaths].
  destruct (elementsByTagName (turns n) "path" !! n) as [path|] eqn:Hpath.
  - pose proof (lookup_lt_Some _ _ _ Hpath) as Hlt.
    rewrite length_elementsByTagName, countTag_afterTurns in Hlt.
    rewrite <- (IH (S n)) by lia. cbn [afterTurns]. by rewrite Hpath.
  - apply lookup_ge_None in Hpath.
    rewrite length_elementsByTagName, countTag_afterTurns in Hpath.
    by replace n with (countTag "path" root1) by lia.
Qed.

(** What [handleDonuts] returns, element by element. *)
Lemma items_handleDonuts fuel :
  treatAsCircle ≠ [] → countTag "path" root1 < fuel →
  handleDonuts boundsOnElement fuel root1 treatAsCircle
  = Returns (turns (countTag "path" root1))
  ∧ items [] (turns (countTag "path" root1))
    = convert boxes treatAsCircle 0 (items [] root1).
Proof.
  intros Hsome Hfuel. split.
  - unfold handleDonuts. destruct treatAsCircle as [|entry hash] eqn:Hhash; [done|].
    rewrite <- Hhash. apply (handlePaths_afterTurns fuel 0); lia.
  - rewrite items_afterTurns, convertFirst_all; [done|]. by rewrite pathsIn_items.
Qed.

(** An element of the document by its place among the elements. *)
Lemma item_place doc I1 item I2 :
  items [] doc = I1 ++ item :: I2 →
  ∃ a x, descendants doc !! length I1 = Some a ∧ nodeAt doc a = Some x
         ∧ tagName x = item.1.1 ∧ attributes x = item.1.2 ∧ pidsAt doc a = item.2
         ∧ (isPath item → elementsByTagName doc "path" !! pathsIn I1 = Some a).
Proof.
  intros Hitems.
  assert (items [] doc !! length I1 = Some item) as Hitem
    by (rewrite Hitems; by apply list_lookup_middle).
  destruct (item_lookup doc _ item Hitem) as (a & x & Ha & Hx & ->).
  exists a, x. split_and!; [done..|]. intros Hpath.
  pose proof (Forall2_take _ _ _ (length I1) (items_descendants doc [])) as Haligned.
  apply paths_aligned in Haligned.
  rewrite Hitems, take_app_length in Haligned. rewrite Haligned.
  unfold elementsByTagName.
  apply list_elem_of_split_length in Ha as (l1 & l2 & Hsplit & Hlen).
  rewrite Hsplit, Hlen, take_app_length, filter_app.
  rewrite filter_cons_True by (unfold tagAt; rewrite Hx; simpl; by f_equal).
  by apply list_lookup_middle.
Qed.

End DonutResult.

Section DonutCircle.
Import QStr Dom Connectors Geometry Donuts DonutTurns.
Context {numbers : QtNumbers} {graphics : GraphicsUtils}.

Lemma turnItems_found treatAsCircle box item connectorItem :
  let id := default "" (item.1.2 !! "id") in
  id ≠ "" → connectorItem ∈ values treatAsCircle → svgId connectorItem = id →
  findByPartIDs treatAsCircle id item.2 = Some connectorItem →
  turnItems treatAsCircle box item
  = [("circle", circleAttributes id box connectorItem, item.2);
     (item.1.1, delete "id" item.1.2, item.2)].
Proof.
  intros id Hid Hregistered HsvgId Hfound. unfold turnItems. fold id.
  destruct id as [|c rest] eqn:Hidv; [done|]. cbn [isEmpty].
  rewrite bool_decide_eq_true_2; [by rewrite Hfound|].
  unfold ids. apply list_elem_of_fmap. by exists connectorItem.
Qed.

Lemma attribute_circleAttributes id box connectorItem circle :
  attributes circle = circleAttributes id box connectorItem →
  attribute circle "id" = id
  ∧ attribute circle "cx" = number (px (center box))
  ∧ attribute circle "cy" = number (py (center box))
  ∧ attribute circle "r" = number (radius connectorItem * StandardFritzingDPI / SVGDPI)%Q
  ∧ attribute circle "stroke-width"
    = number (strokeWidth connectorItem * StandardFritzingDPI / SVGDPI)%Q.
Proof.
  intros Hattrs. unfold attribute. rewrite Hattrs. unfold circleAttributes.
  split_and!; by simplify_map_eq.
Qed.

End DonutCircle.

(** C1 (as amended): [handleDonuts] run on a document, for the path that
    is number [n] among its paths, whose id is not empty and for which the
    walk up its parents finds a connector of the TreatAsCircle set.  The
    connector is one registered in the set with the id of the path.  The
    loop returns, and in the document it returns the path is still path
    number [n], now without its id, and the element directly before it in
    document order is a circle that carries that id, as [r] and
    [stroke-width] the connector's radius and stroke width multiplied by
    StandardFritzingDPI / SVGDPI (rescaled from pixels to the resolution
    of the document, not handed through), and as [cx] and [cy] the centre
    of the bounding box the renderer reports for the path: in the document
    as the loop has it when it comes to the path ([during], from which
    the rest of the loop gives that same result), where the path, with
    the attributes it came with, is path number [n] and carries the unique
    id for the renderer. *)
Theorem donut_circle_is_rescaled {numbers : QtNumbers} {graphics : GraphicsUtils}
    (boundsOnElement : Dom.QDomElement → string → Geometry.QRectF)
    (root1 : Dom.QDomElement) (treatAsCircle : Connectors.TreatAsCircle)
    (fuel n : nat) (path : Dom.Addr) (pathElement : Dom.QDomElement)
    (connectorItem : Connectors.ConnectorItem) :
  let id := Dom.attribute pathElement "id" in
  Dom.elementsByTagName root1 "path" !! n = Some path →
  Dom.nodeAt root1 path = Some pathElement →
  id ≠ "" →
  Donuts.findConnectorItem root1 treatAsCircle id (Dom.ancestry (Dom.parentNode path))
  = Some connectorItem →
  Dom.countTag "path" root1 < fuel →
  connectorItem ∈ Connectors.values treatAsCircle
  ∧ Connectors.svgId connectorItem = id
  ∧ ∃ root' place circleAddr pathAddr circle moved k,
      Donuts.handleDonuts boundsOnElement fuel root1 treatAsCircle = Returns root'
      ∧ (let during := DonutTurns.afterTurns boundsOnElement n root1 treatAsCircle in
         let bounds :=
           boundsOnElement (Dom.modify (Dom.setAttribute "id" Donuts.unique) place during)
                           Donuts.unique in
         Donuts.handlePaths boundsOnElement (fuel - n) n during treatAsCircle = Returns root'
         ∧ Dom.elementsByTagName during "path" !! n = Some place
         ∧ (∃ x, Dom.nodeAt during place = Some x ∧ Dom.tagName x = "path"
                 ∧ Dom.attributes x = Dom.attributes pathElement)
         ∧ Dom.attribute circle "cx" = number (Geometry.px (Geometry.center bounds))
         ∧ Dom.attribute circle "cy" = number (Geometry.py (Geometry.center bounds)))
      ∧ Dom.descendants root' !! k = Some circleAddr
      ∧ Dom.descendants root' !! S k = Some pathAddr
      ∧ Dom.elementsByTagName root' "path" !! n = Some pathAddr
      ∧ Dom.nodeAt root' circleAddr = Some circle
      ∧ Dom.nodeAt root' pathAddr = Some moved
      ∧ Dom.tagName circle = "circle"
      ∧ Dom.attribute circle "id" = id
      ∧ Dom.attribute circle "r"
        = number (Connectors.radius connectorItem * StandardFritzingDPI / SVGDPI)%Q
      ∧ Dom.attribute circle "stroke-width"
        = number (Connectors.strokeWidth connectorItem * StandardFritzingDPI / SVGDPI)%Q
      ∧ Dom.tagName moved = "path"
      ∧ Dom.attributes moved = delete "id" (Dom.attributes pathElement).
Proof.
  intros id Hn Hpath Hid Hfound Hfuel.
  destruct (findConnectorItem_registered _ _ _ _ _ Hfound) as [Hregistered HsvgId].
  split; [done|]. split; [done|].
  assert (treatAsCircle ≠ []) as Hsome.
  { intros ->. by apply elem_of_nil in Hregistered. }
  pose proof (list_elem_of_lookup_2 _ _ _ Hn) as Hin.
  apply elem_of_elementsByTagName in Hin as (Hne & _).
  pose proof (lookup_lt_Some _ _ _ Hn) as Hlt. rewrite length_elementsByTagName in Hlt.
  destruct (items_handlePath boundsOnElement root1 treatAsCircle n path Hn)
    as (before & item & after & Hitems & HisPath & Hcount & (x & Hx & ->) & _).
  rewrite app_nil_r in *. assert (x = pathElement) as -> by congruence.
  set (item := (Dom.tagName pathElement, Dom.attributes pathElement,
                DonutTurns.pidsAt root1 path)) in *.
  set (boxes := DonutTurns.boundsAt boundsOnElement root1 treatAsCircle).
  set (total := Dom.countTag "path" root1) in *.
  set (during := DonutTurns.afterTurns boundsOnElement n root1 treatAsCircle).
  set (root' := DonutTurns.afterTurns boundsOnElement total root1 treatAsCircle).
  set (converted := DonutTurns.convert boxes treatAsCircle 0 before).
  assert (length (filter DonutTurns.isPath converted) = n) as Hconverted
    by (unfold converted; by rewrite pathsIn_convert).
  destruct (items_handleDonuts boundsOnElement root1 treatAsCircle fuel Hsome Hfuel)
    as [Hreturns Hresult].
  fold total root' boxes in Hreturns, Hresult.
  (* the document when the loop comes to the path *)
  assert (DonutTurns.items [] during = converted ++ item :: after) as Hduring.
  { unfold during. rewrite items_afterTurns, Hitems, <- Hcount. apply convertFirst_app. }
  destruct (item_place during converted item after Hduring)
    as (place & x & _ & Hplace & Htag & Hattrs & Hpids & Hnth).
  specialize (Hnth HisPath). rewrite Hconverted in Hnth.
  (* the document the loop returns *)
  rewrite Hitems, convert_app in Hresult. fold converted in Hresult.
  cbn [DonutTurns.convert] in Hresult.
  rewrite decide_True in Hresult by done.
  rewrite (turnItems_found treatAsCircle _ item connectorItem) in Hresult;
    [|done..|by rewrite <- (findConnectorItem_pidsAt root1 _ _ path pathElement)].
  cbn [app] in Hresult.
  destruct (item_place root' converted _ _ Hresult)
    as (circleAddr & circle & Hk & Hcircle & Hctag & Hcattrs & _ & _).
  rewrite (cons_middle _ converted), app_assoc in Hresult.
  destruct (item_place root' _ _ _ Hresult)
    as (pathAddr & moved & Hk' & Hmoved & Hmtag & Hmattrs & _ & Hnth').
  specialize (Hnth' HisPath).
  rewrite filter_app, filter_cons_False, filter_nil, app_nil_r, Hconverted in Hnth'
    by (unfold DonutTurns.isPath; simpl; discriminate).
  rewrite length_app, Nat.add_1_r in Hk'.
  cbn [fst snd] in *.
  apply attribute_circleAttributes in Hcattrs as (Hcid & Hcx & Hcy & Hr & Hsw).
  assert (boxes (0 + length (filter DonutTurns.isPath before))
          = boundsOnElement (Dom.modify (Dom.setAttribute "id" Donuts.unique) place during)
                            Donuts.unique) as Hbox.
  { rewrite Hcount.
    exact (f_equal
             (λ p : option Dom.Addr,
                boundsOnElement
                  (Dom.modify (Dom.setAttribute "id" Donuts.unique) (default [] p) during)
                  Donuts.unique) Hnth). }
  rewrite Hbox in Hcx, Hcy.
  exists root', place, circleAddr, pathAddr, circle, moved, (length converted).
  split; [done|]. split.
  - cbv zeta. fold during. split_and!; [|done| |done..].
    + apply handlePaths_afterTurns; unfold total in *; lia.
    + exists x. unfold DonutTurns.isPath in HisPath. subst item. cbn [fst snd] in *.
      by rewrite Htag, Hattrs.
  - unfold DonutTurns.isPath in HisPath. subst item. cbn [fst snd] in *.
    rewrite HisPath in Hmtag. split_and!; done.
Qed.

Lemma donut_circle_is_rescaled_witness :
  ∃ root' circleAddr circle,
    Donuts.handleDonuts (numbers := Sample.plainNumbers) (graphics := Sample.fritzingDPI)
      (Sample.boxRenderer Sample.padBox) 5 Sample.twoPadsDocument
      [(7%Z, Sample.secondPad); (7%Z, Sample.padConnector)] = Returns root'
    ∧ Dom.nodeAt root' circleAddr = Some circle
    ∧ Dom.attribute circle "id" = "connector1pin"
    ∧ Dom.attribute circle "cx" = "50" ∧ Dom.attribute circle "cy" = "50"
    ∧ Dom.attribute circle "r" = "100" ∧ Dom.attribute circle "stroke-width" = "50".
Proof.
  destruct (donut_circle_is_rescaled (numbers := Sample.plainNumbers)
              (graphics := Sample.fritzingDPI) (Sample.boxRenderer Sample.padBox)
              Sample.twoPadsDocument [(7%Z, Sample.secondPad); (7%Z, Sample.padConnector)]
              5 1 [0; 1]
              (Dom.Element "path"
                 (Sample.attrsOf
                    [("id", "connector1pin");
                     ("d", "M150,41a9,9 0 1 0 0.01,0z M150,45a5,5 0 1 1 -0.01,0z")]) [])
              Sample.secondPad)
    as (_ & _ & root' & place & circleAddr & pathAddr & circle & moved & k & Hreturns
        & (_ & _ & _ & Hcx & Hcy) & _ & _ & _ & Hcircle & _ & _ & Hid & Hr & Hsw & _).
  - reflexivity.
  - reflexivity.
  - vm_compute. discriminate.
  - reflexivity.
  - vm_compute. lia.
  - exists root', circleAddr, circle. split; [exact Hreturns|]. split; [exact Hcircle|].
    split_and!.
    + rewrite Hid. reflexivity.
    + rewrite Hcx. vm_compute. reflexivity.
    + rewrite Hcy. vm_compute. reflexivity.
    + rewrite Hr. vm_compute. reflexivity.
    + rewrite Hsw. vm_compute. reflexivity.
Defined.

(** ** Outlines without cutouts *)

Section SingleContourFacts.
Import Dom Contours.
Context {regex : SvgPathRegex}.

Lemma checkContours_single root paths multipleContours :
  (∀ b e, b ∈ paths → nodeAt root b = Some e → hasMultipleZs e = false) →
  checkContours root paths multipleContours true = (multipleContours, true).
Proof.
  induction paths as [|path paths IH]; intros Hsingle; simpl; [done|].
  destruct (nodeAt root path) as [pathElement|] eqn:Hnode.
  - rewrite (Hsingle path pathElement) by (done || by left). simpl.
    apply IH. intros b e Hb. apply Hsingle. by right.
  - apply IH. intros b e Hb. apply Hsingle. by right.
Qed.

Lemma checkContours_sticky root paths contoursOK :
  (checkContours root paths true contoursOK).1 = true.
Proof.
  revert contoursOK. induction paths as [|path paths IH]; intros contoursOK; simpl; [done|].
  destruct contoursOK; simpl; [|done].
  destruct (nodeAt root path) as [pathElement|]; [|done].
  by destruct (hasMultipleZs pathElement); simpl.
Qed.

Lemma checkContours_none_found root paths :
  (checkContours root paths false true).1 = false →
  ∀ b e, b ∈ paths → nodeAt root b = Some e → hasMultipleZs e = false.
Proof.
  induction paths as [|path paths IH]; simpl; intros Hnone b e Hb Hnode.
  - by apply elem_of_nil in Hb.
  - destruct (nodeAt root path) as [pathElement|] eqn:Hpath.
    + destruct (hasMultipleZs pathElement) eqn:Hmany; simpl in Hnone.
      * by rewrite checkContours_sticky in Hnone.
      * apply elem_of_cons in Hb as [->|Hb]; [congruence|by eapply IH].
    + apply elem_of_cons in Hb as [->|Hb]; [congruence|by eapply IH].
Qed.

End SingleContourFacts.

(** X18: [dealWithMultipleContours] answers false without a message
    and without touching the document exactly when no path of the document
    has more than one contour-close marker; the splitting loop is not
    entered then, whatever its fuel. *)
Theorem single_contours_pass_silently {regex : SvgPathRegex}
    (fuel : nat) (root : Dom.QDomElement) (displayMessageBoxes : bool) :
  Contours.singleContours root
  ↔ Contours.dealWithMultipleContours fuel root displayMessageBoxes
    = Returns (false, root, []).
Proof.
  unfold Contours.dealWithMultipleContours. split.
  - intros Hsingle. by rewrite checkContours_single.
  - destruct (Contours.checkContours root _ false true)
      as [multipleContours contoursOK] eqn:Hcheck.
    destruct multipleContours; simpl.
    + destruct contoursOK; simpl; [|done].
      by destruct (Contours.splitContours fuel 0 root).
    + intros _. unfold Contours.singleContours.
      apply checkContours_none_found. by rewrite Hcheck.
Qed.

(** ** How often the image is rendered *)

Section RetryCount.
Import RasterFallback.
Context {QImage : Type} (imageToHash : QImage → string) (render : nat → QImage).

(** The first rendering is never a repeat: the loop goes on to a second. *)
Lemma retryLoop_second fuel :
  retryLoop QImage imageToHash render (S fuel) (initialState QImage)
  = retryLoop QImage imageToHash render fuel
      {| hashMap := {[ imageToHash (render 0) := render 0 ]}; counter := 1;
         hash := imageToHash (render 0); renders := 1 |}.
Proof.
  cbn [retryLoop initialState hashMap renders counter].
  rewrite decide_False; [done|]. rewrite lookup_empty. by intros [image Himage].
Qed.

Lemma retryLoop_renders fuel :
  ∀ st st', retryLoop QImage imageToHash render fuel st = Some st' →
            renders _ st < renders _ st'.
Proof.
  induction fuel as [|fuel IH]; intros st st'; [done|]. cbn [retryLoop].
  case_decide; [intros [= <-]; simpl; lia|].
  destruct (5 <=? counter _ st); [intros [= <-]; simpl; lia|].
  intros Hrest%IH. simpl in Hrest. lia.
Qed.

End RetryCount.

(** X19: the retry loop never stops after one rendering, since the
    hash table is empty when the first image comes: the image is rendered
    at least twice.  When the second rendering has the hash of the first,
    the loop stops there and hands on the first image. *)
Theorem stable_image_is_rendered_twice {QImage : Type} (nullImage : QImage)
    (imageToHash : QImage → string) (render : nat → QImage) :
  (∀ fuel image n,
     RasterFallback.renderUntilRepeat QImage nullImage imageToHash render fuel
     = Some (image, n) → 2 ≤ n)
  ∧ (imageToHash (render 1) = imageToHash (render 0) →
     ∀ fuel, 2 ≤ fuel →
       RasterFallback.renderUntilRepeat QImage nullImage imageToHash render fuel
       = Some (render 0, 2)).
Proof.
  split.
  - intros [|fuel] image n; [done|]. unfold RasterFallback.renderUntilRepeat.
    rewrite retryLoop_second.
    destruct (RasterFallback.retryLoop _ _ _ fuel _) as [st|] eqn:Hloop; [|done].
    apply retryLoop_renders in Hloop. simpl in Hloop. simpl. intros [= _ <-]. lia.
  - intros Hsame [|[|fuel]] Hfuel; [lia..|].
    unfold RasterFallback.renderUntilRepeat. rewrite retryLoop_second.
    cbn [RasterFallback.retryLoop RasterFallback.hashMap RasterFallback.renders].
    rewrite Hsame, decide_True by (rewrite lookup_singleton_eq; by eexists).
    simpl. by rewrite lookup_singleton_eq.
Qed.

(** ** The files and the message boxes of an export *)

Section ExportFilesFacts.
Import QStr Connectors Pipeline ExportFiles.
Context {graphics : GraphicsUtils} {collaborators : Collaborators}.
Variable clipToBoardResult :
  string → Board → string → ForWhy → string → bool → TreatAsCircle → string * list Display.
Variable cleanOutline : string → string.
Variables (prefix exportDir : string) (board : Board) (displayMessageBoxes : bool).

Local Abbreviation clipToBoard := (Pipeline.clipToBoard clipToBoardResult).

Local Abbreviation atMost := (ExportFiles.atMost prefix exportDir).

Lemma writtenFiles_bind {A B} (m : Traced A) (k : A → Traced B) :
  writtenFiles (m ≫= k).2 = (writtenFiles m.2 ++ writtenFiles (k m.1).2)%list.
Proof. unfold writtenFiles. by rewrite events_bind, omap_app. Qed.

Lemma writtenFiles_renderTo layers hidden :
  writtenFiles (renderTo layers board hidden).2 = [].
Proof. done. Qed.

Lemma writtenFiles_displayMessage message :
  writtenFiles (displayMessage message displayMessageBoxes).2 = [].
Proof. done. Qed.

Lemma writtenFiles_clipToBoard svg layerName forWhy clipString treatAsCircle :
  writtenFiles
    (clipToBoard svg board layerName forWhy clipString displayMessageBoxes treatAsCircle).2
  = [].
Proof.
  unfold Pipeline.clipToBoard. destruct (clipToBoardResult _ _ _ _ _ _ _) as [svg' displays].
  simpl. unfold writtenFiles. by induction displays.
Qed.

Lemma atMost_saveEnd layerName suffix gerber :
  atMost suffix
    (writtenFiles (saveEnd layerName exportDir prefix suffix displayMessageBoxes gerber).2).
Proof.
  unfold saveEnd, ExportFiles.atMost, outputFile.
  destruct (canOpen _) eqn:Hopen; simpl; [by right | by left].
Qed.

Lemma atMost_doEnd svg layers layerName forWhy svgSize suffix :
  atMost suffix
    (writtenFiles (doEnd svg layers layerName forWhy svgSize exportDir prefix suffix
                         displayMessageBoxes).2).
Proof.
  unfold doEnd. destruct (convert _ _ _ _ _) as [invalidCount gerber].
  rewrite writtenFiles_bind. simpl. rewrite app_nil_r. apply atMost_saveEnd.
Qed.

Lemma atMost_nil suffix : atMost suffix [].
Proof. by left. Qed.

Ltac files :=
  repeat first
    [ rewrite writtenFiles_bind
    | rewrite writtenFiles_renderTo
    | rewrite writtenFiles_displayMessage
    | rewrite writtenFiles_clipToBoard
    | rewrite app_nil_r
    | apply atMost_doEnd
    | apply atMost_nil
    | progress cbn [app mret Traced_ret snd writtenFiles omap]
    | match goal with
      | |- context [if ?b then _ else _] => destruct b
      | |- context [match ?x with (_, _) => _ end] => destruct x
      end ].

Lemma atMost_doCopper ids name suffix :
  atMost suffix
    (writtenFiles (doCopper clipToBoardResult board ids name suffix prefix exportDir
                            displayMessageBoxes).2).
Proof. unfold doCopper. files. Qed.

Lemma atMost_doSilk ids name suffix clipString :
  atMost suffix
    (writtenFiles (doSilk clipToBoardResult ids name suffix board prefix exportDir
                          displayMessageBoxes clipString).2).
Proof. unfold doSilk. files. Qed.

Lemma atMost_doDrill :
  atMost DrillSuffix
    (writtenFiles (doDrill clipToBoardResult board prefix exportDir displayMessageBoxes).2).
Proof. unfold doDrill. files. Qed.

Lemma atMost_doMask ids name suffix clipString :
  atMost suffix
    (writtenFiles (doMask clipToBoardResult ids name suffix board prefix exportDir
                          displayMessageBoxes clipString).2).
Proof. unfold doMask. files. Qed.

Lemma atMost_doPasteMask ids name suffix :
  atMost suffix
    (writtenFiles (doPasteMask clipToBoardResult ids name suffix board prefix exportDir
                               displayMessageBoxes).2).
Proof. unfold doPasteMask. files. Qed.

Lemma atMost_exportPickAndPlace :
  atMost PickAndPlaceSuffix
    (writtenFiles (exportPickAndPlace prefix exportDir board displayMessageBoxes).2).
Proof.
  unfold exportPickAndPlace, ExportFiles.atMost, outputFile.
  destruct (canOpen _) eqn:Hopen; simpl; [by right | by left].
Qed.

Lemma writtenFiles_reportInvalid outline silk copper mask paste :
  writtenFiles (reportInvalid outline silk copper mask paste displayMessageBoxes).2 = [].
Proof. unfold reportInvalid. by destruct (_ || _). Qed.

Local Abbreviation inOrder := (ExportFiles.inOrder prefix exportDir).

Lemma inOrder_nil among : inOrder among [].
Proof. split; [apply sublist_nil_l | constructor]. Qed.

Lemma inOrder_bind {A B} suffix among (m : Traced A) (k : A → Traced B) :
  atMost suffix (writtenFiles m.2) → (∀ a, inOrder among (writtenFiles (k a).2)) →
  inOrder (suffix :: among) (writtenFiles (m ≫= k).2).
Proof.
  intros Hm Hk. rewrite writtenFiles_bind. destruct (Hk m.1) as [Hsub Hopen].
  destruct Hm as [->|[-> Hfile]]; split; simpl.
  - by apply sublist_cons.
  - done.
  - by apply sublist_skip.
  - by constructor.
Qed.

Lemma inOrder_exportBoard :
  inOrder suffixes
    (writtenFiles (exportBoard clipToBoardResult cleanOutline prefix exportDir board
                               displayMessageBoxes).2).
Proof.
  unfold exportBoard, suffixes.
  apply inOrder_bind; [apply atMost_exportPickAndPlace | intros _].
  apply inOrder_bind; [apply atMost_doCopper | intros copperInvalidCount].
  apply inOrder_bind; [files; apply atMost_doCopper | intros copperInvalidCount0].
  apply inOrder_bind; [apply atMost_doMask | intros [maskInvalidCount maskBottom]].
  apply inOrder_bind; [files; apply atMost_doMask | intros [maskInvalidCount0 maskTop]].
  apply inOrder_bind; [apply atMost_doPasteMask | intros pasteMaskInvalidCount].
  apply inOrder_bind; [files; apply atMost_doPasteMask | intros pasteMaskInvalidCount0].
  apply inOrder_bind; [apply atMost_doSilk | intros silkInvalidCount].
  apply inOrder_bind; [apply atMost_doSilk | intros more].
  rewrite writtenFiles_bind, writtenFiles_renderTo. cbn [app].
  destruct (renderTo _ _ _).1 as [svgOutline empty].
  destruct (empty || isEmpty svgOutline); [apply inOrder_nil|].
  rewrite writtenFiles_bind, writtenFiles_clipToBoard. cbn [app].
  destruct (convert _ _ _ _ _) as [outlineInvalidCount outlineGerber].
  apply inOrder_bind; [apply atMost_saveEnd | intros _].
  apply inOrder_bind; [apply atMost_doDrill | intros _].
  rewrite writtenFiles_reportInvalid. apply inOrder_nil.
Qed.

Lemma NoDup_outputFiles : NoDup (outputFiles prefix exportDir).
Proof.
  unfold outputFiles. apply NoDup_fmap_2.
  - intros suffix suffix' Heq. unfold outputFile in Heq. by do 3 apply String.app_inj in Heq.
  - apply (bool_decide_unpack (NoDup suffixes)). vm_compute. exact I.
Qed.

End ExportFilesFacts.

(** X20: the files an export writes are among the eleven output
    files, in the order pick-and-place, bottom and top copper, bottom and
    top mask, bottom and top paste mask, top and bottom silkscreen, contour,
    drill; no file is written twice, and none that could not be opened for
    writing.  Without a board nothing is written. *)
Theorem files_are_written_once_in_order {graphics : GraphicsUtils}
    {collaborators : Pipeline.Collaborators}
    (clipToBoardResult : string → Pipeline.Board → string → ForWhy → string → bool →
                         Connectors.TreatAsCircle → string * list Display)
    (cleanOutline : string → string) (prefix exportDir : string)
    (board : option Pipeline.Board) (displayMessageBoxes : bool) :
  let files :=
    ExportFiles.writtenFiles
      (Pipeline.exportToGerber clipToBoardResult cleanOutline prefix exportDir board
                               displayMessageBoxes).2 in
  files `sublist_of` ExportFiles.outputFiles prefix exportDir
  ∧ NoDup files
  ∧ Forall (λ outname, Pipeline.canOpen outname = true) files
  ∧ (board = None → Pipeline.findSelectedBoard.1 = None → files = []).
Proof.
  intros files.
  assert (ExportFiles.inOrder prefix exportDir ExportFiles.suffixes files) as [Hsub Hopen].
  { unfold files, Pipeline.exportToGerber. destruct board as [board|].
    - apply inOrder_exportBoard.
    - destruct Pipeline.findSelectedBoard as [[board|] boardCount];
        destruct (bool_decide _); try apply inOrder_nil; apply inOrder_exportBoard. }
  split_and!; [exact Hsub | | exact Hopen |].
  - eapply sublist_NoDup; [apply NoDup_outputFiles | exact Hsub].
  - intros -> Hnone. unfold files, Pipeline.exportToGerber.
    destruct Pipeline.findSelectedBoard as [[board|] boardCount]; [done|].
    by destruct (bool_decide _).
Qed.

Section SilentExport.
Import QStr Connectors Pipeline ExportFiles.
Context {graphics : GraphicsUtils} {collaborators : Collaborators}.
Variable clipToBoardResult :
  string → Board → string → ForWhy → string → bool → TreatAsCircle → string * list Display.
Variable cleanOutline : string → string.
Variables (prefix exportDir : string) (board : Board).
Hypothesis silentClipper :
  ∀ svg layerName forWhy clipString treatAsCircle message,
    MessageBox message
      ∉ (clipToBoardResult svg board layerName forWhy clipString false treatAsCircle).2.

Local Abbreviation clipToBoard := (Pipeline.clipToBoard clipToBoardResult).

Lemma messageBoxes_bind {A B} (m : Traced A) (k : A → Traced B) :
  messageBoxes (m ≫= k).2 = (messageBoxes m.2 ++ messageBoxes (k m.1).2)%list.
Proof. unfold messageBoxes. by rewrite events_bind, omap_app. Qed.

Lemma messageBoxes_clipToBoard svg layerName forWhy clipString treatAsCircle :
  messageBoxes (clipToBoard svg board layerName forWhy clipString false treatAsCircle).2
  = [].
Proof.
  unfold Pipeline.clipToBoard.
  pose proof (silentClipper svg layerName forWhy clipString treatAsCircle) as Hsilent.
  destruct (clipToBoardResult _ _ _ _ _ _ _) as [svg' displays]. simpl in *.
  unfold messageBoxes. induction displays as [|[message|message] displays IH]; simpl.
  - done.
  - destruct (Hsilent message). by left.
  - apply IH. intros message' Hin. apply (Hsilent message'). by right.
Qed.

Lemma messageBoxes_reportInvalid outline silk copper mask paste :
  messageBoxes (reportInvalid outline silk copper mask paste false).2 = [].
Proof. unfold reportInvalid. by destruct (_ || _). Qed.

Ltac boxes :=
  repeat first
    [ rewrite messageBoxes_bind
    | rewrite messageBoxes_clipToBoard
    | rewrite messageBoxes_reportInvalid
    | progress cbn [app mret Traced_ret snd messageBoxes omap renderTo emit displayMessage
                    displayed Diagnostics.displayMessage]
    | reflexivity
    | match goal with
      | |- context [if ?b then _ else _] => destruct b
      | |- context [match ?x with (_, _) => _ end] => destruct x
      end ].

Lemma messageBoxes_doEnd svg layers layerName forWhy svgSize suffix :
  messageBoxes (doEnd svg layers layerName forWhy svgSize exportDir prefix suffix false).2
  = [].
Proof. unfold doEnd, saveEnd. boxes. Qed.

Lemma messageBoxes_doCopper ids name suffix :
  messageBoxes (doCopper clipToBoardResult board ids name suffix prefix exportDir false).2
  = [].
Proof. unfold doCopper. boxes; apply messageBoxes_doEnd. Qed.

Lemma messageBoxes_doSilk ids name suffix clipString :
  messageBoxes (doSilk clipToBoardResult ids name suffix board prefix exportDir false
                       clipString).2 = [].
Proof. unfold doSilk. boxes; apply messageBoxes_doEnd. Qed.

Lemma messageBoxes_doDrill :
  messageBoxes (doDrill clipToBoardResult board prefix exportDir false).2 = [].
Proof. unfold doDrill. boxes; apply messageBoxes_doEnd. Qed.

Lemma messageBoxes_doMask ids name suffix clipString :
  messageBoxes (doMask clipToBoardResult ids name suffix board prefix exportDir false
                       clipString).2 = [].
Proof. unfold doMask. boxes; rewrite messageBoxes_doEnd; boxes. Qed.

Lemma messageBoxes_doPasteMask ids name suffix :
  messageBoxes (doPasteMask clipToBoardResult ids name suffix board prefix exportDir false).2
  = [].
Proof. unfold doPasteMask. boxes; apply messageBoxes_doEnd. Qed.

Lemma messageBoxes_exportBoard :
  messageBoxes (exportBoard clipToBoardResult cleanOutline prefix exportDir board false).2
  = [].
Proof.
  unfold exportBoard, exportPickAndPlace, saveEnd.
  repeat first
    [ rewrite messageBoxes_bind
    | rewrite messageBoxes_doCopper | rewrite messageBoxes_doMask
    | rewrite messageBoxes_doPasteMask | rewrite messageBoxes_doSilk
    | rewrite messageBoxes_doDrill
    | rewrite messageBoxes_clipToBoard
    | rewrite messageBoxes_reportInvalid
    | progress cbn [app mret Traced_ret snd messageBoxes omap renderTo emit displayMessage
                    displayed Diagnostics.displayMessage]
    | reflexivity
    | match goal with
      | |- context [if ?b then _ else _] => destruct b
      | |- context [match ?x with (_, _) => _ end] => destruct x
      end ].
Qed.

End SilentExport.

(** X21: with [displayMessageBoxes] off (the conversion runs as a
    service) an export opens no message box, whatever fails: every message
    of the pipeline goes to the debug log, provided the clipper, which is
    handed the same flag, opens none either. *)
Theorem silent_export_opens_no_message_box {graphics : GraphicsUtils}
    {collaborators : Pipeline.Collaborators}
    (clipToBoardResult : string → Pipeline.Board → string → ForWhy → string → bool →
                         Connectors.TreatAsCircle → string * list Display)
    (cleanOutline : string → string) (prefix exportDir : string)
    (board : Pipeline.Board) (display : Display) :
  (∀ svg layerName forWhy clipString treatAsCircle message,
     MessageBox message
       ∉ (clipToBoardResult svg board layerName forWhy clipString false treatAsCircle).2) →
  Pipeline.Displayed display
    ∈ (Pipeline.exportToGerber clipToBoardResult cleanOutline prefix exportDir (Some board)
                               false).2 →
  ∃ message, display = DebugLog message.
Proof.
  intros Hsilent Hin. destruct display as [message|message]; [|by eexists].
  assert (message ∈ ExportFiles.messageBoxes
                      (Pipeline.exportToGerber clipToBoardResult cleanOutline prefix
                                               exportDir (Some board) false).2) as Hbox.
  { unfold ExportFiles.messageBoxes. apply list_elem_of_omap. by eexists _. }
  cbn [Pipeline.exportToGerber] in Hbox.
  rewrite messageBoxes_exportBoard in Hbox by done. by apply elem_of_nil in Hbox.
Qed.

Lemma silent_export_opens_no_message_box_witness :
  ∃ message, DebugLog "outline is empty" = DebugLog message.
Proof.
  apply (silent_export_opens_no_message_box (graphics := Sample.fritzingDPI)
           (collaborators := Sample.bareBoard) Sample.passThrough id "demo" "out" ()).
  - intros svg layerName forWhy clipString treatAsCircle message Hin.
    by apply elem_of_nil in Hin.
  - match goal with |- ?membership => apply (bool_decide_unpack membership) end.
    vm_compute. exact I.
Defined.

(** ** Paths under a scaling transform *)

Section ScaledPathFacts.
Import QStr Dom Cleaner.
Variable isScaling : string → bool.

Local Abbreviation scaledInAncestry := (Cleaner.scaledInAncestry isScaling).

(** Squashing keeps every attribute, so also the transforms the walk up
    the ancestry looks at. *)
Lemma scaledInAncestry_squashAll nodes root a :
  scaledInAncestry (squashAll nodes root) a = scaledInAncestry root a.
Proof.
  unfold Cleaner.scaledInAncestry.
  induction (ancestry a) as [|p ps IH]; simpl; [done|]. rewrite IH. f_equal.
  pose proof (attrsAt_squashAll nodes root p) as Hattrs. unfold attrsAt in Hattrs.
  destruct (nodeAt (squashAll nodes root) p), (nodeAt root p); csimpl in *;
    [injection Hattrs as -> | done..].
  done.
Qed.

End ScaledPathFacts.

(** X22: after the pass of lines 470-487 no path element is left
    under a scaling transform: the paths with a scaling transform on
    themselves or on an ancestor are retagged to "g", and only those; no
    attribute changes, and [anyConverted] is set when there was such a
    path and kept otherwise. *)
Theorem squashScaledPaths_leaves_no_scaled_path (isScaling : string → bool)
    (root : Dom.QDomElement) (anyConverted : bool) :
  let st := Cleaner.squashScaledPaths isScaling (root, anyConverted) in
  let scaled a := a ∈ Dom.elementsByTagName root "path"
                  ∧ Cleaner.scaledInAncestry isScaling root a = true in
  (∀ a, a ∈ Dom.elementsByTagName st.1 "path" →
        Cleaner.scaledInAncestry isScaling st.1 a = false)
  ∧ (∀ a, Dom.tagAt st.1 a = if decide (scaled a) then Some "g" else Dom.tagAt root a)
  ∧ (∀ a, Dom.attrsAt st.1 a = Dom.attrsAt root a)
  ∧ (st.2 = true ↔ anyConverted = true ∨ ∃ a, scaled a).
Proof.
  intros st scaled. unfold st, Cleaner.squashScaledPaths. cbn [fst snd].
  set (hits := filter _ _).
  assert (∀ a, a ∈ hits ↔ scaled a) as Hhits.
  { intros a. unfold hits, scaled. rewrite list_elem_of_filter. tauto. }
  assert (∀ a, Dom.tagAt (Dom.squashAll hits root) a
               = if decide (scaled a) then Some "g" else Dom.tagAt root a) as Htags.
  { intros a. rewrite tagAt_squashAll.
    destruct (decide (a ∈ hits)) as [Hin|Hout].
    - rewrite decide_True by by apply Hhits.
      apply Hhits in Hin as [(_ & e & Hnode & _)%elem_of_elementsByTagName _].
      unfold Dom.tagAt. by rewrite Hnode.
    - rewrite decide_False; [done|]. by rewrite <- Hhits. }
  split_and!.
  - intros a (Hroot & e & Hnode & Htag)%elem_of_elementsByTagName.
    rewrite scaledInAncestry_squashAll. apply not_true_is_false. intros Hscaled.
    pose proof (Htags a) as Ha. unfold Dom.tagAt at 1 in Ha. rewrite Hnode in Ha.
    simpl in Ha. rewrite Htag in Ha.
    destruct (decide (scaled a)) as [_|Hnot]; [done|]. apply Hnot. split; [|done].
    apply elem_of_elementsByTagName. split; [done|].
    unfold Dom.tagAt in Ha. destruct (Dom.nodeAt root a) as [e'|]; [|done].
    exists e'. split; [done|]. simpl in Ha. congruence.
  - done.
  - intros a. apply attrsAt_squashAll.
  - case_bool_decide as Hnone.
    + split; [by left|]. intros [Hset|[a Ha%Hhits]]; [done|].
      rewrite Hnone in Ha. by apply elem_of_nil in Ha.
    + split; [|done]. intros _. right. destruct hits as [|a rest] eqn:Hlist; [done|].
      exists a. apply Hhits. by left.
Qed.

(** ** The holes that phase A finds *)

Section PossibleHolesFacts.
Import QStr Geometry Clipper PossibleHoles.
Context {graphics : GraphicsUtils} {rounding : DoubleRounding}.
Variable intNumber : Z → string.
Variable QTransform : Type.
Variable boundsOnElement : QDomDocument → string → QRectF.
Variable transformForElement : QDomDocument → string → QTransform.
Variable mapRect : QTransform → QRectF → QRectF.
Variables (rendered : QDomDocument) (sourceRes : QRectF) (leaves1 : list Handle).

Local Abbreviation clipLeaf :=
  (Clipper.clipLeaf intNumber QTransform boundsOnElement transformForElement mapRect
                    rendered sourceRes leaves1).
Local Abbreviation passes :=
  (PossibleHoles.passes intNumber QTransform boundsOnElement transformForElement mapRect
                        rendered sourceRes).
Local Abbreviation clippedAt :=
  (PossibleHoles.clippedAt intNumber QTransform boundsOnElement transformForElement mapRect
                           rendered sourceRes leaves1).
Local Abbreviation holesInvariant :=
  (PossibleHoles.holesInvariant intNumber QTransform boundsOnElement transformForElement
                                mapRect rendered sourceRes leaves1).

Lemma tagOf_setTagName element t doc other :
  tagOf (setTagName element t doc) other
  = if decide (element = other ∧ is_Some (doc !! other)) then t else tagOf doc other.
Proof.
  unfold tagOf. rewrite lookup_setTagName.
  destruct (decide (element = other)) as [->|Hne].
  - destruct (doc !! other) as [node|]; simpl.
    + rewrite decide_True; [done|]. split; [done | by eexists].
    + rewrite decide_False; [done|]. by intros [_ [node Hnode]].
  - rewrite decide_False; [done|]. by intros [Heq _].
Qed.

Lemma tagOf_present doc element t : tagOf doc element = t → t ≠ "" → is_Some (doc !! element).
Proof. unfold tagOf. destruct (doc !! element); [by eexists | by intros <-]. Qed.

Lemma clippedAt_snoc indices i element :
  clippedAt (indices ++ [i]) element
  ↔ clippedAt indices element ∨ (leaves1 !! i = Some element ∧ passes i = true).
Proof.
  unfold PossibleHoles.clippedAt. split.
  - intros (j & [Hj|Hj%list_elem_of_singleton]%elem_of_app & Hleaf & Hout);
      [left | subst j; right]; eauto.
  - intros [(j & Hj & Hleaf & Hout)|[Hleaf Hout]].
    + exists j. rewrite elem_of_app. eauto.
    + exists i. rewrite elem_of_app, list_elem_of_singleton. eauto.
Qed.

Lemma holesInvariant_step doc indices st i :
  holesInvariant doc indices st → holesInvariant doc (indices ++ [i]) (clipLeaf st i).
Proof.
  intros (Hdom & Htags & Hsquashed & Hholes & Hnodup & Hany).
  unfold Clipper.clipLeaf. fold (passes i).
  destruct (leaves1 !! i) as [leaf|] eqn:Hleaf;
    [destruct (passes i) eqn:Hout|].
  - assert (∀ element, clippedAt (indices ++ [i]) element
                       ↔ clippedAt indices element ∨ leaf = element) as Hsnoc.
    { intros element. rewrite clippedAt_snoc, Hleaf. split.
      - intros [Hclipped|[[= ->] _]]; [by left | by right].
      - intros [Hclipped| <-]; [by left | by right]. }
    split_and!; cbn [document possibleHoles anyClipped].
    + intros element. rewrite lookup_setTagName. case_decide; [|done].
      rewrite <- Hdom. by rewrite fmap_is_Some.
    + intros element. rewrite tagOf_setTagName, Hsnoc. case_decide as Hhit.
      * right. split; [done|]. right. apply Hhit.
      * destruct (Htags element) as [Hsame|[Hg Hclipped]]; [by left|]. right. auto.
    + intros element [Hclipped|<-]%Hsnoc Hpresent; rewrite tagOf_setTagName.
      * case_decide; [done|]. by apply Hsquashed.
      * rewrite decide_True; [done|]. split; [done|]. by apply Hdom.
    + intros element. rewrite Hsnoc. case_bool_decide as Hcircle.
      * assert (tagOf doc leaf = "circle") as Hwas.
        { destruct (Htags leaf) as [<-|[Hg _]]; [done | congruence]. }
        rewrite elem_of_app, list_elem_of_singleton, Hholes. split.
        -- intros [[Hclipped Htag]| ->]; (split; [|done]); [by left | by right].
        -- intros [[Hclipped| <-] Htag]; [left | right]; done.
      * rewrite Hholes. split; [intros [Hclipped Htag]; split; [by left | done]|].
        intros [[Hclipped| <-] Hwas]; [done|]. split; [|done].
        destruct (Htags leaf) as [Hsame|[_ Hclipped]]; [congruence | done].
    + case_bool_decide as Hcircle; [|done]. apply NoDup_app. split_and!; [done | | ].
      * intros element Hin Heq%list_elem_of_singleton. subst element.
        apply Hholes in Hin as [Hclipped Hwas].
        rewrite Hsquashed in Hcircle; [done | done |].
        by apply (tagOf_present _ _ "circle").
      * apply NoDup_singleton.
    + split; [|done]. intros _. exists leaf. apply Hsnoc. by right.
  - assert (∀ element, clippedAt (indices ++ [i]) element ↔ clippedAt indices element)
      as Hsnoc.
    { intros element. rewrite clippedAt_snoc, Hleaf. split; [|by left].
      intros [Hclipped|[_ Hpasses]]; [done | congruence]. }
    split_and!; [done | | | | done |].
    + intros element. rewrite Hsnoc. apply Htags.
    + intros element Hclipped%Hsnoc. by apply Hsquashed.
    + intros element. by rewrite Hsnoc.
    + rewrite Hany. split; intros [element Hclipped]; exists element; by apply Hsnoc.
  - assert (∀ element, clippedAt (indices ++ [i]) element ↔ clippedAt indices element)
      as Hsnoc.
    { intros element. rewrite clippedAt_snoc, Hleaf. split; [|by left].
      intros [Hclipped|[[=] _]]. done. }
    split_and!; [done | | | | done |].
    + intros element. rewrite Hsnoc. apply Htags.
    + intros element Hclipped%Hsnoc. by apply Hsquashed.
    + intros element. by rewrite Hsnoc.
    + rewrite Hany. split; intros [element Hclipped]; exists element; by apply Hsnoc.
Qed.

Lemma holesInvariant_fold doc st indices :
  holesInvariant doc [] st →
  holesInvariant doc indices (foldl clipLeaf st indices).
Proof.
  intros Hstart. induction indices as [|i indices IH] using rev_ind; [done|].
  rewrite foldl_app. by apply holesInvariant_step.
Qed.

End PossibleHolesFacts.

(** X23: after clip phase A on a layer other than the outline, the
    possible holes are the leaves that were circles and passed the bounds
    test, each once; [anyClipped] is set exactly when some leaf passed the
    test; every node is still there, with the tag it had or the tag "g".
    On the outline phase A finds no holes and changes nothing. *)
Theorem phaseA_finds_the_clipped_circles {graphics : GraphicsUtils} {rounding : DoubleRounding} (intNumber : Z → string)
    (QTransform : Type)
    (boundsOnElement : Clipper.QDomDocument → string → Geometry.QRectF)
    (transformForElement : Clipper.QDomDocument → string → QTransform)
    (mapRect : QTransform → Geometry.QRectF → Geometry.QRectF)
    (forWhy : ForWhy) (boardRect : Geometry.QRectF) (leaves1 : list Clipper.Handle)
    (transformCount1 : nat) (anyConverted : bool) (domDocument1 : Clipper.QDomDocument) :
  let st := Clipper.clipPhaseA intNumber QTransform boundsOnElement transformForElement
                               mapRect forWhy boardRect leaves1 transformCount1
                               anyConverted domDocument1 in
  let clipped element :=
    ∃ i, i < transformCount1 ∧ leaves1 !! i = Some element
         ∧ Clipper.outside
             (Clipper.mappedBounds QTransform boundsOnElement transformForElement mapRect
                                   domDocument1 (intNumber (Z.of_nat i)))
             (Clipper.sourceResOf boardRect) = true in
  (∀ element, element ∈ Clipper.possibleHoles st
              ↔ forWhy ≠ ForOutline ∧ clipped element
                ∧ Clipper.tagOf domDocument1 element = "circle")
  ∧ NoDup (Clipper.possibleHoles st)
  ∧ (Clipper.anyClipped st = true ↔ forWhy ≠ ForOutline ∧ ∃ element, clipped element)
  ∧ (∀ element,
       Clipper.tagOf (Clipper.document st) element = Clipper.tagOf domDocument1 element
       ∨ (Clipper.tagOf (Clipper.document st) element = "g" ∧ clipped element))
  ∧ (forWhy = ForOutline → Clipper.document st = domDocument1).
Proof.
  intros st clipped. unfold st, Clipper.clipPhaseA.
  destruct (decide (forWhy ≠ ForOutline)) as [Hwhy|Hwhy].
  - match goal with |- context [foldl _ ?st0 ?indices] =>
      destruct (holesInvariant_fold intNumber QTransform boundsOnElement transformForElement
                  mapRect domDocument1 (Clipper.sourceResOf boardRect) leaves1
                  domDocument1 st0 indices)
        as (_ & Htags & _ & Hholes & Hnodup & Hany) end.
    { split_and!; cbn [Clipper.document Clipper.possibleHoles Clipper.anyClipped].
      - done.
      - by left.
      - intros element (i & Hi%elem_of_nil & _). done.
      - intros element. split; [by intros ?%elem_of_nil|].
        intros [(i & Hi%elem_of_nil & _) _]. done.
      - constructor.
      - split; [done|]. intros (element & i & Hi%elem_of_nil & _). done. }
    assert (∀ element,
              PossibleHoles.clippedAt intNumber QTransform boundsOnElement
                transformForElement mapRect domDocument1 (Clipper.sourceResOf boardRect)
                leaves1 (seq 0 transformCount1) element ↔ clipped element) as Hclipped.
    { intros element. unfold PossibleHoles.clippedAt, clipped, PossibleHoles.passes.
      split; intros (i & Hi & Hrest); exists i; (split; [|done]);
        apply elem_of_seq in Hi || apply elem_of_seq; lia. }
    split_and!.
    + intros element. rewrite Hholes, Hclipped. split; [by intros [? ?] | by intros (_ & ? & ?)].
    + done.
    + rewrite Hany. split.
      * intros [element Hin%Hclipped]. split; [done | by exists element].
      * intros [_ [element Hin%Hclipped]]. by exists element.
    + intros element. rewrite <- Hclipped. apply Htags.
    + done.
  - cbn [Clipper.document Clipper.possibleHoles Clipper.anyClipped]. split_and!.
    + intros element. split; [by intros ?%elem_of_nil | by intros [? _]].
    + constructor.
    + split; [done | by intros [? _]].
    + by left.
    + done.
Qed.

(** ** What the loops over the holes leave alone *)

Section HoleFrame.
Import Geometry Clipper.
Context {numbers : QtNumbers} {graphics : GraphicsUtils} {rounding : DoubleRounding}.
Variable intNumber : Z → string.
Variable QTransform : Type.
Variable boundsOnElement : QDomDocument → string → QRectF.
Variable transformForElement : QDomDocument → string → QTransform.
Variable mapRect : QTransform → QRectF → QRectF.
Variable rendered : QDomDocument.
Variable sourceRes : QRectF.

Local Abbreviation insetHole := (Clipper.insetHole intNumber).
Local Abbreviation retestHole :=
  (Clipper.retestHole intNumber QTransform boundsOnElement transformForElement mapRect
                      rendered sourceRes).

Lemma tagOf_alter (f : QDomNode → QDomNode) other (doc : QDomDocument) element :
  (∀ node, tagName (f node) = tagName node) →
  tagOf (alter f other doc) element = tagOf doc element.
Proof.
  intros Hf. unfold tagOf. destruct (decide (other = element)) as [->|Hne].
  - rewrite lookup_alter_eq. destruct (doc !! element); simpl; [apply Hf | done].
  - by rewrite lookup_alter_ne.
Qed.

Lemma tagOf_removeFromParent newElement doc element :
  tagOf (removeFromParent newElement doc) element = tagOf doc element.
Proof.
  unfold removeFromParent. destruct (doc !! newElement ≫= parentNode) as [parent|]; [|done].
  destruct (doc !! parent); [|done]. unfold setParent, setChildren.
  by rewrite !tagOf_alter.
Qed.

Lemma tagOf_retestHole doc newHoles i element :
  tagOf (retestHole (doc, newHoles) i).1 element = tagOf doc element.
Proof.
  unfold Clipper.retestHole. destruct (newHoles !! i) as [newElement|]; [|done].
  destruct (outside _ _); cbn [fst].
  - apply tagOf_removeFromParent.
  - unfold setAttribute. by rewrite !tagOf_alter.
Qed.

(** The second loop, whatever turns it takes: no tag changes, the holes
    that are kept are among the clones, in their order, and a node that is
    not a clone keeps its tag, attributes and parent. *)
Lemma retest_frame indices :
  ∀ doc newHoles,
    let st' := foldl retestHole (doc, newHoles) indices in
    (∀ element, tagOf st'.1 element = tagOf doc element)
    ∧ st'.2 `sublist_of` newHoles
    ∧ (∀ element node, element ∉ newHoles → doc !! element = Some node →
         ∃ node', st'.1 !! element = Some node' ∧ sameShallow node node').
Proof.
  induction indices as [|i indices IH]; intros doc newHoles; cbn [foldl].
  - split_and!; [done | done |]. intros element node _ Hnode. exists node. by repeat split.
  - pose proof (retestHole_list intNumber QTransform boundsOnElement transformForElement
                  mapRect rendered sourceRes doc newHoles i) as Hlist.
    pose proof (tagOf_retestHole doc newHoles i) as Htag.
    assert (∀ element node, element ∉ newHoles → doc !! element = Some node →
              ∃ node', (retestHole (doc, newHoles) i).1 !! element = Some node'
                       ∧ sameShallow node node') as Hkeep.
    { intros element node Hout Hnode.
      destruct (newHoles !! i) as [newElement|] eqn:Hi.
      - destruct (retestHole_prunes intNumber QTransform boundsOnElement transformForElement
                    mapRect rendered sourceRes doc newHoles i newElement Hi element node)
          as (node' & Hnode' & Hsame & _); [|done|by exists node'].
        intros ->. apply Hout. by eapply list_elem_of_lookup_2.
      - unfold Clipper.retestHole. rewrite Hi. exists node. by repeat split. }
    destruct (retestHole (doc, newHoles) i) as [doc1 newHoles1].
    cbn [fst snd] in Hlist, Htag, Hkeep.
    assert (newHoles1 `sublist_of` newHoles) as Hsub
      by (destruct Hlist as [-> | ->]; [done | apply sublist_delete]).
    destruct (IH doc1 newHoles1) as (Htags' & Hsub' & Hkeep'). split_and!.
    + intros element. by rewrite Htags'.
    + by etrans.
    + intros element node Hout Hnode. destruct (Hkeep _ _ Hout Hnode) as (node1 & Hnode1 & Hsame1).
      destruct (Hkeep' element node1) as (node' & Hnode' & Hsame'); [|done|].
      * intros Hin. apply Hout. by eapply elem_of_sublist.
      * exists node'. split; [done|]. by eapply sameShallow_trans.
Qed.

Lemma tagOf_insetHole_new doc newHoles ix element :
  tagOf (insetHole (doc, newHoles, ix) element).1.1 (fresh (dom doc)) = "circle".
Proof.
  pose proof (insetHole_new intNumber doc newHoles ix element) as [node Hnode].
  revert Hnode. unfold Clipper.insetHole, cloneNode. cbn [fst snd]. intros Hnode.
  rewrite tagOf_setTagName, decide_True; [done|]. split; [done|].
  unfold setTagName in Hnode. rewrite <- lookup_alter_is_Some. by eexists.
Qed.

(** The first loop makes circles, as many as there are holes. *)
Lemma insetHoles_circles possibleHoles :
  ∀ doc newHoles ix,
    let st' := foldl insetHole (doc, newHoles, ix) possibleHoles in
    (∀ clone, clone ∈ newHoles → tagOf doc clone = "circle") →
    (∀ clone, clone ∈ st'.1.2 → tagOf st'.1.1 clone = "circle")
    ∧ length st'.1.2 = length newHoles + length possibleHoles.
Proof.
  induction possibleHoles as [|hole rest IH]; intros doc newHoles ix; cbn [foldl length].
  - intros Hcircles. split; [done | simpl; lia].
  - intros Hcircles.
    destruct (insetHole_state intNumber doc newHoles ix hole) as [doc1 Hstep].
    pose proof (insetHole_grows intNumber doc newHoles ix hole) as Hgrows.
    pose proof (tagOf_insetHole_new doc newHoles ix hole) as Hnew.
    rewrite Hstep in Hgrows, Hnew |- *. cbn [fst snd] in Hgrows, Hnew.
    destruct (IH doc1 (newHoles ++ [fresh (dom doc)]) (S ix)) as [Hall Hlength].
    + intros clone [Hold|Hin%list_elem_of_singleton]%elem_of_app; [|by subst].
      specialize (Hcircles clone Hold). unfold tagOf in *.
      destruct (doc !! clone) as [node|] eqn:Hnode; [|done].
      destruct (Hgrows _ _ Hnode) as (node' & -> & (Htag & _) & _). simpl in *. congruence.
    + split; [done|]. rewrite Hlength, length_app. simpl. lia.
Qed.

End HoleFrame.

(** X24: the loops of lines 557-593 leave the nodes of the document
    alone: each keeps its tag, its attributes and its parent.  The holes
    that are kept are new nodes, circles, each once, and no more than there
    were possible holes.  With no possible hole nothing is done. *)
Theorem keepHoles_leaves_the_document_alone {numbers : QtNumbers} {graphics : GraphicsUtils} {rounding : DoubleRounding}
    (intNumber : Z → string) (QTransform : Type)
    (boundsOnElement : Clipper.QDomDocument → string → Geometry.QRectF)
    (transformForElement : Clipper.QDomDocument → string → QTransform)
    (mapRect : QTransform → Geometry.QRectF → Geometry.QRectF)
    (boardRect : Geometry.QRectF) (doc : Clipper.QDomDocument)
    (possibleHoles : list Clipper.Handle) :
  let kept :=
    Clipper.keepHoles intNumber QTransform boundsOnElement transformForElement mapRect
                      boardRect doc possibleHoles in
  (∀ element node, doc !! element = Some node →
     ∃ node', kept.1 !! element = Some node' ∧ Clipper.sameShallow node node')
  ∧ (∀ newElement, newElement ∈ kept.2 →
       doc !! newElement = None ∧ Clipper.tagOf kept.1 newElement = "circle")
  ∧ NoDup kept.2
  ∧ length kept.2 ≤ length possibleHoles
  ∧ (possibleHoles = [] → kept = (doc, [])).
Proof.
  intros kept.
  destruct (insetHoles_fold intNumber possibleHoles doc [] 0)
    as (doc' & clones & Hfold & Hgrows & Hnodup & Hunused & _).
  destruct (insetHoles_circles intNumber possibleHoles doc [] 0) as [Hcircles Hlength].
  { by intros clone ?%elem_of_nil. }
  rewrite Hfold in Hcircles, Hlength. cbn [fst snd length] in Hcircles, Hlength.
  destruct (retest_frame intNumber QTransform boundsOnElement transformForElement mapRect
              doc' (Clipper.sourceResOf boardRect) (reverse (seq 0 (length clones)))
              doc' clones) as (Htags & Hsub & Hkeep).
  destruct (decide (possibleHoles = [])) as [->|Hholes].
  { unfold kept. simpl. split_and!; [|by intros ? ?%elem_of_nil | constructor | done..].
    intros element node Hnode. exists node. by repeat split. }
  assert (kept = foldl (Clipper.retestHole intNumber QTransform boundsOnElement
                          transformForElement mapRect doc' (Clipper.sourceResOf boardRect))
                       (doc', clones) (reverse (seq 0 (length clones)))) as ->.
  { unfold kept, Clipper.keepHoles.
    destruct possibleHoles as [|hole rest]; [done|].
    unfold Clipper.retestHoles, Clipper.insetHoles. by rewrite Hfold. }
  split_and!.
  - intros element node Hnode.
    destruct (Hgrows _ _ Hnode) as (node1 & Hnode1 & Hsame1 & _).
    destruct (Hkeep element node1) as (node' & Hnode' & Hsame'); [|done|].
    + intros Hin%Hunused. congruence.
    + exists node'. split; [done|]. by eapply sameShallow_trans.
  - intros newElement Hin. assert (newElement ∈ clones) as Hclone
      by by eapply elem_of_sublist.
    split; [by apply Hunused|]. rewrite Htags. by apply Hcircles.
  - by eapply sublist_NoDup.
  - apply sublist_length in Hsub. simpl in Hlength, Hsub. lia.
  - done.
Qed.

(** ** The consolidated diagnostic *)

(** X25: the diagnostic that ends an export (lines 151-160) is left
    out exactly when no outline, silkscreen or copper count is positive
    and the mask and paste mask counts are 0.  Otherwise one message is
    displayed, which names the layers with a positive count, in the order
    outline, silkscreen, copper, mask, paste mask, separated by ", " and
    with no separator at the end; a negative mask or paste mask count
    brings the message up without naming a layer for it. *)
Theorem invalid_layers_are_named {collaborators : Pipeline.Collaborators}
    (outlineInvalidCount silkInvalidCount copperInvalidCount maskInvalidCount
     pasteMaskInvalidCount : Z) (displayMessageBoxes : bool) :
  let events :=
    (Pipeline.reportInvalid outlineInvalidCount silkInvalidCount copperInvalidCount
                            maskInvalidCount pasteMaskInvalidCount displayMessageBoxes).2 in
  let quiet := (outlineInvalidCount ≤ 0 ∧ silkInvalidCount ≤ 0 ∧ copperInvalidCount ≤ 0
                ∧ maskInvalidCount = 0 ∧ pasteMaskInvalidCount = 0)%Z in
  let names :=
    (filter (λ layer, (0 < layer.1)%Z)
            [ (outlineInvalidCount, "the board outline layer");
              (silkInvalidCount, "silkscreen layer(s)");
              (copperInvalidCount, "copper layer(s)");
              (maskInvalidCount, "mask layer(s)");
              (pasteMaskInvalidCount, "paste mask layer(s)") ]).*2 in
  (quiet → events = [])
  ∧ (¬ quiet →
     events = [Pipeline.displayed displayMessageBoxes
                 ("Unable to translate svg curves in " +:+ String.concat ", " names)]).
Proof.
  intros events quiet names. unfold events, names, quiet, Pipeline.reportInvalid.
  rewrite !filter_cons, filter_nil. cbn [fst].
  repeat case_bool_decide; repeat case_decide; try lia;
    (split; [intros ?; try lia; try reflexivity | intros ?; try lia; try reflexivity]).
Qed.

Example invalid_outline_and_copper :
  (Pipeline.reportInvalid (collaborators := Sample.bareBoard) 1 0 2 0 0 false).2
  = [Pipeline.Displayed
       (DebugLog "Unable to translate svg curves in the board outline layer, copper layer(s)")].
Proof. vm_compute. reflexivity. Qed.
